(** * MicroExchange: the order book, its price levels and the engine facade

    A shallow embedding of [core/include/Order.h], [PriceLevel.h],
    [OrderBook.h] and [MatchingEngine.h].

    - Unsigned 64-bit quantities, ids and sequence numbers are [Z] with the
      wrap-around of every [+=], [-=] and [++] written out ([wrap64]); the
      32-bit [order_count_] wraps with [wrap32].  Prices are signed ticks.
    - [Order*] is an index into the arena; [nullptr] is [None].  The book
      never gives a slot back to the arena, so [allocate] always hands out
      the next unused slot.
    - [std::map<Price, PriceLevel>] and [std::unordered_map<OrderId, Order*>]
      are [gmap]s; [begin()] and [std::prev(end())] are the least and the
      greatest key.
    - The two callbacks are an event log; [now()] reads an external clock
      [clk], one reading per call. *)

From Stdlib Require Import ZArith Lia.
From stdpp Require Import base option list gmap strings sorting.

Open Scope Z_scope.

(** ** Scalars *)

Abbreviation Price := Z (only parsing).
Abbreviation Quantity := Z (only parsing).
Abbreviation OrderId := Z (only parsing).
Abbreviation SeqNum := Z (only parsing).
Abbreviation Timestamp := Z (only parsing).
Abbreviation ptr := nat (only parsing).

Definition wrap64 (z : Z) : Z := z mod 2 ^ 64.
Definition wrap32 (z : Z) : Z := z mod 2 ^ 32.

Definition PRICE_MARKET : Price := 0.

Inductive Side := Buy | Sell.
Inductive OrderType := Limit | Market | IOC | FOK.
Inductive TimeInForce := GTC | TifIOC | TifFOK | DAY.
Inductive OrderStatus :=
  New | PartiallyFilled | Filled | Cancelled | Rejected | Amended.

#[global] Instance Side_eq_dec : EqDecision Side.
Proof. solve_decision. Defined.
#[global] Instance OrderType_eq_dec : EqDecision OrderType.
Proof. solve_decision. Defined.
#[global] Instance TimeInForce_eq_dec : EqDecision TimeInForce.
Proof. solve_decision. Defined.
#[global] Instance OrderStatus_eq_dec : EqDecision OrderStatus.
Proof. solve_decision. Defined.

(** ** Order.h *)

Module Order.

Record t := mk {
  id : OrderId;
  sequence : SeqNum;
  side : Side;
  type : OrderType;
  tif : TimeInForce;
  price : Price;
  quantity : Quantity;
  filled_qty : Quantity;
  leaves_qty : Quantity;
  entry_time : Timestamp;
  last_update : Timestamp;
  status : OrderStatus;
  prev : option ptr;
  next : option ptr;
  symbol : string
}.

(** [Order{}]: every member at its default initialiser. *)
Definition init : t :=
  mk 0 0 Buy Limit GTC 0 0 0 0 0 0 New None None EmptyString.

Definition set_sequence (v : SeqNum) (o : t) : t :=
  let 'mk a _ c d e f g h i j k l m n s := o in mk a v c d e f g h i j k l m n s.
Definition set_price (v : Price) (o : t) : t :=
  let 'mk a b c d e _ g h i j k l m n s := o in mk a b c d e v g h i j k l m n s.
Definition set_quantity (v : Quantity) (o : t) : t :=
  let 'mk a b c d e f _ h i j k l m n s := o in mk a b c d e f v h i j k l m n s.
Definition set_filled_qty (v : Quantity) (o : t) : t :=
  let 'mk a b c d e f g _ i j k l m n s := o in mk a b c d e f g v i j k l m n s.
Definition set_leaves_qty (v : Quantity) (o : t) : t :=
  let 'mk a b c d e f g h _ j k l m n s := o in mk a b c d e f g h v j k l m n s.
Definition set_last_update (v : Timestamp) (o : t) : t :=
  let 'mk a b c d e f g h i j _ l m n s := o in mk a b c d e f g h i j v l m n s.
Definition set_status (v : OrderStatus) (o : t) : t :=
  let 'mk a b c d e f g h i j k _ m n s := o in mk a b c d e f g h i j k v m n s.
Definition set_prev (v : option ptr) (o : t) : t :=
  let 'mk a b c d e f g h i j k l _ n s := o in mk a b c d e f g h i j k l v n s.
Definition set_next (v : option ptr) (o : t) : t :=
  let 'mk a b c d e f g h i j k l m _ s := o in mk a b c d e f g h i j k l m v s.

Definition is_buy (o : t) : bool := bool_decide (side o = Buy).
Definition is_filled (o : t) : bool := bool_decide (leaves_qty o = 0).
Definition is_active (o : t) : bool :=
  bool_decide (status o = New) || bool_decide (status o = PartiallyFilled).

(** [fill(qty)]; [now] is the clock reading it stores. *)
Definition fill (qty : Quantity) (now : Timestamp) (o : t) : t :=
  let o := set_filled_qty (wrap64 (filled_qty o + qty)) o in
  let o := set_leaves_qty (wrap64 (leaves_qty o - qty)) o in
  let o := set_last_update now o in
  set_status (if bool_decide (leaves_qty o = 0) then Filled else PartiallyFilled) o.

Definition cancel (now : Timestamp) (o : t) : t :=
  set_last_update now (set_leaves_qty 0 (set_status Cancelled o)).

End Order.

Module Trade.
Record t := mk {
  sequence : SeqNum;
  buy_order_id : OrderId;
  sell_order_id : OrderId;
  price : Price;
  quantity : Quantity;
  exec_time : Timestamp;
  aggressor : Side;
  symbol : string
}.
End Trade.

Module NewOrderRequest.
Record t := mk {
  id : OrderId;
  side : Side;
  type : OrderType;
  tif : TimeInForce;
  price : Price;
  quantity : Quantity;
  symbol : string
}.
End NewOrderRequest.

Module CancelRequest.
Record t := mk { order_id : OrderId; symbol : string }.
End CancelRequest.

Module AmendRequest.
Record t := mk {
  order_id : OrderId;
  new_price : Price;
  new_quantity : Quantity;
  symbol : string
}.
End AmendRequest.

(** ** Outcomes and the state monad

    A call either returns, or stops at a dereference the C++ leaves
    undefined.  [OutOfFuel] marks a loop that outran the bound the model
    gives it. *)

Inductive fault := NullDeref | BadPointer | DanglingLevel | OutOfFuel.

Inductive Outcome (A : Type) :=
  | Done (a : A)
  | Fault (f : fault).
Arguments Done {A} a.
Arguments Fault {A} f.

Definition M (S A : Type) : Type := S → Outcome (A * S).

Definition ret {S A} (a : A) : M S A := λ s, Done (a, s).
Definition bind {S A B} (m : M S A) (k : A → M S B) : M S B :=
  λ s, match m s with
       | Done (a, s') => k a s'
       | Fault f => Fault f
       end.
Definition raise {S A} (f : fault) : M S A := λ _, Fault f.
Definition get {S} : M S S := λ s, Done (s, s).
Definition gets {S A} (f : S → A) : M S A := λ s, Done (f s, s).
Definition modify {S} (f : S → S) : M S unit := λ s, Done (tt, f s).

Declare Scope monad_scope.
Delimit Scope monad_scope with monad.
Notation "x <- m ;; k" := (bind m (λ x, k))
  (at level 100, m at next level, k at level 200, right associativity) : monad_scope.
Notation "m ;; k" := (bind m (λ _, k))
  (at level 100, k at level 200, right associativity) : monad_scope.
Open Scope monad_scope.

Definition when {S} (b : bool) (m : M S unit) : M S unit :=
  if b then m else ret tt.

(** Run a computation on a component of the state. *)
Definition zoom {S T A} (proj : S → T) (inj : T → S → S) (m : M T A) : M S A :=
  λ s, match m (proj s) with
       | Done (a, t') => Done (a, inj t' s)
       | Fault f => Fault f
       end.

(** ** The arena of orders *)

Abbreviation Arena := (list Order.t) (only parsing).

Definition deref (p : ptr) : M (list Order.t) Order.t :=
  λ h, match h !! p with
       | Some o => Done (o, h)
       | None => Fault BadPointer
       end.

(** [p->field], for a projection [f]. *)
Definition read {A} (p : ptr) (f : Order.t → A) : M (list Order.t) A :=
  o <- deref p ;; ret (f o).

(** An in-place update of [*p]. *)
Definition update (p : ptr) (f : Order.t → Order.t) : M (list Order.t) unit :=
  o <- deref p ;; modify (λ h, <[p := f o]> h).

(** [allocate()] followed by [new (order) Order{}]. *)
Definition allocate : M (list Order.t) ptr :=
  λ h, Done (length h, h ++ [Order.init]).

(** ** PriceLevel.h

    The FIFO of one price: [head_]/[tail_] and the [prev]/[next] members of
    the orders themselves.  A method that follows or writes through an
    [Order*] runs on the arena and returns the level it leaves behind.  The
    [assert]s of the header are compiled out and are not modelled. *)

Module PriceLevel.

Record t := mk {
  price_ : Price;
  total_quantity_ : Quantity;
  order_count_ : Z;
  head_ : option ptr;
  tail_ : option ptr
}.

(** [PriceLevel(price)] *)
Definition init (price : Price) : t := mk price 0 0 None None.

Definition set_total (v : Quantity) (l : t) : t :=
  mk (price_ l) v (order_count_ l) (head_ l) (tail_ l).
Definition set_count (v : Z) (l : t) : t :=
  mk (price_ l) (total_quantity_ l) v (head_ l) (tail_ l).
Definition set_head (v : option ptr) (l : t) : t :=
  mk (price_ l) (total_quantity_ l) (order_count_ l) v (tail_ l).
Definition set_tail (v : option ptr) (l : t) : t :=
  mk (price_ l) (total_quantity_ l) (order_count_ l) (head_ l) v.

Definition price (l : t) : Price := price_ l.
Definition total_quantity (l : t) : Quantity := total_quantity_ l.
Definition order_count (l : t) : Z := order_count_ l.
Definition empty (l : t) : bool := bool_decide (order_count_ l = 0).
Definition front (l : t) : option ptr := head_ l.

Definition push_back (order : ptr) (l : t) : M (list Order.t) t :=
  update order (Order.set_prev (tail_ l)) ;;
  update order (Order.set_next None) ;;
  l <- match tail_ l with
       | Some tl => update tl (Order.set_next (Some order)) ;; ret l
       | None => ret (set_head (Some order) l)
       end ;;
  let l := set_tail (Some order) l in
  leaves <- read order Order.leaves_qty ;;
  let l := set_total (wrap64 (total_quantity_ l + leaves)) l in
  ret (set_count (wrap32 (order_count_ l + 1)) l).

Definition remove (order : ptr) (l : t) : M (list Order.t) t :=
  pv <- read order Order.prev ;;
  l <- match pv with
       | Some q => nx <- read order Order.next ;;
                   update q (Order.set_next nx) ;; ret l
       | None => nx <- read order Order.next ;; ret (set_head nx l)
       end ;;
  nx <- read order Order.next ;;
  l <- match nx with
       | Some q => pv <- read order Order.prev ;;
                   update q (Order.set_prev pv) ;; ret l
       | None => pv <- read order Order.prev ;; ret (set_tail pv l)
       end ;;
  update order (Order.set_prev None) ;;
  update order (Order.set_next None) ;;
  leaves <- read order Order.leaves_qty ;;
  let l := set_total (wrap64 (total_quantity_ l - leaves)) l in
  ret (set_count (wrap32 (order_count_ l - 1)) l).

(** The popped order itself is not used by the caller and is left out. *)
Definition pop_front (l : t) : M (list Order.t) t :=
  match head_ l with
  | None => ret l
  | Some order =>
      nx <- read order Order.next ;;
      let l := set_head nx l in
      l <- match nx with
           | Some h => update h (Order.set_prev None) ;; ret l
           | None => ret (set_tail None l)
           end ;;
      leaves <- read order Order.leaves_qty ;;
      let l := set_total (wrap64 (total_quantity_ l - leaves)) l in
      let l := set_count (wrap32 (order_count_ l - 1)) l in
      update order (Order.set_prev None) ;;
      update order (Order.set_next None) ;;
      ret l
  end.

(** The test of [reduce_quantity]: does this call take the clamping
    branch? *)
Definition clamps (filled : Quantity) (l : t) : bool :=
  bool_decide (total_quantity_ l < filled).

Definition reduce_quantity (filled : Quantity) (l : t) : t :=
  if clamps filled l then set_total 0 l
  else set_total (wrap64 (total_quantity_ l - filled)) l.

(** The orders met by the iterator of the level, from [begin()] on:
    [head_], then [next] after [next].  [fuel] bounds the walk. *)
Fixpoint walk (fuel : nat) (h : list Order.t) (p : option ptr) : list ptr :=
  match fuel, p with
  | S fuel, Some q =>
      q :: walk fuel h (o ← h !! q; Order.next o)
  | _, _ => []
  end.

Definition orders (h : list Order.t) (l : t) : list ptr :=
  walk (length h) h (head_ l).

End PriceLevel.

(** ** Ordered maps of levels *)

Definition keys {A} (m : gmap Z A) : list Z := (map_to_list m).*1.

(** [m.begin()->first] *)
Definition min_key {A} (m : gmap Z A) : option Z :=
  foldr (λ k acc, Some (from_option (Z.min k) k acc)) None (keys m).

(** [std::prev(m.end())->first], for a non-empty map *)
Definition max_key {A} (m : gmap Z A) : option Z :=
  foldr (λ k acc, Some (from_option (Z.max k) k acc)) None (keys m).

(** The pairs of [for (const auto& [price, level] : m)], in key order. *)
Definition key_le {A} (a b : Z * A) : Prop := a.1 ≤ b.1.

#[global] Instance key_le_dec {A} (a b : Z * A) : Decision (key_le a b).
Proof. unfold key_le. apply _. Defined.

Definition ascending {A} (m : gmap Z A) : list (Z * A) :=
  merge_sort key_le (map_to_list m).

(** ** OrderBook.h *)

(** What leaves the book: the two callbacks, taken as installed, and two
    ghost marks that record which branch ran and change nothing:
    [PrevOfEndOfEmptyMap] for an evaluation of [std::prev(m.end())] on an
    empty [m], [ReduceQuantityClamped] for a call of [reduce_quantity] that
    takes its clamping branch. *)
Inductive Event :=
  | OnTrade (t : Trade.t)
  | OnOrder (o : Order.t)
  | PrevOfEndOfEmptyMap
  | ReduceQuantityClamped (level_price : Price) (filled : Quantity).

Inductive BookSide := Bids | Asks.

#[global] Instance BookSide_eq_dec : EqDecision BookSide.
Proof. solve_decision. Defined.

Module OrderBook.

Record t := mk {
  symbol_ : string;
  bids_ : gmap Z PriceLevel.t;
  asks_ : gmap Z PriceLevel.t;
  order_index_ : gmap Z nat;
  order_arena_ : list Order.t;
  next_sequence_ : SeqNum;
  trade_count_ : Z;
  total_volume_ : Z
}.

(** [OrderBook(symbol)] *)
Definition init (symbol : string) : t := mk symbol ∅ ∅ ∅ [] 1 0 0.

Definition set_bids (v : gmap Z PriceLevel.t) (b : t) : t :=
  mk (symbol_ b) v (asks_ b) (order_index_ b) (order_arena_ b)
     (next_sequence_ b) (trade_count_ b) (total_volume_ b).
Definition set_asks (v : gmap Z PriceLevel.t) (b : t) : t :=
  mk (symbol_ b) (bids_ b) v (order_index_ b) (order_arena_ b)
     (next_sequence_ b) (trade_count_ b) (total_volume_ b).
Definition set_index (v : gmap Z nat) (b : t) : t :=
  mk (symbol_ b) (bids_ b) (asks_ b) v (order_arena_ b)
     (next_sequence_ b) (trade_count_ b) (total_volume_ b).
Definition set_arena (v : list Order.t) (b : t) : t :=
  mk (symbol_ b) (bids_ b) (asks_ b) (order_index_ b) v
     (next_sequence_ b) (trade_count_ b) (total_volume_ b).
Definition set_next_sequence (v : SeqNum) (b : t) : t :=
  mk (symbol_ b) (bids_ b) (asks_ b) (order_index_ b) (order_arena_ b)
     v (trade_count_ b) (total_volume_ b).
Definition set_trade_count (v : Z) (b : t) : t :=
  mk (symbol_ b) (bids_ b) (asks_ b) (order_index_ b) (order_arena_ b)
     (next_sequence_ b) v (total_volume_ b).
Definition set_total_volume (v : Z) (b : t) : t :=
  mk (symbol_ b) (bids_ b) (asks_ b) (order_index_ b) (order_arena_ b)
     (next_sequence_ b) (trade_count_ b) v.

Definition levels (sd : BookSide) (b : t) : gmap Z PriceLevel.t :=
  match sd with Bids => bids_ b | Asks => asks_ b end.
Definition set_levels (sd : BookSide) (v : gmap Z PriceLevel.t) (b : t) : t :=
  match sd with Bids => set_bids v b | Asks => set_asks v b end.

(** [order->is_buy() ? bids_ : asks_] and its mirror image. *)
Definition own_side (is_buy : bool) : BookSide := if is_buy then Bids else Asks.
Definition contra_side (is_buy : bool) : BookSide := if is_buy then Asks else Bids.

(** The book together with what surrounds it: the events delivered so
    far, oldest first, and the number of clock readings taken. *)
Record World := mkWorld {
  book : t;
  events : list Event;
  clock_reads : nat
}.

Definition on_book (f : t → t) (w : World) : World :=
  mkWorld (f (book w)) (events w) (clock_reads w).

Definition start (symbol : string) : World := mkWorld (init symbol) [] 0%nat.

(** *** Queries *)

Definition best_bid (b : t) : option Price := max_key (bids_ b).
Definition best_ask (b : t) : option Price := min_key (asks_ b).

Definition check_no_crossed_book (b : t) : bool :=
  match best_bid b, best_ask b with
  | Some bb, Some ba => bool_decide (bb < ba)
  | _, _ => true
  end.

Definition active_orders (b : t) : nat := size (order_index_ b).

(** *** Access to the members *)

Definition arena {A} (m : M (list Order.t) A) : M World A :=
  zoom (λ w, order_arena_ (book w)) (λ h, on_book (set_arena h)) m.

Definition emit (e : Event) : M World unit :=
  modify (λ w, mkWorld (book w) (events w ++ [e]) (clock_reads w)).

(** [next_sequence_++] *)
Definition next_sequence : M World SeqNum :=
  s <- gets (λ w, next_sequence_ (book w)) ;;
  modify (on_book (set_next_sequence (wrap64 (s + 1)))) ;;
  ret s.

Definition get_levels (sd : BookSide) : M World (gmap Z PriceLevel.t) :=
  gets (λ w, levels sd (book w)).

Definition find_level (sd : BookSide) (k : Price) : M World (option PriceLevel.t) :=
  gets (λ w, levels sd (book w) !! k).

Definition store_level (sd : BookSide) (k : Price) (l : PriceLevel.t) : M World unit :=
  modify (on_book (λ b, set_levels sd (<[k := l]> (levels sd b)) b)).

Definition erase_level (sd : BookSide) (k : Price) : M World unit :=
  modify (on_book (λ b, set_levels sd (delete k (levels sd b)) b)).

(** A [PriceLevel&] obtained from an iterator at key [k]. *)
Definition level_ref (sd : BookSide) (k : Price) : M World PriceLevel.t :=
  o <- find_level sd k ;;
  match o with Some l => ret l | None => raise DanglingLevel end.

(** A call of a [PriceLevel] method through such a reference. *)
Definition on_level (sd : BookSide) (k : Price)
    (f : PriceLevel.t → M (list Order.t) PriceLevel.t) : M World unit :=
  l <- level_ref sd k ;;
  l' <- arena (f l) ;;
  store_level sd k l'.

(** [level.reduce_quantity(filled)], with its ghost mark. *)
Definition reduce_level (sd : BookSide) (k : Price) (filled : Quantity) : M World unit :=
  l <- level_ref sd k ;;
  when (PriceLevel.clamps filled l)
       (emit (ReduceQuantityClamped (PriceLevel.price l) filled)) ;;
  store_level sd k (PriceLevel.reduce_quantity filled l).

Definition index_find (id : OrderId) : M World (option ptr) :=
  gets (λ w, order_index_ (book w) !! id).

Definition index_store (id : OrderId) (p : ptr) : M World unit :=
  modify (on_book (λ b, set_index (<[id := p]> (order_index_ b)) b)).

Definition index_erase (id : OrderId) : M World unit :=
  modify (on_book (λ b, set_index (delete id (order_index_ b)) b)).

Section Clock.

Variable clk : nat → Timestamp.

(** [now()] *)
Definition now : M World Timestamp :=
  n <- gets clock_reads ;;
  modify (λ w, mkWorld (book w) (events w) (S n)) ;;
  ret (clk n).

(** *** Book management *)

Definition rest_order (order : ptr) : M World unit :=
  is_buy <- arena (read order Order.is_buy) ;;
  let sd := own_side is_buy in
  price <- arena (read order Order.price) ;;
  found <- find_level sd price ;;
  when (bool_decide (found = None)) (store_level sd price (PriceLevel.init price)) ;;
  on_level sd price (PriceLevel.push_back order).

Definition remove_from_book (order : ptr) : M World unit :=
  is_buy <- arena (read order Order.is_buy) ;;
  let sd := own_side is_buy in
  price <- arena (read order Order.price) ;;
  found <- find_level sd price ;;
  match found with
  | Some _ =>
      on_level sd price (PriceLevel.remove order) ;;
      l <- level_ref sd price ;;
      when (PriceLevel.empty l) (erase_level sd price)
  | None => ret tt
  end.

(** *** Matching *)

(** The body of [for (const auto& [price, level] : contra)]. *)
Fixpoint can_fill_scan (is_buy : bool) (order_price : Price)
    (contra : list (Z * PriceLevel.t)) (needed : Quantity) : bool :=
  match contra with
  | [] => bool_decide (needed = 0)
  | (price, level) :: rest =>
      if is_buy && bool_decide (order_price < price)
         && negb (bool_decide (order_price = PRICE_MARKET))
      then bool_decide (needed = 0)
      else if negb is_buy && bool_decide (order_price > price)
              && negb (bool_decide (order_price = PRICE_MARKET))
      then bool_decide (needed = 0)
      else
        let needed :=
          wrap64 (needed - Z.min needed (PriceLevel.total_quantity level)) in
        if bool_decide (needed = 0) then true
        else can_fill_scan is_buy order_price rest needed
  end.

Definition can_fill_completely (order : ptr) : M World bool :=
  needed <- arena (read order Order.leaves_qty) ;;
  is_buy <- arena (read order Order.is_buy) ;;
  contra <- get_levels (contra_side is_buy) ;;
  order_price <- arena (read order Order.price) ;;
  ret (can_fill_scan is_buy order_price (ascending contra) needed).

(** The two lambdas handed to [match_against]. *)
Definition buy_price_ok (order_price level_price : Price) : bool :=
  bool_decide (order_price >= level_price) || bool_decide (order_price = PRICE_MARKET).
Definition sell_price_ok (order_price level_price : Price) : bool :=
  bool_decide (order_price <= level_price) || bool_decide (order_price = PRICE_MARKET).

(** One pass of the inner [while] of [match_against] over the level at
    key [k] of [sd]. *)
Definition fill_front (incoming : ptr) (sd : BookSide) (k : Price)
    (leaves : Quantity) (level : PriceLevel.t) : M World unit :=
  resting <- match PriceLevel.front level with
             | Some r => ret r
             | None => raise NullDeref
             end ;;
  resting_leaves <- arena (read resting Order.leaves_qty) ;;
  let fill_qty := Z.min leaves resting_leaves in
  seq <- next_sequence ;;
  trade_price <- arena (read resting Order.price) ;;
  exec_time <- now ;;
  aggressor <- arena (read incoming Order.side) ;;
  symbol <- arena (read incoming Order.symbol) ;;
  is_buy <- arena (read incoming Order.is_buy) ;;
  incoming_id <- arena (read incoming Order.id) ;;
  resting_id <- arena (read resting Order.id) ;;
  let trade :=
    Trade.mk seq
      (if is_buy then incoming_id else resting_id)
      (if is_buy then resting_id else incoming_id)
      trade_price fill_qty exec_time aggressor symbol in
  reduce_level sd k fill_qty ;;
  t1 <- now ;;
  arena (update incoming (Order.fill fill_qty t1)) ;;
  t2 <- now ;;
  arena (update resting (Order.fill fill_qty t2)) ;;
  emit (OnTrade trade) ;;
  r <- arena (deref resting) ;;
  emit (OnOrder r) ;;
  modify (on_book (λ b, set_trade_count (wrap64 (trade_count_ b + 1)) b)) ;;
  modify (on_book (λ b, set_total_volume (wrap64 (total_volume_ b + fill_qty)) b)) ;;
  filled <- arena (read resting Order.is_filled) ;;
  when filled
    (on_level sd k PriceLevel.pop_front ;;
     rid <- arena (read resting Order.id) ;;
     index_erase rid).

(** [while (incoming->leaves_qty > 0 && !level.empty())] *)
Fixpoint fifo_loop (fuel : nat) (incoming : ptr) (sd : BookSide) (k : Price)
    : M World unit :=
  match fuel with
  | O => raise OutOfFuel
  | S fuel =>
      leaves <- arena (read incoming Order.leaves_qty) ;;
      level <- level_ref sd k ;;
      if bool_decide (0 < leaves) && negb (PriceLevel.empty level) then
        fill_front incoming sd k leaves level ;;
        fifo_loop fuel incoming sd k
      else ret tt
  end.

(** [it = begin()] for a buy, [it = std::prev(end())] for a sell. *)
Definition best_key (is_buy : bool) (m : gmap Z PriceLevel.t) : option Price :=
  if is_buy then min_key m else max_key m.

(** [while (incoming->leaves_qty > 0 && !contra_side.empty())].  A pass
    of the inner loop that goes on pops one order, so the count of the
    level on entry bounds it. *)
Fixpoint level_loop (fuel : nat) (incoming : ptr) (sd : BookSide)
    (price_ok : Price → Price → bool) : M World unit :=
  match fuel with
  | O => raise OutOfFuel
  | S fuel =>
      leaves <- arena (read incoming Order.leaves_qty) ;;
      contra <- get_levels sd ;;
      if bool_decide (0 < leaves) && negb (bool_decide (contra = ∅)) then
        is_buy <- arena (read incoming Order.is_buy) ;;
        match best_key is_buy contra with
        | None => raise DanglingLevel
        | Some k =>
            level <- level_ref sd k ;;
            price <- arena (read incoming Order.price) ;;
            if negb (price_ok price (PriceLevel.price level)) then ret tt
            else
              fifo_loop (S (Z.to_nat (PriceLevel.order_count level))) incoming sd k ;;
              level <- level_ref sd k ;;
              when (PriceLevel.empty level) (erase_level sd k) ;;
              level_loop fuel incoming sd price_ok
        end
      else ret tt
  end.

(** [match_against(incoming, contra_side, price_ok)].  Each pass of the
    outer loop that goes on erases a level, so the size of the map on
    entry bounds it.  The initialiser of [it] is evaluated before the
    loop tests anything. *)
Definition match_against (incoming : ptr) (sd : BookSide)
    (price_ok : Price → Price → bool) : M World unit :=
  is_buy <- arena (read incoming Order.is_buy) ;;
  contra <- get_levels sd ;;
  when (negb is_buy && bool_decide (contra = ∅)) (emit PrevOfEndOfEmptyMap) ;;
  level_loop (S (size contra)) incoming sd price_ok.

(** [match(incoming)] *)
Definition match_ (incoming : ptr) : M World unit :=
  type <- arena (read incoming Order.type) ;;
  feasible <- (if bool_decide (type = FOK) then can_fill_completely incoming
               else ret true) ;;
  if negb feasible then ret tt
  else
    is_buy <- arena (read incoming Order.is_buy) ;;
    if is_buy then match_against incoming Asks buy_price_ok
    else match_against incoming Bids sell_price_ok.

(** *** Order operations *)

Definition cancel_rest (order : ptr) : M World unit :=
  t <- now ;;
  arena (update order (Order.cancel t)) ;;
  id <- arena (read order Order.id) ;;
  index_erase id ;;
  o <- arena (deref order) ;;
  emit (OnOrder o).

Definition add_order (req : NewOrderRequest.t) : M World ptr :=
  order <- arena allocate ;;
  seq <- next_sequence ;;
  entry_time <- now ;;
  arena (update order (λ _,
    Order.mk (NewOrderRequest.id req) seq (NewOrderRequest.side req)
      (NewOrderRequest.type req) (NewOrderRequest.tif req)
      (NewOrderRequest.price req) (NewOrderRequest.quantity req)
      0 (NewOrderRequest.quantity req) entry_time entry_time New
      None None (NewOrderRequest.symbol req))) ;;
  index_store (NewOrderRequest.id req) order ;;
  match_ order ;;
  leaves <- arena (read order Order.leaves_qty) ;;
  when (bool_decide (0 < leaves))
    (type <- arena (read order Order.type) ;;
     match type with
     | Limit => rest_order order
     | Market | IOC => cancel_rest order
     | FOK => cancel_rest order
     end) ;;
  ret order.

Definition cancel_order (id : OrderId) : M World bool :=
  it <- index_find id ;;
  match it with
  | None => ret false
  | Some order =>
      active <- arena (read order Order.is_active) ;;
      if negb active then ret false
      else
        remove_from_book order ;;
        t <- now ;;
        arena (update order (Order.cancel t)) ;;
        index_erase id ;;
        o <- arena (deref order) ;;
        emit (OnOrder o) ;;
        ret true
  end.

Definition amend_order (req : AmendRequest.t) : M World bool :=
  let new_price := AmendRequest.new_price req in
  let new_quantity := AmendRequest.new_quantity req in
  it <- index_find (AmendRequest.order_id req) ;;
  match it with
  | None => ret false
  | Some order =>
      active <- arena (read order Order.is_active) ;;
      if negb active then ret false
      else
        price <- arena (read order Order.price) ;;
        leaves <- arena (read order Order.leaves_qty) ;;
        let price_changed :=
          negb (bool_decide (new_price = 0)) && negb (bool_decide (new_price = price)) in
        let qty_increased :=
          negb (bool_decide (new_quantity = 0)) && bool_decide (new_quantity > leaves) in
        (if price_changed || qty_increased then
           remove_from_book order ;;
           when (negb (bool_decide (new_price = 0)))
                (arena (update order (Order.set_price new_price))) ;;
           when (negb (bool_decide (new_quantity = 0)))
                (arena (update order (Order.set_quantity new_quantity)) ;;
                 filled <- arena (read order Order.filled_qty) ;;
                 arena (update order
                          (Order.set_leaves_qty (wrap64 (new_quantity - filled))))) ;;
           seq <- next_sequence ;;
           arena (update order (Order.set_sequence seq)) ;;
           arena (update order (Order.set_status Amended)) ;;
           t <- now ;;
           arena (update order (Order.set_last_update t)) ;;
           match_ order ;;
           leaves <- arena (read order Order.leaves_qty) ;;
           type <- arena (read order Order.type) ;;
           when (bool_decide (0 < leaves) && bool_decide (type = Limit))
                (rest_order order)
         else if negb (bool_decide (new_quantity = 0))
                 && bool_decide (new_quantity < leaves) then
           let reduction := wrap64 (leaves - new_quantity) in
           arena (update order (Order.set_leaves_qty new_quantity)) ;;
           quantity <- arena (read order Order.quantity) ;;
           arena (update order (Order.set_quantity (wrap64 (quantity - reduction)))) ;;
           arena (update order (Order.set_status Amended)) ;;
           t <- now ;;
           arena (update order (Order.set_last_update t)) ;;
           is_buy <- arena (read order Order.is_buy) ;;
           price <- arena (read order Order.price) ;;
           found <- find_level (own_side is_buy) price ;;
           match found with
           | Some _ => reduce_level (own_side is_buy) price reduction
           | None => ret tt
           end
         else ret tt) ;;
        o <- arena (deref order) ;;
        emit (OnOrder o) ;;
        ret true
  end.

End Clock.

End OrderBook.

(** ** MatchingEngine.h *)

(** [std::string(s, std::strlen(s))]: the characters before the first NUL. *)
Fixpoint c_str (s : string) : string :=
  match s with
  | EmptyString => EmptyString
  | String c rest =>
      if bool_decide (c = Ascii.zero) then EmptyString else String c (c_str rest)
  end.

Module MatchingEngine.

Record EngineStats := mkStats {
  total_orders : Z;
  total_cancels : Z;
  total_amends : Z;
  total_trades : Z;
  total_volume : Z;
  total_rejects : Z;
  active_orders : Z;
  symbols_active : Z
}.

Definition no_stats : EngineStats := mkStats 0 0 0 0 0 0 0 0.

(** What [trade_callback_] of a registered book holds: the lambda
    [add_symbol] installs, which calls [on_trade], or a function that a
    holder of the book has put there with [OrderBook::set_trade_callback],
    as [FeedPublisher::attach] does. *)
Inductive TradeCallback := CallsOnTrade | Foreign.

(** The books, the counters, and for each book its [trade_callback_]
    (no entry: the empty [std::function]). *)
Record t := mk {
  books_ : gmap string OrderBook.t;
  stats_ : EngineStats;
  trade_callback_ : gmap string TradeCallback
}.

(** [MatchingEngine()] *)
Definition init : t := mk ∅ no_stats ∅.

Definition set_books (v : gmap string OrderBook.t) (e : t) : t :=
  mk v (stats_ e) (trade_callback_ e).
Definition set_stats (v : EngineStats) (e : t) : t :=
  mk (books_ e) v (trade_callback_ e).
Definition set_trade_callbacks (v : gmap string TradeCallback) (e : t) : t :=
  mk (books_ e) (stats_ e) v.

Definition inc_orders (s : EngineStats) : EngineStats :=
  mkStats (wrap64 (total_orders s + 1)) (total_cancels s) (total_amends s)
    (total_trades s) (total_volume s) (total_rejects s) (active_orders s)
    (symbols_active s).
Definition inc_cancels (s : EngineStats) : EngineStats :=
  mkStats (total_orders s) (wrap64 (total_cancels s + 1)) (total_amends s)
    (total_trades s) (total_volume s) (total_rejects s) (active_orders s)
    (symbols_active s).
Definition inc_amends (s : EngineStats) : EngineStats :=
  mkStats (total_orders s) (total_cancels s) (wrap64 (total_amends s + 1))
    (total_trades s) (total_volume s) (total_rejects s) (active_orders s)
    (symbols_active s).
Definition inc_rejects (s : EngineStats) : EngineStats :=
  mkStats (total_orders s) (total_cancels s) (total_amends s)
    (total_trades s) (total_volume s) (wrap64 (total_rejects s + 1))
    (active_orders s) (symbols_active s).

(** The counters of [on_trade(trade)]. *)
Definition count_trade (trade : Trade.t) (s : EngineStats) : EngineStats :=
  mkStats (total_orders s) (total_cancels s) (total_amends s)
    (wrap64 (total_trades s + 1)) (wrap64 (total_volume s + Trade.quantity trade))
    (total_rejects s) (active_orders s) (symbols_active s).

(** The engine, the trades handed to the global callback (with the ghost
    marks of the books), and the clock. *)
Record World := mkWorld {
  engine : t;
  events : list Event;
  clock_reads : nat
}.

Definition on_engine (f : t → t) (w : World) : World :=
  mkWorld (f (engine w)) (events w) (clock_reads w).

Definition start : World := mkWorld init [] 0%nat.

(** [add_symbol(symbol)]: [try_emplace], and the trade callback of a new
    book wired to [on_trade]. *)
Definition add_symbol (symbol : string) : M World unit :=
  modify (on_engine (λ e,
    match books_ e !! symbol with
    | Some _ => e
    | None =>
        set_trade_callbacks (<[symbol := CallsOnTrade]> (trade_callback_ e))
          (set_books (<[symbol := OrderBook.init symbol]> (books_ e)) e)
    end)).

(** What the trade callback of a book lets through to the engine: every
    trade while it is the one [add_symbol] installed, none otherwise. *)
Definition not_a_trade (ev : Event) : bool :=
  match ev with OnTrade _ => false | _ => true end.

Definition heard (cb : option TradeCallback) (evs : list Event) : list Event :=
  match cb with
  | Some CallsOnTrade => evs
  | _ => filter not_a_trade evs
  end.

(** What a book reports reaches the engine through its trade callback
    only: [on_trade] counts a trade and passes it on; no order callback
    is installed. *)
Definition on_event (ev : Event) (w : World) : World :=
  match ev with
  | OnTrade trade =>
      mkWorld (set_stats (count_trade trade (stats_ (engine w))) (engine w))
              (events w ++ [ev]) (clock_reads w)
  | OnOrder _ => w
  | _ => mkWorld (engine w) (events w ++ [ev]) (clock_reads w)
  end.

(** A call [it->second.f(...)] on the book registered under [sym]. *)
Definition in_book {A} (sym : string) (bk : OrderBook.t)
    (m : M OrderBook.World A) : M World A :=
  λ w, match m (OrderBook.mkWorld bk [] (clock_reads w)) with
       | Done (a, bw) =>
           let w := mkWorld (set_books (<[sym := OrderBook.book bw]> (books_ (engine w)))
                               (engine w))
                      (events w) (OrderBook.clock_reads bw) in
           Done (a, foldl (λ w ev, on_event ev w) w
                      (heard (trade_callback_ (engine w) !! sym) (OrderBook.events bw)))
       | Fault f => Fault f
       end.

Definition find_book (sym : string) : M World (option OrderBook.t) :=
  gets (λ w, books_ (engine w) !! sym).

Definition get_book (symbol : string) : M World (option OrderBook.t) :=
  find_book symbol.

(** [get_book(symbol)->set_trade_callback(cb)], for a callback [cb] of
    the caller: from then on the trades of that book go to [cb]. *)
Definition replace_trade_callback (symbol : string) : M World unit :=
  bk <- get_book symbol ;;
  match bk with
  | None => raise NullDeref
  | Some _ =>
      modify (on_engine (λ e,
        set_trade_callbacks (<[symbol := Foreign]> (trade_callback_ e)) e))
  end.

Section Clock.

Variable clk : nat → Timestamp.

Definition submit_order (req : NewOrderRequest.t) : M World (option ptr) :=
  let sym := c_str (NewOrderRequest.symbol req) in
  it <- find_book sym ;;
  match it with
  | None =>
      modify (on_engine (λ e, set_stats (inc_rejects (stats_ e)) e)) ;;
      ret None
  | Some bk =>
      modify (on_engine (λ e, set_stats (inc_orders (stats_ e)) e)) ;;
      order <- in_book sym bk (OrderBook.add_order clk req) ;;
      ret (Some order)
  end.

Definition cancel_order (req : CancelRequest.t) : M World bool :=
  let sym := c_str (CancelRequest.symbol req) in
  it <- find_book sym ;;
  match it with
  | None => ret false
  | Some bk =>
      success <- in_book sym bk (OrderBook.cancel_order clk (CancelRequest.order_id req)) ;;
      when success (modify (on_engine (λ e, set_stats (inc_cancels (stats_ e)) e))) ;;
      ret success
  end.

Definition amend_order (req : AmendRequest.t) : M World bool :=
  let sym := c_str (AmendRequest.symbol req) in
  it <- find_book sym ;;
  match it with
  | None => ret false
  | Some bk =>
      success <- in_book sym bk (OrderBook.amend_order clk req) ;;
      when success (modify (on_engine (λ e, set_stats (inc_amends (stats_ e)) e))) ;;
      ret success
  end.

End Clock.

End MatchingEngine.

(** ** Request streams *)

Inductive Request :=
  | Add (req : NewOrderRequest.t)
  | Cancel (id : OrderId)
  | Amend (req : AmendRequest.t).

(** What a call hands back: the [Order*] of [add_order], the [bool] of the
    other two. *)
Inductive Reply :=
  | Added (order : ptr)
  | Answered (ok : bool).

Definition serve (clk : nat → Timestamp) (r : Request) : M OrderBook.World Reply :=
  match r with
  | Add req => order <- OrderBook.add_order clk req ;; ret (Added order)
  | Cancel id => ok <- OrderBook.cancel_order clk id ;; ret (Answered ok)
  | Amend req => ok <- OrderBook.amend_order clk req ;; ret (Answered ok)
  end.

Fixpoint serve_all (clk : nat → Timestamp) (rs : list Request)
    : M OrderBook.World (list Reply) :=
  match rs with
  | [] => ret []
  | r :: rs =>
      a <- serve clk r ;;
      rest <- serve_all clk rs ;;
      ret (a :: rest)
  end.

(** The trades among the events, in order. *)
Definition trades (evs : list Event) : list Trade.t :=
  omap (λ ev, match ev with OnTrade t => Some t | _ => None end) evs.

(** The world a request stream leaves behind, if every call returns. *)
Definition after (clk : nat → Timestamp) (rs : list Request) (w : OrderBook.World)
    : option OrderBook.World :=
  match serve_all clk rs w with
  | Done (_, w') => Some w'
  | Fault _ => None
  end.

(** ** What the claims speak about *)

(** The orders linked into the level at key [k] of side [sd]. *)
Definition linked_at (b : OrderBook.t) (sd : BookSide) (k : Price) : list ptr :=
  match OrderBook.levels sd b !! k with
  | Some l => PriceLevel.orders (OrderBook.order_arena_ b) l
  | None => []
  end.

(** Every order linked into a level is the one the id index holds under
    its id. *)
Definition no_phantom (b : OrderBook.t) : Prop :=
  ∀ sd k p o,
    p ∈ linked_at b sd k →
    OrderBook.order_arena_ b !! p = Some o →
    OrderBook.order_index_ b !! Order.id o = Some p.

(** The ids of the orders linked into some level. *)
Definition resting_ids (b : OrderBook.t) : list OrderId :=
  let h := OrderBook.order_arena_ b in
  let ids (m : gmap Z PriceLevel.t) :=
    map_fold (λ _ l acc,
                omap (λ p, Order.id <$> h !! p) (PriceLevel.orders h l) ++ acc)
             [] m in
  ids (OrderBook.bids_ b) ++ ids (OrderBook.asks_ b).

(** The sum of [leaves_qty] over a list of orders. *)
Definition sum_leaves (h : list Order.t) (ps : list ptr) : Z :=
  foldr (λ p acc, from_option Order.leaves_qty 0 (h !! p) + acc) 0 ps.

(** What the pre-check of a fill-or-kill order is after: the quantity held
    by the contra levels that pass the price test of the match. *)
Definition crossable_quantity (price_ok : Price → Price → bool)
    (order_price : Price) (contra : gmap Z PriceLevel.t) : Z :=
  map_fold (λ k l acc,
              if price_ok order_price k then PriceLevel.total_quantity l + acc
              else acc)
           0 contra.

(** The fields of a trade that two runs are compared on. *)
Definition trade_key (t : Trade.t) : Z * Z * OrderId * OrderId * SeqNum :=
  (Trade.price t, Trade.quantity t, Trade.buy_order_id t,
   Trade.sell_order_id t, Trade.sequence t).

(** ** Scenarios *)

Module Scenario.

Definition sym : string := "TEST".

Definition limit (id : OrderId) (side : Side) (price : Price) (qty : Quantity)
    : NewOrderRequest.t :=
  NewOrderRequest.mk id side Limit GTC price qty sym.
Definition market (id : OrderId) (side : Side) (qty : Quantity)
    : NewOrderRequest.t :=
  NewOrderRequest.mk id side Market TifIOC PRICE_MARKET qty sym.
Definition ioc (id : OrderId) (side : Side) (price : Price) (qty : Quantity)
    : NewOrderRequest.t :=
  NewOrderRequest.mk id side IOC TifIOC price qty sym.
Definition fok (id : OrderId) (side : Side) (price : Price) (qty : Quantity)
    : NewOrderRequest.t :=
  NewOrderRequest.mk id side FOK TifFOK price qty sym.
Definition amend (id : OrderId) (price : Price) (qty : Quantity)
    : AmendRequest.t :=
  AmendRequest.mk id price qty sym.

Definition start : OrderBook.World := OrderBook.start sym.

(** Ten buy limit orders, ids 1..10, at 10000 for 100 each. *)
Definition ten_bids : list Request :=
  (λ id, Add (limit id Buy 10000 100)) <$> [1; 2; 3; 4; 5; 6; 7; 8; 9; 10].

(** A clock that ticks once per reading. *)
Definition ticks (n : nat) : Timestamp := Z.of_nat n.

(** A short session: two resting orders, a partial fill, an amend to a
    new price and a cancel. *)
Definition session : list Request :=
  [Add (limit 1 Buy 100 10); Add (limit 2 Sell 105 10);
   Add (limit 3 Buy 105 4); Amend (amend 1 103 0); Cancel 2].

End Scenario.

(** ** Statements about runs *)

(** [sat F m s Q]: the run of [m] from [s] ends in a result and a state
    that satisfy [Q], or it faults and [F] holds.  With [F := True] a
    fault is tolerated; with [F := False] the run must return. *)
Definition sat {S A} (F : Prop) (m : M S A) (s : S) (Q : A → S → Prop) : Prop :=
  match m s with
  | Done (a, s') => Q a s'
  | Fault _ => F
  end.

Definition other (sd : BookSide) : BookSide :=
  match sd with Bids => Asks | Asks => Bids end.

(** Every slot of [h] is still there in [h'] with the price, side and type
    it had. *)
Definition stable (h h' : list Order.t) : Prop :=
  ∀ p o, h !! p = Some o →
    ∃ o', h' !! p = Some o' ∧
          Order.price o' = Order.price o ∧
          Order.side o' = Order.side o ∧
          Order.type o' = Order.type o.

(** A level sits under its own price. *)
Definition keyed (m : gmap Z PriceLevel.t) : Prop :=
  ∀ k l, m !! k = Some l → PriceLevel.price l = k.

(** Every bid price is below every ask price. *)
Definition uncrossed (b : OrderBook.t) : Prop :=
  ∀ kb ka,
    is_Some (OrderBook.bids_ b !! kb) → is_Some (OrderBook.asks_ b !! ka) → kb < ka.

Definition book_inv (b : OrderBook.t) : Prop :=
  keyed (OrderBook.bids_ b) ∧ keyed (OrderBook.asks_ b) ∧ uncrossed b.

(** From [m] to [m'] no level appears and none changes its price. *)
Definition shrinks (m m' : gmap Z PriceLevel.t) : Prop :=
  ∀ k l', m' !! k = Some l' →
    ∃ l, m !! k = Some l ∧ PriceLevel.price l' = PriceLevel.price l.

(** What matching on side [sd] may do to the book. *)
Definition settles (sd : BookSide) (w w' : OrderBook.World) : Prop :=
  OrderBook.levels (other sd) (OrderBook.book w')
    = OrderBook.levels (other sd) (OrderBook.book w) ∧
  shrinks (OrderBook.levels sd (OrderBook.book w))
          (OrderBook.levels sd (OrderBook.book w')) ∧
  stable (OrderBook.order_arena_ (OrderBook.book w))
         (OrderBook.order_arena_ (OrderBook.book w')).

(** The price test of the match, by the side of the aggressor. *)
Definition crosses (is_buy : bool) (order_price level_price : Price) : bool :=
  if is_buy then OrderBook.buy_price_ok order_price level_price
  else OrderBook.sell_price_ok order_price level_price.

(** A step that only shrinks side [sd] and keeps the orders' terms. *)
Definition settling {A} (sd : BookSide) (m : M OrderBook.World A) : Prop :=
  ∀ w, sat True m w (λ _ w', settles sd w w').

(** An arena computation that keeps the terms of the orders and returns a
    value in [P]. *)
Definition keeps {A} (P : A → Prop) (m : M (list Order.t) A) : Prop :=
  ∀ h, sat True m h (λ a h', P a ∧ stable h h').

(** A [PriceLevel] method that keeps the price of the level and the terms
    of the orders. *)
Definition tidy (f : PriceLevel.t → M (list Order.t) PriceLevel.t) : Prop :=
  ∀ l, keeps (λ l', PriceLevel.price l' = PriceLevel.price l) (f l).

(** An update of an order that keeps its terms. *)
Definition static (f : Order.t → Order.t) : Prop :=
  ∀ o, Order.price (f o) = Order.price o ∧
       Order.side (f o) = Order.side o ∧
       Order.type (f o) = Order.type o.

(** The aggressor at [incoming] has nothing left, or no level of [sd]
    passes its price test. *)
Definition unmatched (sd : BookSide) (incoming : ptr) (w : OrderBook.World) : Prop :=
  ∀ o k,
    OrderBook.order_arena_ (OrderBook.book w) !! incoming = Some o →
    0 < Order.leaves_qty o →
    is_Some (OrderBook.levels sd (OrderBook.book w) !! k) →
    crosses (Order.is_buy o) (Order.price o) k = false.

(** How the outer loop of [match_against] leaves the book: nothing left in
    the aggressor, or no level on side [sd], or a best level that fails
    [price_ok]. *)
Definition loop_exit (sd : BookSide) (price_ok : Price → Price → bool)
    (incoming : ptr) (w : OrderBook.World) : Prop :=
  ∀ o,
    OrderBook.order_arena_ (OrderBook.book w) !! incoming = Some o →
    0 < Order.leaves_qty o →
    OrderBook.levels sd (OrderBook.book w) = ∅ ∨
    ∃ k l,
      OrderBook.best_key (Order.is_buy o) (OrderBook.levels sd (OrderBook.book w)) = Some k ∧
      OrderBook.levels sd (OrderBook.book w) !! k = Some l ∧
      price_ok (Order.price o) (PriceLevel.price l) = false.

(** Both sides only lose levels. *)
Definition calms (w w' : OrderBook.World) : Prop :=
  shrinks (OrderBook.bids_ (OrderBook.book w)) (OrderBook.bids_ (OrderBook.book w')) ∧
  shrinks (OrderBook.asks_ (OrderBook.book w)) (OrderBook.asks_ (OrderBook.book w')).

Definition calm {A} (m : M OrderBook.World A) : Prop :=
  ∀ w, sat True m w (λ _ w', calms w w').

(** ** Runs under two clocks *)

(** An order, a trade, an event and a world with the clock readings they
    store blanked. *)
Definition untimed_order (o : Order.t) : Order.t :=
  Order.mk (Order.id o) (Order.sequence o) (Order.side o) (Order.type o)
    (Order.tif o) (Order.price o) (Order.quantity o) (Order.filled_qty o)
    (Order.leaves_qty o) 0 0 (Order.status o) (Order.prev o) (Order.next o)
    (Order.symbol o).

Definition untimed_trade (t : Trade.t) : Trade.t :=
  Trade.mk (Trade.sequence t) (Trade.buy_order_id t) (Trade.sell_order_id t)
    (Trade.price t) (Trade.quantity t) 0 (Trade.aggressor t) (Trade.symbol t).

Definition untimed_event (ev : Event) : Event :=
  match ev with
  | OnTrade t => OnTrade (untimed_trade t)
  | OnOrder o => OnOrder (untimed_order o)
  | PrevOfEndOfEmptyMap => PrevOfEndOfEmptyMap
  | ReduceQuantityClamped p q => ReduceQuantityClamped p q
  end.

Definition untimed_book (b : OrderBook.t) : OrderBook.t :=
  OrderBook.set_arena (untimed_order <$> OrderBook.order_arena_ b) b.

Definition untimed (w : OrderBook.World) : OrderBook.World :=
  OrderBook.mkWorld (untimed_book (OrderBook.book w))
    (untimed_event <$> OrderBook.events w) (OrderBook.clock_reads w).

(** Two outcomes agree: the same fault, or results related by [R] in
    worlds that differ in stored clock readings only. *)
Definition agree {A} (R : A → A → Prop)
    (r1 r2 : Outcome (A * OrderBook.World)) : Prop :=
  match r1, r2 with
  | Done (a1, w1), Done (a2, w2) => R a1 a2 ∧ untimed w1 = untimed w2
  | Fault f1, Fault f2 => f1 = f2
  | _, _ => False
  end.

(** Two computations agree from worlds that do. *)
Definition sim {A} (R : A → A → Prop) (m1 m2 : M OrderBook.World A) : Prop :=
  ∀ w1 w2, untimed w1 = untimed w2 → agree R (m1 w1) (m2 w2).

(** The same on the arena alone. *)
Definition hsim {A} (R : A → A → Prop) (m1 m2 : M (list Order.t) A) : Prop :=
  ∀ h1 h2, untimed_order <$> h1 = untimed_order <$> h2 →
    match m1 h1, m2 h2 with
    | Done (a1, h1'), Done (a2, h2') =>
        R a1 a2 ∧ untimed_order <$> h1' = untimed_order <$> h2'
    | Fault f1, Fault f2 => f1 = f2
    | _, _ => False
    end.

(** A projection of an order that does not look at its clock readings. *)
Definition timeless {A} (f : Order.t → A) : Prop :=
  ∀ o, f (untimed_order o) = f o.

(** Two updates of an order that differ in the clock readings they store
    at most. *)
Definition cotimed (f1 f2 : Order.t → Order.t) : Prop :=
  ∀ o1 o2, untimed_order o1 = untimed_order o2 →
           untimed_order (f1 o1) = untimed_order (f2 o2).

(** ** The shape of a book that was fed admissible requests *)

(** The element in front of position [i]. *)
Definition before (ps : list ptr) (i : nat) : option ptr :=
  match i with O => None | S j => ps !! j end.

(** [ps] is the queue of level [l] in arena [h]: [head_], [tail_] and
    [order_count_] describe it, and the [prev]/[next] of its orders chain
    it in both directions. *)
Record lrep (h : list Order.t) (l : PriceLevel.t) (ps : list ptr) : Prop := mk_lrep {
  lrep_head : PriceLevel.head_ l = ps !! 0%nat;
  lrep_tail : PriceLevel.tail_ l = last ps;
  lrep_count : PriceLevel.order_count_ l = Z.of_nat (length ps);
  lrep_nodup : NoDup ps;
  lrep_links : ∀ i p, ps !! i = Some p →
    ∃ o, h !! p = Some o ∧ Order.prev o = before ps i ∧ Order.next o = ps !! S i
}.

(** An order with its links cleared: what a [PriceLevel] method never
    touches. *)
Definition unlinked (o : Order.t) : Order.t :=
  Order.set_prev None (Order.set_next None o).

(** From [h] to [h'] only links changed. *)
Definition relinked (h h' : list Order.t) : Prop :=
  length h' = length h ∧
  ∀ q o, h !! q = Some o → ∃ o', h' !! q = Some o' ∧ unlinked o' = unlinked o.

(** The queues of all levels, by side and price. *)
Abbreviation queues := (BookSide → Z → list ptr) (only parsing).

Definition set_queue (G : BookSide → Z → list ptr) (sd : BookSide) (k : Z)
    (ps : list ptr) : BookSide → Z → list ptr :=
  λ sd' k', if decide (sd' = sd ∧ k' = k) then ps else G sd' k'.

(** The book is well formed around the queues [G]; [inc], if any, is an
    aggressor in the middle of its match: indexed, linked nowhere, and not
    yet required to rest.
    - every level present holds the queue [G] gives it, under its own
      price, and an absent level has an empty queue;
    - a queued order is a limit order of that side and price, and the index
      holds it under its id;
    - an indexed order carries the id it is indexed under and, if active,
      is queued at its side and price;
    - the arena holds fewer than 2^32 orders. *)
Record wf (inc : option ptr) (G : BookSide → Z → list ptr) (b : OrderBook.t) : Prop := mk_wf {
  wf_levels : ∀ sd k,
    match OrderBook.levels sd b !! k with
    | Some l => lrep (OrderBook.order_arena_ b) l (G sd k) ∧ PriceLevel.price l = k
    | None => G sd k = []
    end;
  wf_queued : ∀ sd k p, p ∈ G sd k →
    ∃ o, OrderBook.order_arena_ b !! p = Some o ∧
         Order.price o = k ∧ OrderBook.own_side (Order.is_buy o) = sd ∧
         Order.type o = Limit ∧
         OrderBook.order_index_ b !! Order.id o = Some p ∧
         inc ≠ Some p;
  wf_indexed : ∀ i p, OrderBook.order_index_ b !! i = Some p →
    ∃ o, OrderBook.order_arena_ b !! p = Some o ∧ Order.id o = i ∧
         (inc ≠ Some p → Order.is_active o = true →
          p ∈ G (OrderBook.own_side (Order.is_buy o)) (Order.price o));
  wf_aggressor : ∀ q, inc = Some q →
    ∃ o, OrderBook.order_arena_ b !! q = Some o ∧
         OrderBook.order_index_ b !! Order.id o = Some q;
  wf_size : Z.of_nat (length (OrderBook.order_arena_ b)) < 2 ^ 32
}.

(** A request the book is prepared for: a new order has a quantity, does
    not take the id of an order that is resting, and finds room in the
    32-bit count of a level. *)
Definition admissible (b : OrderBook.t) (r : Request) : bool :=
  match r with
  | Add req =>
      bool_decide (0 < NewOrderRequest.quantity req) &&
      bool_decide (NewOrderRequest.id req ∉ resting_ids b) &&
      bool_decide (Z.of_nat (length (OrderBook.order_arena_ b)) < 2 ^ 32 - 1)
  | Cancel _ => true
  | Amend _ => true
  end.

(** The worlds reached from a new book by admissible requests. *)
Inductive reachable (clk : nat → Timestamp) : OrderBook.World → Prop :=
  | reach_start symbol : reachable clk (OrderBook.start symbol)
  | reach_step w r a w' :
      reachable clk w →
      admissible (OrderBook.book w) r = true →
      serve clk r w = Done (a, w') →
      reachable clk w'.

(** The id under which a request brings an order into the match, if it
    adds one. *)
Definition entering (r : Request) : option OrderId :=
  match r with
  | Add req => Some (NewOrderRequest.id req)
  | _ => None
  end.

(** From [w] to [w'] events were only appended, and both parties of every
    trade among them are ids in [A]. *)
Definition traded_within (A : OrderId → Prop) (w w' : OrderBook.World) : Prop :=
  ∃ new, OrderBook.events w' = OrderBook.events w ++ new ∧
         ∀ t, OnTrade t ∈ new → A (Trade.buy_order_id t) ∧ A (Trade.sell_order_id t).

(** [x->field = v] for a pointer that may be null: nothing happens then. *)
Definition relink (x : option ptr) (f : Order.t → Order.t) (h : list Order.t)
    : list Order.t :=
  match x with Some q => alter f q h | None => h end.

(** ** The aggressor during a match *)

(** From [o0] to [o] an aggressor keeps its id and terms, and either keeps
    its status and leaves, or is filled, or is partially filled with
    something left. *)
Definition aggressor_ok (o0 o : Order.t) : Prop :=
  Order.id o = Order.id o0 ∧ Order.price o = Order.price o0 ∧
  Order.side o = Order.side o0 ∧ Order.type o = Order.type o0 ∧
  ((Order.status o = Order.status o0 ∧ Order.leaves_qty o = Order.leaves_qty o0)
   ∨ (Order.status o = Filled ∧ Order.leaves_qty o = 0)
   ∨ (Order.status o = PartiallyFilled ∧ 0 < Order.leaves_qty o)).

(** The ids the index of [w] holds. *)
Definition indexed (w : OrderBook.World) (i : OrderId) : Prop :=
  is_Some (OrderBook.order_index_ (OrderBook.book w) !! i).

(** What matching for the aggressor at [inc] does between [w] and [w']:
    the aggressor advances, the index only loses ids, and the trades
    reported are between ids the index of [w] holds. *)
Record fills (inc : ptr) (w w' : OrderBook.World) : Prop := mk_fills {
  fills_aggressor : ∀ o,
    OrderBook.order_arena_ (OrderBook.book w) !! inc = Some o →
    ∃ o', OrderBook.order_arena_ (OrderBook.book w') !! inc = Some o'
          ∧ aggressor_ok o o';
  fills_index : ∀ i, indexed w' i → indexed w i;
  fills_trades : traded_within (indexed w) w w'
}.

(** A step taken while the order at [p] holds the aggressor's seat, which
    keeps the book well formed, the index, the events and the levels, and
    the id, type and side of the order. *)
Definition tends {A} (p : ptr) (m : M OrderBook.World A) : Prop :=
  ∀ w G o,
    wf (Some p) G (OrderBook.book w) →
    OrderBook.order_arena_ (OrderBook.book w) !! p = Some o →
    sat False m w (λ _ w',
      wf (Some p) G (OrderBook.book w') ∧
      OrderBook.order_index_ (OrderBook.book w')
        = OrderBook.order_index_ (OrderBook.book w) ∧
      OrderBook.events w' = OrderBook.events w ∧
      (∀ sd, OrderBook.levels sd (OrderBook.book w')
             = OrderBook.levels sd (OrderBook.book w)) ∧
      ∃ o', OrderBook.order_arena_ (OrderBook.book w') !! p = Some o' ∧
            Order.id o' = Order.id o ∧ Order.type o' = Order.type o ∧
            Order.is_buy o' = Order.is_buy o).

(** A step on the queued order at [p] that keeps the book well formed, the
    index, the events and the levels, and the side and price of the
    order. *)
Definition grooms {A} (p : ptr) (m : M OrderBook.World A) : Prop :=
  ∀ w inc G o,
    wf inc G (OrderBook.book w) →
    OrderBook.order_arena_ (OrderBook.book w) !! p = Some o →
    p ∈ G (OrderBook.own_side (Order.is_buy o)) (Order.price o) →
    sat False m w (λ _ w',
      wf inc G (OrderBook.book w') ∧
      OrderBook.order_index_ (OrderBook.book w')
        = OrderBook.order_index_ (OrderBook.book w) ∧
      OrderBook.events w' = OrderBook.events w ∧
      (∀ sd, OrderBook.levels sd (OrderBook.book w')
             = OrderBook.levels sd (OrderBook.book w)) ∧
      ∃ o', OrderBook.order_arena_ (OrderBook.book w') !! p = Some o' ∧
            Order.is_buy o' = Order.is_buy o ∧ Order.price o' = Order.price o).

(** The queues [G'] are what is left of the queues [G] once orders have
    been taken from the fronts of the queues of side [sd]. *)
Definition front_consumed (sd : BookSide) (G G' : BookSide → Z → list ptr) : Prop :=
  ∀ sd' k, ∃ n, G' sd' k = drop n (G sd' k) ∧ (n = 0%nat ∨ sd' = sd).

(** From [w] to [w'] events were only appended, and every trade among them
    satisfies [P]. *)
Definition trades_satisfy (P : Trade.t → Prop) (w w' : OrderBook.World) : Prop :=
  ∃ new, OrderBook.events w' = OrderBook.events w ++ new ∧
         ∀ t, OnTrade t ∈ new → P t.

(** A trade of the aggressor [oi]: it names the side of [oi] as the
    aggressor and the id of [oi] on that side, at a price that is [ok]. *)
Definition deal (oi : Order.t) (ok : Price → Prop) (t : Trade.t) : Prop :=
  ok (Trade.price t) ∧ Trade.aggressor t = Order.side oi ∧
  (if Order.is_buy oi then Trade.buy_order_id t else Trade.sell_order_id t)
  = Order.id oi.

(** The queues of side [sd] were taken best price first between [G] and
    [G']: where a queue has changed, nothing is left at a better price,
    a lower one for a buyer and a higher one for a seller. *)
Definition best_first (is_buy : bool) (sd : BookSide)
    (G G' : BookSide → Z → list ptr) : Prop :=
  ∀ k k', (if is_buy then k' < k else k < k') →
          G' sd k ≠ G sd k → G' sd k' = [].

(** ** Requests that keep the match defined *)

(** [price_changed || qty_increased] of [amend_order]: the amend takes
    the order out of its queue and matches it again. *)
Definition amend_requeues (req : AmendRequest.t) (o : Order.t) : bool :=
  negb (bool_decide (AmendRequest.new_price req = 0))
  && negb (bool_decide (AmendRequest.new_price req = Order.price o))
  || negb (bool_decide (AmendRequest.new_quantity req = 0))
     && bool_decide (AmendRequest.new_quantity req > Order.leaves_qty o).

(** The request does not bring a sell order into [match_against] while
    the bid map is empty, where the initialiser of the iterator would be
    [std::prev] of [end()] of an empty map (C10).  For [add_order]: the
    order buys, or a bid level stands, or it is a FOK order of some
    quantity, which [can_fill_completely] then turns away before the
    match.  For [amend_order]: the order is not active or is not matched
    again, or it buys, or a bid level stands. *)
Definition match_defined (b : OrderBook.t) (r : Request) : bool :=
  match r with
  | Add req =>
      bool_decide (NewOrderRequest.side req = Buy)
      || negb (bool_decide (OrderBook.bids_ b = ∅))
      || bool_decide (NewOrderRequest.type req = FOK)
         && negb (bool_decide (NewOrderRequest.quantity req = 0))
  | Cancel _ => true
  | Amend req =>
      match OrderBook.order_index_ b !! AmendRequest.order_id req with
      | Some p =>
          match OrderBook.order_arena_ b !! p with
          | Some o =>
              negb (Order.is_active o && amend_requeues req o)
              || Order.is_buy o
              || negb (bool_decide (OrderBook.bids_ b = ∅))
          | None => true
          end
      | None => true
      end
  end.

(** From [w] to [w'] events were only appended, and the mark of the
    undefined decrement is not among them. *)
Definition defined_run (w w' : OrderBook.World) : Prop :=
  ∃ new, OrderBook.events w' = OrderBook.events w ++ new ∧
         PrevOfEndOfEmptyMap ∉ new.

(** A step that never evaluates the undefined decrement. *)
Definition quiet {A} (m : M OrderBook.World A) : Prop :=
  ∀ w, sat True m w (λ _ w', defined_run w w').

(** The world a stream of requests leaves behind when each of them is
    admissible and keeps the match defined where it arrives: [None] if one
    is not, or a call faults. *)
Fixpoint after_defined (clk : nat → Timestamp) (rs : list Request)
    (w : OrderBook.World) : option OrderBook.World :=
  match rs with
  | [] => Some w
  | r :: rs =>
      if admissible (OrderBook.book w) r && match_defined (OrderBook.book w) r then
        match serve clk r w with
        | Done (_, w') => after_defined clk rs w'
        | Fault _ => None
        end
      else None
  end.

(** A step after which the index holds no id it did not hold before but
    those in [A]. *)
Definition gains {T} (A : OrderId → Prop) (m : M OrderBook.World T) : Prop :=
  ∀ w, sat True m w (λ _ w', ∀ i, indexed w' i → indexed w i ∨ A i).

(** The world after a bid has rested and has been cancelled: the index no
    longer holds its id 1. *)
Definition cancelled_bid : OrderBook.World :=
  default Scenario.start
    (after Scenario.ticks [Add (Scenario.limit 1 Buy 100 10); Cancel 1] Scenario.start).

(** ** Runs of the engine *)

(** A call on the engine; the last one is a holder of a book replacing its
    trade callback. *)
Inductive Call :=
  | AddSymbol (symbol : string)
  | Submit (req : NewOrderRequest.t)
  | CancelOrder (req : CancelRequest.t)
  | AmendOrder (req : AmendRequest.t)
  | ReplaceTradeCallback (symbol : string).

Inductive Answer :=
  | Registered
  | Submitted (order : option ptr)
  | Replied (ok : bool)
  | Replaced.

Definition engine_serve (clk : nat → Timestamp) (c : Call)
    : M MatchingEngine.World Answer :=
  match c with
  | AddSymbol symbol => MatchingEngine.add_symbol symbol ;; ret Registered
  | Submit req => order <- MatchingEngine.submit_order clk req ;; ret (Submitted order)
  | CancelOrder req => ok <- MatchingEngine.cancel_order clk req ;; ret (Replied ok)
  | AmendOrder req => ok <- MatchingEngine.amend_order clk req ;; ret (Replied ok)
  | ReplaceTradeCallback symbol =>
      MatchingEngine.replace_trade_callback symbol ;; ret Replaced
  end.

Fixpoint engine_serve_all (clk : nat → Timestamp) (cs : list Call)
    : M MatchingEngine.World (list Answer) :=
  match cs with
  | [] => ret []
  | c :: cs =>
      a <- engine_serve clk c ;;
      rest <- engine_serve_all clk cs ;;
      ret (a :: rest)
  end.

(** The engine with the clock readings of its books' orders set aside. *)
Definition untimed_engine (e : MatchingEngine.t) : MatchingEngine.t :=
  MatchingEngine.set_books (untimed_book <$> MatchingEngine.books_ e) e.

Definition untimed_engine_world (w : MatchingEngine.World) : MatchingEngine.World :=
  MatchingEngine.mkWorld (untimed_engine (MatchingEngine.engine w))
    (untimed_event <$> MatchingEngine.events w) (MatchingEngine.clock_reads w).

(** Two outcomes of the engine agree: the same fault, or results related
    by [R] in worlds that differ in stored clock readings only. *)
Definition engine_agree {A} (R : A → A → Prop)
    (r1 r2 : Outcome (A * MatchingEngine.World)) : Prop :=
  match r1, r2 with
  | Done (a1, w1), Done (a2, w2) =>
      R a1 a2 ∧ untimed_engine_world w1 = untimed_engine_world w2
  | Fault f1, Fault f2 => f1 = f2
  | _, _ => False
  end.

Definition engine_sim {A} (R : A → A → Prop) (m1 m2 : M MatchingEngine.World A) : Prop :=
  ∀ w1 w2, untimed_engine_world w1 = untimed_engine_world w2 →
    engine_agree R (m1 w1) (m2 w2).

(** ** OrderBook.h: the queries and the invariant checks *)

Module BookView.

Import OrderBook.

(** A result of [int64_t] arithmetic.  Signed overflow is undefined in
    C++; the value here is the two's complement one the compilers in use
    give, and the theorems on [midprice] and [spread] ask for operands
    that do not overflow. *)
Definition wrap_int64 (z : Z) : Z := (z + 2 ^ 63) mod 2 ^ 64 - 2 ^ 63.

(** [midprice()]: the sum of the two best prices, halved, on
    [Price = int64_t]; the division truncates towards zero. *)
Definition midprice (b : t) : option Price :=
  match best_bid b, best_ask b with
  | Some bb, Some ba => Some (Z.quot (wrap_int64 (bb + ba)) 2)
  | _, _ => None
  end.

(** [spread()]: [*ba - *bb] on [int64_t]. *)
Definition spread (b : t) : option Price :=
  match best_bid b, best_ask b with
  | Some bb, Some ba => Some (wrap_int64 (ba - bb))
  | _, _ => None
  end.

(** The loop of [side_depth]: [count] is incremented only when
    [max_levels > 0]. *)
Fixpoint side_depth_loop (side : list (Z * PriceLevel.t)) (max_levels count : nat)
    (total : Quantity) : Quantity :=
  match side with
  | [] => total
  | (_, level) :: rest =>
      let total := wrap64 (total + PriceLevel.total_quantity level) in
      if bool_decide (0 < max_levels)%nat then
        if bool_decide (max_levels ≤ S count)%nat then total
        else side_depth_loop rest max_levels (S count) total
      else side_depth_loop rest max_levels count total
  end.

Definition side_depth (side : gmap Z PriceLevel.t) (max_levels : nat) : Quantity :=
  side_depth_loop (ascending side) max_levels 0 0.

(** [bid_depth(levels)] and [ask_depth(levels)]: both walk their map
    from [begin()]. *)
Definition bid_depth (levels : nat) (b : t) : Quantity := side_depth (bids_ b) levels.
Definition ask_depth (levels : nat) (b : t) : Quantity := side_depth (asks_ b) levels.

Record BookLevel := mkBookLevel {
  price : Price;
  quantity : Quantity;
  order_count : Z
}.

(** One of the two loops of [get_side_levels], over the levels in the
    order of its iterator: [rbegin()] on for [reverse], [begin()] on
    otherwise. *)
Fixpoint snapshot_loop (its : list (Z * PriceLevel.t)) (count max_levels : nat)
    : list BookLevel :=
  match its with
  | [] => []
  | (k, level) :: rest =>
      if bool_decide (count < max_levels)%nat then
        mkBookLevel k (PriceLevel.total_quantity level) (PriceLevel.order_count level)
          :: snapshot_loop rest (S count) max_levels
      else []
  end.

Section Reserve.

(** Whether [result.reserve(n)] on the empty vector finds room for [n]
    rows: it throws [std::length_error] above [max_size()] and
    [std::bad_alloc] when the allocation fails, which is up to the
    platform and the moment. *)
Variable reserves : nat → bool.

(** [get_side_levels(side, max_levels, reverse)]: [None] when
    [reserve] throws. *)
Definition get_side_levels (side : gmap Z PriceLevel.t) (max_levels : nat)
    (backwards : bool) : option (list BookLevel) :=
  if reserves max_levels then
    Some (snapshot_loop (if backwards then reverse (ascending side)
                         else ascending side)
                        0 max_levels)
  else None.

Definition get_bids (max_levels : nat) (b : t) : option (list BookLevel) :=
  get_side_levels (bids_ b) max_levels true.
Definition get_asks (max_levels : nat) (b : t) : option (list BookLevel) :=
  get_side_levels (asks_ b) max_levels false.

End Reserve.

(** The inner loop of [check_fifo_invariant] over the orders the
    iterator of a level meets. *)
Fixpoint fifo_scan (h : list Order.t) (ps : list ptr) (prev_seq : SeqNum) : bool :=
  match ps with
  | [] => true
  | p :: ps =>
      match h !! p with
      | Some order =>
          if bool_decide (Order.sequence order ≤ prev_seq) then false
          else fifo_scan h ps (Order.sequence order)
      | None => false
      end
  end.

Definition check_side (h : list Order.t) (side : gmap Z PriceLevel.t) : bool :=
  forallb (λ kl, fifo_scan h (PriceLevel.orders h kl.2) 0) (ascending side).

Definition check_fifo_invariant (b : t) : bool :=
  check_side (order_arena_ b) (bids_ b) && check_side (order_arena_ b) (asks_ b).

(** [trade_count()], [total_volume()], [sequence()] *)
Definition trade_count (b : t) : Z := trade_count_ b.
Definition total_volume (b : t) : Z := total_volume_ b.
Definition sequence (b : t) : SeqNum := next_sequence_ b.

End BookView.

(** A limit order with a price and something left, for the queues of
    the examples, and an arena in which three of them are chained into
    one queue at 100. *)
Definition resting_at (price : Price) (leaves : Quantity) : Order.t :=
  Order.set_price price (Order.set_leaves_qty leaves Order.init).

Definition three_queued : list Order.t :=
  [Order.set_next (Some 1%nat) (resting_at 100 7);
   Order.set_prev (Some 0%nat) (Order.set_next (Some 2%nat) (resting_at 100 5));
   Order.set_prev (Some 1%nat) (resting_at 100 4)].

(** The sum of [filled_qty] over the orders of the arena, and of
    [quantity] over a list of trades. *)
Definition sum_filled (h : list Order.t) : Z :=
  foldr (λ o acc, Order.filled_qty o + acc) 0 h.

Definition volume (ts : list Trade.t) : Z :=
  foldr (λ t acc, Trade.quantity t + acc) 0 ts.

(** The world a stream of admissible requests leaves behind: [None] if a
    request is not admissible where it arrives, or a call faults. *)
Fixpoint after_admissible (clk : nat → Timestamp) (rs : list Request)
    (w : OrderBook.World) : option OrderBook.World :=
  match rs with
  | [] => Some w
  | r :: rs =>
      if admissible (OrderBook.book w) r then
        match serve clk r w with
        | Done (_, w') => after_admissible clk rs w'
        | Fault _ => None
        end
      else None
  end.

(** The world at the end of the short session. *)
Definition session_end : OrderBook.World :=
  default Scenario.start
    (after_admissible Scenario.ticks Scenario.session Scenario.start).

(** A step that leaves the id index as it is, if it returns. *)
Definition keeps_index {A} (m : M OrderBook.World A) : Prop :=
  ∀ w, sat True m w (λ _ w',
    OrderBook.order_index_ (OrderBook.book w')
    = OrderBook.order_index_ (OrderBook.book w)).

(** The world with one bid resting: 10 at 100 under id 1. *)
Definition one_bid : OrderBook.World :=
  default Scenario.start
    (after_admissible Scenario.ticks [Add (Scenario.limit 1 Buy 100 10)] Scenario.start).

(** Two bids in one queue: 10 under id 1, then 5 under id 2, at 100. *)
Definition two_bids : OrderBook.World :=
  default Scenario.start
    (after_admissible Scenario.ticks
       [Add (Scenario.limit 1 Buy 100 10); Add (Scenario.limit 2 Buy 100 5)]
       Scenario.start).

(** Two bid levels: 10 at 100 under id 1 and 5 at 101 under id 2. *)
Definition two_levels : OrderBook.World :=
  default Scenario.start
    (after_admissible Scenario.ticks
       [Add (Scenario.limit 1 Buy 100 10); Add (Scenario.limit 2 Buy 101 5)]
       Scenario.start).

(** Both sides: bids at 99 and 101, an ask at 105. *)
Definition two_sided : OrderBook.World :=
  default Scenario.start
    (after_admissible Scenario.ticks
       [Add (Scenario.limit 1 Buy 99 10); Add (Scenario.limit 2 Buy 101 7);
        Add (Scenario.limit 3 Sell 105 4)]
       Scenario.start).

(** The books balance: modulo 2^64, the fills of the orders add up to
    twice the traded volume (each trade fills two orders), and the book's
    own counters are the volume and the number of the trades reported. *)
Definition balanced (w : OrderBook.World) : Prop :=
  wrap64 (sum_filled (OrderBook.order_arena_ (OrderBook.book w)))
    = wrap64 (2 * volume (trades (OrderBook.events w))) ∧
  OrderBook.total_volume_ (OrderBook.book w)
    = wrap64 (volume (trades (OrderBook.events w))) ∧
  OrderBook.trade_count_ (OrderBook.book w)
    = wrap64 (Z.of_nat (length (trades (OrderBook.events w)))).

(** An arena computation that leaves the sum of the fills as it is. *)
Definition thrifty {A} (m : M (list Order.t) A) : Prop :=
  ∀ h, sat True m h (λ _ h', sum_filled h' = sum_filled h).

(** A step that keeps the books balanced. *)
Definition audits {A} (m : M OrderBook.World A) : Prop :=
  ∀ w, balanced w → sat True m w (λ _ w', balanced w').

(** The row [get_side_levels] pushes for a level, and the sum of
    [total_quantity] over a run of levels. *)
Definition level_row (kl : Z * PriceLevel.t) : BookView.BookLevel :=
  BookView.mkBookLevel kl.1 (PriceLevel.total_quantity kl.2)
    (PriceLevel.order_count kl.2).

Definition sum_totals (its : list (Z * PriceLevel.t)) : Z :=
  foldr (λ kl acc, PriceLevel.total_quantity kl.2 + acc) 0 its.

(** An engine with the symbol of the scenarios registered, and the same
    engine with one bid resting in its book. *)
Definition test_engine : MatchingEngine.World :=
  match MatchingEngine.add_symbol Scenario.sym MatchingEngine.start with
  | Done (_, w) => w
  | Fault _ => MatchingEngine.start
  end.

Definition engine_one_bid : MatchingEngine.World :=
  match MatchingEngine.submit_order Scenario.ticks (Scenario.limit 1 Buy 100 10)
          test_engine with
  | Done (_, w) => w
  | Fault _ => test_engine
  end.

(** * Proofs *)

Ltac conjs := repeat match goal with |- _ ∧ _ => split end.
Ltac in_list :=
  vm_compute; repeat first [apply list_elem_of_here | apply list_elem_of_further].

(** ** Rules for runs *)

Section Sat.

Context {S : Type} (F : Prop).

Lemma sat_ret {A} (a : A) (s : S) Q : Q a s → sat F (ret a) s Q.
Proof. done. Qed.

Lemma sat_bind {A B} (m : M S A) (k : A → M S B) s Q :
  sat F m s (λ a s', sat F (k a) s' Q) → sat F (bind m k) s Q.
Proof. unfold sat, bind. destruct (m s) as [[a s']|]; done. Qed.

Lemma sat_mono {A} (m : M S A) s (Q Q' : A → S → Prop) :
  sat F m s Q → (∀ a s', Q a s' → Q' a s') → sat F m s Q'.
Proof. unfold sat. destruct (m s) as [[a s']|]; auto. Qed.

Lemma sat_gets {A} (f : S → A) s Q : Q (f s) s → sat F (gets f) s Q.
Proof. done. Qed.

Lemma sat_modify (f : S → S) s Q : Q tt (f s) → sat F (modify f) s Q.
Proof. done. Qed.

Lemma sat_raise {A} (f : fault) s (Q : A → S → Prop) : F → sat F (raise f) s Q.
Proof. done. Qed.

Lemma sat_when (b : bool) (m : M S unit) s Q :
  (b = true → sat F m s Q) → (b = false → Q tt s) → sat F (when b m) s Q.
Proof. unfold when. destruct b; intros H1 H2; [by apply H1|by apply sat_ret, H2]. Qed.

Lemma sat_zoom {T A} (proj : S → T) (inj : T → S → S) (m : M T A) s Q :
  sat F m (proj s) (λ a t, Q a (inj t s)) → sat F (zoom proj inj m) s Q.
Proof. unfold sat, zoom. destruct (m (proj s)) as [[a t]|]; done. Qed.

End Sat.

Lemma sat_weaken {S A} (m : M S A) s Q : sat False m s Q → sat True m s Q.
Proof. unfold sat. destruct (m s) as [[a s']|]; done. Qed.

Lemma sat_done {S A} F (m : M S A) s a s' Q :
  sat F m s Q → m s = Done (a, s') → Q a s'.
Proof. unfold sat. intros H E. by rewrite E in H. Qed.

(** ** Least and greatest keys *)

Lemma elem_of_keys {A} (m : gmap Z A) k : k ∈ keys m ↔ is_Some (m !! k).
Proof.
  unfold keys. rewrite list_elem_of_fmap. split.
  - intros [[k' a] [-> H]]. apply elem_of_map_to_list in H. by exists a.
  - intros [a H]. exists (k, a). split; [done|]. by apply elem_of_map_to_list.
Qed.

Lemma keys_nil {A} (m : gmap Z A) : keys m = [] ↔ m = ∅.
Proof.
  unfold keys. rewrite <- map_to_list_empty_iff. split.
  - apply fmap_nil_inv.
  - by intros ->.
Qed.

Lemma foldr_min_spec (ks : list Z) :
  match foldr (λ k acc, Some (from_option (Z.min k) k acc)) None ks with
  | None => ks = []
  | Some k => k ∈ ks ∧ ∀ k', k' ∈ ks → k ≤ k'
  end.
Proof.
  induction ks as [|k ks IH]; simpl; [done|].
  destruct (foldr _ None ks) as [a|]; simpl.
  - destruct IH as [Ha Hmin]. split.
    + destruct (Z.min_spec k a) as [[_ ->]|[_ ->]]; [left|by right].
    + intros k' [->|Hk']%elem_of_cons; [lia|]. specialize (Hmin _ Hk'). lia.
  - subst ks. split; [left|]. by intros k' ->%list_elem_of_singleton.
Qed.

Lemma foldr_max_spec (ks : list Z) :
  match foldr (λ k acc, Some (from_option (Z.max k) k acc)) None ks with
  | None => ks = []
  | Some k => k ∈ ks ∧ ∀ k', k' ∈ ks → k' ≤ k
  end.
Proof.
  induction ks as [|k ks IH]; simpl; [done|].
  destruct (foldr _ None ks) as [a|]; simpl.
  - destruct IH as [Ha Hmax]. split.
    + destruct (Z.max_spec k a) as [[_ ->]|[_ ->]]; [by right|left].
    + intros k' [->|Hk']%elem_of_cons; [lia|]. specialize (Hmax _ Hk'). lia.
  - subst ks. split; [left|]. by intros k' ->%list_elem_of_singleton.
Qed.

Lemma min_key_Some {A} (m : gmap Z A) k :
  min_key m = Some k → is_Some (m !! k) ∧ ∀ k', is_Some (m !! k') → k ≤ k'.
Proof.
  unfold min_key. intros E. pose proof (foldr_min_spec (keys m)) as H.
  rewrite E in H. destruct H as [Hk Hmin]. split.
  - by apply elem_of_keys.
  - intros k' Hk'. apply Hmin. by apply elem_of_keys.
Qed.

Lemma min_key_None {A} (m : gmap Z A) : min_key m = None → m = ∅.
Proof.
  unfold min_key. intros E. pose proof (foldr_min_spec (keys m)) as H.
  rewrite E in H. by apply keys_nil.
Qed.

Lemma max_key_Some {A} (m : gmap Z A) k :
  max_key m = Some k → is_Some (m !! k) ∧ ∀ k', is_Some (m !! k') → k' ≤ k.
Proof.
  unfold max_key. intros E. pose proof (foldr_max_spec (keys m)) as H.
  rewrite E in H. destruct H as [Hk Hmax]. split.
  - by apply elem_of_keys.
  - intros k' Hk'. apply Hmax. by apply elem_of_keys.
Qed.

Lemma max_key_None {A} (m : gmap Z A) : max_key m = None → m = ∅.
Proof.
  unfold max_key. intros E. pose proof (foldr_max_spec (keys m)) as H.
  rewrite E in H. by apply keys_nil.
Qed.

Lemma check_no_crossed_book_true (b : OrderBook.t) :
  uncrossed b → OrderBook.check_no_crossed_book b = true.
Proof.
  intros H. unfold OrderBook.check_no_crossed_book, OrderBook.best_bid, OrderBook.best_ask.
  destruct (max_key _) as [bb|] eqn:Eb; [|done].
  destruct (min_key _) as [ba|] eqn:Ea; [|done].
  apply bool_decide_eq_true.
  apply max_key_Some in Eb as [Hb _]. apply min_key_Some in Ea as [Ha _]. auto.
Qed.

Lemma check_no_crossed_book_uncrossed (b : OrderBook.t) :
  OrderBook.check_no_crossed_book b = true → uncrossed b.
Proof.
  unfold OrderBook.check_no_crossed_book, OrderBook.best_bid, OrderBook.best_ask.
  intros H kb ka Hb Ha.
  destruct (max_key _) as [bb|] eqn:Eb.
  - destruct (min_key _) as [ba|] eqn:Ea.
    + apply bool_decide_eq_true in H.
      apply max_key_Some in Eb as [_ Hmax]. apply min_key_Some in Ea as [_ Hmin].
      specialize (Hmax _ Hb). specialize (Hmin _ Ha). lia.
    + apply min_key_None in Ea. rewrite Ea, lookup_empty in Ha. by destruct Ha.
  - apply max_key_None in Eb. rewrite Eb, lookup_empty in Hb. by destruct Hb.
Qed.

(** ** Rules for the arena and the members of the book *)

Section ArenaRules.

Context (F : Prop).

Lemma sat_deref p (h : list Order.t) Q :
  (∀ o, h !! p = Some o → Q o h) → (h !! p = None → F) → sat F (deref p) h Q.
Proof. unfold sat, deref. destruct (h !! p); auto. Qed.

Lemma sat_read {A} p (f : Order.t → A) (h : list Order.t) Q :
  (∀ o, h !! p = Some o → Q (f o) h) → (h !! p = None → F) → sat F (read p f) h Q.
Proof. unfold sat, read, bind, deref, ret. destruct (h !! p); auto. Qed.

Lemma sat_update p f (h : list Order.t) Q :
  (∀ o, h !! p = Some o → Q tt (<[p := f o]> h)) → (h !! p = None → F) →
  sat F (update p f) h Q.
Proof. unfold sat, update, bind, deref, modify. destruct (h !! p); auto. Qed.

End ArenaRules.

Section BookRules.

Import OrderBook.
Context (F : Prop).

Abbreviation heap w := (order_arena_ (book w)).
Abbreviation with_heap h w := (on_book (set_arena h) w).

Lemma sat_arena {A} (m : M (list Order.t) A) w Q :
  sat F m (heap w) (λ a h', Q a (with_heap h' w)) → sat F (arena m) w Q.
Proof.
  intros H. unfold arena.
  by apply (sat_zoom F (λ w, heap w) (λ h, on_book (set_arena h))).
Qed.

Lemma with_heap_same w : with_heap (heap w) w = w.
Proof. by destruct w as [[] ? ?]. Qed.

Lemma sat_arena_deref p w Q :
  (∀ o, heap w !! p = Some o → Q o w) → (heap w !! p = None → F) →
  sat F (arena (deref p)) w Q.
Proof.
  intros H1 H2. apply sat_arena, sat_deref; [|done].
  intros o Ho. rewrite with_heap_same. auto.
Qed.

Lemma sat_arena_read {A} p (f : Order.t → A) w Q :
  (∀ o, heap w !! p = Some o → Q (f o) w) → (heap w !! p = None → F) →
  sat F (arena (read p f)) w Q.
Proof.
  intros H1 H2. apply sat_arena, sat_read; [|done].
  intros o Ho. rewrite with_heap_same. auto.
Qed.

Lemma sat_arena_update p f w Q :
  (∀ o, heap w !! p = Some o → Q tt (with_heap (<[p := f o]> (heap w)) w)) →
  (heap w !! p = None → F) →
  sat F (arena (update p f)) w Q.
Proof. intros H1 H2. by apply sat_arena, sat_update. Qed.

Lemma sat_level_ref sd k w Q :
  (∀ l, levels sd (book w) !! k = Some l → Q l w) →
  (levels sd (book w) !! k = None → F) →
  sat F (level_ref sd k) w Q.
Proof.
  intros H1 H2. unfold level_ref. apply sat_bind, sat_gets.
  destruct (levels sd (book w) !! k) eqn:E; [by apply sat_ret, H1|].
  by apply sat_raise, H2.
Qed.

End BookRules.

(** Projections of the members through the setters. *)

Lemma levels_set_levels sd sd' v b :
  OrderBook.levels sd (OrderBook.set_levels sd' v b)
  = if decide (sd = sd') then v else OrderBook.levels sd b.
Proof. by destruct sd, sd', b. Qed.

Lemma levels_set_levels_eq sd v b :
  OrderBook.levels sd (OrderBook.set_levels sd v b) = v.
Proof. by destruct sd, b. Qed.

Lemma levels_set_levels_other sd v b :
  OrderBook.levels (other sd) (OrderBook.set_levels sd v b)
  = OrderBook.levels (other sd) b.
Proof. by destruct sd, b. Qed.

Lemma levels_set_arena sd h b :
  OrderBook.levels sd (OrderBook.set_arena h b) = OrderBook.levels sd b.
Proof. by destruct sd, b. Qed.

Lemma levels_set_index sd v b :
  OrderBook.levels sd (OrderBook.set_index v b) = OrderBook.levels sd b.
Proof. by destruct sd, b. Qed.

Lemma levels_set_next_sequence sd v b :
  OrderBook.levels sd (OrderBook.set_next_sequence v b) = OrderBook.levels sd b.
Proof. by destruct sd, b. Qed.

Lemma levels_set_trade_count sd v b :
  OrderBook.levels sd (OrderBook.set_trade_count v b) = OrderBook.levels sd b.
Proof. by destruct sd, b. Qed.

Lemma levels_set_total_volume sd v b :
  OrderBook.levels sd (OrderBook.set_total_volume v b) = OrderBook.levels sd b.
Proof. by destruct sd, b. Qed.

Lemma arena_set_levels sd v b :
  OrderBook.order_arena_ (OrderBook.set_levels sd v b) = OrderBook.order_arena_ b.
Proof. by destruct sd, b. Qed.

Lemma index_set_levels sd v b :
  OrderBook.order_index_ (OrderBook.set_levels sd v b) = OrderBook.order_index_ b.
Proof. by destruct sd, b. Qed.

Create Rewrite HintDb book.
#[global] Hint Rewrite levels_set_levels_eq levels_set_levels_other levels_set_arena
  levels_set_index levels_set_next_sequence levels_set_trade_count
  levels_set_total_volume arena_set_levels index_set_levels : book.

(** ** Arena facts *)

Lemma stable_refl h : stable h h.
Proof. intros p o Ho. by exists o. Qed.

Lemma stable_trans h1 h2 h3 : stable h1 h2 → stable h2 h3 → stable h1 h3.
Proof.
  intros H12 H23 p o Ho.
  destruct (H12 _ _ Ho) as (o2 & Ho2 & ? & ? & ?).
  destruct (H23 _ _ Ho2) as (o3 & Ho3 & ? & ? & ?).
  exists o3. split; [done|]. split_and!; congruence.
Qed.

Lemma stable_insert (h : list Order.t) p o o' :
  h !! p = Some o →
  Order.price o' = Order.price o → Order.side o' = Order.side o →
  Order.type o' = Order.type o →
  stable h (<[p := o']> h).
Proof.
  intros Ho ? ? ? q oq Hq. destruct (decide (q = p)) as [->|Hne].
  - exists o'. rewrite list_lookup_insert_eq by (by eapply lookup_lt_Some).
    split; [done|]. split_and!; congruence.
  - exists oq. by rewrite list_lookup_insert_ne.
Qed.

Lemma stable_app h l : stable h (h ++ l).
Proof. intros p o Ho. exists o. split; [|done]. by apply lookup_app_l_Some. Qed.

(** ** Steps that settle *)

Lemma shrinks_refl m : shrinks m m.
Proof. intros k l H. by exists l. Qed.

Lemma shrinks_trans m1 m2 m3 : shrinks m1 m2 → shrinks m2 m3 → shrinks m1 m3.
Proof.
  intros H12 H23 k l3 H3.
  destruct (H23 _ _ H3) as (l2 & H2 & E2).
  destruct (H12 _ _ H2) as (l1 & H1 & E1).
  exists l1. split; [done|congruence].
Qed.

Lemma shrinks_keyed m m' : shrinks m m' → keyed m → keyed m'.
Proof.
  intros Hs Hk k l' Hl'. destruct (Hs _ _ Hl') as (l & Hl & ->). by apply Hk.
Qed.

Lemma shrinks_delete m k : shrinks m (delete k m).
Proof.
  intros k' l' H. apply lookup_delete_Some in H as [_ H]. by exists l'.
Qed.

Lemma shrinks_insert m k l l' :
  m !! k = Some l → PriceLevel.price l' = PriceLevel.price l →
  shrinks m (<[k := l']> m).
Proof.
  intros Hl E k' l'' H. apply lookup_insert_Some in H as [[<- <-]|[_ H]].
  - by exists l.
  - by exists l''.
Qed.

Lemma settles_refl sd w : settles sd w w.
Proof. split_and!; [done|apply shrinks_refl|apply stable_refl]. Qed.

Lemma settles_same_book sd w w' :
  OrderBook.book w' = OrderBook.book w → settles sd w w'.
Proof.
  intros E. unfold settles. rewrite E.
  split_and!; [done|apply shrinks_refl|apply stable_refl].
Qed.

Lemma settles_trans sd w1 w2 w3 :
  settles sd w1 w2 → settles sd w2 w3 → settles sd w1 w3.
Proof.
  intros (E12 & S12 & H12) (E23 & S23 & H23). split_and!.
  - congruence.
  - by eapply shrinks_trans.
  - by eapply stable_trans.
Qed.

Section Settling.

Import OrderBook.
Variable sd : BookSide.

Lemma settling_ret {A} (a : A) : settling sd (ret a).
Proof. intros w. apply sat_ret, settles_refl. Qed.

Lemma settling_raise {A} f : settling sd (raise (A := A) f).
Proof. intros w. by apply sat_raise. Qed.

Lemma settling_bind {A B} (m : M World A) (k : A → M World B) :
  settling sd m → (∀ a, settling sd (k a)) → settling sd (bind m k).
Proof.
  intros Hm Hk w. apply sat_bind. eapply sat_mono; [apply Hm|].
  intros a w1 H1. eapply sat_mono; [apply Hk|].
  intros b w2 H2. exact (settles_trans _ _ _ _ H1 H2).
Qed.

Lemma settling_when b (m : M World unit) : settling sd m → settling sd (when b m).
Proof. intros H. destruct b; [done|apply settling_ret]. Qed.

Lemma settling_gets {A} (f : World → A) : settling sd (gets f).
Proof. intros w. apply sat_gets, settles_refl. Qed.

Lemma settling_arena {A} (m : M (list Order.t) A) :
  (∀ h, sat True m h (λ _ h', stable h h')) → settling sd (arena m).
Proof.
  intros H w. apply sat_arena. eapply sat_mono; [apply H|].
  intros a h' Hh'. split_and!; simpl; autorewrite with book; try done.
  apply shrinks_refl.
Qed.

Lemma settling_arena_read {A} p (f : Order.t → A) : settling sd (arena (read p f)).
Proof.
  apply settling_arena. intros h. apply sat_read; [|done].
  intros _ _. apply stable_refl.
Qed.

Lemma settling_arena_deref p : settling sd (arena (deref p)).
Proof.
  apply settling_arena. intros h. apply sat_deref; [|done].
  intros _ _. apply stable_refl.
Qed.

Lemma settling_arena_update p f : static f → settling sd (arena (update p f)).
Proof.
  intros Hf. apply settling_arena. intros h. apply sat_update; [|done].
  intros o Ho. destruct (Hf o) as (? & ? & ?). by eapply stable_insert.
Qed.

Lemma settling_arena_allocate : settling sd (arena allocate).
Proof. apply settling_arena. intros h. apply stable_app. Qed.

Lemma settling_emit e : settling sd (emit e).
Proof. intros w. by apply sat_modify, settles_same_book. Qed.

Lemma settling_now clk : settling sd (now clk).
Proof.
  unfold now. apply settling_bind; [apply settling_gets|]. intros n.
  apply settling_bind; [|intros; apply settling_ret].
  intros w. by apply sat_modify, settles_same_book.
Qed.

Lemma settling_on_book (f : t → t) :
  (∀ b, levels Bids (f b) = levels Bids b ∧ levels Asks (f b) = levels Asks b
        ∧ order_arena_ (f b) = order_arena_ b) →
  settling sd (modify (on_book f)).
Proof.
  intros H w. apply sat_modify. destruct (H (book w)) as (Eb & Ea & Eh).
  split_and!; simpl in *.
  - by destruct sd.
  - destruct sd; simpl; rewrite ?Eb, ?Ea; apply shrinks_refl.
  - rewrite Eh. apply stable_refl.
Qed.

Lemma settling_next_sequence : settling sd next_sequence.
Proof.
  unfold next_sequence. apply settling_bind; [apply settling_gets|]. intros s.
  apply settling_bind; [|intros; apply settling_ret].
  apply settling_on_book. by intros [].
Qed.

Lemma settling_index_find id : settling sd (index_find id).
Proof. apply settling_gets. Qed.

Lemma settling_index_store id p : settling sd (index_store id p).
Proof. apply settling_on_book. by intros []. Qed.

Lemma settling_index_erase id : settling sd (index_erase id).
Proof. apply settling_on_book. by intros []. Qed.

Lemma settling_get_levels sd' : settling sd (get_levels sd').
Proof. apply settling_gets. Qed.

Lemma settling_find_level sd' k : settling sd (find_level sd' k).
Proof. apply settling_gets. Qed.

Lemma settling_level_ref sd' k : settling sd (level_ref sd' k).
Proof.
  unfold level_ref. apply settling_bind; [apply settling_find_level|].
  intros [l|]; [apply settling_ret|apply settling_raise].
Qed.

Lemma settling_erase_level k : settling sd (erase_level sd k).
Proof.
  intros w. apply sat_modify. split_and!; simpl; autorewrite with book.
  - done.
  - apply shrinks_delete.
  - apply stable_refl.
Qed.

(** Storing, under a key that is there, a level of the same price. *)
Lemma sat_store_level_settles k l l' w :
  levels sd (book w) !! k = Some l →
  PriceLevel.price l' = PriceLevel.price l →
  sat True (store_level sd k l') w (λ _ w', settles sd w w').
Proof.
  intros Hl E. apply sat_modify. split_and!; simpl; autorewrite with book.
  - done.
  - by eapply shrinks_insert.
  - apply stable_refl.
Qed.

Lemma settling_on_level k f : tidy f → settling sd (on_level sd k f).
Proof.
  intros Hf w. unfold on_level.
  apply sat_bind, sat_level_ref; [|done]. intros l Hl.
  apply sat_bind, sat_arena.
  eapply sat_mono; [apply (Hf l)|]. intros l' h' [E Hst]. simpl.
  eapply sat_mono.
  - eapply sat_store_level_settles; [|exact E].
    simpl. autorewrite with book. exact Hl.
  - intros u w' Hw'. eapply settles_trans; [|exact Hw'].
    split_and!; simpl; autorewrite with book; try done. apply shrinks_refl.
Qed.

Lemma settling_reduce_level k filled : settling sd (reduce_level sd k filled).
Proof.
  intros w. unfold reduce_level.
  apply sat_bind, sat_level_ref; [|done]. intros l Hl.
  apply sat_bind.
  assert (Hw : sat True
            (when (PriceLevel.clamps filled l)
                  (emit (ReduceQuantityClamped (PriceLevel.price l) filled))) w
            (λ _ w1, book w1 = book w)).
  { apply sat_when; intros _; [by apply sat_modify|done]. }
  eapply sat_mono; [exact Hw|]. intros u w1 E1. simpl.
  eapply sat_mono.
  - eapply (sat_store_level_settles _ l); [by rewrite E1|].
    unfold PriceLevel.reduce_quantity. by destruct (PriceLevel.clamps _ _).
  - intros u2 w2 H2. eapply settles_trans; [|exact H2].
    by apply settles_same_book.
Qed.

End Settling.

(** ** The methods of a level are tidy *)

Lemma keeps_ret {A} (P : A → Prop) a : P a → keeps P (ret a).
Proof. intros H h. apply sat_ret. split; [done|apply stable_refl]. Qed.

Lemma keeps_bind {A B} (P : A → Prop) (Q : B → Prop) m k :
  keeps P m → (∀ a, P a → keeps Q (k a)) → keeps Q (bind m k).
Proof.
  intros Hm Hk h. apply sat_bind. eapply sat_mono; [apply Hm|].
  intros a h1 [Ha H1]. eapply sat_mono; [apply (Hk a Ha)|].
  intros b h2 [Hb H2]. split; [done|]. by eapply stable_trans.
Qed.

Lemma keeps_read {A} p (f : Order.t → A) : keeps (λ _, True) (read p f).
Proof.
  intros h. apply sat_read; [|done]. intros _ _. split; [done|apply stable_refl].
Qed.

Lemma keeps_update p f : static f → keeps (λ _, True) (update p f).
Proof.
  intros Hf h. apply sat_update; [|done]. intros o Ho.
  destruct (Hf o) as (? & ? & ?). split; [done|]. by eapply stable_insert.
Qed.

Lemma static_set_prev v : static (Order.set_prev v).
Proof. by intros []. Qed.
Lemma static_set_next v : static (Order.set_next v).
Proof. by intros []. Qed.
Lemma static_set_quantity v : static (Order.set_quantity v).
Proof. by intros []. Qed.
Lemma static_set_leaves_qty v : static (Order.set_leaves_qty v).
Proof. by intros []. Qed.
Lemma static_set_sequence v : static (Order.set_sequence v).
Proof. by intros []. Qed.
Lemma static_set_status v : static (Order.set_status v).
Proof. by intros []. Qed.
Lemma static_set_last_update v : static (Order.set_last_update v).
Proof. by intros []. Qed.
Lemma static_fill q t : static (Order.fill q t).
Proof. by intros []. Qed.
Lemma static_cancel t : static (Order.cancel t).
Proof. by intros []. Qed.

#[global] Hint Resolve static_set_prev static_set_next static_set_quantity
  static_set_leaves_qty static_set_sequence static_set_status
  static_set_last_update static_fill static_cancel : core.

(** Reads and static updates, one after the other, up to a final [ret]. *)
Ltac keeps_steps :=
  repeat lazymatch goal with
    | |- keeps _ (bind (read _ _) _) =>
        eapply keeps_bind; [apply keeps_read|intros ? _]
    | |- keeps _ (bind (update _ _) _) =>
        eapply keeps_bind; [apply keeps_update; solve [auto]|intros ? _]
    | |- keeps _ (ret _) => apply keeps_ret; simpl; try done
    end.

Lemma tidy_push_back p : tidy (PriceLevel.push_back p).
Proof.
  intros l. unfold PriceLevel.push_back. keeps_steps.
  eapply (keeps_bind (λ l', PriceLevel.price l' = PriceLevel.price l)).
  - destruct (PriceLevel.tail_ l); keeps_steps.
  - intros l' E. keeps_steps.
Qed.

Lemma tidy_remove p : tidy (PriceLevel.remove p).
Proof.
  intros l. unfold PriceLevel.remove. keeps_steps.
  eapply (keeps_bind (λ l', PriceLevel.price l' = PriceLevel.price l)).
  - destruct a; keeps_steps.
  - intros l1 E1. keeps_steps.
    eapply (keeps_bind (λ l', PriceLevel.price l' = PriceLevel.price l)).
    + destruct a0; keeps_steps.
    + intros l2 E2. keeps_steps.
Qed.

Lemma tidy_pop_front : tidy PriceLevel.pop_front.
Proof.
  intros l. unfold PriceLevel.pop_front.
  destruct (PriceLevel.head_ l) as [order|]; keeps_steps.
  eapply (keeps_bind (λ l', PriceLevel.price l' = PriceLevel.price l)).
  - destruct a; keeps_steps.
  - intros l1 E1. keeps_steps.
Qed.

(** ** Matching settles the contra side *)

Ltac settle :=
  repeat lazymatch goal with
    | |- settling _ (let _ := _ in _) => cbv zeta
    | |- settling _ (ret _) => apply settling_ret
    | |- settling _ (raise _) => apply settling_raise
    | |- settling _ (bind _ _) => apply settling_bind; [|intros ?]
    | |- settling _ (when _ _) => apply settling_when
    | |- settling _ (OrderBook.arena (read _ _)) => apply settling_arena_read
    | |- settling _ (OrderBook.arena (deref _)) => apply settling_arena_deref
    | |- settling _ (OrderBook.arena (update _ _)) =>
        apply settling_arena_update; solve [auto]
    | |- settling _ (OrderBook.arena allocate) => apply settling_arena_allocate
    | |- settling _ (OrderBook.emit _) => apply settling_emit
    | |- settling _ (OrderBook.now _) => apply settling_now
    | |- settling _ OrderBook.next_sequence => apply settling_next_sequence
    | |- settling _ (OrderBook.index_find _) => apply settling_index_find
    | |- settling _ (OrderBook.index_erase _) => apply settling_index_erase
    | |- settling _ (OrderBook.index_store _ _) => apply settling_index_store
    | |- settling _ (modify (OrderBook.on_book _)) =>
        apply settling_on_book; by intros []
    | |- settling _ (OrderBook.reduce_level _ _ _) => apply settling_reduce_level
    | |- settling _ (OrderBook.erase_level _ _) => apply settling_erase_level
    | |- settling _ (OrderBook.on_level _ _ _) =>
        apply settling_on_level;
        first [apply tidy_pop_front | apply tidy_remove | apply tidy_push_back]
    | |- settling _ (OrderBook.level_ref _ _) => apply settling_level_ref
    | |- settling _ (OrderBook.find_level _ _) => apply settling_find_level
    | |- settling _ (OrderBook.get_levels _) => apply settling_get_levels
    | |- settling _ (match ?x with _ => _ end) => destruct x
    end.

Arguments OrderBook.fifo_loop : simpl never.
Arguments OrderBook.level_loop : simpl never.

Section Matching.

Import OrderBook.
Variable clk : nat → Timestamp.

Lemma fifo_loop_S fuel incoming sd k :
  fifo_loop clk (S fuel) incoming sd k =
  (leaves <- arena (read incoming Order.leaves_qty) ;;
   level <- level_ref sd k ;;
   if bool_decide (0 < leaves) && negb (PriceLevel.empty level) then
     fill_front clk incoming sd k leaves level ;;
     fifo_loop clk fuel incoming sd k
   else ret tt).
Proof. reflexivity. Qed.

Lemma level_loop_S fuel incoming sd price_ok :
  level_loop clk (S fuel) incoming sd price_ok =
  (leaves <- arena (read incoming Order.leaves_qty) ;;
   contra <- get_levels sd ;;
   if bool_decide (0 < leaves) && negb (bool_decide (contra = ∅)) then
     is_buy <- arena (read incoming Order.is_buy) ;;
     match best_key is_buy contra with
     | None => raise DanglingLevel
     | Some k =>
         level <- level_ref sd k ;;
         price <- arena (read incoming Order.price) ;;
         if negb (price_ok price (PriceLevel.price level)) then ret tt
         else
           fifo_loop clk (S (Z.to_nat (PriceLevel.order_count level))) incoming sd k ;;
           level <- level_ref sd k ;;
           when (PriceLevel.empty level) (erase_level sd k) ;;
           level_loop clk fuel incoming sd price_ok
     end
   else ret tt).
Proof. reflexivity. Qed.

Lemma settling_fill_front incoming sd k leaves level :
  settling sd (fill_front clk incoming sd k leaves level).
Proof. unfold fill_front. settle. Qed.

Lemma settling_fifo_loop fuel incoming sd k :
  settling sd (fifo_loop clk fuel incoming sd k).
Proof.
  induction fuel as [|fuel IH]; [apply settling_raise|].
  rewrite fifo_loop_S. settle; [apply settling_fill_front|apply IH].
Qed.

Lemma level_loop_spec fuel incoming sd price_ok w :
  sat True (level_loop clk fuel incoming sd price_ok) w
    (λ _ w', settles sd w w' ∧ loop_exit sd price_ok incoming w').
Proof.
  revert w. induction fuel as [|fuel IH]; intros w; [by apply sat_raise|].
  rewrite level_loop_S.
  apply sat_bind, sat_arena_read; [|done]. intros o Ho.
  apply sat_bind, sat_gets.
  destruct (bool_decide (0 < Order.leaves_qty o)
            && negb (bool_decide (levels sd (book w) = ∅))) eqn:C.
  - apply sat_bind, sat_arena_read; [|done]. intros o' Ho'.
    assert (o' = o) as -> by congruence. clear Ho'.
    destruct (best_key _ _) as [k|] eqn:Ek; [|by apply sat_raise].
    apply sat_bind, sat_level_ref; [|done]. intros l Hl.
    apply sat_bind, sat_arena_read; [|done]. intros o' Ho'.
    assert (o' = o) as -> by congruence. clear Ho'.
    destruct (negb (price_ok _ _)) eqn:Hok.
    + apply sat_ret. split; [apply settles_refl|].
      intros o' Ho' _. assert (o' = o) as -> by congruence.
      right. exists k, l. split_and!; [done..|].
      by apply negb_true_iff.
    + apply sat_bind. eapply sat_mono; [apply settling_fifo_loop|].
      intros u1 w1 S1. simpl.
      apply sat_bind, sat_level_ref; [|done]. intros l1 Hl1.
      apply sat_bind.
      eapply sat_mono; [apply (settling_when sd), settling_erase_level|].
      intros u2 w2 S2. simpl.
      eapply sat_mono; [apply IH|].
      intros u3 w3 [S3 Hexit]. split; [|done].
      exact (settles_trans _ _ _ _ S1 (settles_trans _ _ _ _ S2 S3)).
  - apply sat_ret. split; [apply settles_refl|].
    intros o' Ho' Hpos. assert (o' = o) as -> by congruence.
    apply andb_false_iff in C as [C|C].
    + by apply bool_decide_eq_false in C.
    + left. apply negb_false_iff, bool_decide_eq_true in C. done.
Qed.

Lemma match_against_spec incoming sd price_ok w :
  sat True (match_against clk incoming sd price_ok) w
    (λ _ w', settles sd w w' ∧ loop_exit sd price_ok incoming w').
Proof.
  unfold match_against.
  apply sat_bind, sat_arena_read; [|done]. intros o Ho.
  apply sat_bind, sat_gets.
  apply sat_bind.
  eapply sat_mono; [apply (settling_when sd), settling_emit|].
  intros u1 w1 S1. simpl.
  eapply sat_mono; [apply level_loop_spec|].
  intros u2 w2 [S2 Hexit]. split; [|done]. exact (settles_trans _ _ _ _ S1 S2).
Qed.

End Matching.

(** ** From the exit of the loop to an uncrossed book *)

Section Uncrossed.

Import OrderBook.
Variable clk : nat → Timestamp.

Abbreviation heap w := (order_arena_ (book w)).

Lemma buy_price_ok_false p k k' :
  buy_price_ok p k = false → k ≤ k' → buy_price_ok p k' = false ∧ p < k'.
Proof.
  unfold buy_price_ok, PRICE_MARKET. intros H Hle.
  apply orb_false_iff in H as [H1 H2].
  apply bool_decide_eq_false in H1. apply bool_decide_eq_false in H2.
  split; [|lia].
  apply orb_false_iff. split; apply bool_decide_eq_false; [lia|done].
Qed.

Lemma sell_price_ok_false p k k' :
  sell_price_ok p k = false → k' ≤ k → sell_price_ok p k' = false ∧ k' < p.
Proof.
  unfold sell_price_ok, PRICE_MARKET. intros H Hle.
  apply orb_false_iff in H as [H1 H2].
  apply bool_decide_eq_false in H1. apply bool_decide_eq_false in H2.
  split; [|lia].
  apply orb_false_iff. split; apply bool_decide_eq_false; [lia|done].
Qed.

Lemma loop_exit_unmatched (is_buy : bool) incoming w :
  keyed (levels (contra_side is_buy) (book w)) →
  (∀ o, heap w !! incoming = Some o → Order.is_buy o = is_buy) →
  loop_exit (contra_side is_buy) (crosses is_buy) incoming w →
  unmatched (contra_side is_buy) incoming w.
Proof.
  intros Hkeyed Hside Hexit o k Ho Hpos Hk.
  rewrite (Hside _ Ho).
  destruct (Hexit o Ho Hpos) as [E|(k0 & l & Hbest & Hl & Hno)].
  { rewrite E, lookup_empty in Hk. by destruct Hk. }
  rewrite (Hside _ Ho) in Hbest. rewrite (Hkeyed _ _ Hl) in Hno.
  destruct is_buy; simpl in *.
  - apply min_key_Some in Hbest as [_ Hmin].
    by apply (buy_price_ok_false _ k0), Hmin.
  - apply max_key_Some in Hbest as [_ Hmax].
    by apply (sell_price_ok_false _ k0), Hmax.
Qed.

Lemma can_fill_completely_pure order w :
  sat True (can_fill_completely order) w (λ _ w', w' = w).
Proof.
  unfold can_fill_completely.
  apply sat_bind, sat_arena_read; [|done]. intros o Ho.
  apply sat_bind, sat_arena_read; [|done]. intros o1 _.
  apply sat_bind, sat_gets.
  apply sat_bind, sat_arena_read; [|done]. intros o2 _.
  by apply sat_ret.
Qed.

Lemma settles_side sd w w' p o :
  settles sd w w' → heap w !! p = Some o →
  ∃ o', heap w' !! p = Some o' ∧ Order.price o' = Order.price o ∧
        Order.is_buy o' = Order.is_buy o ∧ Order.type o' = Order.type o.
Proof.
  intros (_ & _ & Hst) Ho. destruct (Hst _ _ Ho) as (o' & Ho' & Ep & Es & Et).
  exists o'. split_and!; try done. unfold Order.is_buy. by rewrite Es.
Qed.

Lemma match_spec incoming w o :
  heap w !! incoming = Some o →
  keyed (levels (contra_side (Order.is_buy o)) (book w)) →
  sat True (match_ clk incoming) w
    (λ _ w', settles (contra_side (Order.is_buy o)) w w' ∧
             (Order.type o ≠ FOK →
              unmatched (contra_side (Order.is_buy o)) incoming w')).
Proof.
  intros Ho Hkeyed. unfold match_.
  apply sat_bind, sat_arena_read; [|done]. intros o' Ho'.
  assert (o' = o) as -> by congruence. clear Ho'.
  apply sat_bind.
  assert (Hf : sat True
            (if bool_decide (Order.type o = FOK) then can_fill_completely incoming
             else ret true) w
            (λ feasible w', w' = w ∧ (Order.type o ≠ FOK → feasible = true))).
  { destruct (bool_decide (Order.type o = FOK)) eqn:E.
    - apply bool_decide_eq_true in E.
      eapply sat_mono; [apply can_fill_completely_pure|]. by intros ? ? ->.
    - by apply sat_ret. }
  eapply sat_mono; [exact Hf|]. intros feasible w1 [-> Hfeas]. simpl.
  destruct feasible; simpl.
  - apply sat_bind, sat_arena_read; [|done]. intros o' Ho'.
    assert (o' = o) as -> by congruence. clear Ho'.
    assert (Hm : sat True
              (match_against clk incoming (contra_side (Order.is_buy o))
                 (crosses (Order.is_buy o))) w
              (λ _ w', settles (contra_side (Order.is_buy o)) w w' ∧
                       unmatched (contra_side (Order.is_buy o)) incoming w')).
    { eapply sat_mono; [apply match_against_spec|].
      intros u w' [Hs Hexit]. split; [done|].
      apply loop_exit_unmatched; [|
        |exact Hexit].
      - destruct Hs as (_ & Hsh & _). by eapply shrinks_keyed.
      - intros o' Ho'. destruct (settles_side _ _ _ _ _ Hs Ho) as (o2 & Ho2 & _ & E & _).
        congruence. }
    destruct (Order.is_buy o); simpl in *;
      (eapply sat_mono; [exact Hm|]); intros u w' [? ?]; done.
  - apply sat_ret. split; [apply settles_refl|].
    intros Hne. by specialize (Hfeas Hne).
Qed.

End Uncrossed.

(** ** The public operations keep the book uncrossed *)

Section NoCross.

Import OrderBook.
Variable clk : nat → Timestamp.

Abbreviation heap w := (order_arena_ (book w)).

Lemma settles_shrinks_both sd w w' :
  settles sd w w' →
  shrinks (bids_ (book w)) (bids_ (book w')) ∧
  shrinks (asks_ (book w)) (asks_ (book w')).
Proof.
  intros (E & S & _). destruct sd; simpl in *.
  - split; [done|]. rewrite E. apply shrinks_refl.
  - split; [|done]. rewrite E. apply shrinks_refl.
Qed.

Lemma shrinks_book_inv b b' :
  shrinks (bids_ b) (bids_ b') → shrinks (asks_ b) (asks_ b') →
  book_inv b → book_inv b'.
Proof.
  intros Sb Sa (Kb & Ka & U). split_and!.
  - by eapply shrinks_keyed.
  - by eapply shrinks_keyed.
  - intros kb ka [lb Hb] [la Ha].
    destruct (Sb _ _ Hb) as (? & ? & _). destruct (Sa _ _ Ha) as (? & ? & _).
    apply U; by eexists.
Qed.

Lemma settles_book_inv sd w w' :
  settles sd w w' → book_inv (book w) → book_inv (book w').
Proof.
  intros H. apply settles_shrinks_both in H as [? ?]. by apply shrinks_book_inv.
Qed.

Lemma settling_remove_from_book order :
  ∀ w, sat True (remove_from_book order) w (λ _ w', ∃ sd, settles sd w w').
Proof.
  intros w. unfold remove_from_book.
  apply sat_bind, sat_arena_read; [|done]. intros o Ho.
  set (sd := own_side (Order.is_buy o)).
  assert (H : settling sd
    (price <- arena (read order Order.price) ;;
     found <- find_level sd price ;;
     match found with
     | Some _ =>
         on_level sd price (PriceLevel.remove order) ;;
         l <- level_ref sd price ;;
         when (PriceLevel.empty l) (erase_level sd price)
     | None => ret tt
     end)) by settle.
  eapply sat_mono; [apply H|]. intros u w' Hs. by exists sd.
Qed.

(** [rest_order] puts a level of the order's price under that price on
    the order's own side and leaves the other side alone. *)
Lemma rest_order_spec order w o :
  heap w !! order = Some o →
  keyed (levels (own_side (Order.is_buy o)) (book w)) →
  sat True (rest_order order) w
    (λ _ w',
       let sd := own_side (Order.is_buy o) in
       levels (other sd) (book w') = levels (other sd) (book w) ∧
       ∃ l', levels sd (book w') = <[Order.price o := l']> (levels sd (book w)) ∧
             PriceLevel.price l' = Order.price o).
Proof.
  intros Ho Hkeyed. unfold rest_order.
  apply sat_bind, sat_arena_read; [|done]. intros o' Ho'.
  assert (o' = o) as -> by congruence. clear Ho'.
  apply sat_bind, sat_arena_read; [|done]. intros o' Ho'.
  assert (o' = o) as -> by congruence. clear Ho'.
  set (sd := own_side (Order.is_buy o)) in *. set (k := Order.price o).
  apply sat_bind, sat_gets. apply sat_bind.
  assert (Hpre : sat True
    (when (bool_decide (levels sd (book w) !! k = None))
          (store_level sd k (PriceLevel.init k))) w
    (λ _ w1, levels (other sd) (book w1) = levels (other sd) (book w) ∧
             ∃ l, levels sd (book w1) !! k = Some l ∧ PriceLevel.price l = k ∧
                  <[k := l]> (levels sd (book w)) = levels sd (book w1))).
  { apply sat_when; intros E.
    - apply bool_decide_eq_true in E. apply sat_modify. simpl.
      autorewrite with book. split; [done|].
      exists (PriceLevel.init k). by rewrite lookup_insert_eq.
    - apply bool_decide_eq_false in E.
      destruct (levels sd (book w) !! k) as [l|] eqn:El; [|done].
      split; [done|]. exists l. split_and!; [done| |by apply insert_id].
      by apply Hkeyed. }
  eapply sat_mono; [exact Hpre|]. clear Hpre.
  intros u w1 (Eo & l & Hl & Ek & Em). simpl.
  unfold on_level.
  apply sat_bind, sat_level_ref; [|done]. intros l1 Hl1.
  assert (l1 = l) as -> by congruence.
  apply sat_bind, sat_arena.
  eapply sat_mono; [apply (tidy_push_back order l)|].
  intros l' h' [El' _]. simpl.
  apply sat_modify. simpl. autorewrite with book.
  split; [done|]. exists l'. split; [|congruence].
  by rewrite <- Em, insert_insert_eq.
Qed.

Lemma calms_refl w : calms w w.
Proof. split; apply shrinks_refl. Qed.

Lemma calms_trans w1 w2 w3 : calms w1 w2 → calms w2 w3 → calms w1 w3.
Proof. intros [? ?] [? ?]. split; by eapply shrinks_trans. Qed.

Lemma calms_book_inv w w' : calms w w' → book_inv (book w) → book_inv (book w').
Proof. intros [? ?]. by apply shrinks_book_inv. Qed.

Lemma settles_calms sd w w' : settles sd w w' → calms w w'.
Proof. apply settles_shrinks_both. Qed.

Lemma calm_ret {A} (a : A) : calm (ret a).
Proof. intros w. apply sat_ret, calms_refl. Qed.

Lemma calm_bind {A B} (m : M World A) (k : A → M World B) :
  calm m → (∀ a, calm (k a)) → calm (bind m k).
Proof.
  intros Hm Hk w. apply sat_bind. eapply sat_mono; [apply Hm|].
  intros a w1 H1. eapply sat_mono; [apply Hk|].
  intros b w2 H2. exact (calms_trans _ _ _ H1 H2).
Qed.

Lemma calm_when b (m : M World unit) : calm m → calm (when b m).
Proof. intros H. destruct b; [done|apply calm_ret]. Qed.

Lemma calm_settling {A} sd (m : M World A) : settling sd m → calm m.
Proof.
  intros H w. eapply sat_mono; [apply H|]. intros a w'. apply settles_calms.
Qed.

Lemma calm_arena {A} (m : M (list Order.t) A) : calm (arena m).
Proof.
  intros w. apply sat_arena. unfold sat. destruct (m _) as [[a h']|]; [|done].
  split; apply shrinks_refl.
Qed.

Lemma calm_remove_from_book order : calm (remove_from_book order).
Proof.
  intros w. eapply sat_mono; [apply settling_remove_from_book|].
  intros u w' [sd H]. by eapply settles_calms.
Qed.

End NoCross.

(** Anything but [match_] and [rest_order], step by step. *)
Ltac becalm :=
  repeat lazymatch goal with
    | |- calm (let _ := _ in _) => cbv zeta
    | |- calm (ret _) => apply calm_ret
    | |- calm (bind _ _) => apply calm_bind; [|intros ?]
    | |- calm (when _ _) => apply calm_when
    | |- calm (OrderBook.arena _) => apply calm_arena
    | |- calm (OrderBook.remove_from_book _) => apply calm_remove_from_book
    | |- calm (match ?x with _ => _ end) => destruct x
    | |- calm (OrderBook.reduce_level ?sd _ _) =>
        apply (calm_settling sd), settling_reduce_level
    | |- calm _ => apply (calm_settling Bids); solve [settle]
    end.

Section NoCrossOps.

Import OrderBook.
Variable clk : nat → Timestamp.

Abbreviation heap w := (order_arena_ (book w)).

Lemma match_calm incoming w :
  keyed (bids_ (book w)) → keyed (asks_ (book w)) →
  sat True (match_ clk incoming) w
    (λ _ w', calms w w' ∧
       ∀ o', heap w' !! incoming = Some o' → Order.type o' ≠ FOK →
             unmatched (contra_side (Order.is_buy o')) incoming w').
Proof.
  intros Kb Ka. destruct (heap w !! incoming) as [o|] eqn:Ho.
  - eapply sat_mono; [apply (match_spec clk incoming w o Ho)|].
    + by destruct (Order.is_buy o).
    + intros u w' [Hs Hun]. split; [by eapply settles_calms|].
      intros o' Ho' Ht.
      destruct (settles_side _ _ _ _ _ Hs Ho) as (o2 & Ho2 & _ & Eb & Et).
      assert (o2 = o') as -> by congruence.
      rewrite Eb. apply Hun. congruence.
  - unfold sat, match_, bind, arena, zoom, read, bind, deref. by rewrite Ho.
Qed.

Lemma rest_order_inv order w :
  book_inv (book w) →
  (∀ o, heap w !! order = Some o →
        0 < Order.leaves_qty o ∧
        unmatched (contra_side (Order.is_buy o)) order w) →
  sat True (rest_order order) w (λ _ w', book_inv (book w')).
Proof.
  intros (Kb & Ka & U) Hun. destruct (heap w !! order) as [o|] eqn:Ho.
  - destruct (Hun o eq_refl) as [Hpos Hno].
    eapply sat_mono; [apply (rest_order_spec order w o Ho)|].
    + by destruct (Order.is_buy o).
    + intros u w' (Eother & l' & Eown & El'). simpl in *.
      destruct (Order.is_buy o) eqn:Eb; simpl in *.
      * unfold book_inv, uncrossed. rewrite Eown, Eother. split_and!.
        -- intros k l [[<- <-]|[_ H]]%lookup_insert_Some; [done|by apply Kb].
        -- done.
        -- intros kb ka Hb Ha.
           apply lookup_insert_is_Some in Hb as [<-|[_ Hb]]; [|by apply U].
           specialize (Hno o ka Ho Hpos Ha). rewrite Eb in Hno. simpl in Hno.
           by apply (buy_price_ok_false _ ka ka) in Hno as [_ ?].
      * unfold book_inv, uncrossed. rewrite Eown, Eother. split_and!.
        -- done.
        -- intros k l [[<- <-]|[_ H]]%lookup_insert_Some; [done|by apply Ka].
        -- intros kb ka Hb Ha.
           apply lookup_insert_is_Some in Ha as [<-|[_ Ha]]; [|by apply U].
           specialize (Hno o kb Ho Hpos Hb). rewrite Eb in Hno. simpl in Hno.
           by apply (sell_price_ok_false _ kb kb) in Hno as [_ ?].
  - unfold sat, rest_order, bind, arena, zoom, read, bind, deref. by rewrite Ho.
Qed.

End NoCrossOps.

Section NoCrossPublic.

Import OrderBook.
Variable clk : nat → Timestamp.

Abbreviation heap w := (order_arena_ (book w)).

(** A calm step in front of a continuation that needs the invariant. *)
Lemma sat_calm_then {A B} (m : M World A) (k : A → M World B) w Q :
  calm m → book_inv (book w) →
  (∀ a w1, book_inv (book w1) → sat True (k a) w1 Q) →
  sat True (bind m k) w Q.
Proof.
  intros Hm Hinv Hk. apply sat_bind. eapply sat_mono; [apply Hm|].
  intros a w1 H1. apply Hk. exact (calms_book_inv _ _ H1 Hinv).
Qed.

Lemma sat_calm_last {A} (m : M World A) w :
  calm m → book_inv (book w) → sat True m w (λ _ w', book_inv (book w')).
Proof.
  intros Hm Hinv. eapply sat_mono; [apply Hm|].
  intros a w1 H1. exact (calms_book_inv _ _ H1 Hinv).
Qed.

Lemma calm_cancel_rest order : calm (cancel_rest clk order).
Proof. unfold cancel_rest. becalm. Qed.

Lemma add_order_inv req w :
  book_inv (book w) →
  sat True (add_order clk req) w (λ _ w', book_inv (book w')).
Proof.
  intros Hinv. unfold add_order.
  apply sat_calm_then; [becalm|done|]. intros order w1 H1.
  apply sat_calm_then; [becalm|done|]. intros seq w2 H2.
  apply sat_calm_then; [becalm|done|]. intros t w3 H3.
  apply sat_calm_then; [becalm|done|]. intros u4 w4 H4.
  apply sat_calm_then; [becalm|done|]. intros u5 w5 H5.
  apply sat_bind.
  eapply sat_mono; [apply match_calm; apply H5|].
  intros u6 w6 [C6 Hun]. simpl.
  pose proof (calms_book_inv _ _ C6 H5) as H6.
  apply sat_bind, sat_arena_read; [|done]. intros o Ho.
  apply sat_bind.
  eapply sat_mono; [|intros ? ? H; apply sat_ret; exact H].
  apply sat_when; intros Hpos; [|done].
  apply bool_decide_eq_true in Hpos.
  apply sat_bind, sat_arena_read; [|done]. intros o' Ho'.
  assert (o' = o) as -> by congruence. clear Ho'.
  destruct (Order.type o) eqn:Et.
  - apply rest_order_inv; [done|].
    intros o' Ho'. assert (o' = o) as -> by congruence.
    split; [done|]. apply Hun; [done|]. by rewrite Et.
  - apply sat_calm_last; [apply calm_cancel_rest|done].
  - apply sat_calm_last; [apply calm_cancel_rest|done].
  - apply sat_calm_last; [apply calm_cancel_rest|done].
Qed.

Lemma calm_cancel_order id : calm (cancel_order clk id).
Proof. unfold cancel_order. becalm. Qed.

Lemma cancel_order_inv id w :
  book_inv (book w) →
  sat True (cancel_order clk id) w (λ _ w', book_inv (book w')).
Proof. intros. by apply sat_calm_last; [apply calm_cancel_order|]. Qed.

Lemma amend_order_inv req w :
  book_inv (book w) →
  sat True (amend_order clk req) w (λ _ w', book_inv (book w')).
Proof.
  intros Hinv. unfold amend_order.
  apply sat_calm_then; [becalm|done|]. intros [order|] w1 H1;
    [|by apply sat_ret].
  apply sat_calm_then; [becalm|done|]. intros active w2 H2.
  destruct (negb active); [by apply sat_ret|].
  apply sat_calm_then; [becalm|done|]. intros price w3 H3.
  apply sat_calm_then; [becalm|done|]. intros leaves w4 H4.
  apply sat_bind.
  eapply sat_mono; [|intros ? ? H; apply sat_calm_last; [becalm|exact H]].
  destruct (_ || _).
  - apply sat_calm_then; [becalm|done|]. intros u5 w5 H5.
    apply sat_calm_then; [becalm|done|]. intros u6 w6 H6.
    apply sat_calm_then; [becalm|done|]. intros u7 w7 H7.
    apply sat_calm_then; [becalm|done|]. intros seq w8 H8.
    apply sat_calm_then; [becalm|done|]. intros u9 w9 H9.
    apply sat_calm_then; [becalm|done|]. intros u10 w10 H10.
    apply sat_calm_then; [becalm|done|]. intros t w11 H11.
    apply sat_calm_then; [becalm|done|]. intros u12 w12 H12.
    apply sat_bind.
    eapply sat_mono; [apply match_calm; apply H12|].
    intros u13 w13 [C13 Hun]. simpl.
    pose proof (calms_book_inv _ _ C13 H12) as H13.
    apply sat_bind, sat_arena_read; [|done]. intros o Ho.
    apply sat_bind, sat_arena_read; [|done]. intros o' Ho'.
    assert (o' = o) as -> by congruence. clear Ho'.
    apply sat_when; intros Hc; [|done].
    apply andb_true_iff in Hc as [Hpos Ht].
    apply bool_decide_eq_true in Hpos. apply bool_decide_eq_true in Ht.
    apply rest_order_inv; [done|].
    intros o' Ho'. assert (o' = o) as -> by congruence.
    split; [done|]. apply Hun; [done|]. by rewrite Ht.
  - apply sat_calm_last; [|done]. becalm.
Qed.

Lemma serve_inv r w :
  book_inv (book w) → sat True (serve clk r) w (λ _ w', book_inv (book w')).
Proof.
  intros Hinv. destruct r as [req|id|req]; simpl; apply sat_bind.
  - eapply sat_mono; [by apply add_order_inv|]. by intros.
  - eapply sat_mono; [by apply cancel_order_inv|]. by intros.
  - eapply sat_mono; [by apply amend_order_inv|]. by intros.
Qed.

Lemma serve_all_inv rs w :
  book_inv (book w) → sat True (serve_all clk rs) w (λ _ w', book_inv (book w')).
Proof.
  revert w. induction rs as [|r rs IH]; intros w Hinv; simpl; [by apply sat_ret|].
  apply sat_bind. eapply sat_mono; [by apply serve_inv|].
  intros a w1 H1. simpl. apply sat_bind. eapply sat_mono; [by apply IH|].
  intros rest w2 H2. by apply sat_ret.
Qed.

Lemma book_inv_start symbol : book_inv (book (start symbol)).
Proof.
  split_and!; try done. intros kb ka [? H]. simpl in H. by rewrite lookup_empty in H.
Qed.

End NoCrossPublic.

(** C5. No crossed book: from the book as constructed, after every stream
    of [add_order], [cancel_order] and [amend_order] calls in which each call
    returns, [check_no_crossed_book] holds: if both sides have a level, the
    greatest bid price is below the least ask price.  A stream is every
    prefix of a longer one, so this is the state after each single call. *)
Theorem no_crossed_book clk symbol rs w :
  after clk rs (OrderBook.start symbol) = Some w →
  OrderBook.check_no_crossed_book (OrderBook.book w) = true ∧
  (∀ bb ba,
     OrderBook.best_bid (OrderBook.book w) = Some bb →
     OrderBook.best_ask (OrderBook.book w) = Some ba → bb < ba).
Proof.
  unfold after. intros H.
  destruct (serve_all clk rs (OrderBook.start symbol)) as [[a w']|] eqn:E; [|done].
  injection H as ->.
  pose proof (serve_all_inv clk rs _ (book_inv_start symbol)) as Hs.
  unfold sat in Hs. rewrite E in Hs. destruct Hs as (_ & _ & U).
  split; [by apply check_no_crossed_book_true|].
  unfold OrderBook.best_bid, OrderBook.best_ask. intros bb ba Hb Ha.
  apply max_key_Some in Hb as [Hb _]. apply min_key_Some in Ha as [Ha _].
  by apply U.
Qed.

Lemma no_crossed_book_witness :
  ∃ w bb ba,
    after Scenario.ticks
      [Add (Scenario.limit 1 Buy 100 10); Add (Scenario.limit 2 Sell 105 10);
       Add (Scenario.limit 3 Buy 105 4)] Scenario.start = Some w ∧
    OrderBook.best_bid (OrderBook.book w) = Some bb ∧
    OrderBook.best_ask (OrderBook.book w) = Some ba ∧
    bb < ba.
Proof.
  eexists _, 100, 105.
  split; [vm_compute; reflexivity|].
  split; [vm_compute; reflexivity|].
  split; [vm_compute; reflexivity|].
  refine (proj2 (no_crossed_book Scenario.ticks Scenario.sym
                   [Add (Scenario.limit 1 Buy 100 10); Add (Scenario.limit 2 Sell 105 10);
                    Add (Scenario.limit 3 Buy 105 4)] _ _) 100 105 _ _);
    vm_compute; reflexivity.
Defined.

(** ** Independence of the clock *)

Lemma untimed_order_idemp o : untimed_order (untimed_order o) = untimed_order o.
Proof. done. Qed.

Lemma timeless_eq {A} (f : Order.t → A) o1 o2 :
  timeless f → untimed_order o1 = untimed_order o2 → f o1 = f o2.
Proof. intros Hf E. by rewrite <- (Hf o1), <- (Hf o2), E. Qed.

Lemma untimed_lookup (h1 h2 : list Order.t) p :
  untimed_order <$> h1 = untimed_order <$> h2 →
  match h1 !! p, h2 !! p with
  | Some o1, Some o2 => untimed_order o1 = untimed_order o2
  | None, None => True
  | _, _ => False
  end.
Proof.
  intros E. pose proof (f_equal (λ h, h !! p) E) as Ep. simpl in Ep.
  rewrite !list_lookup_fmap in Ep.
  destruct (h1 !! p), (h2 !! p); simpl in Ep; try done. congruence.
Qed.

Lemma untimed_insert (h1 h2 : list Order.t) p o1 o2 :
  untimed_order <$> h1 = untimed_order <$> h2 →
  untimed_order o1 = untimed_order o2 →
  untimed_order <$> <[p := o1]> h1 = untimed_order <$> <[p := o2]> h2.
Proof. intros E Eo. by rewrite !list_fmap_insert, E, Eo. Qed.

Section HSim.

Lemma hsim_ret {A} (R : A → A → Prop) a1 a2 : R a1 a2 → hsim R (ret a1) (ret a2).
Proof. intros H h1 h2 E. done. Qed.

Lemma hsim_bind {A B} (R : A → A → Prop) (R' : B → B → Prop) m1 m2 k1 k2 :
  hsim R m1 m2 → (∀ a1 a2, R a1 a2 → hsim R' (k1 a1) (k2 a2)) →
  hsim R' (bind m1 k1) (bind m2 k2).
Proof.
  intros Hm Hk h1 h2 E. specialize (Hm h1 h2 E). unfold bind.
  destruct (m1 h1) as [[a1 h1']|], (m2 h2) as [[a2 h2']|]; try done.
  destruct Hm as [Ha E']. by apply Hk.
Qed.

Lemma hsim_deref p :
  hsim (λ o1 o2, untimed_order o1 = untimed_order o2) (deref p) (deref p).
Proof.
  intros h1 h2 E. unfold deref. pose proof (untimed_lookup h1 h2 p E) as H.
  by destruct (h1 !! p), (h2 !! p).
Qed.

Lemma hsim_read {A} p (f : Order.t → A) : timeless f → hsim eq (read p f) (read p f).
Proof.
  intros Hf. unfold read. eapply hsim_bind; [apply hsim_deref|].
  intros o1 o2 E. apply hsim_ret. by apply timeless_eq.
Qed.

Lemma hsim_update p f1 f2 : cotimed f1 f2 → hsim eq (update p f1) (update p f2).
Proof.
  intros Hf h1 h2 E. unfold update, bind, deref, modify.
  pose proof (untimed_lookup h1 h2 p E) as H.
  destruct (h1 !! p), (h2 !! p); try done.
  split; [done|]. apply untimed_insert; [done|]. by apply Hf.
Qed.

Lemma hsim_allocate : hsim eq allocate allocate.
Proof.
  intros h1 h2 E. unfold allocate. split.
  - by rewrite <- (length_fmap untimed_order h1), E, length_fmap.
  - by rewrite !fmap_app, E.
Qed.

End HSim.

Lemma timeless_id : timeless Order.id. Proof. by intros []. Qed.
Lemma timeless_side : timeless Order.side. Proof. by intros []. Qed.
Lemma timeless_type : timeless Order.type. Proof. by intros []. Qed.
Lemma timeless_price : timeless Order.price. Proof. by intros []. Qed.
Lemma timeless_quantity : timeless Order.quantity. Proof. by intros []. Qed.
Lemma timeless_filled_qty : timeless Order.filled_qty. Proof. by intros []. Qed.
Lemma timeless_leaves_qty : timeless Order.leaves_qty. Proof. by intros []. Qed.
Lemma timeless_prev : timeless Order.prev. Proof. by intros []. Qed.
Lemma timeless_next : timeless Order.next. Proof. by intros []. Qed.
Lemma timeless_symbol : timeless Order.symbol. Proof. by intros []. Qed.
Lemma timeless_is_buy : timeless Order.is_buy. Proof. by intros []. Qed.
Lemma timeless_is_filled : timeless Order.is_filled. Proof. by intros []. Qed.
Lemma timeless_is_active : timeless Order.is_active. Proof. by intros []. Qed.

#[global] Hint Resolve timeless_id timeless_side timeless_type timeless_price
  timeless_quantity timeless_filled_qty timeless_leaves_qty timeless_prev
  timeless_next timeless_symbol timeless_is_buy timeless_is_filled
  timeless_is_active : core.

Ltac cotimed_solve :=
  let o1 := fresh in let o2 := fresh in let E := fresh in
  intros o1 o2 E; destruct o1, o2; injection E; intros; subst; reflexivity.

Lemma cotimed_set_prev v : cotimed (Order.set_prev v) (Order.set_prev v).
Proof. cotimed_solve. Qed.
Lemma cotimed_set_next v : cotimed (Order.set_next v) (Order.set_next v).
Proof. cotimed_solve. Qed.
Lemma cotimed_set_price v : cotimed (Order.set_price v) (Order.set_price v).
Proof. cotimed_solve. Qed.
Lemma cotimed_set_quantity v : cotimed (Order.set_quantity v) (Order.set_quantity v).
Proof. cotimed_solve. Qed.
Lemma cotimed_set_leaves_qty v : cotimed (Order.set_leaves_qty v) (Order.set_leaves_qty v).
Proof. cotimed_solve. Qed.
Lemma cotimed_set_sequence v : cotimed (Order.set_sequence v) (Order.set_sequence v).
Proof. cotimed_solve. Qed.
Lemma cotimed_set_status v : cotimed (Order.set_status v) (Order.set_status v).
Proof. cotimed_solve. Qed.
Lemma cotimed_set_last_update t1 t2 :
  cotimed (Order.set_last_update t1) (Order.set_last_update t2).
Proof. cotimed_solve. Qed.
Lemma cotimed_fill q t1 t2 : cotimed (Order.fill q t1) (Order.fill q t2).
Proof. cotimed_solve. Qed.
Lemma cotimed_cancel t1 t2 : cotimed (Order.cancel t1) (Order.cancel t2).
Proof. cotimed_solve. Qed.

#[global] Hint Resolve cotimed_set_prev cotimed_set_next cotimed_set_price
  cotimed_set_quantity cotimed_set_leaves_qty cotimed_set_sequence
  cotimed_set_status cotimed_set_last_update cotimed_fill cotimed_cancel : core.

Section Sim.

Import OrderBook.

Lemma untimed_inv w1 w2 :
  untimed w1 = untimed w2 →
  untimed_order <$> order_arena_ (book w1) = untimed_order <$> order_arena_ (book w2) ∧
  (∀ sd, levels sd (book w1) = levels sd (book w2)) ∧
  order_index_ (book w1) = order_index_ (book w2) ∧
  next_sequence_ (book w1) = next_sequence_ (book w2) ∧
  trade_count_ (book w1) = trade_count_ (book w2) ∧
  total_volume_ (book w1) = total_volume_ (book w2) ∧
  symbol_ (book w1) = symbol_ (book w2) ∧
  untimed_event <$> events w1 = untimed_event <$> events w2 ∧
  clock_reads w1 = clock_reads w2.
Proof.
  destruct w1 as [[] ? ?], w2 as [[] ? ?]. unfold untimed, untimed_book. simpl.
  intros [=]. subst. split_and!; try done.
Qed.

Lemma untimed_intro w1 w2 :
  untimed_order <$> order_arena_ (book w1) = untimed_order <$> order_arena_ (book w2) →
  bids_ (book w1) = bids_ (book w2) →
  asks_ (book w1) = asks_ (book w2) →
  order_index_ (book w1) = order_index_ (book w2) →
  next_sequence_ (book w1) = next_sequence_ (book w2) →
  trade_count_ (book w1) = trade_count_ (book w2) →
  total_volume_ (book w1) = total_volume_ (book w2) →
  symbol_ (book w1) = symbol_ (book w2) →
  untimed_event <$> events w1 = untimed_event <$> events w2 →
  clock_reads w1 = clock_reads w2 →
  untimed w1 = untimed w2.
Proof.
  destruct w1 as [[] ? ?], w2 as [[] ? ?]. unfold untimed, untimed_book. simpl.
  intros. unfold set_arena. simpl in *. congruence.
Qed.

Lemma sim_ret {A} (R : A → A → Prop) a1 a2 : R a1 a2 → sim R (ret a1) (ret a2).
Proof. intros H w1 w2 E. done. Qed.

Lemma sim_raise {A} (R : A → A → Prop) f : sim R (raise f) (raise f).
Proof. intros w1 w2 E. done. Qed.

Lemma sim_bind {A B} (R : A → A → Prop) (R' : B → B → Prop) m1 m2 k1 k2 :
  sim R m1 m2 → (∀ a1 a2, R a1 a2 → sim R' (k1 a1) (k2 a2)) →
  sim R' (bind m1 k1) (bind m2 k2).
Proof.
  intros Hm Hk w1 w2 E. specialize (Hm w1 w2 E). unfold bind, agree in *.
  destruct (m1 w1) as [[a1 w1']|], (m2 w2) as [[a2 w2']|]; try done.
  destruct Hm as [Ha E']. by apply Hk.
Qed.

Lemma sim_when b m1 m2 : sim eq m1 m2 → sim eq (when b m1) (when b m2).
Proof. intros H. destruct b; [done|by apply sim_ret]. Qed.

Lemma sim_arena {A} (R : A → A → Prop) m1 m2 :
  hsim R m1 m2 → sim R (arena m1) (arena m2).
Proof.
  intros H w1 w2 E. unfold arena, zoom, agree.
  destruct (untimed_inv _ _ E) as (Eh & El & ? & ? & ? & ? & ? & ? & ?).
  specialize (H _ _ Eh).
  destruct (m1 _) as [[a1 h1']|], (m2 _) as [[a2 h2']|]; try done.
  destruct H as [Ha Eh']. split; [done|].
  apply untimed_intro; simpl; try done.
  - apply (El Bids).
  - apply (El Asks).
Qed.

Lemma sim_gets {A} (f : World → A) :
  (∀ w1 w2, untimed w1 = untimed w2 → f w1 = f w2) → sim eq (gets f) (gets f).
Proof. intros H w1 w2 E. split; [by apply H|done]. Qed.

Lemma sim_modify (f1 f2 : World → World) :
  (∀ w1 w2, untimed w1 = untimed w2 → untimed (f1 w1) = untimed (f2 w2)) →
  sim eq (modify f1) (modify f2).
Proof. intros H w1 w2 E. split; [done|by apply H]. Qed.

Lemma sim_emit e1 e2 :
  untimed_event e1 = untimed_event e2 → sim eq (emit e1) (emit e2).
Proof.
  intros He. apply sim_modify. intros w1 w2 E.
  destruct (untimed_inv _ _ E) as (Eh & El & ? & ? & ? & ? & ? & Ee & ?).
  apply untimed_intro; simpl; try done.
  - apply (El Bids).
  - apply (El Asks).
  - rewrite !fmap_app, Ee. simpl. by rewrite He.
Qed.

Lemma sim_now clk1 clk2 : sim (λ _ _, True) (now clk1) (now clk2).
Proof.
  intros w1 w2 E. unfold now, bind, gets, modify, ret. split; [done|].
  destruct (untimed_inv _ _ E) as (Eh & El & ? & ? & ? & ? & ? & Ee & Ec).
  apply untimed_intro; simpl; try done.
  - apply (El Bids).
  - apply (El Asks).
  - by rewrite Ec.
Qed.

(** A change of the book that leaves the arena alone and is decided by
    the members other than the arena. *)
Lemma sim_on_book (f : t → t) :
  (∀ b, order_arena_ (f b) = order_arena_ b) →
  (∀ b h, f (set_arena h b) = set_arena h (f b)) →
  sim eq (modify (on_book f)) (modify (on_book f)).
Proof.
  intros Hh Hf. apply sim_modify. intros w1 w2 E.
  assert (Hc : ∀ w, untimed (on_book f w) = on_book f (untimed w)).
  { intros w. unfold untimed, untimed_book, on_book. simpl. by rewrite Hh, Hf. }
  by rewrite !Hc, E.
Qed.

Lemma sim_next_sequence : sim eq next_sequence next_sequence.
Proof.
  unfold next_sequence. eapply (sim_bind eq).
  - apply sim_gets. intros w1 w2 E. by apply untimed_inv in E as (?&?&?&?&?).
  - intros s ? <-. eapply (sim_bind eq); [|intros; by apply sim_ret].
    apply sim_on_book; by intros [].
Qed.

Lemma sim_get_levels sd : sim eq (get_levels sd) (get_levels sd).
Proof.
  apply sim_gets. intros w1 w2 E. apply untimed_inv in E as (?&El&?). apply El.
Qed.

Lemma sim_find_level sd k : sim eq (find_level sd k) (find_level sd k).
Proof.
  apply sim_gets. intros w1 w2 E. apply untimed_inv in E as (?&El&?).
  by rewrite El.
Qed.

Lemma sim_level_ref sd k : sim eq (level_ref sd k) (level_ref sd k).
Proof.
  unfold level_ref. eapply (sim_bind eq); [apply sim_find_level|].
  intros o ? <-. destruct o; [by apply sim_ret|apply sim_raise].
Qed.

Lemma sim_store_level sd k l : sim eq (store_level sd k l) (store_level sd k l).
Proof. apply sim_on_book; by intros []; destruct sd. Qed.

Lemma sim_erase_level sd k : sim eq (erase_level sd k) (erase_level sd k).
Proof. apply sim_on_book; by intros []; destruct sd. Qed.

Lemma sim_index_find id : sim eq (index_find id) (index_find id).
Proof.
  apply sim_gets. intros w1 w2 E. apply untimed_inv in E as (?&?&Ei&?).
  by rewrite Ei.
Qed.

Lemma sim_index_store id p : sim eq (index_store id p) (index_store id p).
Proof. apply sim_on_book; by intros []. Qed.

Lemma sim_index_erase id : sim eq (index_erase id) (index_erase id).
Proof. apply sim_on_book; by intros []. Qed.

Lemma sim_on_level sd k f :
  (∀ l, hsim eq (f l) (f l)) → sim eq (on_level sd k f) (on_level sd k f).
Proof.
  intros Hf. unfold on_level.
  eapply (sim_bind eq); [apply sim_level_ref|]. intros l ? <-.
  eapply (sim_bind eq); [apply sim_arena, Hf|]. intros l' ? <-.
  apply sim_store_level.
Qed.

Lemma sim_reduce_level sd k q : sim eq (reduce_level sd k q) (reduce_level sd k q).
Proof.
  unfold reduce_level.
  eapply (sim_bind eq); [apply sim_level_ref|]. intros l ? <-.
  eapply (sim_bind eq); [by apply sim_when, sim_emit|]. intros u ? <-.
  apply sim_store_level.
Qed.

End Sim.

Ltac hsimsteps :=
  repeat lazymatch goal with
    | |- hsim _ (ret _) (ret _) => apply hsim_ret; try done
    | |- hsim _ (bind (read _ _) _) (bind (read _ _) _) =>
        eapply (hsim_bind eq); [apply hsim_read; solve [auto]|intros ? ? <-]
    | |- hsim _ (bind (update _ _) _) (bind (update _ _) _) =>
        eapply (hsim_bind eq); [apply hsim_update; solve [auto]|intros ? ? <-]
    | |- hsim _ (bind (match ?x with _ => _ end) _) _ =>
        eapply (hsim_bind eq); [destruct x|intros ? ? <-]
    | |- hsim _ (match ?x with _ => _ end) _ => destruct x
    end.

Lemma hsim_push_back p l :
  hsim eq (PriceLevel.push_back p l) (PriceLevel.push_back p l).
Proof. unfold PriceLevel.push_back. hsimsteps. Qed.

Lemma hsim_remove p l : hsim eq (PriceLevel.remove p l) (PriceLevel.remove p l).
Proof. unfold PriceLevel.remove. hsimsteps. Qed.

Lemma hsim_pop_front l : hsim eq (PriceLevel.pop_front l) (PriceLevel.pop_front l).
Proof. unfold PriceLevel.pop_front. hsimsteps. Qed.

Ltac simsteps :=
  repeat lazymatch goal with
    | |- sim _ (let _ := _ in _) _ => cbv zeta
    | |- sim _ (ret _) (ret _) => apply sim_ret; try done
    | |- sim _ (raise _) (raise _) => apply sim_raise
    | |- sim _ (bind (OrderBook.now _) _) (bind (OrderBook.now _) _) =>
        eapply sim_bind; [apply sim_now|intros ? ? _]
    | |- sim _ (bind (OrderBook.arena (deref _)) _) (bind _ _) =>
        eapply sim_bind; [apply sim_arena, hsim_deref|intros ? ? ?]
    | |- sim _ (bind _ _) (bind _ _) => eapply (sim_bind eq); [|intros ? ? <-]
    | |- sim _ (when _ _) (when _ _) => apply sim_when
    | |- sim _ (OrderBook.arena (read _ _)) _ =>
        apply sim_arena, hsim_read; solve [auto]
    | |- sim _ (OrderBook.arena (update _ _)) _ =>
        apply sim_arena, hsim_update; solve [auto | cotimed_solve]
    | |- sim _ (OrderBook.arena allocate) _ => apply sim_arena, hsim_allocate
    | |- sim _ (OrderBook.emit _) (OrderBook.emit _) =>
        apply sim_emit; simpl; solve [reflexivity | congruence]
    | |- sim _ OrderBook.next_sequence _ => apply sim_next_sequence
    | |- sim _ (OrderBook.index_find _) _ => apply sim_index_find
    | |- sim _ (OrderBook.index_store _ _) _ => apply sim_index_store
    | |- sim _ (OrderBook.index_erase _) _ => apply sim_index_erase
    | |- sim _ (OrderBook.get_levels _) _ => apply sim_get_levels
    | |- sim _ (OrderBook.find_level _ _) _ => apply sim_find_level
    | |- sim _ (OrderBook.level_ref _ _) _ => apply sim_level_ref
    | |- sim _ (OrderBook.store_level _ _ _) _ => apply sim_store_level
    | |- sim _ (OrderBook.erase_level _ _) _ => apply sim_erase_level
    | |- sim _ (OrderBook.reduce_level _ _ _) _ => apply sim_reduce_level
    | |- sim _ (OrderBook.on_level _ _ (PriceLevel.push_back _)) _ =>
        apply sim_on_level, hsim_push_back
    | |- sim _ (OrderBook.on_level _ _ (PriceLevel.remove _)) _ =>
        apply sim_on_level, hsim_remove
    | |- sim _ (OrderBook.on_level _ _ PriceLevel.pop_front) _ =>
        apply sim_on_level, hsim_pop_front
    | |- sim _ (modify (OrderBook.on_book _)) _ => apply sim_on_book; by intros []
    | |- sim _ (match ?x with _ => _ end) _ => destruct x
    end.

Section SimBook.

Import OrderBook.
Variables clk1 clk2 : nat → Timestamp.

Lemma sim_rest_order order : sim eq (rest_order order) (rest_order order).
Proof. unfold rest_order. simsteps. Qed.

Lemma sim_remove_from_book order :
  sim eq (remove_from_book order) (remove_from_book order).
Proof. unfold remove_from_book. simsteps. Qed.

Lemma sim_can_fill_completely order :
  sim eq (can_fill_completely order) (can_fill_completely order).
Proof. unfold can_fill_completely. simsteps. Qed.

Lemma sim_fill_front incoming sd k leaves level :
  sim eq (fill_front clk1 incoming sd k leaves level)
         (fill_front clk2 incoming sd k leaves level).
Proof. unfold fill_front. simsteps. Qed.

Lemma sim_fifo_loop fuel incoming sd k :
  sim eq (fifo_loop clk1 fuel incoming sd k) (fifo_loop clk2 fuel incoming sd k).
Proof.
  induction fuel as [|fuel IH]; [apply sim_raise|].
  rewrite !fifo_loop_S. simsteps; [apply sim_fill_front|apply IH].
Qed.

Lemma sim_level_loop fuel incoming sd price_ok :
  sim eq (level_loop clk1 fuel incoming sd price_ok)
         (level_loop clk2 fuel incoming sd price_ok).
Proof.
  induction fuel as [|fuel IH]; [apply sim_raise|].
  rewrite !level_loop_S. simsteps; [apply sim_fifo_loop|apply IH].
Qed.

Lemma sim_match_against incoming sd price_ok :
  sim eq (match_against clk1 incoming sd price_ok)
         (match_against clk2 incoming sd price_ok).
Proof. unfold match_against. simsteps. apply sim_level_loop. Qed.

Lemma sim_match incoming : sim eq (match_ clk1 incoming) (match_ clk2 incoming).
Proof.
  unfold match_. simsteps;
    first [apply sim_can_fill_completely | apply sim_match_against].
Qed.

Lemma sim_cancel_rest order :
  sim eq (cancel_rest clk1 order) (cancel_rest clk2 order).
Proof. unfold cancel_rest. simsteps. Qed.

Lemma sim_add_order req : sim eq (add_order clk1 req) (add_order clk2 req).
Proof.
  unfold add_order. simsteps;
    first [apply sim_match | apply sim_rest_order | apply sim_cancel_rest].
Qed.

Lemma sim_cancel_order id : sim eq (cancel_order clk1 id) (cancel_order clk2 id).
Proof. unfold cancel_order. simsteps. apply sim_remove_from_book. Qed.

Lemma sim_amend_order req : sim eq (amend_order clk1 req) (amend_order clk2 req).
Proof.
  unfold amend_order. simsteps;
    first [apply sim_match | apply sim_rest_order | apply sim_remove_from_book].
Qed.

Lemma sim_serve r : sim eq (serve clk1 r) (serve clk2 r).
Proof.
  destruct r; simpl; simsteps;
    first [apply sim_add_order | apply sim_cancel_order | apply sim_amend_order].
Qed.

Lemma sim_serve_all rs : sim eq (serve_all clk1 rs) (serve_all clk2 rs).
Proof.
  induction rs as [|r rs IH]; simpl; simsteps; [apply sim_serve|apply IH].
Qed.

End SimBook.

Lemma trades_untimed evs :
  trades (untimed_event <$> evs) = untimed_trade <$> trades evs.
Proof.
  unfold trades. induction evs as [|ev evs IH]; [done|].
  destruct ev; csimpl; by rewrite ?IH.
Qed.

Lemma trade_key_untimed t : trade_key (untimed_trade t) = trade_key t.
Proof. done. Qed.

(** *** The engine *)

Section SimEngine.

Import MatchingEngine.
Variables clk1 clk2 : nat → Timestamp.

Lemma engine_untimed_inv w1 w2 :
  untimed_engine_world w1 = untimed_engine_world w2 →
  untimed_book <$> books_ (engine w1) = untimed_book <$> books_ (engine w2) ∧
  stats_ (engine w1) = stats_ (engine w2) ∧
  trade_callback_ (engine w1) = trade_callback_ (engine w2) ∧
  untimed_event <$> events w1 = untimed_event <$> events w2 ∧
  clock_reads w1 = clock_reads w2.
Proof.
  destruct w1 as [[] ? ?], w2 as [[] ? ?].
  unfold untimed_engine_world, untimed_engine, set_books. simpl.
  intros [=]. by subst.
Qed.

Lemma engine_untimed_intro w1 w2 :
  untimed_book <$> books_ (engine w1) = untimed_book <$> books_ (engine w2) →
  stats_ (engine w1) = stats_ (engine w2) →
  trade_callback_ (engine w1) = trade_callback_ (engine w2) →
  untimed_event <$> events w1 = untimed_event <$> events w2 →
  clock_reads w1 = clock_reads w2 →
  untimed_engine_world w1 = untimed_engine_world w2.
Proof.
  destruct w1 as [[] ? ?], w2 as [[] ? ?].
  unfold untimed_engine_world, untimed_engine, set_books. simpl.
  intros. by subst; f_equal; [f_equal|].
Qed.

Lemma engine_sim_ret {A} (R : A → A → Prop) a1 a2 :
  R a1 a2 → engine_sim R (ret a1) (ret a2).
Proof. intros H w1 w2 E. done. Qed.

Lemma engine_sim_bind {A B} (R : A → A → Prop) (R' : B → B → Prop) m1 m2 k1 k2 :
  engine_sim R m1 m2 → (∀ a1 a2, R a1 a2 → engine_sim R' (k1 a1) (k2 a2)) →
  engine_sim R' (bind m1 k1) (bind m2 k2).
Proof.
  intros Hm Hk w1 w2 E. specialize (Hm w1 w2 E). unfold bind.
  destruct (m1 w1) as [[a1 w1']|], (m2 w2) as [[a2 w2']|]; try done.
  destruct Hm as [Ha E']. by apply Hk.
Qed.

Lemma engine_sim_find_book sym :
  engine_sim (λ b1 b2, untimed_book <$> b1 = untimed_book <$> b2)
    (find_book sym) (find_book sym).
Proof.
  intros w1 w2 E. split; [|done].
  destruct (engine_untimed_inv _ _ E) as (Eb & _).
  by rewrite <- !lookup_fmap, Eb.
Qed.

Lemma engine_sim_stats f :
  engine_sim eq (modify (on_engine (λ e, set_stats (f (stats_ e)) e)))
                (modify (on_engine (λ e, set_stats (f (stats_ e)) e))).
Proof.
  intros w1 w2 E. split; [done|].
  destruct (engine_untimed_inv _ _ E) as (Eb & Es & Ec & Ee & En).
  apply engine_untimed_intro; simpl; congruence.
Qed.

Lemma engine_sim_callbacks f :
  engine_sim eq
    (modify (on_engine (λ e, set_trade_callbacks (f (trade_callback_ e)) e)))
    (modify (on_engine (λ e, set_trade_callbacks (f (trade_callback_ e)) e))).
Proof.
  intros w1 w2 E. split; [done|].
  destruct (engine_untimed_inv _ _ E) as (Eb & Es & Ec & Ee & En).
  apply engine_untimed_intro; simpl; congruence.
Qed.

(** The events a callback lets through do not depend on the clock. *)
Lemma heard_untimed cb evs1 : ∀ evs2,
  untimed_event <$> evs1 = untimed_event <$> evs2 →
  untimed_event <$> heard cb evs1 = untimed_event <$> heard cb evs2.
Proof.
  assert (Hf : ∀ evs1 evs2 : list Event,
            untimed_event <$> evs1 = untimed_event <$> evs2 →
            untimed_event <$> filter not_a_trade evs1
            = untimed_event <$> filter not_a_trade evs2).
  { clear. induction evs1 as [|ev1 evs1 IH]; intros [|ev2 evs2] E; try done.
    injection E as E1 E2. rewrite !filter_cons. pose proof (IH evs2 E2) as E3.
    destruct ev1, ev2; try done; simpl in *;
      (apply (f_equal2 cons); [exact E1|exact E3]). }
  destruct cb as [[]|]; simpl; intros evs2; [done|apply Hf..].
Qed.

(** Delivering them to [on_trade] does not either. *)
Lemma deliver_untimed evs1 : ∀ evs2 w1 w2,
  untimed_event <$> evs1 = untimed_event <$> evs2 →
  untimed_engine_world w1 = untimed_engine_world w2 →
  untimed_engine_world (foldl (λ w ev, on_event ev w) w1 evs1)
  = untimed_engine_world (foldl (λ w ev, on_event ev w) w2 evs2).
Proof.
  induction evs1 as [|ev1 evs1 IH]; intros [|ev2 evs2] w1 w2 E Ew; try done.
  injection E as E1 E2. simpl. apply IH; [done|].
  destruct (engine_untimed_inv _ _ Ew) as (Eb & Es & Ec & Ee & En).
  destruct ev1, ev2; try done; simpl;
    apply engine_untimed_intro; simpl; try done;
    rewrite ?fmap_app, ?Ee; simpl; try congruence;
    try (simpl in E1; by rewrite E1).
  pose proof (f_equal (λ ev, match ev with
                             | OnTrade t => Trade.quantity t
                             | _ => 0
                             end) E1) as Eq.
  simpl in Eq. rewrite Es. unfold count_trade. by rewrite Eq.
Qed.

Lemma engine_sim_in_book {A} sym bk1 bk2 (m1 m2 : M OrderBook.World A) :
  sim eq m1 m2 → untimed_book bk1 = untimed_book bk2 →
  engine_sim eq (in_book sym bk1 m1) (in_book sym bk2 m2).
Proof.
  intros Hm Ebk w1 w2 Ew.
  destruct (engine_untimed_inv _ _ Ew) as (Eb & Es & Ec & Ee & En).
  unfold in_book. rewrite En.
  assert (E0 : untimed (OrderBook.mkWorld bk1 [] (clock_reads w2))
               = untimed (OrderBook.mkWorld bk2 [] (clock_reads w2)))
    by (unfold untimed; simpl; by rewrite Ebk).
  specialize (Hm _ _ E0). unfold agree in Hm.
  destruct (m1 _) as [[a1 bw1]|], (m2 _) as [[a2 bw2]|]; try done.
  destruct Hm as [-> Ebw]. split; [done|].
  pose proof (f_equal OrderBook.book Ebw) as Ebb.
  pose proof (f_equal OrderBook.events Ebw) as Ebe.
  pose proof (f_equal OrderBook.clock_reads Ebw) as Ebn. simpl in Ebb, Ebe, Ebn.
  simpl. rewrite Ec. apply deliver_untimed; [by apply heard_untimed|].
  apply engine_untimed_intro; simpl; try done.
  by rewrite !fmap_insert, Eb, Ebb.
Qed.

Lemma engine_sim_serve c : engine_sim eq (engine_serve clk1 c) (engine_serve clk2 c).
Proof.
  destruct c as [symbol|req|req|req|symbol]; simpl.
  - eapply (engine_sim_bind eq); [|intros; by apply engine_sim_ret].
    intros w1 w2 E. unfold add_symbol, modify, on_engine. split; [done|].
    destruct (engine_untimed_inv _ _ E) as (Eb & Es & Ec & Ee & En).
    pose proof (f_equal (λ m, m !! symbol) Eb) as El. simpl in El.
    rewrite !lookup_fmap in El.
    destruct (books_ (engine w1) !! symbol), (books_ (engine w2) !! symbol);
      try done.
    apply engine_untimed_intro; simpl; try done; [|congruence].
    by rewrite !fmap_insert, Eb.
  - eapply engine_sim_bind; [|intros ? ? ->; by apply engine_sim_ret].
    unfold submit_order. cbv zeta.
    eapply engine_sim_bind; [apply engine_sim_find_book|].
    intros [bk1|] [bk2|] Ebk; try done.
    + apply (inj Some) in Ebk.
      eapply engine_sim_bind; [apply (engine_sim_stats inc_orders)|]. intros _ _ _.
      eapply engine_sim_bind;
        [apply engine_sim_in_book; [apply sim_add_order|done]|].
      intros ? ? ->. by apply engine_sim_ret.
    + eapply engine_sim_bind; [apply (engine_sim_stats inc_rejects)|]. intros _ _ _.
      by apply engine_sim_ret.
  - eapply engine_sim_bind; [|intros ? ? ->; by apply engine_sim_ret].
    unfold cancel_order. cbv zeta.
    eapply engine_sim_bind; [apply engine_sim_find_book|].
    intros [bk1|] [bk2|] Ebk; try done.
    apply (inj Some) in Ebk.
    eapply engine_sim_bind;
      [apply engine_sim_in_book; [apply sim_cancel_order|done]|].
    intros ok ? <-.
    eapply engine_sim_bind; [|intros _ _ _; by apply engine_sim_ret].
    destruct ok; simpl; [apply (engine_sim_stats inc_cancels)|by apply engine_sim_ret].
  - eapply engine_sim_bind; [|intros ? ? ->; by apply engine_sim_ret].
    unfold amend_order. cbv zeta.
    eapply engine_sim_bind; [apply engine_sim_find_book|].
    intros [bk1|] [bk2|] Ebk; try done.
    apply (inj Some) in Ebk.
    eapply engine_sim_bind;
      [apply engine_sim_in_book; [apply sim_amend_order|done]|].
    intros ok ? <-.
    eapply engine_sim_bind; [|intros _ _ _; by apply engine_sim_ret].
    destruct ok; simpl; [apply (engine_sim_stats inc_amends)|by apply engine_sim_ret].
  - eapply (engine_sim_bind eq); [|intros; by apply engine_sim_ret].
    unfold replace_trade_callback, get_book.
    eapply engine_sim_bind; [apply engine_sim_find_book|].
    intros [bk1|] [bk2|] Ebk; try done.
    apply (engine_sim_callbacks (λ cbs, <[symbol := Foreign]> cbs)).
Qed.

Lemma engine_sim_serve_all cs :
  engine_sim eq (engine_serve_all clk1 cs) (engine_serve_all clk2 cs).
Proof.
  induction cs as [|c cs IH]; simpl; [by apply engine_sim_ret|].
  eapply engine_sim_bind; [apply engine_sim_serve|]. intros a ? <-.
  eapply engine_sim_bind; [apply IH|]. intros rest ? <-. by apply engine_sim_ret.
Qed.

End SimEngine.

(** C9, amended.  Determinism: two runs that serve the same requests from
    the same state, each under a clock of its own, fault alike or return
    the same replies, report trades that agree position by position on
    price, quantity, buy_order_id, sell_order_id and sequence, and leave
    states that are equal member by member once the clock readings kept in
    [entry_time] and [last_update] of the orders are set aside.  This holds
    for a book served [add_order], [cancel_order] and [amend_order], and
    for an engine served [add_symbol], [submit_order], [cancel_order] and
    [amend_order] (and a replacement of the trade callback of one of its
    books), with its books, its counters and the trades handed to its
    global callback.  (Runs that share the clock as well are the same
    function applied to the same arguments; the engine holds no random
    number generator.) *)
Theorem determinism clk1 clk2 :
  (∀ rs w,
     match serve_all clk1 rs w, serve_all clk2 rs w with
     | Done (a1, w1), Done (a2, w2) =>
         a1 = a2 ∧
         trade_key <$> trades (OrderBook.events w1)
           = trade_key <$> trades (OrderBook.events w2) ∧
         untimed_book (OrderBook.book w1) = untimed_book (OrderBook.book w2)
     | Fault f1, Fault f2 => f1 = f2
     | _, _ => False
     end) ∧
  (∀ cs w,
     match engine_serve_all clk1 cs w, engine_serve_all clk2 cs w with
     | Done (a1, w1), Done (a2, w2) =>
         a1 = a2 ∧
         trade_key <$> trades (MatchingEngine.events w1)
           = trade_key <$> trades (MatchingEngine.events w2) ∧
         untimed_engine (MatchingEngine.engine w1)
           = untimed_engine (MatchingEngine.engine w2)
     | Fault f1, Fault f2 => f1 = f2
     | _, _ => False
     end).
Proof.
  split.
  - intros rs w.
    pose proof (sim_serve_all clk1 clk2 rs w w eq_refl) as H. unfold agree in H.
    destruct (serve_all clk1 rs w) as [[a1 w1]|], (serve_all clk2 rs w) as [[a2 w2]|];
      try done.
    destruct H as [-> E]. split; [done|].
    pose proof (f_equal OrderBook.book E) as Eb.
    pose proof (f_equal OrderBook.events E) as Ee. simpl in Eb, Ee.
    split; [|done].
    pose proof (f_equal (λ evs, trade_key <$> trades evs) Ee) as Et. simpl in Et.
    rewrite !trades_untimed, <- !list_fmap_compose in Et.
    exact Et.
  - intros cs w.
    pose proof (engine_sim_serve_all clk1 clk2 cs w w eq_refl) as H.
    unfold engine_agree in H.
    destruct (engine_serve_all clk1 cs w) as [[a1 w1]|],
             (engine_serve_all clk2 cs w) as [[a2 w2]|]; try done.
    destruct H as [-> E]. split; [done|].
    pose proof (f_equal MatchingEngine.engine E) as Eb.
    pose proof (f_equal MatchingEngine.events E) as Ee. simpl in Eb, Ee.
    split; [|done].
    pose proof (f_equal (λ evs, trade_key <$> trades evs) Ee) as Et. simpl in Et.
    rewrite !trades_untimed, <- !list_fmap_compose in Et.
    exact Et.
Qed.

(** ** Queues in the arena *)

Lemma last_lookup_pred {A} (l : list A) : last l = l !! pred (length l).
Proof. apply last_lookup. Qed.

Lemma NoDup_bounded_length (ps : list nat) n :
  NoDup ps → (∀ p, p ∈ ps → (p < n)%nat) → (length ps ≤ n)%nat.
Proof.
  intros Hnd Hb.
  assert (ps ⊆+ seq 0 n) as Hsub.
  { apply NoDup_submseteq; [done|]. intros p Hp. apply elem_of_seq.
    specialize (Hb p Hp). lia. }
  apply submseteq_length in Hsub. by rewrite length_seq in Hsub.
Qed.

Lemma NoDup_lookup_inj (ps : list nat) i j p :
  NoDup ps → ps !! i = Some p → ps !! j = Some p → i = j.
Proof. intros Hnd Hi Hj. by eapply NoDup_lookup. Qed.

Lemma relinked_refl h : relinked h h.
Proof. split; [done|]. intros q o Ho. by exists o. Qed.

Lemma relinked_trans h1 h2 h3 : relinked h1 h2 → relinked h2 h3 → relinked h1 h3.
Proof.
  intros [L12 H12] [L23 H23]. split; [congruence|].
  intros q o Ho. destruct (H12 _ _ Ho) as (o2 & Ho2 & E2).
  destruct (H23 _ _ Ho2) as (o3 & Ho3 & E3). exists o3. split; [done|congruence].
Qed.

Lemma relinked_insert (h : list Order.t) p o o' :
  h !! p = Some o → unlinked o' = unlinked o → relinked h (<[p := o']> h).
Proof.
  intros Ho E. split; [by rewrite length_insert|].
  intros q oq Hq. destruct (decide (q = p)) as [->|Hne].
  - exists o'. rewrite list_lookup_insert_eq by (by eapply lookup_lt_Some).
    split; [done|congruence].
  - exists oq. by rewrite list_lookup_insert_ne.
Qed.

Lemma unlinked_set_prev v o : unlinked (Order.set_prev v o) = unlinked o.
Proof. by destruct o. Qed.

Lemma unlinked_set_next v o : unlinked (Order.set_next v o) = unlinked o.
Proof. by destruct o. Qed.

Lemma prev_set_prev v o : Order.prev (Order.set_prev v o) = v.
Proof. by destruct o. Qed.
Lemma next_set_prev v o : Order.next (Order.set_prev v o) = Order.next o.
Proof. by destruct o. Qed.
Lemma prev_set_next v o : Order.prev (Order.set_next v o) = Order.prev o.
Proof. by destruct o. Qed.
Lemma next_set_next v o : Order.next (Order.set_next v o) = v.
Proof. by destruct o. Qed.
Lemma leaves_set_prev v o : Order.leaves_qty (Order.set_prev v o) = Order.leaves_qty o.
Proof. by destruct o. Qed.
Lemma leaves_set_next v o : Order.leaves_qty (Order.set_next v o) = Order.leaves_qty o.
Proof. by destruct o. Qed.

Lemma lrep_lookup h l ps i p :
  lrep h l ps → ps !! i = Some p →
  ∃ o, h !! p = Some o ∧ Order.prev o = before ps i ∧ Order.next o = ps !! S i.
Proof. intros H. apply (lrep_links _ _ _ H). Qed.

Lemma lrep_elem h l ps p : lrep h l ps → p ∈ ps → is_Some (h !! p).
Proof.
  intros H [i Hi]%list_elem_of_lookup.
  destruct (lrep_lookup _ _ _ _ _ H Hi) as (o & Ho & _). by exists o.
Qed.

Lemma lrep_length h l ps : lrep h l ps → (length ps ≤ length h)%nat.
Proof.
  intros H. apply NoDup_bounded_length; [apply (lrep_nodup _ _ _ H)|].
  intros p Hp. destruct (lrep_elem _ _ _ _ H Hp) as [o Ho].
  by eapply lookup_lt_Some.
Qed.

(** A change of the arena away from the queue leaves the queue alone. *)
Lemma lrep_frame h h' l ps :
  lrep h l ps →
  (∀ p o, p ∈ ps → h !! p = Some o →
          ∃ o', h' !! p = Some o' ∧ Order.prev o' = Order.prev o
                ∧ Order.next o' = Order.next o) →
  lrep h' l ps.
Proof.
  intros [Hh Ht Hc Hnd Hl] Hf. split; try done.
  intros i p Hi. destruct (Hl i p Hi) as (o & Ho & Hp & Hn).
  destruct (Hf p o) as (o' & Ho' & Ep & En);
    [by apply list_elem_of_lookup; exists i|done|].
  exists o'. split; [done|]. by rewrite Ep, En.
Qed.

(** The iterator of a level visits its queue. *)
Lemma walk_lrep h l ps (fuel i : nat) :
  lrep h l ps → (length ps ≤ fuel + i)%nat →
  PriceLevel.walk fuel h (ps !! i) = drop i ps.
Proof.
  intros H. revert i. induction fuel as [|fuel IH]; intros i Hlen.
  - simpl. rewrite drop_ge by lia. by destruct (ps !! i).
  - simpl. destruct (ps !! i) as [p|] eqn:Hi.
    + destruct (lrep_lookup _ _ _ _ _ H Hi) as (o & Ho & _ & Hn).
      rewrite Ho. simpl. rewrite Hn, IH by lia.
      symmetry. by apply drop_S.
    + apply lookup_ge_None in Hi. by rewrite drop_ge.
Qed.

Lemma orders_lrep h l ps : lrep h l ps → PriceLevel.orders h l = ps.
Proof.
  intros H. unfold PriceLevel.orders. rewrite (lrep_head _ _ _ H).
  rewrite (walk_lrep h l ps); [done..|].
  pose proof (lrep_length _ _ _ H). lia.
Qed.

Lemma lrep_init h k : lrep h (PriceLevel.init k) [].
Proof. split; try done. apply NoDup_nil_2. Qed.

Lemma lookup_snoc_last {A} (ps : list A) p : (ps ++ [p]) !! length ps = Some p.
Proof. by rewrite lookup_app_r, Nat.sub_diag. Qed.

Lemma push_back_spec h l ps p o :
  lrep h l ps → p ∉ ps → h !! p = Some o →
  Z.of_nat (length ps) + 1 < 2 ^ 32 →
  sat False (PriceLevel.push_back p l) h
    (λ l' h',
       lrep h' l' (ps ++ [p]) ∧
       PriceLevel.price l' = PriceLevel.price l ∧
       PriceLevel.total_quantity_ l'
         = wrap64 (PriceLevel.total_quantity_ l + Order.leaves_qty o) ∧
       relinked h h' ∧
       (∀ q, q ≠ p → q ∉ ps → h' !! q = h !! q) ∧
       (∃ o', h' !! p = Some o' ∧ unlinked o' = unlinked o)).
Proof.
  intros Hrep Hp Ho Hlen. pose proof Hrep as [Hh Ht Hc Hnd Hl].
  assert (Hpl : (p < length h)%nat) by (by eapply lookup_lt_Some).
  unfold PriceLevel.push_back.
  apply sat_bind, sat_update; [|congruence]. intros o1 E1.
  assert (o1 = o) as -> by congruence. clear E1.
  apply sat_bind, sat_update;
    [|by rewrite list_lookup_insert_eq]. intros o2 E2.
  rewrite list_lookup_insert_eq in E2 by done. injection E2 as <-.
  rewrite list_insert_insert_eq.
  set (op := Order.set_next None (Order.set_prev (PriceLevel.tail_ l) o)).
  assert (Eop : unlinked op = unlinked o).
  { unfold op. by rewrite unlinked_set_next, unlinked_set_prev. }
  destruct (PriceLevel.tail_ l) as [tl|] eqn:Etl.
  - (* a queue with a tail *)
    assert (Htl : ps !! pred (length ps) = Some tl) by (by rewrite <- last_lookup_pred).
    assert (Hps : (0 < length ps)%nat).
    { destruct ps; [done|simpl; lia]. }
    assert (Hne : tl ≠ p).
    { intros ->. apply Hp. apply list_elem_of_lookup. by eexists. }
    destruct (Hl _ _ Htl) as (ot & Hot & Hpt & Hnt).
    apply sat_bind, sat_bind, sat_update;
      [|by rewrite list_lookup_insert_ne, Hot by done].
    intros o3 E3. rewrite list_lookup_insert_ne in E3 by done.
    assert (o3 = ot) as -> by congruence. clear E3.
    apply sat_ret. apply sat_bind, sat_read.
    2:{ rewrite list_lookup_insert_ne by done. by rewrite list_lookup_insert_eq. }
    intros o4 E4. rewrite list_lookup_insert_ne, list_lookup_insert_eq in E4 by done.
    injection E4 as <-. apply sat_ret.
    split_and!.
    + split; simpl.
      * rewrite lookup_app_l by done. done.
      * by rewrite last_snoc.
      * rewrite Hc, length_app. simpl. unfold wrap32.
        rewrite Z.mod_small; lia.
      * apply NoDup_app. split_and!; [done| |apply NoDup_singleton].
        intros x Hx ->%list_elem_of_singleton. done.
      * intros i x Hi. destruct (decide (i = length ps)) as [->|Hi'].
        -- rewrite lookup_snoc_last in Hi. injection Hi as <-.
           exists op. split_and!.
           ++ rewrite list_lookup_insert_ne by done. by rewrite list_lookup_insert_eq.
           ++ unfold op. rewrite prev_set_next, prev_set_prev.
              destruct (length ps) eqn:E; [lia|]. simpl in Htl |- *.
              rewrite lookup_app_l by lia. by rewrite Htl.
           ++ unfold op. rewrite next_set_next.
              symmetry. apply lookup_ge_None. rewrite length_app. simpl. lia.
        -- assert (Hlt : (i < length ps)%nat).
           { apply lookup_lt_Some in Hi. rewrite length_app in Hi. simpl in Hi. lia. }
           rewrite lookup_app_l in Hi by done.
           assert (x ≠ p).
           { intros ->. apply Hp. apply list_elem_of_lookup. by eexists. }
           destruct (Hl _ _ Hi) as (ox & Hox & Hpx & Hnx).
           destruct (decide (x = tl)) as [->|Hxt].
           ++ assert (i = pred (length ps)) as -> by (by eapply NoDup_lookup_inj).
              exists (Order.set_next (Some p) ot).
              rewrite list_lookup_insert_eq
                by (rewrite length_insert; by eapply lookup_lt_Some).
              split_and!; [done| |].
              ** rewrite prev_set_next. assert (ox = ot) as -> by congruence.
                 rewrite Hpx. destruct (pred (length ps)) eqn:E; [done|].
                 simpl. rewrite lookup_app_l; [done|lia].
              ** rewrite next_set_next.
                 replace (S (pred (length ps))) with (length ps) by lia.
                 by rewrite lookup_snoc_last.
           ++ exists ox. rewrite !list_lookup_insert_ne by done.
              split_and!; [done| |].
              ** rewrite Hpx. destruct i; [done|]. simpl.
                 rewrite lookup_app_l; [done|lia].
              ** rewrite Hnx. assert (S i ≠ length ps).
                 { intros E. apply Hxt.
                   assert (i = pred (length ps)) as -> by lia. congruence. }
                 rewrite lookup_app_l; [done|lia].
    + done.
    + simpl. unfold op. by rewrite leaves_set_next, leaves_set_prev.
    + eapply relinked_trans.
      * by eapply (relinked_insert h p o op).
      * eapply relinked_insert; [by rewrite list_lookup_insert_ne|].
        by rewrite unlinked_set_next.
    + intros q Hq1 Hq2. rewrite !list_lookup_insert_ne; [done..|].
      intros ->. apply Hq2. apply list_elem_of_lookup. by eexists.
    + exists op. split; [|done].
      rewrite list_lookup_insert_ne by done. by rewrite list_lookup_insert_eq.
  - (* an empty queue *)
    assert (ps = []) as ->.
    { destruct ps as [|x ps] using rev_ind; [done|]. by rewrite last_snoc in Ht. }
    apply sat_bind, sat_ret. apply sat_bind, sat_read;
      [|by rewrite list_lookup_insert_eq].
    intros o4 E4. rewrite list_lookup_insert_eq in E4 by done.
    injection E4 as <-. apply sat_ret.
    split_and!.
    + split; simpl; try done.
      * by rewrite Hc.
      * apply NoDup_singleton.
      * intros [|i] x Hi; [|done]. injection Hi as <-.
        exists op. rewrite list_lookup_insert_eq by done.
        split_and!; [done| |]; unfold op.
        -- by rewrite prev_set_next, prev_set_prev.
        -- by rewrite next_set_next.
    + done.
    + simpl. unfold op. by rewrite leaves_set_next, leaves_set_prev.
    + by eapply relinked_insert.
    + intros q Hq1 Hq2. by rewrite list_lookup_insert_ne.
    + exists op. by rewrite list_lookup_insert_eq.
Qed.

(** Unlinking position [i]: what the arena and the level must look like
    afterwards for the queue to be [delete i ps]. *)
Lemma lrep_delete h h' l l' ps i p :
  lrep h l ps → ps !! i = Some p →
  (∀ j x ox, ps !! j = Some x → j ≠ i → h !! x = Some ox →
     ∃ ox', h' !! x = Some ox' ∧
            Order.prev ox' = (if decide (j = S i) then before ps i else Order.prev ox) ∧
            Order.next ox' = (if decide (S j = i) then ps !! S i else Order.next ox)) →
  PriceLevel.head_ l' = (if decide (i = 0%nat) then ps !! S i else PriceLevel.head_ l) →
  PriceLevel.tail_ l' = (match ps !! S i with
                         | None => before ps i
                         | Some _ => PriceLevel.tail_ l
                         end) →
  PriceLevel.order_count_ l' = PriceLevel.order_count_ l - 1 →
  lrep h' l' (delete i ps).
Proof.
  intros [Hh Ht Hc Hnd Hl] Hi Hcells Hhead Htail Hcount.
  assert (Hlen : length (delete i ps) = pred (length ps)).
  { rewrite length_delete by (by eexists). lia. }
  assert (Hilt : (i < length ps)%nat) by (by eapply lookup_lt_Some).
  split.
  - rewrite Hhead. destruct (decide (i = 0%nat)) as [->|Hne].
    + by rewrite list_lookup_delete_ge by lia.
    + rewrite list_lookup_delete_lt by lia. done.
  - rewrite Htail, last_lookup_pred, Hlen.
    destruct (ps !! S i) as [r|] eqn:Er.
    + apply lookup_lt_Some in Er.
      rewrite list_lookup_delete_ge by lia.
      rewrite Ht, last_lookup_pred. f_equal. lia.
    + apply lookup_ge_None in Er. assert (length ps = S i) as El by lia.
      rewrite El. simpl. destruct i as [|i']; simpl.
      * symmetry. apply lookup_ge_None. rewrite Hlen, El. simpl. lia.
      * by rewrite list_lookup_delete_lt by lia.
  - rewrite Hcount, Hc, Hlen. lia.
  - eapply sublist_NoDup; [exact Hnd|apply sublist_delete].
  - intros j x Hj. destruct (decide (j < i)%nat) as [Hlt|Hge].
    + rewrite list_lookup_delete_lt in Hj by done.
      destruct (Hl _ _ Hj) as (ox & Hox & Hpx & Hnx).
      destruct (Hcells j x ox Hj ltac:(lia) Hox) as (ox' & Hox' & Hp' & Hn').
      exists ox'. split; [done|]. rewrite Hp', Hn'.
      rewrite decide_False by lia. split.
      * rewrite Hpx. destruct j as [|j']; [done|]. simpl.
        by rewrite list_lookup_delete_lt by lia.
      * destruct (decide (S j = i)) as [<-|Hne].
        -- by rewrite list_lookup_delete_ge by lia.
        -- rewrite Hnx. by rewrite list_lookup_delete_lt by lia.
    + rewrite list_lookup_delete_ge in Hj by lia.
      destruct (Hl _ _ Hj) as (ox & Hox & Hpx & Hnx).
      destruct (Hcells (S j) x ox Hj ltac:(lia) Hox) as (ox' & Hox' & Hp' & Hn').
      exists ox'. split; [done|]. rewrite Hp', Hn'.
      rewrite (decide_False (P := S (S j) = i)) by lia. split.
      * destruct (decide (S j = S i)) as [E|Hne].
        -- assert (j = i) as -> by lia. destruct i as [|i']; [done|]. simpl.
           by rewrite list_lookup_delete_lt by lia.
        -- rewrite Hpx. simpl. destruct j as [|j']; [lia|]. simpl.
           rewrite list_lookup_delete_ge by lia. done.
      * rewrite Hnx. by rewrite list_lookup_delete_ge by lia.
Qed.

Lemma list_insert_alter_eq {A} (l : list A) i x f :
  l !! i = Some x → <[i := f x]> l = alter f i l.
Proof.
  revert i. induction l as [|y l IH]; intros [|i] H; simpl in *; try done.
  - by injection H as ->.
  - f_equal. by apply IH.
Qed.

Lemma sat_update_alter F p f (h : list Order.t) Q :
  (is_Some (h !! p) → Q tt (alter f p h)) → (h !! p = None → F) →
  sat F (update p f) h Q.
Proof.
  intros H1 H2. apply sat_update; [|done]. intros o Ho.
  rewrite (list_insert_alter_eq _ _ _ _ Ho). apply H1. by eexists.
Qed.

Lemma lookup_relink x f (h : list Order.t) y :
  relink x f h !! y = (if decide (x = Some y) then f else id) <$> h !! y.
Proof.
  destruct x as [q|]; simpl.
  - destruct (decide (Some q = Some y)) as [[= ->]|Hne].
    + by rewrite list_lookup_alter_eq.
    + rewrite list_lookup_alter_ne by congruence. by rewrite option_fmap_id.
  - by rewrite option_fmap_id.
Qed.

Lemma lookup_alter_decide f (h : list Order.t) p y :
  alter f p h !! y = (if decide (p = y) then f else id) <$> h !! y.
Proof.
  destruct (decide (p = y)) as [->|Hne].
  - by rewrite list_lookup_alter_eq.
  - rewrite list_lookup_alter_ne by done. by rewrite option_fmap_id.
Qed.

Lemma length_relink x f (h : list Order.t) : length (relink x f h) = length h.
Proof. destruct x; simpl; [apply length_alter|done]. Qed.

(** The arena after order [p] at position [i] was unlinked. *)
Lemma unlink_cells h l ps i p :
  lrep h l ps → ps !! i = Some p →
  let pv := before ps i in
  let nx := ps !! S i in
  let h' := alter (λ o, Order.set_next None (Order.set_prev None o)) p
              (relink nx (Order.set_prev pv) (relink pv (Order.set_next nx) h)) in
  (∀ j x ox, ps !! j = Some x → j ≠ i → h !! x = Some ox →
     ∃ ox', h' !! x = Some ox' ∧
            Order.prev ox' = (if decide (j = S i) then pv else Order.prev ox) ∧
            Order.next ox' = (if decide (S j = i) then nx else Order.next ox)) ∧
  relinked h h' ∧
  (∀ q, q ∉ ps → h' !! q = h !! q).
Proof.
  intros Hrep Hi pv nx h'. pose proof (lrep_nodup _ _ _ Hrep) as Hnd.
  assert (Hpv : ∀ j x, ps !! j = Some x → pv = Some x ↔ S j = i).
  { intros j x Hj. unfold pv. destruct i as [|i']; simpl; [done|]. split.
    - intros E. f_equal. by eapply NoDup_lookup_inj.
    - intros [= ->]. done. }
  assert (Hnx : ∀ j x, ps !! j = Some x → nx = Some x ↔ j = S i).
  { intros j x Hj. unfold nx. split.
    - intros E. by eapply NoDup_lookup_inj.
    - by intros ->. }
  assert (Hlook : ∀ y, h' !! y =
            (if decide (p = y) then (λ o, Order.set_next None (Order.set_prev None o)) else id)
            <$> ((if decide (nx = Some y) then Order.set_prev pv else id)
            <$> ((if decide (pv = Some y) then Order.set_next nx else id) <$> h !! y))).
  { intros y. unfold h'. by rewrite lookup_alter_decide, !lookup_relink. }
  split_and!.
  - intros j x ox Hj Hne Hox. rewrite Hlook, Hox. simpl.
    eexists. split; [done|].
    assert (p ≠ x).
    { intros ->. apply Hne. by eapply NoDup_lookup_inj. }
    rewrite (decide_False (P := p = x)) by done. simpl.
    destruct (decide (nx = Some x)) as [E1|E1];
      destruct (decide (pv = Some x)) as [E2|E2];
      pose proof (Hnx _ _ Hj) as Hn'; pose proof (Hpv _ _ Hj) as Hp';
      assert (E1' := E1); assert (E2' := E2);
      rewrite Hn' in E1'; rewrite Hp' in E2'.
    + lia.
    + rewrite decide_True, decide_False by lia. by destruct ox.
    + rewrite decide_False, decide_True by lia. by destruct ox.
    + by rewrite !decide_False by lia.
  - split.
    + unfold h'. by rewrite length_alter, !length_relink.
    + intros y oy Hy. rewrite Hlook, Hy. simpl. eexists. split; [done|].
      destruct (decide (p = y)), (decide (nx = Some y)), (decide (pv = Some y));
        simpl; by destruct oy.
  - intros y Hy. rewrite Hlook.
    assert (p ≠ y).
    { intros ->. apply Hy. apply list_elem_of_lookup. by eexists. }
    assert (nx ≠ Some y).
    { intros E. apply Hy. apply list_elem_of_lookup. by eexists. }
    assert (pv ≠ Some y).
    { intros E. apply Hy. apply list_elem_of_lookup. unfold pv in E.
      destruct i; [done|]. by eexists. }
    rewrite !decide_False by done. by rewrite !option_fmap_id.
Qed.

Lemma sat_eq {S A} (m : M S A) s a s' (Q : A → S → Prop) :
  m s = Done (a, s') → Q a s' → sat False m s Q.
Proof. intros E H. unfold sat. by rewrite E. Qed.

Lemma read_Some {A} p (f : Order.t → A) (h : list Order.t) o :
  h !! p = Some o → read p f h = Done (f o, h).
Proof. intros H. unfold read, bind, deref, ret. by rewrite H. Qed.

Lemma update_Some p f (h : list Order.t) o :
  h !! p = Some o → update p f h = Done (tt, alter f p h).
Proof.
  intros H. unfold update, bind, deref, modify. rewrite H.
  by rewrite (list_insert_alter_eq _ _ _ _ H).
Qed.

Lemma bind_Done {S A B} (m : M S A) (k : A → M S B) s a s' :
  m s = Done (a, s') → bind m k s = k a s'.
Proof. intros H. unfold bind. by rewrite H. Qed.

(** [remove], run on a queued order. *)
Lemma remove_eq h l ps i p o :
  lrep h l ps → ps !! i = Some p → h !! p = Some o →
  let pv := before ps i in
  let nx := ps !! S i in
  PriceLevel.remove p l h =
  Done (PriceLevel.mk (PriceLevel.price_ l)
          (wrap64 (PriceLevel.total_quantity_ l - Order.leaves_qty o))
          (wrap32 (PriceLevel.order_count_ l - 1))
          (if decide (i = 0%nat) then nx else PriceLevel.head_ l)
          (match nx with None => pv | Some _ => PriceLevel.tail_ l end),
        alter (λ o, Order.set_next None (Order.set_prev None o)) p
          (relink nx (Order.set_prev pv) (relink pv (Order.set_next nx) h))).
Proof.
  intros Hrep Hi Ho pv nx. pose proof (lrep_nodup _ _ _ Hrep) as Hnd.
  destruct (lrep_lookup _ _ _ _ _ Hrep Hi) as (o' & Ho' & Hpv & Hnx).
  assert (o' = o) as -> by congruence. clear Ho'.
  fold pv in Hpv. fold nx in Hnx.
  assert (Hpp : pv ≠ Some p).
  { unfold pv. destruct i as [|i']; [done|]. simpl. intros E.
    pose proof (NoDup_lookup_inj _ _ _ _ Hnd E Hi). lia. }
  assert (Hnp : nx ≠ Some p).
  { unfold nx. intros E. pose proof (NoDup_lookup_inj _ _ _ _ Hnd E Hi). lia. }
  assert (Hpn : ∀ q, pv = Some q → nx ≠ Some q).
  { unfold pv, nx. destruct i as [|i']; [done|]. simpl. intros q E1 E2.
    pose proof (NoDup_lookup_inj _ _ _ _ Hnd E1 E2). lia. }
  set (h1 := relink pv (Order.set_next nx) h).
  set (h2 := relink nx (Order.set_prev pv) h1).
  assert (H1p : h1 !! p = Some o).
  { unfold h1. rewrite lookup_relink, decide_False by done. by rewrite Ho. }
  assert (H2p : h2 !! p = Some o).
  { unfold h2. rewrite lookup_relink, decide_False by done. by rewrite H1p. }
  unfold PriceLevel.remove.
  rewrite (bind_Done _ _ _ _ _ (read_Some _ _ _ _ Ho)). rewrite Hpv.
  (* the predecessor *)
  assert (E1 : ∀ k : PriceLevel.t → M (list Order.t) PriceLevel.t,
    bind (match pv with
          | Some q => nx0 <- read p Order.next ;;
                      update q (Order.set_next nx0) ;; ret l
          | None => nx0 <- read p Order.next ;; ret (PriceLevel.set_head nx0 l)
          end) k h
    = k (match pv with Some _ => l | None => PriceLevel.set_head nx l end) h1).
  { intros k. unfold h1. destruct pv as [q|] eqn:Ev.
    - assert (Hq : is_Some (h !! q)).
      { unfold pv in Ev. destruct i as [|i']; [done|]. simpl in Ev.
        eapply lrep_elem; [exact Hrep|]. apply list_elem_of_lookup. by eexists. }
      destruct Hq as [oq Hoq].
      apply bind_Done.
      rewrite (bind_Done _ _ _ _ _ (read_Some _ _ _ _ Ho)). rewrite Hnx.
      by rewrite (bind_Done _ _ _ _ _ (update_Some _ _ _ _ Hoq)).
    - apply bind_Done.
      rewrite (bind_Done _ _ _ _ _ (read_Some _ _ _ _ Ho)). by rewrite Hnx. }
  rewrite E1. clear E1.
  rewrite (bind_Done _ _ _ _ _ (read_Some _ _ _ _ H1p)). rewrite Hnx.
  (* the successor *)
  set (l1 := match pv with Some _ => l | None => PriceLevel.set_head nx l end).
  assert (E2 : ∀ k : PriceLevel.t → M (list Order.t) PriceLevel.t,
    bind (match nx with
          | Some q => pv0 <- read p Order.prev ;;
                      update q (Order.set_prev pv0) ;; ret l1
          | None => pv0 <- read p Order.prev ;; ret (PriceLevel.set_tail pv0 l1)
          end) k h1
    = k (match nx with Some _ => l1 | None => PriceLevel.set_tail pv l1 end) h2).
  { intros k. unfold h2. destruct nx as [r|] eqn:Ex.
    - assert (Hr : is_Some (h1 !! r)).
      { unfold h1. rewrite lookup_relink.
        assert (is_Some (h !! r)) as [or Hor].
        { eapply lrep_elem; [exact Hrep|]. apply list_elem_of_lookup. by eexists. }
        rewrite Hor. by eexists. }
      destruct Hr as [or Hor].
      apply bind_Done.
      rewrite (bind_Done _ _ _ _ _ (read_Some _ _ _ _ H1p)). rewrite Hpv.
      by rewrite (bind_Done _ _ _ _ _ (update_Some _ _ _ _ Hor)).
    - apply bind_Done.
      rewrite (bind_Done _ _ _ _ _ (read_Some _ _ _ _ H1p)). by rewrite Hpv. }
  rewrite E2. clear E2.
  rewrite (bind_Done _ _ _ _ _ (update_Some _ _ _ _ H2p)).
  assert (H3p : alter (Order.set_prev None) p h2 !! p = Some (Order.set_prev None o)).
  { by rewrite list_lookup_alter_eq, H2p. }
  rewrite (bind_Done _ _ _ _ _ (update_Some _ _ _ _ H3p)).
  rewrite list_alter_alter_eq.
  assert (H4p : alter (Order.set_next None ∘ Order.set_prev None) p h2 !! p
                = Some (Order.set_next None (Order.set_prev None o))).
  { by rewrite list_lookup_alter_eq, H2p. }
  rewrite (bind_Done _ _ _ _ _ (read_Some _ _ _ _ H4p)).
  unfold ret. rewrite leaves_set_next, leaves_set_prev.
  f_equal. f_equal. unfold l1.
  destruct (decide (i = 0%nat)) as [->|Hne].
  - simpl in *. unfold pv. simpl. by destruct nx.
  - unfold pv. destruct i as [|i']; [done|]. simpl.
    destruct (ps !! i') eqn:E.
    + by destruct nx.
    + apply lookup_ge_None in E. apply lookup_lt_Some in Hi. lia.
Qed.

(** [pop_front] on a queue with a head does what [remove] does to the
    head. *)
Lemma pop_front_eq h l ps p o :
  lrep h l ps → ps !! 0%nat = Some p → h !! p = Some o →
  PriceLevel.pop_front l h = PriceLevel.remove p l h.
Proof.
  intros Hrep Hi Ho. rewrite (remove_eq h l ps 0 p o Hrep Hi Ho).
  pose proof (lrep_nodup _ _ _ Hrep) as Hnd.
  destruct (lrep_lookup _ _ _ _ _ Hrep Hi) as (o' & Ho' & Hpv & Hnx).
  assert (o' = o) as -> by congruence. clear Ho'. simpl in Hpv.
  unfold PriceLevel.pop_front. rewrite (lrep_head _ _ _ Hrep), Hi.
  rewrite (bind_Done _ _ _ _ _ (read_Some _ _ _ _ Ho)). rewrite Hnx.
  simpl before. simpl relink at 2.
  assert (Hnp : ps !! 1%nat ≠ Some p).
  { intros E. pose proof (NoDup_lookup_inj _ _ _ _ Hnd E Hi). lia. }
  set (nx := ps !! 1%nat) in *.
  set (h2 := relink nx (Order.set_prev None) h).
  assert (H2p : h2 !! p = Some o).
  { unfold h2. rewrite lookup_relink, decide_False by done. by rewrite Ho. }
  assert (E2 : ∀ k : PriceLevel.t → M (list Order.t) PriceLevel.t,
    bind (match nx with
          | Some r => update r (Order.set_prev None) ;; ret (PriceLevel.set_head nx l)
          | None => ret (PriceLevel.set_tail None (PriceLevel.set_head nx l))
          end) k h
    = k (match nx with
         | Some _ => PriceLevel.set_head nx l
         | None => PriceLevel.set_tail None (PriceLevel.set_head nx l)
         end) h2).
  { intros k. unfold h2. destruct nx as [r|] eqn:Ex; [|done].
    assert (is_Some (h !! r)) as [or Hor].
    { eapply lrep_elem; [exact Hrep|]. apply list_elem_of_lookup. by eexists. }
    apply bind_Done.
    by rewrite (bind_Done _ _ _ _ _ (update_Some _ _ _ _ Hor)). }
  rewrite E2. clear E2.
  rewrite (bind_Done _ _ _ _ _ (read_Some _ _ _ _ H2p)).
  rewrite (bind_Done _ _ _ _ _ (update_Some _ _ _ _ H2p)).
  assert (H3p : alter (Order.set_prev None) p h2 !! p = Some (Order.set_prev None o)).
  { by rewrite list_lookup_alter_eq, H2p. }
  rewrite (bind_Done _ _ _ _ _ (update_Some _ _ _ _ H3p)).
  rewrite list_alter_alter_eq. unfold ret. f_equal. f_equal.
  by destruct nx.
Qed.

(** [remove] unlinks a queued order and nothing else. *)
Lemma remove_spec h l ps i p o :
  lrep h l ps → ps !! i = Some p → h !! p = Some o →
  Z.of_nat (length ps) < 2 ^ 32 →
  sat False (PriceLevel.remove p l) h
    (λ l' h',
       lrep h' l' (delete i ps) ∧
       PriceLevel.price l' = PriceLevel.price l ∧
       PriceLevel.total_quantity_ l'
         = wrap64 (PriceLevel.total_quantity_ l - Order.leaves_qty o) ∧
       relinked h h' ∧
       (∀ q, q ∉ ps → h' !! q = h !! q)).
Proof.
  intros Hrep Hi Ho Hlen.
  destruct (unlink_cells h l ps i p Hrep Hi) as (Hcells & Hrel & Hframe).
  eapply sat_eq; [by apply (remove_eq h l ps i p o)|].
  split_and!; try done.
  eapply (lrep_delete h _ l _ ps i p Hrep Hi Hcells); simpl; try done.
  rewrite (lrep_count _ _ _ Hrep). unfold wrap32.
  apply lookup_lt_Some in Hi. rewrite Z.mod_small; lia.
Qed.

Lemma pop_front_spec h l ps p o :
  lrep h l ps → ps !! 0%nat = Some p → h !! p = Some o →
  Z.of_nat (length ps) < 2 ^ 32 →
  sat False (PriceLevel.pop_front l) h
    (λ l' h',
       lrep h' l' (delete 0%nat ps) ∧
       PriceLevel.price l' = PriceLevel.price l ∧
       PriceLevel.total_quantity_ l'
         = wrap64 (PriceLevel.total_quantity_ l - Order.leaves_qty o) ∧
       relinked h h' ∧
       (∀ q, q ∉ ps → h' !! q = h !! q)).
Proof.
  intros Hrep Hi Ho Hlen. unfold sat.
  rewrite (pop_front_eq h l ps p o Hrep Hi Ho).
  by apply (remove_spec h l ps 0 p o).
Qed.

(** ** Well-formed books *)

Section WellFormed.

Import OrderBook.

Lemma wf_ext inc G b b' :
  wf inc G b →
  (∀ sd, levels sd b' = levels sd b) →
  order_arena_ b' = order_arena_ b →
  order_index_ b' = order_index_ b →
  wf inc G b'.
Proof.
  intros [W1 W2 W3 W4 W5] El Eh Ei. split.
  - intros sd k. rewrite El, Eh. apply W1.
  - intros sd k p Hp. rewrite Eh, Ei. by apply W2.
  - intros i p. rewrite Eh, Ei. apply W3.
  - intros q Hq. rewrite Eh, Ei. by apply W4.
  - by rewrite Eh.
Qed.

Lemma wf_start symbol : wf None (λ _ _, []) (init symbol).
Proof.
  split; simpl.
  - intros sd k. by destruct sd; simpl; rewrite lookup_empty.
  - intros sd k p Hp. by apply elem_of_nil in Hp.
  - intros i p Hp. by rewrite lookup_empty in Hp.
  - done.
  - done.
Qed.

(** A queued order is queued once. *)
Lemma wf_queue_unique inc G b sd k sd' k' p :
  wf inc G b → p ∈ G sd k → p ∈ G sd' k' → sd = sd' ∧ k = k'.
Proof.
  intros H Hp Hp'.
  destruct (wf_queued _ _ _ H _ _ _ Hp) as (o & Ho & Ek & Es & _).
  destruct (wf_queued _ _ _ H _ _ _ Hp') as (o' & Ho' & Ek' & Es' & _).
  assert (o' = o) as -> by congruence. split; congruence.
Qed.

Lemma wf_queue_level inc G b sd k p :
  wf inc G b → p ∈ G sd k →
  ∃ l, levels sd b !! k = Some l ∧ lrep (order_arena_ b) l (G sd k)
       ∧ PriceLevel.price l = k.
Proof.
  intros H Hp. pose proof (wf_levels _ _ _ H sd k) as Hl.
  destruct (levels sd b !! k) as [l|].
  - exists l. by destruct Hl.
  - rewrite Hl in Hp. by apply elem_of_nil in Hp.
Qed.

Lemma wf_queue_length inc G b sd k :
  wf inc G b → Z.of_nat (length (G sd k)) < 2 ^ 32.
Proof.
  intros H. pose proof (wf_levels _ _ _ H sd k) as Hl.
  pose proof (wf_size _ _ _ H).
  destruct (levels sd b !! k) as [l|].
  - destruct Hl as [Hl _]. apply lrep_length in Hl. lia.
  - rewrite Hl. simpl. lia.
Qed.

(** An update of one order that keeps its id.  The aggressor may change
    in any other way; any other order must keep its links and terms, and
    may turn active only if it is queued. *)
Lemma wf_update inc G b b' p o o' :
  wf inc G b →
  order_arena_ b !! p = Some o →
  order_arena_ b' = <[p := o']> (order_arena_ b) →
  (∀ sd, levels sd b' = levels sd b) →
  order_index_ b' = order_index_ b →
  Order.id o' = Order.id o →
  (inc = Some p ∨
   (Order.prev o' = Order.prev o ∧ Order.next o' = Order.next o ∧
    Order.price o' = Order.price o ∧ Order.is_buy o' = Order.is_buy o ∧
    Order.type o' = Order.type o ∧
    (Order.is_active o' = true →
     Order.is_active o = true ∨ p ∈ G (own_side (Order.is_buy o)) (Order.price o)))) →
  wf inc G b'.
Proof.
  intros H Ho Eh El Ei Eid Hcase. pose proof H as [W1 W2 W3 W4 W5].
  assert (Hpl : (p < length (order_arena_ b))%nat) by (by eapply lookup_lt_Some).
  assert (Hq : ∀ sd k, p ∈ G sd k → inc ≠ Some p).
  { intros sd k Hp. by destruct (W2 _ _ _ Hp) as (? & ? & ? & ? & ? & ? & ?). }
  split.
  - intros sd k. rewrite El, Eh. specialize (W1 sd k).
    destruct (levels sd b !! k) as [l|]; [|done].
    destruct W1 as [Hl Hk]. split; [|done].
    eapply lrep_frame; [exact Hl|]. intros x ox Hx Hox.
    destruct (decide (x = p)) as [->|Hne].
    + assert (ox = o) as -> by congruence.
      exists o'. rewrite list_lookup_insert_eq by done. split; [done|].
      destruct Hcase as [->|(? & ? & _)]; [|done].
      by destruct (Hq _ _ Hx).
    + exists ox. by rewrite list_lookup_insert_ne.
  - intros sd k x Hx. rewrite Eh, Ei.
    destruct (W2 _ _ _ Hx) as (ox & Hox & Ek & Es & Et & Hi & Hinc).
    destruct (decide (x = p)) as [->|Hne].
    + assert (ox = o) as -> by congruence.
      exists o'. rewrite list_lookup_insert_eq by done.
      destruct Hcase as [->|(_ & _ & Ep & Eb & Ety & _)]; [done|].
      rewrite Ep, Eb, Ety, Eid. done.
    + exists ox. by rewrite list_lookup_insert_ne.
  - intros i x. rewrite Eh, Ei. intros Hx.
    destruct (W3 _ _ Hx) as (ox & Hox & Eidx & Hact).
    destruct (decide (x = p)) as [->|Hne].
    + assert (ox = o) as -> by congruence.
      exists o'. rewrite list_lookup_insert_eq by done.
      split_and!; [done|congruence|]. intros Hinc Ha.
      destruct Hcase as [->|(_ & _ & Ep & Eb & _ & Hact')]; [done|].
      rewrite Ep, Eb. destruct (Hact' Ha) as [Ha'|]; [|done]. by apply Hact.
    + exists ox. by rewrite list_lookup_insert_ne.
  - intros q Hq'. rewrite Eh, Ei.
    destruct (W4 _ Hq') as (oq & Hoq & Hi).
    destruct (decide (q = p)) as [->|Hne].
    + assert (oq = o) as -> by congruence.
      exists o'. rewrite list_lookup_insert_eq by done. by rewrite Eid.
    + exists oq. by rewrite list_lookup_insert_ne.
  - by rewrite Eh, length_insert.
Qed.

(** A fresh slot. *)
Lemma wf_allocate inc G b b' o :
  wf inc G b →
  order_arena_ b' = order_arena_ b ++ [o] →
  (∀ sd, levels sd b' = levels sd b) →
  order_index_ b' = order_index_ b →
  Z.of_nat (length (order_arena_ b)) < 2 ^ 32 - 1 →
  wf inc G b'.
Proof.
  intros [W1 W2 W3 W4 W5] Eh El Ei Hlen. split.
  - intros sd k. rewrite El, Eh. specialize (W1 sd k).
    destruct (levels sd b !! k) as [l|]; [|done].
    destruct W1 as [Hl Hk]. split; [|done].
    eapply lrep_frame; [exact Hl|]. intros x ox Hx Hox.
    exists ox. split; [|done]. by apply lookup_app_l_Some.
  - intros sd k x Hx. rewrite Eh, Ei.
    destruct (W2 _ _ _ Hx) as (ox & Hox & ?).
    exists ox. split; [|done]. by apply lookup_app_l_Some.
  - intros i x. rewrite Eh, Ei. intros Hx.
    destruct (W3 _ _ Hx) as (ox & Hox & ?).
    exists ox. split; [|done]. by apply lookup_app_l_Some.
  - intros q Hq. rewrite Eh, Ei.
    destruct (W4 _ Hq) as (oq & Hoq & ?).
    exists oq. split; [|done]. by apply lookup_app_l_Some.
  - rewrite Eh, length_app. simpl. lia.
Qed.

(** The new order enters the index and becomes the aggressor. *)
Lemma wf_index_store G b b' i p o :
  wf None G b →
  order_arena_ b !! p = Some o → Order.id o = i →
  (∀ sd k, p ∉ G sd k) →
  (∀ q sd k, order_index_ b !! i = Some q → q ∉ G sd k) →
  order_arena_ b' = order_arena_ b →
  (∀ sd, levels sd b' = levels sd b) →
  order_index_ b' = <[i := p]> (order_index_ b) →
  wf (Some p) G b'.
Proof.
  intros [W1 W2 W3 W4 W5] Ho Eid Hp Hfresh Eh El Ei. split.
  - intros sd k. rewrite El, Eh. apply W1.
  - intros sd k x Hx. rewrite Eh, Ei.
    destruct (W2 _ _ _ Hx) as (ox & Hox & Ek & Es & Et & Hi & _).
    exists ox. split_and!; try done.
    + rewrite lookup_insert_ne; [done|]. intros E. rewrite <- E in Hi.
      by eapply Hfresh.
    + intros [= <-]. by eapply Hp.
  - intros j x. rewrite Eh, Ei. intros Hx.
    apply lookup_insert_Some in Hx as [[<- <-]|[Hne Hx]].
    + exists o. split_and!; done.
    + destruct (W3 _ _ Hx) as (ox & Hox & Eidx & Hact).
      exists ox. split_and!; try done. intros _. by apply Hact.
  - intros q [= <-]. rewrite Eh, Ei. exists o. split; [done|].
    by rewrite Eid, lookup_insert_eq.
  - by rewrite Eh.
Qed.

(** The aggressor leaves the index: nothing is exempt any more. *)
Lemma wf_erase_aggressor G b b' p o :
  wf (Some p) G b →
  order_arena_ b !! p = Some o →
  order_arena_ b' = order_arena_ b →
  (∀ sd, levels sd b' = levels sd b) →
  order_index_ b' = delete (Order.id o) (order_index_ b) →
  wf None G b'.
Proof.
  intros [W1 W2 W3 W4 W5] Ho Eh El Ei. split.
  - intros sd k. rewrite El, Eh. apply W1.
  - intros sd k x Hx. rewrite Eh, Ei.
    destruct (W2 _ _ _ Hx) as (ox & Hox & Ek & Es & Et & Hi & Hinc).
    exists ox. split_and!; try done.
    rewrite lookup_delete_ne; [done|]. intros E.
    destruct (W4 p eq_refl) as (o' & Ho' & Hip).
    assert (o' = o) as -> by congruence. rewrite E in Hip. congruence.
  - intros j x. rewrite Eh, Ei. intros Hx.
    apply lookup_delete_Some in Hx as [Hne Hx].
    destruct (W3 _ _ Hx) as (ox & Hox & Eidx & Hact).
    exists ox. split_and!; try done. intros _. apply Hact.
    intros [= <-]. congruence.
  - done.
  - by rewrite Eh.
Qed.

(** The aggressor stays indexed; the exemption ends because it is
    inactive or queued. *)
Lemma wf_release G b p :
  wf (Some p) G b →
  (∀ o, order_arena_ b !! p = Some o → Order.is_active o = true →
        p ∈ G (own_side (Order.is_buy o)) (Order.price o)) →
  wf None G b.
Proof.
  intros [W1 W2 W3 W4 W5] Hp. split; try done.
  - intros sd k x Hx.
    destruct (W2 _ _ _ Hx) as (ox & Hox & Ek & Es & Et & Hi & Hinc).
    by exists ox.
  - intros j x Hx. destruct (W3 _ _ Hx) as (ox & Hox & Eidx & Hact).
    exists ox. split_and!; try done. intros _ Ha.
    destruct (decide (x = p)) as [->|Hne]; [by apply Hp|].
    apply Hact; [congruence|done].
Qed.

Lemma unlinked_terms o o' :
  unlinked o' = unlinked o →
  Order.id o' = Order.id o ∧ Order.price o' = Order.price o ∧
  Order.is_buy o' = Order.is_buy o ∧ Order.type o' = Order.type o ∧
  Order.is_active o' = Order.is_active o ∧
  Order.leaves_qty o' = Order.leaves_qty o ∧
  Order.status o' = Order.status o ∧ Order.side o' = Order.side o.
Proof. destruct o, o'. unfold unlinked. simpl. intros [=]. by subst. Qed.

Lemma other_ne sd sd' : sd' ≠ sd → sd' = other sd.
Proof. by destruct sd, sd'. Qed.

Lemma set_queue_eq G sd k ps : set_queue G sd k ps sd k = ps.
Proof. unfold set_queue. by rewrite decide_True. Qed.

Lemma set_queue_ne G sd k ps sd' k' :
  ¬ (sd' = sd ∧ k' = k) → set_queue G sd k ps sd' k' = G sd' k'.
Proof. intros H. unfold set_queue. by rewrite decide_False. Qed.

(** The queue at [k] of [sd] is replaced: orders enter it only from the
    aggressor's seat, and an order that leaves it takes that seat or is
    inactive. *)
Lemma wf_requeue inc inc' G b b' sd k l' ps' :
  wf inc G b →
  levels sd b' = <[k := l']> (levels sd b) →
  levels (other sd) b' = levels (other sd) b →
  order_index_ b' = order_index_ b →
  lrep (order_arena_ b') l' ps' →
  PriceLevel.price l' = k →
  relinked (order_arena_ b) (order_arena_ b') →
  (∀ q, q ∉ G sd k → q ∉ ps' → order_arena_ b' !! q = order_arena_ b !! q) →
  (∀ p, p ∈ ps' → p ∉ G sd k →
     inc = Some p ∧
     ∃ o, order_arena_ b !! p = Some o ∧ Order.price o = k ∧
          own_side (Order.is_buy o) = sd ∧ Order.type o = Limit) →
  (∀ p o, p ∈ G sd k → p ∉ ps' → order_arena_ b !! p = Some o →
     inc' = Some p ∨ Order.is_active o = false) →
  (∀ q, inc' = Some q → (q ∉ ps') ∧ (inc = Some q ∨ q ∈ G sd k)) →
  (∀ q, inc = Some q → inc' = Some q ∨ q ∈ ps') →
  wf inc' (set_queue G sd k ps') b'.
Proof.
  intros H El Eo Ei Hl' Hk [Hlen Hrel] Hframe Hnew Hgone Hinc' Hinc.
  pose proof H as [W1 W2 W3 W4 W5].
  assert (Hsame : ∀ sd' k' x, ¬ (sd' = sd ∧ k' = k) → x ∈ G sd' k' →
            order_arena_ b' !! x = order_arena_ b !! x).
  { intros sd' k' x Hne Hx. apply Hframe.
    - intros Hx'. destruct (wf_queue_unique _ _ _ _ _ _ _ _ H Hx Hx'). by apply Hne.
    - intros Hx'. destruct (decide (x ∈ G sd k)) as [Hx''|Hx''].
      + destruct (wf_queue_unique _ _ _ _ _ _ _ _ H Hx Hx''). by apply Hne.
      + destruct (Hnew _ Hx' Hx'') as [E _].
        by destruct (W2 _ _ _ Hx) as (? & ? & ? & ? & ? & ? & ?). }
  split.
  - intros sd' k'. destruct (decide (sd' = sd ∧ k' = k)) as [[-> ->]|Hne].
    + by rewrite El, lookup_insert_eq, set_queue_eq.
    + rewrite set_queue_ne by done.
      assert (levels sd' b' !! k' = levels sd' b !! k') as ->.
      { destruct (decide (sd' = sd)) as [->|Hsd].
        - rewrite El, lookup_insert_ne; [done|]. intros <-. by apply Hne.
        - by rewrite (other_ne _ _ Hsd), Eo. }
      specialize (W1 sd' k'). destruct (levels sd' b !! k') as [l|]; [|done].
      destruct W1 as [Hl ?]. split; [|done].
      eapply lrep_frame; [exact Hl|]. intros x ox Hx Hox.
      exists ox. by rewrite (Hsame _ _ _ Hne Hx).
  - intros sd' k' x. rewrite Ei.
    destruct (decide (sd' = sd ∧ k' = k)) as [[-> ->]|Hne].
    + rewrite set_queue_eq. intros Hx.
      assert (Hx' : inc' ≠ Some x).
      { intros E. by destruct (Hinc' _ E). }
      destruct (decide (x ∈ G sd k)) as [Hold|Hold].
      * destruct (W2 _ _ _ Hold) as (ox & Hox & Ek & Es & Et & Hi & _).
        destruct (Hrel _ _ Hox) as (ox' & Hox' & E).
        destruct (unlinked_terms _ _ E) as (E1 & E2 & E3 & E4 & _).
        exists ox'. by rewrite E1, E2, E3, E4.
      * destruct (Hnew _ Hx Hold) as (E & ox & Hox & Ek & Es & Et).
        destruct (W4 _ E) as (o2 & Ho2 & Hi2).
        assert (o2 = ox) as -> by congruence.
        destruct (Hrel _ _ Hox) as (ox' & Hox' & E').
        destruct (unlinked_terms _ _ E') as (E1 & E2 & E3 & E4 & _).
        exists ox'. by rewrite E1, E2, E3, E4.
    + rewrite set_queue_ne by done. intros Hx.
      destruct (W2 _ _ _ Hx) as (ox & Hox & Ek & Es & Et & Hi & Hn).
      exists ox. rewrite (Hsame _ _ _ Hne Hx). split_and!; try done.
      intros E. destruct (Hinc' _ E) as [_ [E'|Hx']]; [done|].
      destruct (wf_queue_unique _ _ _ _ _ _ _ _ H Hx Hx'). by apply Hne.
  - intros i x. rewrite Ei. intros Hx.
    destruct (W3 _ _ Hx) as (ox & Hox & Eid & Hact).
    destruct (Hrel _ _ Hox) as (ox' & Hox' & E).
    destruct (unlinked_terms _ _ E) as (Eid' & Ep & Eb & _ & Ea & _).
    exists ox'. split_and!; [done|congruence|].
    intros Hn Ha. rewrite Ep, Eb. rewrite Ea in Ha.
    destruct (decide (inc = Some x)) as [E'|Hn'].
    + destruct (Hinc _ E') as [?|Hx']; [done|].
      assert (Hold : x ∉ G sd k).
      { intros Hold. by destruct (W2 _ _ _ Hold) as (? & ? & ? & ? & ? & ? & ?). }
      destruct (Hnew _ Hx' Hold) as (_ & o2 & Ho2 & Ek & Es & _).
      assert (o2 = ox) as -> by congruence.
      by rewrite Ek, Es, set_queue_eq.
    + specialize (Hact Hn' Ha).
      destruct (decide (own_side (Order.is_buy ox) = sd ∧ Order.price ox = k))
        as [[Es Ek]|Hne].
      * rewrite Es, Ek, set_queue_eq. rewrite Es, Ek in Hact.
        destruct (decide (x ∈ ps')) as [|Hgo]; [done|].
        destruct (Hgone _ _ Hact Hgo Hox) as [?|Hf]; [done|congruence].
      * by rewrite set_queue_ne.
  - intros q Hq. rewrite Ei.
    assert (∃ o, order_arena_ b !! q = Some o ∧
                 order_index_ b !! Order.id o = Some q) as (oq & Hoq & Hi).
    { destruct (Hinc' _ Hq) as [_ [E|Hx]]; [by apply W4|].
      destruct (W2 _ _ _ Hx) as (ox & Hox & _ & _ & _ & Hi & _). by exists ox. }
    destruct (Hrel _ _ Hoq) as (oq' & Hoq' & E).
    destruct (unlinked_terms _ _ E) as (Eid' & _).
    exists oq'. by rewrite Eid'.
  - by rewrite Hlen.
Qed.

(** A level with nothing queued is dropped. *)
Lemma wf_erase_level inc G b b' sd k :
  wf inc G b → G sd k = [] →
  levels sd b' = delete k (levels sd b) →
  levels (other sd) b' = levels (other sd) b →
  order_index_ b' = order_index_ b →
  order_arena_ b' = order_arena_ b →
  wf inc G b'.
Proof.
  intros [W1 W2 W3 W4 W5] HG El Eo Ei Eh. split.
  - intros sd' k'. rewrite Eh.
    destruct (decide (sd' = sd)) as [->|Hsd].
    + rewrite El. destruct (decide (k' = k)) as [->|Hk].
      * by rewrite lookup_delete_eq.
      * rewrite lookup_delete_ne by done. apply W1.
    + rewrite (other_ne _ _ Hsd), Eo. apply W1.
  - intros sd' k' p Hp. rewrite Eh, Ei. by apply W2.
  - intros i p. rewrite Eh, Ei. apply W3.
  - intros q Hq. rewrite Eh, Ei. by apply W4.
  - by rewrite Eh.
Qed.

Lemma wf_queue_ext inc G G' b :
  wf inc G b → (∀ sd k, G' sd k = G sd k) → wf inc G' b.
Proof.
  intros [W1 W2 W3 W4 W5] E. split; try done.
  - intros sd k. rewrite E. apply W1.
  - intros sd k p. rewrite E. apply W2.
  - intros i p Hp. destruct (W3 _ _ Hp) as (o & ? & ? & ?).
    exists o. by rewrite E.
Qed.

(** An order no id leads to may be rewritten at will. *)
Lemma wf_update_unindexed inc G b b' p o' :
  wf inc G b →
  (p < length (order_arena_ b))%nat →
  (∀ i, order_index_ b !! i ≠ Some p) →
  order_arena_ b' = <[p := o']> (order_arena_ b) →
  (∀ sd, levels sd b' = levels sd b) →
  order_index_ b' = order_index_ b →
  wf inc G b'.
Proof.
  intros H Hp Hi Eh El Ei. pose proof H as [W1 W2 W3 W4 W5].
  assert (Hq : ∀ sd k, p ∉ G sd k).
  { intros sd k Hx. destruct (W2 _ _ _ Hx) as (? & ? & ? & ? & ? & Hix & ?).
    by eapply Hi. }
  split.
  - intros sd k. rewrite El, Eh. specialize (W1 sd k).
    destruct (levels sd b !! k) as [l|]; [|done].
    destruct W1 as [Hl Hk]. split; [|done].
    eapply lrep_frame; [exact Hl|]. intros x ox Hx Hox.
    exists ox. rewrite list_lookup_insert_ne; [done|]. intros <-. by eapply Hq.
  - intros sd k x Hx. rewrite Eh, Ei.
    destruct (W2 _ _ _ Hx) as (ox & Hox & ?).
    exists ox. rewrite list_lookup_insert_ne; [done|]. intros <-. by eapply Hq.
  - intros i x. rewrite Eh, Ei. intros Hx.
    destruct (W3 _ _ Hx) as (ox & Hox & ?).
    exists ox. rewrite list_lookup_insert_ne; [done|]. intros <-. by eapply Hi.
  - intros q Hq'. rewrite Eh, Ei.
    destruct (W4 _ Hq') as (oq & Hoq & Hiq).
    exists oq. rewrite list_lookup_insert_ne; [done|]. intros <-. by eapply Hi.
  - by rewrite Eh, length_insert.
Qed.

(** An order that is not queued and is not the aggressor leaves the
    index. *)
Lemma wf_index_erase inc G b b' i :
  wf inc G b →
  (∀ q, order_index_ b !! i = Some q → inc ≠ Some q ∧ ∀ sd k, q ∉ G sd k) →
  order_arena_ b' = order_arena_ b →
  (∀ sd, levels sd b' = levels sd b) →
  order_index_ b' = delete i (order_index_ b) →
  wf inc G b'.
Proof.
  intros [W1 W2 W3 W4 W5] Hi Eh El Ei. split.
  - intros sd k. rewrite El, Eh. apply W1.
  - intros sd k x Hx. rewrite Eh, Ei.
    destruct (W2 _ _ _ Hx) as (ox & Hox & Ek & Es & Et & Hix & Hinc).
    exists ox. split_and!; try done.
    rewrite lookup_delete_ne; [done|]. intros E. rewrite <- E in Hix.
    destruct (Hi _ Hix) as [_ Hn]. by eapply Hn.
  - intros j x. rewrite Eh, Ei. intros Hx.
    apply lookup_delete_Some in Hx as [Hne Hx]. by apply W3.
  - intros q ->. rewrite Eh, Ei.
    destruct (W4 q eq_refl) as (oq & Hoq & Hiq).
    exists oq. split; [done|]. rewrite lookup_delete_ne; [done|].
    intros E. rewrite <- E in Hiq. by destruct (Hi _ Hiq) as [? _].
  - by rewrite Eh.
Qed.

End WellFormed.

(** ** The book operations on a well-formed book *)

Section BookSpecs.

Import OrderBook.

Variable clk : nat → Timestamp.

Abbreviation heap w := (order_arena_ (book w)).
Abbreviation index w := (order_index_ (book w)).

Ltac bk := simpl; autorewrite with book; simpl.

(* The current state, with the projections of records computed. *)
Ltac tidy_state :=
  lazymatch goal with
  | |- sat ?F ?m ?w ?Q => let w' := eval simpl in w in change (sat F m w' Q)
  end.

(* A read of the order at a known slot. *)
Ltac read_as o :=
  apply sat_bind, sat_arena_read; [|simpl; congruence];
  let o1 := fresh "o" in
  let E := fresh "E" in
  intros o1 E; simpl in E; assert (o1 = o) as -> by congruence; clear E.

Lemma wf_room G b p o ps :
  wf (Some p) G b → order_arena_ b !! p = Some o →
  (∃ sd k, ps = G sd k) →
  Z.of_nat (length ps) + 1 < 2 ^ 32.
Proof.
  intros H Ho (sd & k & ->). pose proof (wf_size _ _ _ H) as Hsz.
  assert (length (p :: G sd k) ≤ length (order_arena_ b))%nat as Hle.
  { apply NoDup_bounded_length.
    - apply NoDup_cons. split.
      + intros Hp. by destruct (wf_queued _ _ _ H _ _ _ Hp) as (? & ? & ? & ? & ? & ? & ?).
      + pose proof (wf_levels _ _ _ H sd k) as Hl.
        destruct (levels sd b !! k) as [l|].
        * destruct Hl as [Hl _]. apply (lrep_nodup _ _ _ Hl).
        * rewrite Hl. apply NoDup_nil_2.
    - intros x [->|Hx]%elem_of_cons.
      + by eapply lookup_lt_Some.
      + destruct (wf_queued _ _ _ H _ _ _ Hx) as (ox & Hox & _).
        by eapply lookup_lt_Some. }
  simpl in Hle. lia.
Qed.

Lemma push_level_spec G w p o sd k :
  wf (Some p) G (book w) → heap w !! p = Some o →
  Order.type o = Limit → Order.price o = k →
  own_side (Order.is_buy o) = sd →
  is_Some (levels sd (book w) !! k) →
  sat False (on_level sd k (PriceLevel.push_back p)) w (λ _ w',
    wf None (set_queue G sd k (G sd k ++ [p])) (book w') ∧
    index w' = index w ∧ events w' = events w ∧
    (∃ o', heap w' !! p = Some o' ∧ unlinked o' = unlinked o)).
Proof.
  intros H Ho Et Ek Es [l Hl]. unfold on_level.
  apply sat_bind, sat_level_ref; [|congruence]. intros l0 Hl0.
  assert (l0 = l) as -> by congruence.
  pose proof (wf_levels _ _ _ H sd k) as Hrep. rewrite Hl in Hrep.
  destruct Hrep as [Hrep Hprice].
  assert (Hp : p ∉ G sd k).
  { intros Hp. by destruct (wf_queued _ _ _ H _ _ _ Hp) as (? & ? & ? & ? & ? & ? & ?). }
  apply sat_bind, sat_arena.
  eapply sat_mono.
  { eapply push_back_spec; [exact Hrep|exact Hp|exact Ho|].
    eapply wf_room; eauto. }
  intros l' h' (Hrep' & Hprice' & _ & Hrel & Hframe & Hp').
  apply sat_modify. simpl. split_and!; [|by bk..].
  eapply wf_requeue; [exact H|..]; bk; try done.
  - congruence.
  - intros q Hq Hq'. apply Hframe; [|done].
    intros ->. apply Hq'. apply elem_of_app. right. by apply list_elem_of_here.
  - intros x [Hx|Hx]%elem_of_app Hx'; [done|].
    apply list_elem_of_singleton in Hx as ->. split; [done|]. by exists o.
  - intros x ox Hx Hx'. destruct Hx'. apply elem_of_app. by left.
  - intros q [= <-]. right. apply elem_of_app. right. by apply list_elem_of_here.
Qed.

(** [rest_order] for the aggressor: it is queued behind the orders of its
    level, and nothing is exempt any more. *)
Lemma rest_order_wf G w p o :
  wf (Some p) G (book w) → heap w !! p = Some o → Order.type o = Limit →
  sat False (rest_order p) w (λ _ w',
    (∃ G', wf None G' (book w') ∧
       ∀ sd k, G' sd k = set_queue G (own_side (Order.is_buy o)) (Order.price o)
                 (G (own_side (Order.is_buy o)) (Order.price o) ++ [p]) sd k) ∧
    index w' = index w ∧ events w' = events w ∧
    (∃ o', heap w' !! p = Some o' ∧ unlinked o' = unlinked o)).
Proof.
  intros H Ho Et. unfold rest_order.
  apply sat_bind, sat_arena_read; [|congruence]. intros o1 Ho1.
  assert (o1 = o) as -> by congruence.
  apply sat_bind, sat_arena_read; [|congruence]. intros o1 Ho1'. cbv zeta.
  assert (o1 = o) as -> by congruence.
  apply sat_bind, sat_gets.
  set (sd := own_side (Order.is_buy o)). set (k := Order.price o).
  pose proof (wf_levels _ _ _ H sd k) as Hrep.
  apply sat_bind, sat_when.
  - intros Hnone%bool_decide_eq_true. rewrite Hnone in Hrep.
    apply sat_modify.
    eapply sat_mono.
    { eapply (push_level_spec (set_queue G sd k [])); try done; try (by bk).
      - eapply wf_requeue; [exact H|..]; bk; try done.
        + apply lrep_init.
        + apply relinked_refl.
        + intros x Hx. by apply elem_of_nil in Hx.
        + intros x ox Hx. rewrite Hrep in Hx. by apply elem_of_nil in Hx.
        + intros q ->. split; [|by left]. apply not_elem_of_nil.
        + intros q ->. by left.
      - bk. by rewrite lookup_insert_eq. }
    intros _ w' (Hwf & Hi & He & Ho'). simpl in Hi, He, Ho'.
    autorewrite with book in Hi, Ho'. split_and!; try done.
    eexists. split; [exact Hwf|]. intros sd' k'. unfold set_queue.
    case_decide; [|done]. rewrite decide_True by done. by rewrite Hrep.
  - intros Hsome%bool_decide_eq_false.
    eapply sat_mono.
    { eapply (push_level_spec G); try done.
      destruct (levels sd (book w) !! k); [by eexists|done]. }
    intros _ w' (Hwf & Hi & He & Ho'). split_and!; try done. by eexists.
Qed.

Lemma front_consumed_refl sd G : front_consumed sd G G.
Proof. intros sd' k. exists 0%nat. split; [done|by left]. Qed.

Lemma front_consumed_trans sd G1 G2 G3 :
  front_consumed sd G1 G2 → front_consumed sd G2 G3 → front_consumed sd G1 G3.
Proof.
  intros H12 H23 sd' k.
  destruct (H12 sd' k) as (n & En & Hn), (H23 sd' k) as (m & Em & Hm).
  exists (n + m)%nat. split; [by rewrite Em, En, drop_drop|].
  destruct Hn as [->|?]; [|by right]. destruct Hm as [->|?]; [by left|by right].
Qed.

Lemma delete_gone (ps : list ptr) i p x :
  ps !! i = Some p → x ∈ ps → x ∉ delete i ps → x = p.
Proof.
  intros Hi [j Hj]%list_elem_of_lookup Hx.
  destruct (decide (j = i)) as [->|Hne]; [congruence|].
  destruct Hx. apply list_elem_of_lookup.
  destruct (decide (j < i)%nat).
  - exists j. by rewrite list_lookup_delete_lt.
  - exists (pred j). rewrite list_lookup_delete_ge by lia.
    by replace (S (pred j)) with j by lia.
Qed.

Lemma delete_NoDup_gone (ps : list ptr) i p :
  NoDup ps → ps !! i = Some p → p ∉ delete i ps.
Proof.
  intros Hnd Hi [j Hj]%list_elem_of_lookup.
  destruct (decide (j < i)%nat).
  - rewrite list_lookup_delete_lt in Hj by done.
    pose proof (NoDup_lookup _ _ _ _ Hnd Hi Hj). lia.
  - rewrite list_lookup_delete_ge in Hj by lia.
    pose proof (NoDup_lookup _ _ _ _ Hnd Hi Hj). lia.
Qed.

(** A [PriceLevel] method that unlinks the order at position [i] of the
    queue, called through the level at [k] of [sd].  The order takes the
    aggressor's seat, or the seat is kept and the order is inactive. *)
Lemma dequeue_level_spec inc inc' G w f sd k i p o l :
  wf inc G (book w) → levels sd (book w) !! k = Some l →
  G sd k !! i = Some p → heap w !! p = Some o →
  sat False (f l) (heap w) (λ l' h',
    lrep h' l' (delete i (G sd k)) ∧
    PriceLevel.price l' = PriceLevel.price l ∧
    relinked (heap w) h' ∧ (∀ q, q ∉ G sd k → h' !! q = heap w !! q)) →
  (inc = None ∧ inc' = Some p) ∨ (inc' = inc ∧ Order.is_active o = false) →
  sat False (on_level sd k f) w (λ _ w',
    wf inc' (set_queue G sd k (delete i (G sd k))) (book w') ∧
    index w' = index w ∧ events w' = events w ∧
    relinked (heap w) (heap w') ∧
    dom (levels sd (book w')) = dom (levels sd (book w)) ∧
    levels (other sd) (book w') = levels (other sd) (book w)).
Proof.
  intros H Hl Hi Ho Hf Hcase. unfold on_level.
  apply sat_bind, sat_level_ref; [|congruence]. intros l0 Hl0.
  assert (l0 = l) as -> by congruence.
  pose proof (wf_levels _ _ _ H sd k) as Hrep. rewrite Hl in Hrep.
  destruct Hrep as [Hrep Hprice].
  assert (Hp : p ∈ G sd k) by (by eapply list_elem_of_lookup_2).
  apply sat_bind, sat_arena.
  eapply sat_mono; [exact Hf|].
  intros l' h' (Hrep' & Hprice' & Hrel & Hframe).
  apply sat_modify. simpl. split_and!; try (by bk).
  - eapply wf_requeue; [exact H|..]; bk; try done.
    + congruence.
    + intros q Hq _. by apply Hframe.
    + intros x Hx Hx'. destruct Hx'. by eapply list_elem_of_delete_inv.
    + intros x ox Hx Hx' Hox.
      assert (x = p) as -> by (by eapply delete_gone).
      assert (ox = o) as -> by congruence.
      destruct Hcase as [[_ ->]|[_ ?]]; [by left|by right].
    + intros q Hq. destruct Hcase as [[_ ->]|[-> Ha]].
      * injection Hq as <-. split; [|by right].
        eapply delete_NoDup_gone; [|done]. apply (lrep_nodup _ _ _ Hrep).
      * split; [|by left]. intros Hq'%list_elem_of_delete_inv.
        by destruct (wf_queued _ _ _ H _ _ _ Hq') as (? & ? & ? & ? & ? & ? & ?).
    + intros q Hq. destruct Hcase as [[-> _]|[-> _]]; [done|by left].
  - bk. apply dom_insert_lookup_L. by eexists.
Qed.

Lemma lrep_empty h l ps : lrep h l ps → PriceLevel.empty l = true → ps = [].
Proof.
  intros H E. apply bool_decide_eq_true in E.
  rewrite (lrep_count _ _ _ H) in E. destruct ps; [done|simpl in E; lia].
Qed.

Lemma lrep_nonempty h l ps :
  lrep h l ps → PriceLevel.empty l = false →
  ∃ p, ps !! 0%nat = Some p ∧ PriceLevel.front l = Some p.
Proof.
  intros H E. apply bool_decide_eq_false in E.
  rewrite (lrep_count _ _ _ H) in E. destruct ps as [|p ps]; [done|].
  exists p. split; [done|]. unfold PriceLevel.front.
  by rewrite (lrep_head _ _ _ H).
Qed.

(** The level at [k] is dropped if the queue has run empty. *)
Lemma drop_level_spec inc G w sd k :
  wf inc G (book w) → is_Some (levels sd (book w) !! k) →
  sat False (l <- level_ref sd k ;; when (PriceLevel.empty l) (erase_level sd k)) w
    (λ _ w',
      wf inc G (book w') ∧ index w' = index w ∧ events w' = events w ∧
      heap w' = heap w ∧
      levels (other sd) (book w') = levels (other sd) (book w) ∧
      (G sd k = [] → levels sd (book w') = delete k (levels sd (book w))) ∧
      (G sd k ≠ [] → levels sd (book w') = levels sd (book w))).
Proof.
  intros H [l Hl].
  apply sat_bind, sat_level_ref; [|congruence]. intros l0 Hl0.
  assert (l0 = l) as -> by congruence.
  pose proof (wf_levels _ _ _ H sd k) as Hrep. rewrite Hl in Hrep.
  destruct Hrep as [Hrep Hprice].
  apply sat_when.
  - intros He. pose proof (lrep_empty _ _ _ Hrep He) as HG.
    apply sat_modify. simpl. split_and!; try (by bk).
    eapply wf_erase_level; [exact H|exact HG|..]; by bk.
  - intros He. destruct (lrep_nonempty _ _ _ Hrep He) as (p & Hp & _).
    split_and!; try done. intros HG. by rewrite HG in Hp.
Qed.

(** [remove_from_book] for a queued order: the order leaves its queue
    and takes the aggressor's seat. *)
Lemma remove_from_book_wf G w p o :
  wf None G (book w) → heap w !! p = Some o →
  p ∈ G (own_side (Order.is_buy o)) (Order.price o) →
  sat False (remove_from_book p) w (λ _ w',
    (∃ G', wf (Some p) G' (book w') ∧
       ∃ i, G (own_side (Order.is_buy o)) (Order.price o) !! i = Some p ∧
         ∀ sd k, G' sd k = set_queue G (own_side (Order.is_buy o)) (Order.price o)
           (delete i (G (own_side (Order.is_buy o)) (Order.price o))) sd k) ∧
    index w' = index w ∧ events w' = events w ∧
    levels (other (own_side (Order.is_buy o))) (book w')
      = levels (other (own_side (Order.is_buy o))) (book w) ∧
    (∃ o', heap w' !! p = Some o' ∧ unlinked o' = unlinked o)).
Proof.
  intros H Ho Hp. unfold remove_from_book.
  apply sat_bind, sat_arena_read; [|congruence]. intros o1 Ho1.
  assert (o1 = o) as -> by congruence.
  apply sat_bind, sat_arena_read; [|congruence]. intros o1 Ho1'. cbv zeta.
  assert (o1 = o) as -> by congruence.
  apply sat_bind, sat_gets.
  set (sd := own_side (Order.is_buy o)) in *. set (k := Order.price o) in *.
  destruct (wf_queue_level _ _ _ _ _ _ H Hp) as (l & Hl & Hrep & Hprice).
  rewrite Hl.
  destruct (proj1 (list_elem_of_lookup _ _) Hp) as [i Hi].
  apply sat_bind. eapply sat_mono.
  { eapply (dequeue_level_spec None (Some p)); [exact H|exact Hl|exact Hi|exact Ho| |by left].
    eapply sat_mono.
    - eapply remove_spec; [exact Hrep|exact Hi|exact Ho|].
      by eapply wf_queue_length.
    - intros l' h' (? & ? & ? & ? & ?). done. }
  intros _ w1 (Hwf & Ei & Ee & Hrel & Hdom & Eo).
  eapply sat_mono.
  { eapply drop_level_spec; [exact Hwf|].
    apply (elem_of_dom (levels sd (book w1)) k). rewrite Hdom.
    apply elem_of_dom. by eexists. }
  intros _ w2 (Hwf2 & Ei2 & Ee2 & Eh2 & Eo2 & _). split_and!.
  - eexists. split; [exact Hwf2|]. by exists i.
  - congruence.
  - congruence.
  - fold sd. congruence.
  - rewrite Eh2. destruct Hrel as [_ Hrel]. by apply Hrel.
Qed.

(** *** Matching *)

Lemma sat_now F w (Q : Timestamp → World → Prop) :
  Q (clk (clock_reads w)) (mkWorld (book w) (events w) (S (clock_reads w))) →
  sat F (now clk) w Q.
Proof. done. Qed.

Lemma sat_next_sequence F w (Q : SeqNum → World → Prop) :
  Q (next_sequence_ (book w))
    (on_book (set_next_sequence (wrap64 (next_sequence_ (book w) + 1))) w) →
  sat F next_sequence w Q.
Proof. done. Qed.

Lemma sat_emit F e w (Q : unit → World → Prop) :
  Q tt (mkWorld (book w) (events w ++ [e]) (clock_reads w)) → sat F (emit e) w Q.
Proof. done. Qed.

Lemma fill_terms q t o :
  Order.id (Order.fill q t o) = Order.id o ∧
  Order.price (Order.fill q t o) = Order.price o ∧
  Order.side (Order.fill q t o) = Order.side o ∧
  Order.type (Order.fill q t o) = Order.type o ∧
  Order.prev (Order.fill q t o) = Order.prev o ∧
  Order.next (Order.fill q t o) = Order.next o ∧
  Order.is_buy (Order.fill q t o) = Order.is_buy o.
Proof. by destruct o. Qed.

Lemma fill_leaves q t o :
  Order.leaves_qty (Order.fill q t o) = wrap64 (Order.leaves_qty o - q).
Proof. by destruct o. Qed.

Lemma fill_status q t o :
  Order.status (Order.fill q t o)
  = if bool_decide (wrap64 (Order.leaves_qty o - q) = 0) then Filled
    else PartiallyFilled.
Proof. by destruct o. Qed.

Lemma wrap64_nonneg z : 0 ≤ wrap64 z.
Proof. unfold wrap64. apply Z.mod_pos_bound. lia. Qed.

Lemma aggressor_ok_refl o : aggressor_ok o o.
Proof. split_and!; try done. by left. Qed.

Lemma aggressor_ok_trans o1 o2 o3 :
  aggressor_ok o1 o2 → aggressor_ok o2 o3 → aggressor_ok o1 o3.
Proof.
  intros (E1 & E2 & E3 & E4 & H) (F1 & F2 & F3 & F4 & H').
  split_and!; try congruence.
  destruct H' as [[Hs Hl]|H']; [|by right].
  rewrite Hs, Hl. exact H.
Qed.

Lemma aggressor_ok_fill q t o : aggressor_ok o (Order.fill q t o).
Proof.
  destruct (fill_terms q t o) as (? & ? & ? & ? & _).
  split_and!; try done. right.
  rewrite fill_status, fill_leaves.
  pose proof (wrap64_nonneg (Order.leaves_qty o - q)).
  case_bool_decide; [by left|right; split; [done|lia]].
Qed.

Lemma aggressor_ok_unlinked o o' : unlinked o' = unlinked o → aggressor_ok o o'.
Proof.
  intros (? & ? & ? & ? & ? & ? & ? & ?)%unlinked_terms.
  split_and!; try done. by left.
Qed.

Lemma traded_within_refl A w : traded_within A w w.
Proof.
  exists []. split; [by rewrite app_nil_r|]. intros t Ht. by apply elem_of_nil in Ht.
Qed.

Lemma fills_refl inc w : fills inc w w.
Proof.
  split.
  - intros o Ho. exists o. split; [done|apply aggressor_ok_refl].
  - done.
  - apply traded_within_refl.
Qed.

Lemma fills_trans inc w1 w2 w3 : fills inc w1 w2 → fills inc w2 w3 → fills inc w1 w3.
Proof.
  intros [A1 I1 (n1 & E1 & T1)] [A2 I2 (n2 & E2 & T2)]. split.
  - intros o Ho. destruct (A1 _ Ho) as (o' & Ho' & Hok).
    destruct (A2 _ Ho') as (o'' & Ho'' & Hok').
    exists o''. split; [done|]. by eapply aggressor_ok_trans.
  - intros i Hi. by apply I1, I2.
  - exists (n1 ++ n2). split; [by rewrite E2, E1, app_assoc|].
    intros t [Ht|Ht]%elem_of_app; [by apply T1|].
    destruct (T2 _ Ht). split; by apply I1.
Qed.

Lemma trades_satisfy_refl P w : trades_satisfy P w w.
Proof.
  exists []. split; [by rewrite app_nil_r|]. intros t Ht. by apply elem_of_nil in Ht.
Qed.

Lemma trades_satisfy_trans P w1 w2 w3 :
  trades_satisfy P w1 w2 → trades_satisfy P w2 w3 → trades_satisfy P w1 w3.
Proof.
  intros (n1 & E1 & T1) (n2 & E2 & T2).
  exists (n1 ++ n2). split; [by rewrite E2, E1, app_assoc|].
  intros t [Ht|Ht]%elem_of_app; [by apply T1|by apply T2].
Qed.

Lemma trades_satisfy_mono (P Q : Trade.t → Prop) w w' :
  (∀ t, P t → Q t) → trades_satisfy P w w' → trades_satisfy Q w w'.
Proof.
  intros HPQ (new & E & Hn). exists new. split; [done|].
  intros t Ht. by apply HPQ, Hn.
Qed.

Lemma trades_satisfy_events P w w' w'' :
  trades_satisfy P w w' → events w'' = events w' → trades_satisfy P w w''.
Proof. intros (new & E & Hn) E'. exists new. by rewrite E', E. Qed.

Lemma trades_satisfy_snoc P w w' w'' e :
  trades_satisfy P w w' → events w'' = events w' ++ [e] → (∀ t, e ≠ OnTrade t) →
  trades_satisfy P w w''.
Proof.
  intros (new & E & Hn) E' He. exists (new ++ [e]). split.
  - by rewrite E', E, app_assoc.
  - intros t [Ht|Ht]%elem_of_app; [by apply Hn|].
    apply list_elem_of_singleton in Ht. by destruct (He t).
Qed.

Lemma best_first_refl is_buy sd G : best_first is_buy sd G G.
Proof. by intros k k' _ Hne. Qed.

Lemma deal_aggressor oi oi1 ok t :
  aggressor_ok oi oi1 → deal oi1 ok t → deal oi ok t.
Proof.
  intros (Eid & _ & Es & _) (H1 & H2 & H3). unfold deal, Order.is_buy in *.
  rewrite Es, Eid in *. done.
Qed.

Lemma lrep_shape h l l' ps :
  lrep h l ps →
  PriceLevel.head_ l' = PriceLevel.head_ l →
  PriceLevel.tail_ l' = PriceLevel.tail_ l →
  PriceLevel.order_count_ l' = PriceLevel.order_count_ l →
  lrep h l' ps.
Proof. intros [H1 H2 H3 H4 H5] E1 E2 E3. split; [congruence..|done|done]. Qed.

Lemma reduce_quantity_shape filled l :
  PriceLevel.head_ (PriceLevel.reduce_quantity filled l) = PriceLevel.head_ l ∧
  PriceLevel.tail_ (PriceLevel.reduce_quantity filled l) = PriceLevel.tail_ l ∧
  PriceLevel.order_count_ (PriceLevel.reduce_quantity filled l)
    = PriceLevel.order_count_ l ∧
  PriceLevel.price (PriceLevel.reduce_quantity filled l) = PriceLevel.price l.
Proof. unfold PriceLevel.reduce_quantity. by destruct (PriceLevel.clamps filled l). Qed.

(** The level at [k] is overwritten by one of the same shape. *)
Lemma wf_reshape inc G b b' sd k l l' :
  wf inc G b → levels sd b !! k = Some l →
  PriceLevel.head_ l' = PriceLevel.head_ l →
  PriceLevel.tail_ l' = PriceLevel.tail_ l →
  PriceLevel.order_count_ l' = PriceLevel.order_count_ l →
  PriceLevel.price l' = PriceLevel.price l →
  levels sd b' = <[k := l']> (levels sd b) →
  levels (other sd) b' = levels (other sd) b →
  order_index_ b' = order_index_ b →
  order_arena_ b' = order_arena_ b →
  wf inc G b'.
Proof.
  intros H Hl E1 E2 E3 E4 El Eo Ei Eh.
  pose proof (wf_levels _ _ _ H sd k) as Hrep. rewrite Hl in Hrep.
  destruct Hrep as [Hrep Hprice].
  eapply (wf_queue_ext _ (set_queue G sd k (G sd k))).
  - eapply wf_requeue; [exact H|exact El|exact Eo|exact Ei|..].
    + rewrite Eh. by eapply lrep_shape.
    + congruence.
    + rewrite Eh. apply relinked_refl.
    + intros q _ _. by rewrite Eh.
    + done.
    + done.
    + intros q ->. split; [|by left]. intros Hq.
      by destruct (wf_queued _ _ _ H _ _ _ Hq) as (? & ? & ? & ? & ? & ? & ?).
    + intros q ->. by left.
  - intros sd' k'. unfold set_queue. case_decide as E; [|done]. by destruct E as [-> ->].
Qed.

Lemma reduce_level_wf inc G w sd k l filled :
  wf inc G (book w) → levels sd (book w) !! k = Some l →
  sat False (reduce_level sd k filled) w (λ _ w',
    wf inc G (book w') ∧ heap w' = heap w ∧ index w' = index w ∧
    levels sd (book w') = <[k := PriceLevel.reduce_quantity filled l]> (levels sd (book w)) ∧
    levels (other sd) (book w') = levels (other sd) (book w) ∧
    ∃ evs, events w' = events w ++ evs ∧ ∀ t, OnTrade t ∉ evs).
Proof.
  intros H Hl. unfold reduce_level.
  apply sat_bind, sat_level_ref; [|congruence]. intros l0 Hl0.
  assert (l0 = l) as -> by congruence.
  destruct (reduce_quantity_shape filled l) as (E1 & E2 & E3 & E4).
  apply sat_bind, sat_when.
  - intros _. apply sat_emit, sat_modify. simpl. split_and!; try (by bk).
    + eapply wf_reshape; [exact H|exact Hl|..]; try done; by bk.
    + eexists. split; [done|].
      intros t [= ]%list_elem_of_singleton.
  - intros _. apply sat_modify. simpl. split_and!; try (by bk).
    + eapply wf_reshape; [exact H|exact Hl|..]; try done; by bk.
    + exists []. split; [by rewrite app_nil_r|]. intros t. apply not_elem_of_nil.
Qed.

(** One pass of the inner loop: the front order trades with the
    aggressor and is popped, or the aggressor has nothing left. *)
Lemma fill_front_wf G w inc oi sd k level :
  wf (Some inc) G (book w) → heap w !! inc = Some oi →
  levels sd (book w) !! k = Some level → PriceLevel.empty level = false →
  sat False (fill_front clk inc sd k (Order.leaves_qty oi) level) w (λ _ w',
    ∃ G', wf (Some inc) G' (book w') ∧ fills inc w w' ∧
      dom (levels sd (book w')) = dom (levels sd (book w)) ∧
      levels (other sd) (book w') = levels (other sd) (book w) ∧
      ((length (G' sd k) < length (G sd k))%nat ∨
       (G' sd k = G sd k ∧
        ∃ o', heap w' !! inc = Some o' ∧ Order.leaves_qty o' = 0)) ∧
      front_consumed sd G G' ∧
      trades_satisfy (deal oi (λ x, x = k)) w w' ∧
      (∀ sd' k', sd' ≠ sd ∨ k' ≠ k → G' sd' k' = G sd' k')).
Proof.
  intros H Hoi Hl Hne. unfold fill_front.
  pose proof (wf_levels _ _ _ H sd k) as Hrep. rewrite Hl in Hrep.
  destruct Hrep as [Hrep Hprice].
  destruct (lrep_nonempty _ _ _ Hrep Hne) as (r & Hr & ->).
  assert (Hrq : r ∈ G sd k) by (by eapply list_elem_of_lookup_2).
  destruct (wf_queued _ _ _ H _ _ _ Hrq) as (or & Hor & Ek & Es & Et & Hir & Hri).
  assert (Hne' : r ≠ inc) by congruence.
  destruct (wf_aggressor _ _ _ H _ eq_refl) as (oi' & Hoi' & Hii).
  assert (oi' = oi) as -> by congruence.
  apply sat_bind, sat_ret.
  read_as or. cbv zeta.
  set (fq := Z.min (Order.leaves_qty oi) (Order.leaves_qty or)).
  apply sat_bind, sat_next_sequence.
  read_as or.
  apply sat_bind, sat_now.
  read_as oi. read_as oi. read_as oi. read_as oi. read_as or.
  apply sat_bind. eapply sat_mono.
  { eapply (reduce_level_wf (Some inc) G _ sd k level).
    - eapply wf_ext; [exact H|..]; by bk.
    - by bk. }
  intros _ w3 (H3 & Eh3 & Ei3 & El3 & Eo3 & evs & Ee3 & Hevs).
  simpl in Eh3, Ei3, El3, Eo3, Ee3. autorewrite with book in El3, Eo3.
  simpl in El3, Eo3.
  assert (Hoi3 : heap w3 !! inc = Some oi) by congruence.
  assert (Hor3 : heap w3 !! r = Some or) by congruence.
  assert (Hlen : (inc < length (heap w3))%nat) by (by eapply lookup_lt_Some).
  assert (Hlenr : (r < length (heap w3))%nat) by (by eapply lookup_lt_Some).
  apply sat_bind, sat_now. tidy_state.
  apply sat_bind, sat_arena_update; [|simpl; congruence].
  intros o1 E. simpl in E. assert (o1 = oi) as -> by congruence. clear E.
  tidy_state. generalize (clk (clock_reads w3)). intros t1.
  apply sat_bind, sat_now. tidy_state.
  apply sat_bind, sat_arena_update;
    [|simpl; rewrite list_lookup_insert_ne by done; congruence].
  intros o1 E. simpl in E. rewrite list_lookup_insert_ne in E by done.
  assert (o1 = or) as -> by congruence. clear E.
  tidy_state. generalize (clk (S (clock_reads w3))). intros t2.
  apply sat_bind, sat_emit. tidy_state.
  apply sat_bind, sat_arena_deref;
    [|simpl; rewrite list_lookup_insert_eq; [done|by rewrite length_insert]].
  intros o1 E. simpl in E.
  rewrite list_lookup_insert_eq in E by (by rewrite length_insert).
  injection E as <-.
  apply sat_bind, sat_emit. tidy_state.
  apply sat_bind, sat_modify. tidy_state.
  apply sat_bind, sat_modify. tidy_state.
  apply sat_bind, sat_arena_read;
    [|simpl; rewrite list_lookup_insert_eq; [done|by rewrite length_insert]].
  intros o1 E. simpl in E.
  rewrite list_lookup_insert_eq in E by (by rewrite length_insert).
  injection E as <-.
  match goal with |- sat _ _ ?w _ => set (w12 := w) end.
  set (oi' := Order.fill fq t1 oi). set (or' := Order.fill fq t2 or).
  destruct (fill_terms fq t1 oi) as (Fi1 & Fi2 & Fi3 & Fi4 & Fi5 & Fi6 & Fi7).
  destruct (fill_terms fq t2 or) as (Fr1 & Fr2 & Fr3 & Fr4 & Fr5 & Fr6 & Fr7).
  assert (E12h : heap w12 = <[r := or']> (<[inc := oi']> (heap w)))
    by (by rewrite <- Eh3).
  assert (E12i : index w12 = index w) by (by rewrite <- Ei3).
  assert (E12l : levels sd (book w12)
                 = <[k := PriceLevel.reduce_quantity fq level]> (levels sd (book w)))
    by (rewrite <- El3; by bk).
  assert (E12o : levels (other sd) (book w12) = levels (other sd) (book w))
    by (rewrite <- Eo3; by bk).
  assert (E12e : ∃ tr, events w12 = events w ++ evs ++ [OnTrade tr; OnOrder or']
             ∧ indexed w (Trade.buy_order_id tr)
             ∧ indexed w (Trade.sell_order_id tr)
             ∧ deal oi (λ x, x = k) tr).
  { eexists. split; [simpl; rewrite Ee3, <- !app_assoc; reflexivity|].
    unfold indexed, deal. simpl.
    destruct (Order.is_buy oi); split_and!; try done; by eexists. }
  assert (H12 : wf (Some inc) G (book w12)).
  { eapply (wf_update _ _ (set_arena (<[inc := oi']> (heap w3)) (book w3)) _ r or or').
    - eapply (wf_update _ _ (book w3) _ inc oi oi'); try done; try (by bk).
      by left.
    - simpl. by rewrite list_lookup_insert_ne.
    - by bk.
    - intros sd'. by bk.
    - by bk.
    - done.
    - right. split_and!; try done. intros _. right. by rewrite Es, Ek. }
  assert (Hi12 : heap w12 !! inc = Some oi').
  { rewrite E12h, list_lookup_insert_ne by done.
    apply list_lookup_insert_eq. by rewrite <- Eh3. }
  assert (Hr12 : heap w12 !! r = Some or').
  { rewrite E12h. apply list_lookup_insert_eq.
    by rewrite length_insert, <- Eh3. }
  assert (Hfill12 : fills inc w w12).
  { destruct E12e as (tr & Ee & Hb & Hs & _). split.
    - intros o Ho. assert (o = oi) as -> by congruence.
      exists oi'. split; [done|apply aggressor_ok_fill].
    - intros i. unfold indexed. by rewrite E12i.
    - exists (evs ++ [OnTrade tr; OnOrder or']). split; [done|].
      intros t [Ht|Ht]%elem_of_app; [by destruct (Hevs t)|].
      apply elem_of_cons in Ht as [[= ->]|Ht]; [done|].
      by apply list_elem_of_singleton in Ht. }
  assert (Hdeal12 : trades_satisfy (deal oi (λ x, x = k)) w w12).
  { destruct E12e as (tr & Ee & _ & _ & Hd).
    exists (evs ++ [OnTrade tr; OnOrder or']). split; [done|].
    intros t [Ht|Ht]%elem_of_app; [by destruct (Hevs t)|].
    apply elem_of_cons in Ht as [[= ->]|Ht]; [done|].
    by apply list_elem_of_singleton in Ht. }
  clearbody w12. clear E12e.
  apply sat_when.
  - intros Hfilled.
    pose proof (wf_levels _ _ _ H12 sd k) as Hrep12.
    rewrite E12l, lookup_insert_eq in Hrep12. destruct Hrep12 as [Hrep12 Hp12].
    assert (Hidle : Order.is_active or' = false).
    { apply bool_decide_eq_true in Hfilled. unfold or' in *.
      rewrite fill_leaves in Hfilled. unfold Order.is_active.
      rewrite fill_status, (bool_decide_eq_true_2 _ Hfilled). done. }
    apply sat_bind. eapply sat_mono.
    { eapply (dequeue_level_spec (Some inc) (Some inc) G w12 _ sd k 0 r or');
        [exact H12|by rewrite E12l, lookup_insert_eq|exact Hr|exact Hr12| |by right].
      eapply sat_mono.
      - eapply pop_front_spec; [exact Hrep12|exact Hr|exact Hr12|].
        by eapply wf_queue_length.
      - intros l' h' (? & ? & ? & ? & ?). done. }
    intros _ w13 (H13 & Ei13 & Ee13 & [Hlen13 Hrel13] & Hdom13 & Eo13).
    destruct (Hrel13 _ _ Hr12) as (or13 & Hor13 & Eur).
    destruct (Hrel13 _ _ Hi12) as (oi13 & Hoi13 & Eui).
    apply sat_bind, sat_arena_read; [|congruence]. intros o1 E.
    assert (o1 = or13) as -> by congruence. clear E.
    apply sat_modify.
    assert (Eid : Order.id or13 = Order.id or).
    { destruct (unlinked_terms _ _ Eur) as (-> & _). done. }
    exists (set_queue G sd k (delete 0%nat (G sd k))). split_and!.
    + eapply wf_index_erase; [exact H13| |by bk..].
      intros q Hq. rewrite Eid, Ei13, E12i, Hir in Hq. injection Hq as <-.
      split; [done|]. intros sd' k'. unfold set_queue. case_decide as Hd.
      * eapply delete_NoDup_gone; [|exact Hr]. apply (lrep_nodup _ _ _ Hrep).
      * intros Hq. destruct (wf_queue_unique _ _ _ _ _ _ _ _ H Hq Hrq). by destruct Hd.
    + eapply fills_trans; [exact Hfill12|]. split.
      * intros o Ho. assert (o = oi') as -> by congruence.
        exists oi13. split; [by bk|]. by apply aggressor_ok_unlinked.
      * intros i. unfold indexed. bk. rewrite Ei13.
        intros [x [_ Hx]%lookup_delete_Some]. by eexists.
      * exists []. split; [|intros t Ht; by apply elem_of_nil in Ht].
        bk. by rewrite Ee13, app_nil_r.
    + bk. rewrite Hdom13, E12l. apply dom_insert_lookup_L. by eexists.
    + bk. congruence.
    + left. rewrite set_queue_eq. destruct (G sd k); [done|]. simpl. lia.
    + intros sd' k'. unfold set_queue. case_decide as Hd.
      * destruct Hd as [-> ->]. exists 1%nat. split; [|by right].
        by destruct (G sd k).
      * exists 0%nat. split; [done|by left].
    + eapply trades_satisfy_events; [exact Hdeal12|]. by bk.
    + intros sd' k' Hoff. unfold set_queue. rewrite decide_False; [done|].
      intros [-> ->]. by destruct Hoff.
  - intros Hfilled. exists G. split_and!; try done; [| |apply front_consumed_refl].
    + by rewrite E12l, dom_insert_lookup_L by (by eexists).
    + right. split; [done|]. exists oi'. split; [done|].
      unfold oi'. rewrite fill_leaves.
      apply bool_decide_eq_false in Hfilled. unfold or' in Hfilled.
      rewrite fill_leaves in Hfilled.
      destruct (Z.min_spec (Order.leaves_qty oi) (Order.leaves_qty or))
        as [[_ E]|[_ E]]; fold fq in E; rewrite E in *.
      * by rewrite Z.sub_diag.
      * by rewrite Z.sub_diag in Hfilled.
Qed.

(** The inner loop returns within the fuel the level's count gives, with
    the level drained or the aggressor done. *)
Lemma fifo_loop_wf fuel : ∀ G w inc oi sd k,
  wf (Some inc) G (book w) → heap w !! inc = Some oi →
  is_Some (levels sd (book w) !! k) →
  (length (G sd k) < fuel)%nat ∨ (¬ 0 < Order.leaves_qty oi ∧ (1 ≤ fuel)%nat) →
  sat False (fifo_loop clk fuel inc sd k) w (λ _ w',
    ∃ G', wf (Some inc) G' (book w') ∧ fills inc w w' ∧
      dom (levels sd (book w')) = dom (levels sd (book w)) ∧
      levels (other sd) (book w') = levels (other sd) (book w) ∧
      (G' sd k = [] ∨
       ∃ o', heap w' !! inc = Some o' ∧ ¬ 0 < Order.leaves_qty o') ∧
      front_consumed sd G G' ∧
      trades_satisfy (deal oi (λ x, x = k)) w w' ∧
      (∀ sd' k', sd' ≠ sd ∨ k' ≠ k → G' sd' k' = G sd' k')).
Proof.
  induction fuel as [|fuel IH]; intros G w inc oi sd k H Hoi [level Hl] Hfuel.
  { destruct Hfuel as [?|[_ ?]]; lia. }
  rewrite fifo_loop_S.
  read_as oi.
  apply sat_bind, sat_level_ref; [|congruence]. intros l0 Hl0.
  assert (l0 = level) as -> by congruence.
  pose proof (wf_levels _ _ _ H sd k) as Hrep. rewrite Hl in Hrep.
  destruct Hrep as [Hrep Hprice].
  destruct (bool_decide (0 < Order.leaves_qty oi)) eqn:Hpos; simpl.
  - destruct (PriceLevel.empty level) eqn:Hempty; simpl.
    + apply sat_ret. exists G.
      split_and!; try done;
        [apply fills_refl| |apply front_consumed_refl|apply trades_satisfy_refl].
      left. by eapply lrep_empty.
    + apply bool_decide_eq_true in Hpos.
      destruct Hfuel as [Hfuel|[? _]]; [|done].
      destruct (lrep_nonempty _ _ _ Hrep Hempty) as (r & Hr & _).
      assert (1 ≤ length (G sd k))%nat.
      { destruct (G sd k); [done|simpl; lia]. }
      apply sat_bind. eapply sat_mono; [by eapply fill_front_wf|].
      intros _ w1 (G1 & H1 & Hf1 & Hd1 & Ho1 & Hprog & Hc1 & Ht1 & Hfr1).
      destruct (fills_aggressor _ _ _ Hf1 _ Hoi) as (oi1 & Hoi1 & Hok1).
      eapply sat_mono.
      { eapply (IH G1 w1 inc oi1 sd k); [done|done| |].
        - apply (elem_of_dom (levels sd (book w1)) k). rewrite Hd1.
          apply elem_of_dom. by eexists.
        - destruct Hprog as [?|(_ & o' & Ho' & E)]; [left; lia|right].
          assert (o' = oi1) as -> by congruence. split; lia. }
      intros _ w2 (G2 & H2 & Hf2 & Hd2 & Ho2 & Hexit & Hc2 & Ht2 & Hfr2).
      exists G2. split_and!; try done; try congruence.
      * by eapply fills_trans.
      * by eapply front_consumed_trans.
      * eapply trades_satisfy_trans; [exact Ht1|].
        eapply trades_satisfy_mono; [|exact Ht2].
        intros t. by apply deal_aggressor.
      * intros sd' k' Hoff. by rewrite Hfr2, Hfr1.
  - apply sat_ret. exists G.
    split_and!; try done;
      [apply fills_refl| |apply front_consumed_refl|apply trades_satisfy_refl].
    right. exists oi. split; [done|]. by apply bool_decide_eq_false in Hpos.
Qed.

Lemma erase_if_empty_wf inc G w sd k l :
  wf inc G (book w) → levels sd (book w) !! k = Some l →
  sat False (when (PriceLevel.empty l) (erase_level sd k)) w
    (λ _ w',
      wf inc G (book w') ∧ index w' = index w ∧ events w' = events w ∧
      heap w' = heap w ∧
      levels (other sd) (book w') = levels (other sd) (book w) ∧
      (G sd k = [] → levels sd (book w') = delete k (levels sd (book w))) ∧
      (G sd k ≠ [] → levels sd (book w') = levels sd (book w))).
Proof.
  intros H Hl.
  pose proof (wf_levels _ _ _ H sd k) as Hrep. rewrite Hl in Hrep.
  destruct Hrep as [Hrep Hprice].
  apply sat_when.
  - intros He. pose proof (lrep_empty _ _ _ Hrep He) as HG.
    apply sat_modify. simpl. split_and!; try (by bk).
    eapply wf_erase_level; [exact H|exact HG|..]; by bk.
  - intros He. destruct (lrep_nonempty _ _ _ Hrep He) as (p & Hp & _).
    split_and!; try done. intros HG. by rewrite HG in Hp.
Qed.

Lemma best_key_Some is_buy (m : gmap Z PriceLevel.t) :
  m ≠ ∅ → ∃ k, best_key is_buy m = Some k ∧ is_Some (m !! k).
Proof.
  intros Hne. unfold best_key. destruct is_buy.
  - destruct (min_key m) as [k|] eqn:E.
    + exists k. split; [done|]. by apply min_key_Some.
    + by apply min_key_None in E.
  - destruct (max_key m) as [k|] eqn:E.
    + exists k. split; [done|]. by apply max_key_Some.
    + by apply max_key_None in E.
Qed.

(** The outer loop returns within the fuel the size of the side gives. *)
Lemma level_loop_wf fuel : ∀ G w inc oi sd price_ok,
  wf (Some inc) G (book w) → heap w !! inc = Some oi →
  (size (levels sd (book w)) < fuel)%nat
    ∨ (¬ 0 < Order.leaves_qty oi ∧ (1 ≤ fuel)%nat) →
  sat False (level_loop clk fuel inc sd price_ok) w (λ _ w',
    ∃ G', wf (Some inc) G' (book w') ∧ fills inc w w' ∧
      levels (other sd) (book w') = levels (other sd) (book w) ∧
      front_consumed sd G G' ∧
      trades_satisfy (deal oi (λ x, price_ok (Order.price oi) x = true)) w w' ∧
      best_first (Order.is_buy oi) sd G G').
Proof.
  induction fuel as [|fuel IH]; intros G w inc oi sd price_ok H Hoi Hfuel.
  { destruct Hfuel as [?|[_ ?]]; lia. }
  rewrite level_loop_S.
  read_as oi.
  apply sat_bind, sat_gets.
  destruct (bool_decide (0 < Order.leaves_qty oi)) eqn:Hpos; simpl;
    [|apply sat_ret; exists G; split_and!; try done;
      [apply fills_refl|apply front_consumed_refl|apply trades_satisfy_refl
      |apply best_first_refl]].
  destruct (bool_decide (levels sd (book w) = ∅)) eqn:Hemp; simpl;
    [apply sat_ret; exists G; split_and!; try done;
     [apply fills_refl|apply front_consumed_refl|apply trades_satisfy_refl
     |apply best_first_refl]|].
  apply bool_decide_eq_true in Hpos. apply bool_decide_eq_false in Hemp.
  destruct Hfuel as [Hfuel|[? _]]; [|done].
  read_as oi.
  destruct (best_key_Some (Order.is_buy oi) _ Hemp) as (k & Hbest & [level Hl]).
  rewrite Hbest.
  apply sat_bind, sat_level_ref; [|congruence]. intros l0 Hl0.
  assert (l0 = level) as -> by congruence.
  read_as oi.
  destruct (price_ok (Order.price oi) (PriceLevel.price level)) eqn:Hok; simpl;
    [|apply sat_ret; exists G; split_and!; try done;
      [apply fills_refl|apply front_consumed_refl|apply trades_satisfy_refl
      |apply best_first_refl]].
  pose proof (wf_levels _ _ _ H sd k) as Hrep. rewrite Hl in Hrep.
  destruct Hrep as [Hrep Hprice].
  assert (Hsz : (1 ≤ size (levels sd (book w)))%nat).
  { destruct (size (levels sd (book w))) eqn:E; [|lia].
    by apply map_size_empty_inv in E. }
  apply sat_bind. eapply sat_mono.
  { eapply (fifo_loop_wf _ G w inc oi sd k); [done|done|by eexists|].
    left. unfold PriceLevel.order_count. rewrite (lrep_count _ _ _ Hrep), Nat2Z.id. lia. }
  intros _ w1 (G1 & H1 & Hf1 & Hd1 & Ho1 & Hexit & Hc1 & Ht1 & Hfr1).
  assert (is_Some (levels sd (book w1) !! k)) as [l1 Hl1].
  { apply (elem_of_dom (levels sd (book w1)) k). rewrite Hd1.
    apply elem_of_dom. by eexists. }
  apply sat_bind, sat_level_ref; [|congruence]. intros l0 Hl0'.
  assert (l0 = l1) as -> by congruence.
  apply sat_bind. eapply sat_mono; [by eapply erase_if_empty_wf|].
  intros _ w2 (H2 & Ei2 & Ee2 & Eh2 & Eo2 & Hgone & Hkept).
  destruct (fills_aggressor _ _ _ Hf1 _ Hoi) as (oi1 & Hoi1 & Hok1).
  assert (Hf2 : fills inc w w2).
  { eapply fills_trans; [exact Hf1|]. split.
    - intros o Ho. exists o. rewrite Eh2. split; [done|apply aggressor_ok_refl].
    - intros i. unfold indexed. by rewrite Ei2.
    - exists []. split; [by rewrite Ee2, app_nil_r|].
      intros t Ht. by apply elem_of_nil in Ht. }
  eapply sat_mono.
  { eapply (IH G1 w2 inc oi1 sd price_ok); [done|by rewrite Eh2|].
    assert (size (levels sd (book w1)) = size (levels sd (book w))) as Hsize.
    { by rewrite <- !(size_dom (D := gset Z)), Hd1. }
    destruct (decide (G1 sd k = [])) as [HG|HG].
    - left. rewrite (Hgone HG), map_size_delete_Some by (by eexists). lia.
    - right. destruct Hexit as [?|(o' & Ho' & Hz)]; [done|].
      assert (o' = oi1) as -> by congruence. split; [done|lia]. }
  intros _ w3 (G3 & H3 & Hf3 & Ho3 & Hc3 & Ht3 & Hb3).
  exists G3. split_and!; [done|by eapply fills_trans|congruence| | |].
  - by eapply front_consumed_trans.
  - eapply trades_satisfy_trans.
    + eapply trades_satisfy_events; [|exact Ee2].
      eapply trades_satisfy_mono; [|exact Ht1].
      intros t [Ek Hrest]. split; [|exact Hrest].
      simpl in Ek |- *. by rewrite Ek, <- Hprice.
    + eapply trades_satisfy_mono; [|exact Ht3].
      intros t Ht. apply (deal_aggressor _ _ _ _ Hok1).
      destruct Hok1 as (_ & Epr & _). by rewrite Epr in Ht.
  - assert (Eb1 : Order.is_buy oi1 = Order.is_buy oi).
    { destruct Hok1 as (_ & _ & Es & _). unfold Order.is_buy. by rewrite Es. }
    rewrite Eb1 in Hb3.
    assert (Hbetter : ∀ k', (if Order.is_buy oi then k' < k else k < k') →
                            G3 sd k' = []).
    { intros k' Hk'.
      assert (HG : G sd k' = []).
      { pose proof (wf_levels _ _ _ H sd k') as Hl'.
        destruct (levels sd (book w) !! k') as [l'|] eqn:El'; [|done].
        exfalso. unfold best_key in Hbest. destruct (Order.is_buy oi).
        - apply min_key_Some in Hbest as [_ Hmin].
          specialize (Hmin k' ltac:(by eexists)). lia.
        - apply max_key_Some in Hbest as [_ Hmax].
          specialize (Hmax k' ltac:(by eexists)). lia. }
      destruct (Hc3 sd k') as (n3 & E3 & _).
      rewrite E3, Hfr1, HG by (right; destruct (Order.is_buy oi); lia).
      by rewrite drop_nil. }
    intros kk kk' Hlt Hne. destruct (decide (kk = k)) as [->|Hkk].
    + by apply Hbetter.
    + apply (Hb3 kk kk' Hlt). rewrite Hfr1 by (by right). done.
Qed.

Lemma fills_emit inc w e :
  (∀ t, e ≠ OnTrade t) →
  fills inc w (mkWorld (book w) (events w ++ [e]) (clock_reads w)).
Proof.
  intros He. split.
  - intros o Ho. exists o. split; [done|apply aggressor_ok_refl].
  - done.
  - exists [e]. split; [done|]. intros t Ht%list_elem_of_singleton.
    by destruct (He t).
Qed.

Lemma match_against_wf G w inc oi sd price_ok :
  wf (Some inc) G (book w) → heap w !! inc = Some oi →
  sat False (match_against clk inc sd price_ok) w (λ _ w',
    ∃ G', wf (Some inc) G' (book w') ∧ fills inc w w' ∧
      front_consumed sd G G' ∧
      trades_satisfy (deal oi (λ x, price_ok (Order.price oi) x = true)) w w' ∧
      best_first (Order.is_buy oi) sd G G').
Proof.
  intros H Hoi. unfold match_against.
  read_as oi. apply sat_bind, sat_gets.
  apply sat_bind, sat_when.
  - intros _. apply sat_emit. eapply sat_mono.
    { eapply (level_loop_wf _ G _ inc oi); [done|done|]. left. simpl. lia. }
    intros _ w' (G' & H' & Hf & _ & Hc & Ht & Hb). exists G'.
    split_and!; [done| |done| |done].
    + eapply fills_trans; [|exact Hf]. by apply fills_emit.
    + eapply trades_satisfy_trans; [|exact Ht].
      eapply trades_satisfy_snoc; [apply trades_satisfy_refl|done|done].
  - intros _. eapply sat_mono.
    { eapply (level_loop_wf _ G _ inc oi); [done|done|]. left. lia. }
    intros _ w' (G' & H' & Hf & _ & Hc & Ht & Hb). by exists G'.
Qed.

Lemma can_fill_completely_returns order w o :
  heap w !! order = Some o →
  sat False (can_fill_completely order) w (λ _ w', w' = w).
Proof.
  intros Ho. unfold can_fill_completely.
  read_as o. read_as o. apply sat_bind, sat_gets. read_as o.
  by apply sat_ret.
Qed.

(** [match] for the aggressor: it returns, the book stays well formed,
    and the trades are between indexed orders. *)
Lemma match_wf G w inc oi :
  wf (Some inc) G (book w) → heap w !! inc = Some oi →
  sat False (match_ clk inc) w (λ _ w',
    ∃ G', wf (Some inc) G' (book w') ∧ fills inc w w' ∧
      front_consumed (other (own_side (Order.is_buy oi))) G G' ∧
      trades_satisfy
        (deal oi (λ x, (if Order.is_buy oi then buy_price_ok else sell_price_ok)
                         (Order.price oi) x = true)) w w' ∧
      best_first (Order.is_buy oi) (other (own_side (Order.is_buy oi))) G G').
Proof.
  intros H Hoi. unfold match_.
  read_as oi.
  apply sat_bind.
  eapply (sat_mono _ _ _ (λ _ w', w' = w)).
  { destruct (bool_decide (Order.type oi = FOK)); [|by apply sat_ret].
    by eapply can_fill_completely_returns. }
  intros feasible w' ->.
  destruct (negb feasible).
  { apply sat_ret. exists G.
    split_and!;
      [done|apply fills_refl|apply front_consumed_refl|apply trades_satisfy_refl
      |apply best_first_refl]. }
  read_as oi.
  destruct (Order.is_buy oi) eqn:Eb.
  - eapply sat_mono; [by eapply match_against_wf|].
    intros _ w' (G' & ? & ? & ? & ? & Hb). rewrite Eb in Hb. by exists G'.
  - eapply sat_mono; [by eapply match_against_wf|].
    intros _ w' (G' & ? & ? & ? & ? & Hb). rewrite Eb in Hb. by exists G'.
Qed.

(** *** Where the undefined decrement is evaluated *)

Lemma defined_run_refl w : defined_run w w.
Proof. exists []. split; [by rewrite app_nil_r|apply not_elem_of_nil]. Qed.

Lemma defined_run_trans w1 w2 w3 :
  defined_run w1 w2 → defined_run w2 w3 → defined_run w1 w3.
Proof.
  intros (n1 & E1 & H1) (n2 & E2 & H2). exists (n1 ++ n2).
  split; [by rewrite E2, E1, app_assoc|].
  intros [?|?]%elem_of_app; [by apply H1|by apply H2].
Qed.

Lemma defined_run_events w w' : events w' = events w → defined_run w w'.
Proof. intros E. exists []. split; [by rewrite app_nil_r|apply not_elem_of_nil]. Qed.

Lemma defined_run_snoc w w' e :
  events w' = events w ++ [e] → e ≠ PrevOfEndOfEmptyMap → defined_run w w'.
Proof.
  intros E He. exists [e]. split; [done|].
  intros Hin%list_elem_of_singleton. congruence.
Qed.

Lemma sat_and {S A} (m : M S A) s (Q1 Q2 : A → S → Prop) :
  sat False m s Q1 → sat True m s Q2 → sat False m s (λ a s', Q1 a s' ∧ Q2 a s').
Proof. unfold sat. destruct (m s) as [[a s']|]; done. Qed.

Lemma sat_any {S A} (m : M S A) s : sat True m s (λ _ _, True).
Proof. unfold sat. by destruct (m s) as [[a s']|]. Qed.

Lemma quiet_ret {A} (a : A) : quiet (ret a).
Proof. intros w. apply sat_ret, defined_run_refl. Qed.

Lemma quiet_raise {A} f : quiet (raise f : M World A).
Proof. intros w. by apply sat_raise. Qed.

Lemma quiet_bind {A B} (m : M World A) (k : A → M World B) :
  quiet m → (∀ a, quiet (k a)) → quiet (bind m k).
Proof.
  intros Hm Hk w. apply sat_bind. eapply sat_mono; [apply Hm|].
  intros a w1 H1. eapply sat_mono; [apply Hk|].
  intros b w2 H2. exact (defined_run_trans _ _ _ H1 H2).
Qed.

Lemma quiet_when (b : bool) (m : M World unit) : quiet m → quiet (when b m).
Proof. intros Hm. destruct b; [done|apply quiet_ret]. Qed.

Lemma quiet_gets {A} (f : World → A) : quiet (gets f).
Proof. intros w. apply sat_gets, defined_run_refl. Qed.

Lemma quiet_arena {A} (m : M (list Order.t) A) : quiet (arena m).
Proof.
  intros w. apply sat_arena. eapply sat_mono; [apply sat_any|].
  intros a h' _. by apply defined_run_events.
Qed.

Lemma quiet_on_book f : quiet (modify (on_book f)).
Proof. intros w. apply sat_modify. by apply defined_run_events. Qed.

Lemma quiet_now : quiet (now clk).
Proof. intros w. apply sat_now. by apply defined_run_events. Qed.

Lemma quiet_emit e : e ≠ PrevOfEndOfEmptyMap → quiet (emit e).
Proof. intros He w. apply sat_emit. by eapply defined_run_snoc. Qed.

Lemma quiet_level_ref sd k : quiet (level_ref sd k).
Proof.
  intros w. unfold level_ref. apply sat_bind, sat_gets.
  destruct (levels sd (book w) !! k);
    [apply sat_ret, defined_run_refl|by apply sat_raise].
Qed.

Ltac hush :=
  repeat lazymatch goal with
    | |- quiet (let _ := _ in _) => cbv zeta
    | |- quiet (ret _) => apply quiet_ret
    | |- quiet (raise _) => apply quiet_raise
    | |- quiet (bind _ _) => apply quiet_bind; [|intros ?]
    | |- quiet (when _ _) => apply quiet_when
    | |- quiet (arena _) => apply quiet_arena
    | |- quiet (emit (OnOrder _)) => apply quiet_emit; discriminate
    | |- quiet (emit (OnTrade _)) => apply quiet_emit; discriminate
    | |- quiet (emit (ReduceQuantityClamped _ _)) => apply quiet_emit; discriminate
    | |- quiet (now _) => apply quiet_now
    | |- quiet next_sequence => unfold next_sequence
    | |- quiet (gets _) => apply quiet_gets
    | |- quiet (index_find _) => apply quiet_gets
    | |- quiet (find_level _ _) => apply quiet_gets
    | |- quiet (get_levels _) => apply quiet_gets
    | |- quiet (index_erase _) => apply quiet_on_book
    | |- quiet (index_store _ _) => apply quiet_on_book
    | |- quiet (store_level _ _ _) => apply quiet_on_book
    | |- quiet (erase_level _ _) => apply quiet_on_book
    | |- quiet (modify (on_book _)) => apply quiet_on_book
    | |- quiet (level_ref _ _) => apply quiet_level_ref
    | |- quiet (reduce_level _ _ _) => unfold reduce_level
    | |- quiet (on_level _ _ _) => unfold on_level
    | |- quiet (rest_order _) => unfold rest_order
    | |- quiet (remove_from_book _) => unfold remove_from_book
    | |- quiet (cancel_rest _ _) => unfold cancel_rest
    | |- quiet (match ?x with _ => _ end) => destruct x
    end.

Lemma quiet_fill_front inc sd k leaves level :
  quiet (fill_front clk inc sd k leaves level).
Proof. unfold fill_front. hush. Qed.

Lemma quiet_fifo_loop fuel inc sd k : quiet (fifo_loop clk fuel inc sd k).
Proof.
  induction fuel as [|fuel IH]; [apply quiet_raise|].
  rewrite fifo_loop_S. hush; [apply quiet_fill_front|apply IH].
Qed.

Lemma quiet_level_loop fuel inc sd price_ok :
  quiet (level_loop clk fuel inc sd price_ok).
Proof.
  induction fuel as [|fuel IH]; [apply quiet_raise|].
  rewrite level_loop_S. hush; [apply quiet_fifo_loop|apply IH].
Qed.

(** [match_against] for a buyer, or on a side that has a level, takes its
    iterator from [begin()] or from [std::prev(end())] of a map that is
    not empty. *)
Lemma match_against_defined inc w oi sd price_ok :
  heap w !! inc = Some oi →
  Order.is_buy oi = true ∨ levels sd (book w) ≠ ∅ →
  sat True (match_against clk inc sd price_ok) w (λ _ w', defined_run w w').
Proof.
  intros Hoi Hc. unfold match_against.
  apply sat_bind, sat_arena_read; [|done]. intros o1 Ho1.
  assert (o1 = oi) as -> by congruence.
  apply sat_bind, sat_gets.
  assert (negb (Order.is_buy oi) && bool_decide (levels sd (book w) = ∅) = false)
    as ->.
  { destruct Hc as [->|Hc]; [done|].
    rewrite (bool_decide_eq_false_2 _ Hc). apply andb_false_r. }
  apply sat_bind, sat_ret. apply quiet_level_loop.
Qed.

(** [match] for a buyer, or while a bid level stands. *)
Lemma can_fill_completely_value order w o :
  heap w !! order = Some o →
  sat False (can_fill_completely order) w (λ a w',
    w' = w ∧
    a = can_fill_scan (Order.is_buy o) (Order.price o)
          (ascending (levels (contra_side (Order.is_buy o)) (book w)))
          (Order.leaves_qty o)).
Proof.
  intros Ho. unfold can_fill_completely.
  read_as o. read_as o. apply sat_bind, sat_gets. read_as o.
  by apply sat_ret.
Qed.

(** [match] reaches [match_against] with a buyer, or with a bid level
    standing; a FOK order that sells into an empty bid side is turned
    away by [can_fill_completely]. *)
Lemma match_defined_run inc w oi :
  heap w !! inc = Some oi →
  sat True (match_ clk inc) w (λ _ w',
    Order.is_buy oi = true ∨ bids_ (book w) ≠ ∅
    ∨ (Order.type oi = FOK ∧ Order.leaves_qty oi ≠ 0) → defined_run w w').
Proof.
  intros Hoi.
  destruct (decide (Order.is_buy oi = true ∨ bids_ (book w) ≠ ∅
                    ∨ (Order.type oi = FOK ∧ Order.leaves_qty oi ≠ 0))) as [Hc|Hc];
    [|eapply sat_mono; [apply sat_any|]; by intros].
  eapply sat_mono; [|by intros a w' H _; exact H].
  unfold match_.
  apply sat_bind, sat_arena_read; [|done]. intros o1 Ho1.
  assert (o1 = oi) as -> by congruence.
  apply sat_bind.
  eapply (sat_mono _ _ _ (λ feasible w',
            w' = w ∧
            (Order.is_buy oi = false → bids_ (book w) = ∅ → feasible = false))).
  { destruct (bool_decide (Order.type oi = FOK)) eqn:Ef.
    - apply sat_weaken.
      eapply sat_mono; [by eapply can_fill_completely_value|].
      intros a w' [-> ->]. split; [done|]. intros Eb Ee.
      destruct Hc as [?|[?|[_ Hl]]]; [congruence|done|].
      rewrite Eb. simpl. unfold levels. rewrite Ee.
      unfold ascending. rewrite map_to_list_empty. simpl.
      by apply bool_decide_eq_false_2.
    - apply bool_decide_eq_false in Ef. apply sat_ret. split; [done|].
      intros Eb Ee. destruct Hc as [?|[?|[? _]]]; [congruence|done|done]. }
  intros feasible w' [-> Hfe].
  destruct feasible; simpl; [|apply sat_ret, defined_run_refl].
  apply sat_bind, sat_arena_read; [|done]. intros o1 Ho1'.
  assert (o1 = oi) as -> by congruence.
  destruct (Order.is_buy oi) eqn:Eb.
  - eapply match_against_defined; [done|]. by left.
  - eapply match_against_defined; [done|]. right.
    intros Ee. by specialize (Hfe eq_refl Ee).
Qed.

Lemma defined_run_rebase w0 w w' :
  defined_run w w' → events w = events w0 → defined_run w0 w'.
Proof. intros (new & E & Hn) E0. exists new. by rewrite E, E0. Qed.

Lemma quiet_cancel_order id : quiet (cancel_order clk id).
Proof. unfold cancel_order. hush. Qed.

(** *** What enters the index *)

Lemma gains_ret {T} A (a : T) : gains A (ret a).
Proof. intros w. apply sat_ret. intros i ?. by left. Qed.

Lemma gains_raise {T} A f : gains A (raise f : M World T).
Proof. intros w. by apply sat_raise. Qed.

Lemma gains_bind {T U} A (m : M World T) (k : T → M World U) :
  gains A m → (∀ a, gains A (k a)) → gains A (bind m k).
Proof.
  intros Hm Hk w. apply sat_bind. eapply sat_mono; [apply Hm|].
  intros a w1 H1. eapply sat_mono; [apply Hk|].
  intros b w2 H2 i Hi. destruct (H2 i Hi) as [Hi1|?]; [by apply H1|by right].
Qed.

Lemma gains_when A (b : bool) (m : M World unit) : gains A m → gains A (when b m).
Proof. intros Hm. destruct b; [done|apply gains_ret]. Qed.

Lemma gains_gets {T} A (f : World → T) : gains A (gets f).
Proof. intros w. apply sat_gets. intros i ?. by left. Qed.

Lemma gains_arena {T} A (m : M (list Order.t) T) : gains A (arena m).
Proof.
  intros w. apply sat_arena. eapply sat_mono; [apply sat_any|].
  intros a h' _ i Hi. left. unfold indexed in *. by autorewrite with book in Hi.
Qed.

Lemma gains_on_book A f :
  (∀ b, order_index_ (f b) = order_index_ b) → gains A (modify (on_book f)).
Proof.
  intros Hf w. apply sat_modify. intros i Hi. left.
  unfold indexed in *. simpl in Hi. by rewrite Hf in Hi.
Qed.

Lemma gains_index_erase A id : gains A (index_erase id).
Proof.
  intros w. apply sat_modify. intros i. unfold indexed. bk.
  intros [x [_ Hx]%lookup_delete_Some]. left. by eexists.
Qed.

Lemma gains_index_store (A : OrderId → Prop) id p : A id → gains A (index_store id p).
Proof.
  intros HA w. apply sat_modify. intros i. unfold indexed. bk.
  intros [x [[<- _]|[_ Hx]]%lookup_insert_Some]; [by right|left; by eexists].
Qed.

Lemma gains_now A : gains A (now clk).
Proof. intros w. apply sat_now. intros i ?. by left. Qed.

Lemma gains_emit A e : gains A (emit e).
Proof. intros w. apply sat_emit. intros i ?. by left. Qed.

Lemma gains_level_ref A sd k : gains A (level_ref sd k).
Proof.
  intros w. unfold level_ref. apply sat_bind, sat_gets.
  destruct (levels sd (book w) !! k); [apply gains_ret|by apply sat_raise].
Qed.

Ltac gain :=
  repeat lazymatch goal with
    | |- gains _ (let _ := _ in _) => cbv zeta
    | |- gains _ (ret _) => apply gains_ret
    | |- gains _ (raise _) => apply gains_raise
    | |- gains _ (bind _ _) => apply gains_bind; [|intros ?]
    | |- gains _ (when _ _) => apply gains_when
    | |- gains _ (arena _) => apply gains_arena
    | |- gains _ (emit _) => apply gains_emit
    | |- gains _ (now _) => apply gains_now
    | |- gains _ next_sequence => unfold next_sequence
    | |- gains _ (gets _) => apply gains_gets
    | |- gains _ (index_find _) => apply gains_gets
    | |- gains _ (find_level _ _) => apply gains_gets
    | |- gains _ (get_levels _) => apply gains_gets
    | |- gains _ (index_erase _) => apply gains_index_erase
    | |- gains _ (store_level ?sd _ _) =>
        apply gains_on_book; intros b; by destruct sd, b
    | |- gains _ (erase_level ?sd _) =>
        apply gains_on_book; intros b; by destruct sd, b
    | |- gains _ (modify (on_book (set_next_sequence _))) =>
        apply gains_on_book; by intros []
    | |- gains _ (modify (on_book (λ b, set_trade_count _ b))) =>
        apply gains_on_book; by intros []
    | |- gains _ (modify (on_book (λ b, set_total_volume _ b))) =>
        apply gains_on_book; by intros []
    | |- gains _ (level_ref _ _) => apply gains_level_ref
    | |- gains _ (reduce_level _ _ _) => unfold reduce_level
    | |- gains _ (on_level _ _ _) => unfold on_level
    | |- gains _ (rest_order _) => unfold rest_order
    | |- gains _ (remove_from_book _) => unfold remove_from_book
    | |- gains _ (cancel_rest _ _) => unfold cancel_rest
    | |- gains _ (can_fill_completely _) => unfold can_fill_completely
    | |- gains _ (fill_front _ _ _ _ _ _) => unfold fill_front
    | |- gains _ (match ?x with _ => _ end) => destruct x
    end.

Lemma gains_fifo_loop A fuel inc sd k : gains A (fifo_loop clk fuel inc sd k).
Proof.
  induction fuel as [|fuel IH]; [apply gains_raise|].
  rewrite fifo_loop_S. gain. apply IH.
Qed.

Lemma gains_level_loop A fuel inc sd price_ok :
  gains A (level_loop clk fuel inc sd price_ok).
Proof.
  induction fuel as [|fuel IH]; [apply gains_raise|].
  rewrite level_loop_S. gain; [apply gains_fifo_loop|apply IH].
Qed.

Lemma gains_match A inc : gains A (match_ clk inc).
Proof. unfold match_, match_against. gain; apply gains_level_loop. Qed.

(** The index gains the id of an order that is added, and no other. *)
Lemma gains_serve r : gains (λ i, entering r = Some i) (serve clk r).
Proof.
  destruct r as [req|id|req]; simpl.
  - unfold add_order. gain; try apply gains_match.
    by apply gains_index_store.
  - unfold cancel_order. gain.
  - unfold amend_order. gain; apply gains_match.
Qed.

(** *** Steps on the aggressor *)

Lemma tends_ret {A} p (a : A) : tends p (ret a).
Proof. intros w G o H Ho. apply sat_ret. split_and!; try done. by exists o. Qed.

Lemma tends_bind {A B} p (m : M World A) (k : A → M World B) :
  tends p m → (∀ a, tends p (k a)) → tends p (bind m k).
Proof.
  intros Hm Hk w G o H Ho. apply sat_bind.
  eapply sat_mono; [by apply Hm|].
  intros a w1 (H1 & Ei1 & Ee1 & El1 & o1 & Ho1 & Eid1 & Et1 & Eb1).
  eapply sat_mono; [by apply Hk|].
  intros b w2 (H2 & Ei2 & Ee2 & El2 & o2 & Ho2 & Eid2 & Et2 & Eb2).
  split_and!; try congruence.
  exists o2. split_and!; congruence.
Qed.

Lemma tends_when p (b : bool) (m : M World unit) : tends p m → tends p (when b m).
Proof. intros Hm. destruct b; [done|apply tends_ret]. Qed.

Lemma tends_read {A} p (f : Order.t → A) : tends p (arena (read p f)).
Proof.
  intros w G o H Ho. apply sat_arena_read; [|congruence]. intros o1 _.
  split_and!; try done. by exists o.
Qed.

Lemma tends_update p f :
  (∀ o, Order.id (f o) = Order.id o ∧ Order.type (f o) = Order.type o ∧
        Order.is_buy (f o) = Order.is_buy o) →
  tends p (arena (update p f)).
Proof.
  intros Hf w G o H Ho. apply sat_arena_update; [|congruence]. intros o1 Ho1.
  assert (o1 = o) as -> by congruence. destruct (Hf o) as (Eid & Et & Eb).
  split_and!; try (by bk); try (intros sd; by bk).
  - eapply (wf_update _ _ (book w) _ p o (f o)); try done; try (by bk). by left.
  - exists (f o). split; [|done]. bk. apply list_lookup_insert_eq.
    by eapply lookup_lt_Some.
Qed.

Lemma tends_next_sequence p : tends p next_sequence.
Proof.
  intros w G o H Ho. apply sat_next_sequence.
  split_and!; try (by bk); try (intros sd; by bk).
  - eapply wf_ext; [exact H|..]; by bk.
  - by exists o.
Qed.

Lemma tends_now p : tends p (now clk).
Proof.
  intros w G o H Ho. apply sat_now. split_and!; try done. by exists o.
Qed.

(** [cancel_rest] for the aggressor: it leaves the index. *)
Lemma cancel_rest_wf G w p o :
  wf (Some p) G (book w) → heap w !! p = Some o →
  sat False (cancel_rest clk p) w (λ _ w',
    wf None G (book w') ∧
    (∀ i, indexed w' i → indexed w i) ∧
    ∃ o', events w' = events w ++ [OnOrder o']).
Proof.
  intros H Ho. unfold cancel_rest.
  assert (Hlen : (p < length (heap w))%nat) by (by eapply lookup_lt_Some).
  apply sat_bind, sat_now. tidy_state.
  apply sat_bind, sat_arena_update; [|simpl; congruence].
  intros o1 E. simpl in E. assert (o1 = o) as -> by congruence. clear E.
  tidy_state. generalize (clk (clock_reads w)). intros t.
  apply sat_bind, sat_arena_read; [|simpl; by rewrite list_lookup_insert_eq].
  intros o1 E. simpl in E. rewrite list_lookup_insert_eq in E by done.
  injection E as <-.
  apply sat_bind, sat_modify. tidy_state.
  apply sat_bind, sat_arena_deref; [|simpl; by rewrite list_lookup_insert_eq].
  intros o1 E. simpl in E. rewrite list_lookup_insert_eq in E by done.
  injection E as <-.
  apply sat_emit. split_and!.
  - eapply (wf_erase_aggressor _
              (set_arena (<[p := Order.cancel t o]> (heap w)) (book w)) _ p
              (Order.cancel t o)); try (by bk).
    + eapply (wf_update _ _ (book w) _ p o (Order.cancel t o));
        [exact H|exact Ho|by bk|intros; by bk|by bk|by destruct o|by left].
    + bk. by apply list_lookup_insert_eq.
  - intros i. unfold indexed. bk.
    intros [x [_ Hx]%lookup_delete_Some]. by eexists.
  - by eexists.
Qed.

(** *** The three operations *)

Lemma elem_of_map_fold_app {A B} (f : Z → A → list B) (m : gmap Z A) k a x :
  m !! k = Some a → x ∈ f k a →
  x ∈ map_fold (λ k a acc, f k a ++ acc) [] m.
Proof.
  revert k a x.
  apply (map_fold_weak_ind (λ r m, ∀ k a x, m !! k = Some a → x ∈ f k a → x ∈ r)).
  - intros k a x Hk. by rewrite lookup_empty in Hk.
  - intros i y m' r Hi IH k a x Hk Hx. apply elem_of_app.
    apply lookup_insert_Some in Hk as [[<- <-]|[_ Hk]]; [by left|right].
    by eapply IH.
Qed.

Lemma resting_ids_queued inc G b sd k p o :
  wf inc G b → p ∈ G sd k → order_arena_ b !! p = Some o →
  Order.id o ∈ resting_ids b.
Proof.
  intros H Hp Ho.
  destruct (wf_queue_level _ _ _ _ _ _ H Hp) as (l & Hl & Hrep & _).
  assert (Order.id o ∈ omap (λ p, Order.id <$> order_arena_ b !! p)
                            (PriceLevel.orders (order_arena_ b) l)) as Hin.
  { rewrite (orders_lrep _ _ _ Hrep). apply list_elem_of_omap.
    exists p. split; [done|]. by rewrite Ho. }
  unfold resting_ids. apply elem_of_app.
  destruct sd; [left|right];
    by apply (elem_of_map_fold_app
                (λ _ l, omap (λ p, Order.id <$> order_arena_ b !! p)
                             (PriceLevel.orders (order_arena_ b) l)) _ k l).
Qed.

Lemma sat_allocate F (h : list Order.t) (Q : ptr → list Order.t → Prop) :
  Q (length h) (h ++ [Order.init]) → sat F allocate h Q.
Proof. done. Qed.

Lemma traded_within_mono (A B : OrderId → Prop) w w' :
  (∀ i, A i → B i) → traded_within A w w' → traded_within B w w'.
Proof.
  intros HAB (new & E & Hn). exists new. split; [done|].
  intros t Ht. destruct (Hn t Ht). split; by apply HAB.
Qed.

Lemma traded_within_snoc A w w' w'' o :
  traded_within A w w' → events w'' = events w' ++ [OnOrder o] →
  traded_within A w w''.
Proof.
  intros (new & E & Hn) E'. exists (new ++ [OnOrder o]). split.
  - by rewrite E', E, app_assoc.
  - intros t [Ht|Ht]%elem_of_app; [by apply Hn|].
    by apply list_elem_of_singleton in Ht.
Qed.

Lemma traded_within_events A w w' w'' :
  traded_within A w w' → events w'' = events w' → traded_within A w w''.
Proof. intros (new & E & Hn) E'. exists new. by rewrite E', E. Qed.

Lemma aggressor_idle o0 o :
  aggressor_ok o0 o → ¬ 0 < Order.leaves_qty o →
  Order.is_active o0 = false ∨ 0 < Order.leaves_qty o0 →
  Order.is_active o = true → Order.is_active o0 = true ∧ False.
Proof.
  intros (_ & _ & _ & _ & [[Es El]|[[Es El]|[Es El]]]) Hz H0 Ha.
  - unfold Order.is_active in *. rewrite Es in Ha.
    destruct H0 as [H0|H0]; [congruence|]. rewrite El in Hz. done.
  - unfold Order.is_active in Ha. by rewrite Es in Ha.
  - done.
Qed.

(** [add_order] with a positive quantity and an id that is not resting. *)
(** [add_order] of an order that keeps the match defined. *)
Lemma add_order_defined req w :
  sat True (add_order clk req) w (λ _ w',
    match_defined (book w) (Add req) = true → defined_run w w').
Proof.
  unfold add_order.
  apply sat_bind, sat_arena, sat_allocate.
  apply sat_bind, sat_next_sequence.
  apply sat_bind, sat_now.
  apply sat_bind, sat_arena_update; [|done]. intros o1 Ho1.
  apply sat_bind, sat_modify.
  match goal with |- sat _ _ ?w _ => set (w5 := w) end.
  set (o0 := Order.mk (NewOrderRequest.id req) (next_sequence_ (book w))
               (NewOrderRequest.side req) (NewOrderRequest.type req)
               (NewOrderRequest.tif req) (NewOrderRequest.price req)
               (NewOrderRequest.quantity req) 0 (NewOrderRequest.quantity req)
               (clk (clock_reads w)) (clk (clock_reads w)) New None None
               (NewOrderRequest.symbol req)) in *.
  assert (Ho5 : heap w5 !! length (heap w) = Some o0).
  { simpl. apply list_lookup_insert_eq. rewrite length_app. simpl. lia. }
  assert (E5e : events w5 = events w) by done.
  assert (E5b : bids_ (book w5) = bids_ (book w)) by done.
  clearbody w5.
  apply sat_bind. eapply sat_mono; [by eapply match_defined_run|].
  intros u w6 Hq6.
  match goal with |- sat _ ?m _ _ => assert (Htail : quiet m) by hush end.
  eapply sat_mono; [apply Htail|]. intros a w7 H7 Hc.
  eapply defined_run_trans; [|exact H7].
  eapply defined_run_rebase; [|exact E5e]. apply Hq6. rewrite E5b.
  simpl in Hc.
  apply orb_prop in Hc as [Hc|[Ht%bool_decide_eq_true Hn%negb_true_iff]%andb_prop].
  - apply orb_prop in Hc as [Hb%bool_decide_eq_true|Hb%negb_true_iff%bool_decide_eq_false].
    + left. unfold Order.is_buy. simpl. by apply bool_decide_eq_true_2.
    + right. by left.
  - right. right. split; [done|]. simpl. by apply bool_decide_eq_false in Hn.
Qed.

Lemma add_order_wf G w req :
  wf None G (book w) → admissible (book w) (Add req) = true →
  sat False (add_order clk req) w (λ _ w',
    (∃ G', wf None G' (book w')) ∧
    traded_within (λ i, indexed w i ∨ i = NewOrderRequest.id req) w w').
Proof.
  intros H Hadm. simpl in Hadm.
  apply andb_prop in Hadm as [Hadm Hroom%bool_decide_eq_true].
  apply andb_prop in Hadm as [Hqty%bool_decide_eq_true Hfresh%bool_decide_eq_true].
  unfold add_order.
  apply sat_bind, sat_arena, sat_allocate. tidy_state.
  set (p := length (heap w)).
  apply sat_bind, sat_next_sequence. tidy_state.
  apply sat_bind, sat_now. tidy_state.
  set (o0 := Order.mk (NewOrderRequest.id req) (next_sequence_ (book w))
               (NewOrderRequest.side req) (NewOrderRequest.type req)
               (NewOrderRequest.tif req) (NewOrderRequest.price req)
               (NewOrderRequest.quantity req) 0 (NewOrderRequest.quantity req)
               (clk (clock_reads w)) (clk (clock_reads w)) New None None
               (NewOrderRequest.symbol req)).
  assert (Hp : (heap w ++ [Order.init]) !! p = Some Order.init).
  { unfold p. by rewrite lookup_app_r, Nat.sub_diag by lia. }
  apply sat_bind, sat_arena_update; [|simpl; congruence].
  intros o1 _. tidy_state.
  apply sat_bind, sat_modify. tidy_state.
  match goal with |- sat _ _ ?w _ => set (w5 := w) end.
  assert (Hnone : heap w !! p = None) by (apply lookup_ge_None_2; unfold p; lia).
  assert (Hunq : ∀ sd k, p ∉ G sd k).
  { intros sd k Hq. destruct (wf_queued _ _ _ H _ _ _ Hq) as (? & ? & _). congruence. }
  assert (Hunx : ∀ i, index w !! i ≠ Some p).
  { intros i Hi. destruct (wf_indexed _ _ _ H _ _ Hi) as (? & ? & _). congruence. }
  assert (Ho5 : heap w5 !! p = Some o0).
  { simpl. apply list_lookup_insert_eq. rewrite length_app. simpl. unfold p. lia. }
  assert (H5 : wf (Some p) G (book w5)).
  { eapply (wf_index_store G
              (set_arena (<[p := o0]> (heap w ++ [Order.init])) (book w))
              _ (NewOrderRequest.id req) p o0); try (by bk).
    - eapply (wf_update_unindexed _ _
                (set_arena (heap w ++ [Order.init]) (book w)) _ p o0);
        try (by bk).
      + eapply wf_allocate; [exact H|..]; try done; by bk.
      + bk. rewrite length_app. simpl. unfold p. lia.
    - bk. intros q sd k Hq Hin.
      destruct (wf_indexed _ _ _ H _ _ Hq) as (oq & Hoq & Eid & _).
      apply Hfresh. rewrite <- Eid. by eapply resting_ids_queued. }
  assert (E5e : events w5 = events w) by done.
  assert (E5i : ∀ i, indexed w5 i → indexed w i ∨ i = NewOrderRequest.id req).
  { intros i. unfold indexed. simpl.
    intros [x [[<- _]|[_ Hx]]%lookup_insert_Some]; [by right|left; by eexists]. }
  clearbody w5.
  apply sat_bind. eapply sat_mono; [by eapply match_wf|].
  intros _ w6 (G6 & H6 & Hf6 & _).
  destruct (fills_aggressor _ _ _ Hf6 _ Ho5) as (o6 & Ho6 & Hok).
  assert (Htr : traded_within (λ i, indexed w i ∨ i = NewOrderRequest.id req) w w6).
  { eapply traded_within_mono; [exact E5i|].
    destruct (fills_trades _ _ _ Hf6) as (new & E & Hn).
    exists new. by rewrite E, E5e. }
  read_as o6.
  apply sat_bind, sat_when.
  - intros Hpos%bool_decide_eq_true.
    read_as o6.
    destruct (Order.type o6) eqn:Et.
    + eapply sat_mono; [by eapply rest_order_wf|].
      intros _ w7 ((G7 & H7 & _) & Ei7 & Ee7 & _). apply sat_ret.
      split; [by exists G7|]. by eapply traded_within_events.
    + eapply sat_mono; [by eapply cancel_rest_wf|].
      intros _ w7 (H7 & _ & o7 & Ee7). apply sat_ret. split; [by eexists|].
      by eapply traded_within_snoc.
    + eapply sat_mono; [by eapply cancel_rest_wf|].
      intros _ w7 (H7 & _ & o7 & Ee7). apply sat_ret. split; [by eexists|].
      by eapply traded_within_snoc.
    + eapply sat_mono; [by eapply cancel_rest_wf|].
      intros _ w7 (H7 & _ & o7 & Ee7). apply sat_ret. split; [by eexists|].
      by eapply traded_within_snoc.
  - intros Hz%bool_decide_eq_false. apply sat_ret. split; [|done].
    exists G6. eapply wf_release; [exact H6|].
    intros o Ho Ha. assert (o = o6) as -> by congruence.
    destruct (aggressor_idle _ _ Hok Hz) as [_ []]; [by right|done].
Qed.

Lemma cancel_terms t o :
  Order.id (Order.cancel t o) = Order.id o ∧
  Order.is_active (Order.cancel t o) = false.
Proof. by destruct o. Qed.

Lemma cancel_order_wf G w id :
  wf None G (book w) →
  sat False (cancel_order clk id) w (λ _ w',
    (∃ G', wf None G' (book w')) ∧ traded_within (indexed w) w w').
Proof.
  intros H. unfold cancel_order.
  apply sat_bind, sat_gets.
  destruct (index w !! id) as [p|] eqn:Hi;
    [|apply sat_ret; split; [by eexists|apply traded_within_refl]].
  destruct (wf_indexed _ _ _ H _ _ Hi) as (o & Ho & Eid & Hact).
  read_as o.
  destruct (Order.is_active o) eqn:Ha; simpl;
    [|apply sat_ret; split; [by eexists|apply traded_within_refl]].
  apply sat_bind. eapply sat_mono; [by eapply remove_from_book_wf; eauto|].
  intros _ w1 ((G1 & H1 & _) & Ei1 & Ee1 & _ & o1 & Ho1 & Eu1).
  destruct (unlinked_terms _ _ Eu1) as (Eid1 & _).
  assert (Hlen : (p < length (heap w1))%nat) by (by eapply lookup_lt_Some).
  apply sat_bind, sat_now. tidy_state.
  apply sat_bind, sat_arena_update; [|simpl; congruence].
  intros o2 E. simpl in E. assert (o2 = o1) as -> by congruence. clear E.
  tidy_state. generalize (clk (clock_reads w1)). intros t.
  apply sat_bind, sat_modify. tidy_state.
  apply sat_bind, sat_arena_deref; [|simpl; by rewrite list_lookup_insert_eq].
  intros o2 E. simpl in E. rewrite list_lookup_insert_eq in E by done.
  injection E as <-.
  apply sat_bind, sat_emit, sat_ret.
  destruct (cancel_terms t o1) as [Ec _].
  split.
  - exists G1.
    eapply (wf_erase_aggressor _
              (set_arena (<[p := Order.cancel t o1]> (heap w1)) (book w1)) _ p
              (Order.cancel t o1)); try (by bk).
    + eapply (wf_update _ _ (book w1) _ p o1 (Order.cancel t o1));
        [exact H1|exact Ho1|by bk|intros; by bk|by bk|done|by left].
    + bk. by apply list_lookup_insert_eq.
    + bk. congruence.
  - eexists. split; [simpl; by rewrite Ee1|].
    intros tr Htr. by apply list_elem_of_singleton in Htr.
Qed.

(** *** Steps on a queued order *)

Lemma grooms_step {A B} p (m : M World A) (k : A → M World B) w inc G o Q :
  grooms p m → wf inc G (book w) → heap w !! p = Some o →
  p ∈ G (own_side (Order.is_buy o)) (Order.price o) →
  (∀ a w' o',
     wf inc G (book w') → index w' = index w → events w' = events w →
     (∀ sd, levels sd (book w') = levels sd (book w)) →
     heap w' !! p = Some o' →
     p ∈ G (own_side (Order.is_buy o')) (Order.price o') →
     sat False (k a) w' Q) →
  sat False (bind m k) w Q.
Proof.
  intros Hm H Ho Hp Hk. apply sat_bind.
  eapply sat_mono; [by apply Hm|].
  intros a w' (H' & Ei & Ee & El & o' & Ho' & Eb & Ep).
  eapply Hk; try done. by rewrite Eb, Ep.
Qed.

Lemma grooms_update p f :
  (∀ o, Order.id (f o) = Order.id o ∧ Order.prev (f o) = Order.prev o ∧
        Order.next (f o) = Order.next o ∧ Order.price (f o) = Order.price o ∧
        Order.is_buy (f o) = Order.is_buy o ∧ Order.type (f o) = Order.type o) →
  grooms p (arena (update p f)).
Proof.
  intros Hf w inc G o H Ho Hp. apply sat_arena_update; [|congruence].
  intros o1 Ho1. assert (o1 = o) as -> by congruence.
  destruct (Hf o) as (E1 & E2 & E3 & E4 & E5 & E6).
  split_and!; try (by bk).
  - eapply (wf_update _ _ (book w) _ p o (f o)); try done; try (by bk).
    right. split_and!; try done. intros _. by right.
  - exists (f o). split; [|done]. bk. apply list_lookup_insert_eq.
    by eapply lookup_lt_Some.
Qed.

Lemma grooms_read {A} p (f : Order.t → A) : grooms p (arena (read p f)).
Proof.
  intros w inc G o H Ho Hp. apply sat_arena_read; [|congruence]. intros o1 _.
  split_and!; try done. by exists o.
Qed.

Lemma grooms_now p : grooms p (now clk).
Proof.
  intros w inc G o H Ho Hp. apply sat_now. split_and!; try done. by exists o.
Qed.

Lemma tends_step {A B} p (m : M World A) (k : A → M World B) w G o Q :
  tends p m → wf (Some p) G (book w) → heap w !! p = Some o →
  (∀ a w' o',
     wf (Some p) G (book w') → index w' = index w → events w' = events w →
     (∀ sd, levels sd (book w') = levels sd (book w)) →
     heap w' !! p = Some o' → Order.id o' = Order.id o →
     Order.type o' = Order.type o → Order.is_buy o' = Order.is_buy o →
     sat False (k a) w' Q) →
  sat False (bind m k) w Q.
Proof.
  intros Hm H Ho Hk. apply sat_bind.
  eapply sat_mono; [by apply Hm|].
  intros a w' (H' & Ei & Ee & El & o' & Ho' & Eid & Et & Eb).
  by eapply Hk.
Qed.

(** The priority-losing amend, after the order has left its queue. *)
Lemma amend_reenter_wf G w p o new_price new_quantity :
  wf (Some p) G (book w) → heap w !! p = Some o → Order.type o = Limit →
  sat False
    (when (negb (bool_decide (new_price = 0)))
          (arena (update p (Order.set_price new_price))) ;;
     when (negb (bool_decide (new_quantity = 0)))
          (arena (update p (Order.set_quantity new_quantity)) ;;
           filled <- arena (read p Order.filled_qty) ;;
           arena (update p (Order.set_leaves_qty (wrap64 (new_quantity - filled))))) ;;
     seq <- next_sequence ;;
     arena (update p (Order.set_sequence seq)) ;;
     arena (update p (Order.set_status Amended)) ;;
     t <- now clk ;;
     arena (update p (Order.set_last_update t)) ;;
     match_ clk p ;;
     leaves <- arena (read p Order.leaves_qty) ;;
     type <- arena (read p Order.type) ;;
     when (bool_decide (0 < leaves) && bool_decide (type = Limit))
          (rest_order p)) w
    (λ _ w',
       (∃ G', wf None G' (book w') ∧
          ∀ sd k, ∃ n tail, G' sd k = drop n (G sd k) ++ tail ∧
                            (tail = [] ∨ tail = [p])) ∧
       traded_within (indexed w) w w' ∧ is_Some (heap w' !! p) ∧
       (Order.is_buy o = true ∨ bids_ (book w) ≠ ∅ → defined_run w w')).
Proof.
  intros H Ho Et.
  eapply (tends_step p); [|exact H|exact Ho|].
  { apply tends_when, tends_update. intros o1. by destruct o1. }
  intros _ w1 o1 H1 Ei1 Ee1 El1 Ho1 Eid1 Et1 Eb1.
  eapply (tends_step p); [|exact H1|exact Ho1|].
  { apply tends_when, tends_bind; [apply tends_update; intros o2; by destruct o2|].
    intros _. apply tends_bind; [apply tends_read|].
    intros filled. apply tends_update. intros o2. by destruct o2. }
  intros _ w2 o2 H2 Ei2 Ee2 El2 Ho2 Eid2 Et2 Eb2.
  eapply (tends_step p); [apply tends_next_sequence|exact H2|exact Ho2|].
  intros seq w3 o3 H3 Ei3 Ee3 El3 Ho3 Eid3 Et3 Eb3.
  eapply (tends_step p); [|exact H3|exact Ho3|].
  { apply tends_update. intros o4. by destruct o4. }
  intros _ w4 o4 H4 Ei4 Ee4 El4 Ho4 Eid4 Et4 Eb4.
  assert (Ei : index w4 = index w) by congruence.
  assert (Ee : events w4 = events w) by congruence.
  assert (Ety : Order.type o4 = Limit) by congruence.
  assert (Eb : Order.is_buy o4 = Order.is_buy o) by congruence.
  assert (El : bids_ (book w4) = bids_ (book w)).
  { pose proof (El1 Bids). pose proof (El2 Bids). pose proof (El3 Bids).
    pose proof (El4 Bids). simpl in *. congruence. }
  clear dependent w1. clear dependent w2. clear dependent w3.
  assert (Hlen : (p < length (heap w4))%nat) by (by eapply lookup_lt_Some).
  apply sat_bind, sat_arena_update; [|congruence].
  intros o5 E. assert (o5 = o4) as -> by congruence. clear E.
  tidy_state.
  apply sat_bind, sat_now. tidy_state.
  apply sat_bind, sat_arena_update; [|simpl; by rewrite list_lookup_insert_eq].
  intros o5 E. simpl in E. rewrite list_lookup_insert_eq in E by done.
  injection E as <-. tidy_state.
  generalize (clk (clock_reads w4)). intros t.
  set (o8 := Order.set_last_update t (Order.set_status Amended o4)).
  match goal with |- sat _ _ ?w _ => set (w8 := w) end.
  assert (Ho8 : heap w8 !! p = Some o8).
  { simpl. apply list_lookup_insert_eq. by rewrite length_insert. }
  assert (H8 : wf (Some p) G (book w8)).
  { eapply (wf_update _ _
              (set_arena (<[p := Order.set_status Amended o4]> (heap w4)) (book w4))
              _ p (Order.set_status Amended o4) o8).
    - eapply (wf_update _ _ (book w4) _ p o4 (Order.set_status Amended o4));
        [exact H4|exact Ho4|by bk|intros; by bk|by bk|by destruct o4|by left].
    - bk. by apply list_lookup_insert_eq.
    - by bk.
    - intros sd. by bk.
    - by bk.
    - by destruct o4.
    - by left. }
  assert (Ei8 : index w8 = index w) by (by rewrite <- Ei).
  assert (Ee8 : events w8 = events w) by (by rewrite <- Ee).
  assert (Hidle : Order.is_active o8 = false) by (by destruct o4).
  assert (Et8 : Order.type o8 = Limit) by (rewrite <- Ety; by destruct o4).
  assert (Eb8 : Order.is_buy o8 = Order.is_buy o) by (rewrite <- Eb; by destruct o4).
  assert (El8 : bids_ (book w8) = bids_ (book w)) by (by rewrite <- El).
  clearbody w8 o8. clear dependent w4.
  apply sat_bind.
  eapply sat_mono; [apply sat_and; [by eapply match_wf|by eapply match_defined_run]|].
  intros _ w9 ((G9 & H9 & Hf9 & Hc9 & _) & Hq9).
  assert (Hrun : Order.is_buy o = true ∨ bids_ (book w) ≠ ∅ → defined_run w w9).
  { intros Hc. eapply defined_run_rebase; [|exact Ee8].
    apply Hq9. rewrite Eb8, El8. destruct Hc; [by left|right; by left]. }
  destruct (fills_aggressor _ _ _ Hf9 _ Ho8) as (o9 & Ho9 & Hok).
  assert (Htr : traded_within (indexed w) w w9).
  { destruct (fills_trades _ _ _ Hf9) as (new & E & Hn).
    exists new. split; [by rewrite E, Ee8|].
    intros tr Htr. unfold indexed in *. rewrite <- Ei8. by apply Hn. }
  read_as o9. read_as o9.
  apply sat_when.
  - intros [Hpos%bool_decide_eq_true Hty%bool_decide_eq_true]%andb_prop.
    eapply sat_mono; [by eapply rest_order_wf|].
    intros _ w10 ((G10 & H10 & E10) & Ei10 & Ee10 & o10 & Ho10 & _).
    split_and!;
      [|by eapply traded_within_events|by eexists
       |intros Hc; eapply defined_run_trans;
          [by apply Hrun|by apply defined_run_events]].
    exists G10. split; [done|]. intros sd k. rewrite E10.
    destruct (Hc9 sd k) as (n & En & _). exists n.
    unfold set_queue. case_decide as Hd.
    + destruct Hd as [-> ->]. exists [p]. rewrite <- En. split; [done|by right].
    + exists []. rewrite app_nil_r. split; [done|by left].
  - intros Hcond. split_and!; [|done|by eexists|done].
    exists G9. split;
      [|intros sd k; destruct (Hc9 sd k) as (n & En & _); exists n, [];
        rewrite app_nil_r; split; [done|by left]].
    eapply wf_release; [exact H9|].
    intros o' Ho' Ha. assert (o' = o9) as -> by congruence.
    assert (Hz : ¬ 0 < Order.leaves_qty o9).
    { intros Hpos. apply andb_false_iff in Hcond as [Hc|Hc].
      - by apply bool_decide_eq_false in Hc.
      - apply bool_decide_eq_false in Hc. apply Hc.
        destruct Hok as (_ & _ & _ & -> & _). done. }
    destruct (aggressor_idle _ _ Hok Hz) as [E _]; [by left|done|congruence].
Qed.

(** The priority-keeping amend of a queued order. *)
Lemma amend_reduce_wf G w p o new_quantity reduction :
  wf None G (book w) → heap w !! p = Some o →
  p ∈ G (own_side (Order.is_buy o)) (Order.price o) →
  sat False
    (arena (update p (Order.set_leaves_qty new_quantity)) ;;
     quantity <- arena (read p Order.quantity) ;;
     arena (update p (Order.set_quantity (wrap64 (quantity - reduction)))) ;;
     arena (update p (Order.set_status Amended)) ;;
     t <- now clk ;;
     arena (update p (Order.set_last_update t)) ;;
     is_buy <- arena (read p Order.is_buy) ;;
     price <- arena (read p Order.price) ;;
     found <- find_level (own_side is_buy) price ;;
     match found with
     | Some _ => reduce_level (own_side is_buy) price reduction
     | None => ret tt
     end) w
    (λ _ w', (∃ G', wf None G' (book w')) ∧ traded_within (indexed w) w w' ∧
             is_Some (heap w' !! p)).
Proof.
  intros H Ho Hp.
  eapply (grooms_step p); [|exact H|exact Ho|exact Hp|].
  { apply grooms_update. intros o1. by destruct o1. }
  intros _ w1 o1 H1 Ei1 Ee1 El1 Ho1 Hp1.
  eapply (grooms_step p); [apply grooms_read|exact H1|exact Ho1|exact Hp1|].
  intros quantity w2 o2 H2 Ei2 Ee2 El2 Ho2 Hp2.
  eapply (grooms_step p); [|exact H2|exact Ho2|exact Hp2|].
  { apply grooms_update. intros o3. by destruct o3. }
  intros _ w3 o3 H3 Ei3 Ee3 El3 Ho3 Hp3.
  eapply (grooms_step p); [|exact H3|exact Ho3|exact Hp3|].
  { apply grooms_update. intros o4. by destruct o4. }
  intros _ w4 o4 H4 Ei4 Ee4 El4 Ho4 Hp4.
  eapply (grooms_step p); [apply grooms_now|exact H4|exact Ho4|exact Hp4|].
  intros t w5 o5 H5 Ei5 Ee5 El5 Ho5 Hp5.
  eapply (grooms_step p); [|exact H5|exact Ho5|exact Hp5|].
  { apply grooms_update. intros o6. by destruct o6. }
  intros _ w6 o6 H6 Ei6 Ee6 El6 Ho6 Hp6.
  assert (Ee : events w6 = events w) by congruence.
  clear dependent w1. clear dependent w2. clear dependent w3.
  clear dependent w4. clear dependent w5.
  read_as o6. read_as o6.
  apply sat_bind, sat_gets.
  destruct (wf_queue_level _ _ _ _ _ _ H6 Hp6) as (l & Hl & _).
  rewrite Hl.
  eapply sat_mono; [by eapply reduce_level_wf|].
  intros _ w7 (H7 & Eh7 & Ei7 & _ & _ & evs & Ee7 & Hevs).
  split_and!; [by eexists| |by rewrite Eh7].
  exists evs. split; [by rewrite Ee7, Ee|].
  intros tr Htr. by destruct (Hevs tr).
Qed.

Lemma quiet_amend_reduce p new_quantity reduction :
  quiet
    (arena (update p (Order.set_leaves_qty new_quantity)) ;;
     quantity <- arena (read p Order.quantity) ;;
     arena (update p (Order.set_quantity (wrap64 (quantity - reduction)))) ;;
     arena (update p (Order.set_status Amended)) ;;
     t <- now clk ;;
     arena (update p (Order.set_last_update t)) ;;
     is_buy <- arena (read p Order.is_buy) ;;
     price <- arena (read p Order.price) ;;
     found <- find_level (own_side is_buy) price ;;
     match found with
     | Some _ => reduce_level (own_side is_buy) price reduction
     | None => ret tt
     end).
Proof. hush. Qed.

Lemma amend_order_wf G w req :
  wf None G (book w) →
  sat False (amend_order clk req) w (λ _ w',
    (∃ G', wf None G' (book w')) ∧ traded_within (indexed w) w w' ∧
    (match_defined (book w) (Amend req) = true → defined_run w w')).
Proof.
  intros H. unfold amend_order. cbv zeta.
  apply sat_bind, sat_gets.
  destruct (index w !! AmendRequest.order_id req) as [p|] eqn:Hi;
    [|apply sat_ret; split_and!;
        [by eexists|apply traded_within_refl|intros _; apply defined_run_refl]].
  destruct (wf_indexed _ _ _ H _ _ Hi) as (o & Ho & Eid & Hact).
  read_as o.
  destruct (Order.is_active o) eqn:Ha; simpl;
    [|apply sat_ret; split_and!;
        [by eexists|apply traded_within_refl|intros _; apply defined_run_refl]].
  assert (Hp : p ∈ G (own_side (Order.is_buy o)) (Order.price o)) by (by apply Hact).
  assert (Hdef : match_defined (book w) (Amend req) = true →
                 amend_requeues req o = true →
                 Order.is_buy o = true ∨ bids_ (book w) ≠ ∅).
  { unfold match_defined. fold (index w) (heap w). rewrite Hi, Ho, Ha.
    intros Hd Er. rewrite Er in Hd. simpl in Hd.
    apply orb_prop in Hd as [?|Hb%negb_true_iff%bool_decide_eq_false];
      [by left|by right]. }
  read_as o. read_as o.
  apply sat_bind.
  eapply (sat_mono _ _ _ (λ _ w',
            (∃ G', wf None G' (book w')) ∧ traded_within (indexed w) w w' ∧
            is_Some (heap w' !! p) ∧
            (match_defined (book w) (Amend req) = true → defined_run w w'))).
  - match goal with |- sat _ (if ?c then _ else _) _ _ => destruct c eqn:Ec end.
    + apply sat_bind. eapply sat_mono; [by eapply remove_from_book_wf|].
      intros _ w1 ((G1 & H1 & _) & Ei1 & Ee1 & Eo1 & o1 & Ho1 & Eu1).
      destruct (unlinked_terms _ _ Eu1) as (_ & _ & Eb1 & Et1 & _).
      destruct (wf_queued _ _ _ H _ _ _ Hp) as (o' & Ho' & _ & _ & Et & _).
      assert (o' = o) as -> by congruence.
      eapply sat_mono.
      { eapply amend_reenter_wf; [exact H1|exact Ho1|congruence]. }
      intros _ w2 ((G2 & H2 & _) & (new & E & Hn) & Hs & Hq).
      split_and!; [by exists G2| |done|].
      * exists new. split; [by rewrite E, Ee1|].
        intros tr Htr. unfold indexed in *. rewrite <- Ei1. by apply Hn.
      * intros Hd. pose proof (Hdef Hd Ec) as Hc.
        eapply defined_run_rebase; [|exact Ee1]. apply Hq.
        rewrite Eb1. destruct (Order.is_buy o) eqn:Eb; [by left|right].
        simpl in Eo1. unfold levels in Eo1. rewrite Eo1.
        by destruct Hc.
    + match goal with |- sat _ (if ?c then _ else _) _ _ => destruct c end.
      * eapply sat_mono;
          [apply sat_and; [by eapply amend_reduce_wf|apply quiet_amend_reduce]|].
        intros _ w1 ((HG1 & Htr & Hs) & Hq). by split_and!.
      * apply sat_ret.
        split_and!; [by eexists|apply traded_within_refl|by eexists|].
        intros _. apply defined_run_refl.
  - intros _ w1 (HG1 & Htr & [o1 Ho1] & Hq).
    apply sat_bind, sat_arena_deref; [|congruence]. intros o2 _.
    apply sat_bind, sat_emit, sat_ret. destruct HG1 as [G1 H1]. split_and!.
    + exists G1. eapply wf_ext; [exact H1|..]; by bk.
    + by eapply traded_within_snoc.
    + intros Hc. eapply defined_run_trans; [by apply Hq|].
      by eapply defined_run_snoc.
Qed.

(** Every admissible request to a well-formed book is served, the book stays
    well formed, and the trades reported are between orders the index
    held or the order that entered. *)
Lemma serve_wf G w r :
  wf None G (book w) → admissible (book w) r = true →
  sat False (serve clk r) w (λ _ w',
    (∃ G', wf None G' (book w')) ∧
    traded_within (λ i, indexed w i ∨ entering r = Some i) w w' ∧
    (∀ i, indexed w' i → indexed w i ∨ entering r = Some i) ∧
    (match_defined (book w) r = true → defined_run w w')).
Proof.
  intros H Hadm.
  cut (sat False (serve clk r) w (λ _ w',
         (∃ G', wf None G' (book w')) ∧
         traded_within (λ i, indexed w i ∨ entering r = Some i) w w' ∧
         (match_defined (book w) r = true → defined_run w w'))).
  { intros Hmain.
    eapply sat_mono; [apply sat_and; [exact Hmain|apply gains_serve]|].
    intros a w' ((HG & Htr & Hq) & Hi). by split_and!. }
  destruct r as [req|id|req]; simpl.
  - apply sat_bind.
    eapply sat_mono; [apply sat_and; [by eapply add_order_wf|apply add_order_defined]|].
    intros a w' ((HG & Htr) & Hq). apply sat_ret. split_and!; [done| |].
    + eapply traded_within_mono; [|exact Htr].
      intros i [? | ->]; [by left|by right].
    + exact Hq.
  - apply sat_bind.
    eapply sat_mono; [apply sat_and; [by eapply cancel_order_wf|apply quiet_cancel_order]|].
    intros a w' ((HG & Htr) & Hq). apply sat_ret. split_and!; [done| |done].
    eapply traded_within_mono; [|exact Htr]. intros i ?. by left.
  - apply sat_bind. eapply sat_mono; [by eapply amend_order_wf|].
    intros a w' (HG & Htr & Hq). apply sat_ret. split_and!; [done| |done].
    eapply traded_within_mono; [|exact Htr]. intros i ?. by left.
Qed.

End BookSpecs.

Lemma reachable_wf clk w : reachable clk w → ∃ G, wf None G (OrderBook.book w).
Proof.
  induction 1 as [symbol|w r a w' Hreach [G IH] Hadm Hrun].
  - eexists. apply wf_start.
  - pose proof (serve_wf clk G w r IH Hadm) as Hs.
    apply (sat_done _ _ _ _ _ _ Hs) in Hrun. by destruct Hrun as [HG _].
Qed.

Lemma wf_no_phantom G b : wf None G b → no_phantom b.
Proof.
  intros H sd k p o Hp Ho. unfold linked_at in Hp.
  pose proof (wf_levels _ _ _ H sd k) as Hl.
  destruct (OrderBook.levels sd b !! k) as [l|]; [|by apply elem_of_nil in Hp].
  destruct Hl as [Hrep _]. rewrite (orders_lrep _ _ _ Hrep) in Hp.
  destruct (wf_queued _ _ _ H _ _ _ Hp) as (o' & Ho' & _ & _ & _ & Hi & _).
  by assert (o' = o) as -> by congruence.
Qed.

Lemma traded_within_trans A w1 w2 w3 :
  traded_within A w1 w2 → traded_within A w2 w3 → traded_within A w1 w3.
Proof.
  intros (n1 & E1 & H1) (n2 & E2 & H2). exists (n1 ++ n2).
  split; [by rewrite E2, E1, app_assoc|].
  intros t [?|?]%elem_of_app; auto.
Qed.

(** An id that is not in the index and is not added stays out of the index
    and out of the trades. *)
Lemma absent_id_stays_out clk rs : ∀ w w' G i,
  wf None G (OrderBook.book w) → after_defined clk rs w = Some w' →
  ¬ indexed w i → (∀ r, r ∈ rs → entering r ≠ Some i) →
  traded_within (λ j, j ≠ i) w w' ∧ ¬ indexed w' i.
Proof.
  induction rs as [|r rs IH]; intros w w' G i H Hrun Hni Hrs; simpl in Hrun.
  - injection Hrun as <-. split; [apply traded_within_refl|done].
  - destruct (admissible (OrderBook.book w) r) eqn:Hadm; [|done].
    destruct (match_defined (OrderBook.book w) r) eqn:Hd; [|done]. simpl in Hrun.
    pose proof (serve_wf clk G w r H Hadm) as Hs. unfold sat in Hs.
    destruct (serve clk r w) as [[a w1]|]; [|done].
    destruct Hs as ((G1 & H1) & Htr & Hi & _).
    assert (Hr : entering r ≠ Some i) by (apply Hrs; by left).
    destruct (IH w1 w' G1 i H1 Hrun) as [Htr' Hni'].
    { intros Hx. by destruct (Hi _ Hx). }
    { intros r' Hr'. apply Hrs. by right. }
    split; [|done]. eapply traded_within_trans; [|exact Htr'].
    eapply traded_within_mono; [|exact Htr].
    intros j [Hj|Hj] ->; done.
Qed.

(** C6, amended.  In every world reached from a new book by requests that
    add only orders of positive quantity under an id that is not resting
    (fewer than 2^32 - 1 orders having been allocated), every order linked
    into a price level is the one the id index holds under its id.  Every
    further such request that does not send a sell order to match while no
    bid level stands (there [match_against] decrements the end iterator of
    an empty map, for which no behaviour is defined) is served without that
    step being taken: each trade it reports is between ids the index held
    when the request arrived or the id of the order the request adds, and
    the index holds no other id afterwards.  So along every stream of such
    requests, an id that the index does not hold and that no request of the
    stream adds is in no trade of the stream, and is not in the index after
    it. *)
Theorem no_phantom_orders clk w :
  reachable clk w →
  no_phantom (OrderBook.book w) ∧
  (∀ r, admissible (OrderBook.book w) r = true →
        match_defined (OrderBook.book w) r = true →
     ∃ a w', serve clk r w = Done (a, w') ∧ defined_run w w' ∧
             traded_within (λ i, indexed w i ∨ entering r = Some i) w w' ∧
             ∀ i, indexed w' i → indexed w i ∨ entering r = Some i) ∧
  ∀ rs w' i, after_defined clk rs w = Some w' → ¬ indexed w i →
    (∀ r, r ∈ rs → entering r ≠ Some i) →
    traded_within (λ j, j ≠ i) w w' ∧ ¬ indexed w' i.
Proof.
  intros Hr. destruct (reachable_wf _ _ Hr) as [G H].
  split_and!; [by eapply wf_no_phantom| |].
  - intros r Hadm Hd. pose proof (serve_wf clk G w r H Hadm) as Hs. unfold sat in Hs.
    destruct (serve clk r w) as [[a w']|]; [|done].
    exists a, w'. destruct Hs as (_ & Htr & Hi & Hq). split_and!; auto.
  - intros rs w' i. by eapply absent_id_stays_out.
Qed.

Lemma no_phantom_orders_witness :
  ∃ w', after_defined Scenario.ticks
          [Add (Scenario.limit 2 Buy 100 5); Add (Scenario.limit 3 Sell 100 5)]
          cancelled_bid = Some w' ∧
        OrderBook.trade_count_ (OrderBook.book w') = 1 ∧
        traded_within (λ j, j ≠ 1) cancelled_bid w' ∧ ¬ indexed w' 1.
Proof.
  assert (Hreach : reachable Scenario.ticks cancelled_bid).
  { eapply (reach_step _ _ (Cancel 1));
      [eapply (reach_step _ Scenario.start (Add (Scenario.limit 1 Buy 100 10)));
         [apply (reach_start _ Scenario.sym)|vm_compute; reflexivity
         |vm_compute; reflexivity]
      |vm_compute; reflexivity|vm_compute; reflexivity]. }
  eexists. split; [vm_compute; reflexivity|]. split; [vm_compute; reflexivity|].
  refine (proj2 (proj2 (no_phantom_orders Scenario.ticks _ Hreach))
            [Add (Scenario.limit 2 Buy 100 5); Add (Scenario.limit 3 Sell 100 5)]
            _ 1 _ _ _).
  - vm_compute. reflexivity.
  - intros [x Hx]. vm_compute in Hx. discriminate Hx.
  - intros r Hr. repeat (apply elem_of_cons in Hr as [-> | Hr]); [by simpl..|].
    by apply elem_of_nil in Hr.
Defined.

(** ** The facade and unknown symbols *)

Section Facade.

Import MatchingEngine.
Variable clk : nat → Timestamp.

(** C7. For a request whose symbol has no book, [submit_order] returns
    null, counts one reject and changes nothing else; [cancel_order] and
    [amend_order] return false and leave the whole engine as it was, the
    reject counter included. *)
Theorem unknown_symbol_rejects new_req cancel_req amend_req w :
  books_ (engine w) !! c_str (NewOrderRequest.symbol new_req) = None →
  books_ (engine w) !! c_str (CancelRequest.symbol cancel_req) = None →
  books_ (engine w) !! c_str (AmendRequest.symbol amend_req) = None →
  (∃ w', submit_order clk new_req w = Done (None, w') ∧
         books_ (engine w') = books_ (engine w) ∧
         events w' = events w ∧
         total_rejects (stats_ (engine w'))
           = wrap64 (total_rejects (stats_ (engine w)) + 1)) ∧
  cancel_order clk cancel_req w = Done (false, w) ∧
  amend_order clk amend_req w = Done (false, w).
Proof.
  intros Hn Hc Ha. split_and!.
  - eexists. unfold submit_order, bind, find_book, gets. rewrite Hn. simpl.
    split; [reflexivity|]. by destruct w as [[] ? ?].
  - unfold cancel_order, bind, find_book, gets. by rewrite Hc.
  - unfold amend_order, bind, find_book, gets. by rewrite Ha.
Qed.

End Facade.

Lemma unknown_symbol_rejects_witness :
  let w := MatchingEngine.mkWorld
             (MatchingEngine.mk {["AAPL"%string := OrderBook.init "AAPL"]}
                MatchingEngine.no_stats
                {["AAPL"%string := MatchingEngine.CallsOnTrade]}) [] 0%nat in
  MatchingEngine.cancel_order Scenario.ticks (CancelRequest.mk 1 "MSFT") w
    = Done (false, w) ∧
  MatchingEngine.total_rejects (MatchingEngine.stats_ (MatchingEngine.engine w)) = 0.
Proof.
  intros w. split; [|reflexivity].
  refine (proj1 (proj2 (unknown_symbol_rejects Scenario.ticks
            (Scenario.limit 1 Buy 100 10) (CancelRequest.mk 1 "MSFT")
            (Scenario.amend 1 0 5) w _ _ _))); vm_compute; reflexivity.
Defined.

(** ** The scenarios, run *)


Section Scenarios.

Import Scenario.
Variable clk : nat → Timestamp.

(** C3. FIFO at equal price: on the book holding ten buy limit orders, ids
    1..10, each for 100 at 10000, a sell market order for 300 produces
    exactly three trades, against buy orders 1, 2 and 3 in that order,
    each for 100 at 10000. *)
Theorem fifo_at_equal_price :
  ∃ w1 order w2,
    after clk ten_bids start = Some w1 ∧
    trades (OrderBook.events w1) = [] ∧
    OrderBook.add_order clk (market 100 Sell 300) w1 = Done (order, w2) ∧
    (λ t, (Trade.buy_order_id t, Trade.quantity t, Trade.price t))
      <$> trades (OrderBook.events w2)
    = [(1, 100, 10000); (2, 100, 10000); (3, 100, 10000)].
Proof.
  eexists _, _, _.
  split; [vm_compute; reflexivity|].
  split; [vm_compute; reflexivity|].
  split; vm_compute; reflexivity.
Qed.

(** C1. A buy limit order for 500 is amended down to 200: it stays
    linked at the head of its level and in the id index, with status
    Amended, and [cancel_order] on its id returns false and leaves the
    world as it was. *)
Theorem cancel_refused_after_amend :
  ∃ w o,
    after clk [Add (limit 1 Buy 10000 500); Amend (amend 1 0 200)] start = Some w ∧
    OrderBook.order_index_ (OrderBook.book w) !! 1 = Some 0%nat ∧
    linked_at (OrderBook.book w) Bids 10000 = [0%nat] ∧
    OrderBook.order_arena_ (OrderBook.book w) !! 0%nat = Some o ∧
    Order.status o = Amended ∧
    Order.leaves_qty o = 200 ∧
    OrderBook.cancel_order clk 1 w = Done (false, w).
Proof.
  eexists _, _.
  split; [vm_compute; reflexivity|].
  conjs; vm_compute; reflexivity.
Qed.

(** C2. A buy for 100 is filled for 60 and then amended to a quantity of
    50, above its remaining 40 and below its filled 60: the order rests
    with [leaves_qty = 2^64 - 10], so that
    [filled_qty + leaves_qty] exceeds [quantity]. *)
Theorem amend_below_filled_wraps_leaves :
  ∃ w o,
    after clk [Add (limit 1 Buy 100 100); Add (limit 2 Sell 100 60);
               Amend (amend 1 0 50)] start = Some w ∧
    OrderBook.order_arena_ (OrderBook.book w) !! 0%nat = Some o ∧
    linked_at (OrderBook.book w) Bids 100 = [0%nat] ∧
    Order.quantity o = 50 ∧
    Order.filled_qty o = 60 ∧
    Order.leaves_qty o = 2 ^ 64 - 10 ∧
    ¬ (Order.filled_qty o + Order.leaves_qty o ≤ Order.quantity o).
Proof.
  eexists _, _.
  split; [vm_compute; reflexivity|].
  conjs; try (vm_compute; reflexivity).
  vm_compute. intros H. apply H. reflexivity.
Qed.

(** C4. With bids of 10 at 99 and 10 at 101, a sell fill-or-kill order
    for 5 at 100 is covered by the bid at 101, yet the pre-check refuses
    it: no trade, the order cancelled.  The same order sent as
    immediate-or-cancel trades its 5 against the bid at 101. *)
Theorem sell_fok_killed_though_covered :
  ∃ w order w' o w'',
    after clk [Add (limit 1 Buy 99 10); Add (limit 2 Buy 101 10)] start = Some w ∧
    5 ≤ crossable_quantity OrderBook.sell_price_ok 100
          (OrderBook.bids_ (OrderBook.book w)) ∧
    OrderBook.add_order clk (fok 3 Sell 100 5) w = Done (order, w') ∧
    trades (OrderBook.events w') = [] ∧
    OrderBook.order_arena_ (OrderBook.book w') !! order = Some o ∧
    Order.status o = Cancelled ∧
    Order.filled_qty o = 0 ∧
    OrderBook.add_order clk (ioc 3 Sell 100 5) w = Done (order, w'') ∧
    (λ t, (Trade.buy_order_id t, Trade.quantity t, Trade.price t))
      <$> trades (OrderBook.events w'') = [(2, 5, 101)].
Proof.
  eexists _, _, _, _, _.
  split; [vm_compute; reflexivity|].
  split; [vm_compute; discriminate|].
  split; [vm_compute; reflexivity|].
  conjs; vm_compute; reflexivity.
Qed.

(** C6, as stated, fails: a market buy that reuses the id of a resting
    buy finds nothing to trade with and is cancelled, which erases the
    id from the index while the first order stays linked; the next sell
    trades against it. *)
Lemma reused_id_leaves_phantom :
  ∃ w order w',
    after ticks [Add (limit 1 Buy 100 10); Add (market 1 Buy 5)] start = Some w ∧
    linked_at (OrderBook.book w) Bids 100 = [0%nat] ∧
    OrderBook.order_index_ (OrderBook.book w) = ∅ ∧
    ¬ no_phantom (OrderBook.book w) ∧
    OrderBook.add_order ticks (market 2 Sell 10) w = Done (order, w') ∧
    (λ t, (Trade.buy_order_id t, Trade.quantity t))
      <$> trades (OrderBook.events w') = [(1, 10)].
Proof.
  eexists _, _, _.
  split; [vm_compute; reflexivity|].
  split; [vm_compute; reflexivity|].
  split; [vm_compute; reflexivity|].
  split.
  - intros H.
    specialize (H Bids 100 0%nat).
    eassert (Hl : _) by (eapply (H _); [|vm_compute; reflexivity];
                         vm_compute; apply list_elem_of_here).
    vm_compute in Hl. discriminate.
  - split; vm_compute; reflexivity.
Qed.

(** C8. A buy for 10 rests at 100; a buy for 0 at the same price is
    indexed without resting, and cancelling it unlinks the first order
    and drops the level; a buy for 5 then rests in a new level at 100;
    amending the first order down to 4 calls [reduce_quantity(6)] on that
    level, which holds 5: the clamping branch runs, and the level is left
    with [total_quantity = 0] while the order linked in it has 5 left. *)
Theorem unlinked_amend_clamps_level :
  ∃ w l,
    after clk [Add (limit 1 Buy 100 10); Add (limit 2 Buy 100 0); Cancel 2;
               Add (limit 3 Buy 100 5); Amend (amend 1 0 4)] start = Some w ∧
    ReduceQuantityClamped 100 6 ∈ OrderBook.events w ∧
    OrderBook.bids_ (OrderBook.book w) !! 100 = Some l ∧
    PriceLevel.total_quantity l = 0 ∧
    linked_at (OrderBook.book w) Bids 100 = [2%nat] ∧
    sum_leaves (OrderBook.order_arena_ (OrderBook.book w))
               (linked_at (OrderBook.book w) Bids 100) = 5.
Proof.
  eexists _, _.
  split; [vm_compute; reflexivity|].
  split; [in_list|].
  conjs; vm_compute; reflexivity.
Qed.

(** With two orders resting at 100, the same cancel of a zero-quantity
    order leaves the level with [order_count = 1] and
    [total_quantity = 20] and no order linked; the next sell dereferences
    the null [front()]. *)
Lemma unlinked_cancel_empties_level :
  ∃ w l,
    after clk [Add (limit 1 Buy 100 10); Add (limit 2 Buy 100 10);
               Add (limit 3 Buy 100 0); Cancel 3] start = Some w ∧
    OrderBook.bids_ (OrderBook.book w) !! 100 = Some l ∧
    PriceLevel.order_count l = 1 ∧
    PriceLevel.total_quantity l = 20 ∧
    linked_at (OrderBook.book w) Bids 100 = [] ∧
    OrderBook.add_order clk (market 4 Sell 5) w = Fault NullDeref.
Proof.
  eexists _, _.
  split; [vm_compute; reflexivity|].
  conjs; vm_compute; reflexivity.
Qed.

(** C9, as stated, fails on the clock readings an order keeps: the same
    order added to the same new book in two runs whose clocks read
    differently leaves books that differ in [entry_time]. *)
Lemma clock_readings_differ_between_runs :
  ∃ w1 w2 o1 o2,
    after ticks [Add (limit 1 Buy 100 10)] start = Some w1 ∧
    after (λ n, ticks n + 1000) [Add (limit 1 Buy 100 10)] start = Some w2 ∧
    OrderBook.order_arena_ (OrderBook.book w1) !! 0%nat = Some o1 ∧
    OrderBook.order_arena_ (OrderBook.book w2) !! 0%nat = Some o2 ∧
    Order.entry_time o1 ≠ Order.entry_time o2 ∧
    OrderBook.book w1 ≠ OrderBook.book w2.
Proof.
  eexists _, _, _, _.
  split; [vm_compute; reflexivity|].
  split; [vm_compute; reflexivity|].
  split; [vm_compute; reflexivity|].
  split; [vm_compute; reflexivity|].
  split.
  - vm_compute. discriminate.
  - intros E. apply (f_equal (λ b, OrderBook.order_arena_ b !! 0%nat)) in E.
    vm_compute in E. discriminate.
Qed.

(** C10. The first order of a session, a sell limit order on the empty
    book, evaluates [std::prev(contra_side.end())] on the empty bid map. *)
Theorem sell_on_empty_bids_decrements_end :
  ∃ order w,
    OrderBook.bids_ (OrderBook.book start) = ∅ ∧
    OrderBook.add_order clk (limit 1 Sell 100 10) start = Done (order, w) ∧
    PrevOfEndOfEmptyMap ∈ OrderBook.events w.
Proof.
  eexists _, _.
  split; [reflexivity|].
  split; [vm_compute; reflexivity|].
  in_list.
Qed.

End Scenarios.

(** * Further properties of the code *)

(** ** PriceLevel.h: the queue of one price *)

Lemma lrep_single h l p o :
  h !! p = Some o → Order.prev o = None → Order.next o = None →
  PriceLevel.head_ l = Some p → PriceLevel.tail_ l = Some p →
  PriceLevel.order_count_ l = 1 →
  lrep h l [p].
Proof.
  intros Ho Hp Hn Hh Ht Hc. split; try done.
  - apply NoDup_singleton.
  - intros [|i] x Hx; [|done]. injection Hx as <-. by exists o.
Qed.

Lemma three_queued_lrep :
  lrep three_queued (PriceLevel.mk 100 16 3 (Some 0%nat) (Some 2%nat))
       [0%nat; 1%nat; 2%nat].
Proof.
  split; try done.
  - apply NoDup_cons. split.
    { rewrite !elem_of_cons, elem_of_nil. by intros [?|[?|[]]]. }
    apply NoDup_cons. split; [by intros ?%list_elem_of_singleton|].
    apply NoDup_singleton.
  - intros [|[|[|i]]] x Hx; [| | |done]; injection Hx as <-;
      eexists; (split; [reflexivity|done]).
Qed.

Lemma sat_total_Done {S A} (m : M S A) s (Q : A → S → Prop) :
  sat False m s Q → ∃ a s', m s = Done (a, s') ∧ Q a s'.
Proof. unfold sat. destruct (m s) as [[a s']|]; [by eexists _, _|done]. Qed.

(** [push_back] of an order that has the price of the level, as the
    [assert] of the method demands, on a well-linked queue: the call
    returns; the order is met last by the iterator, after the orders that
    were queued; the count grows by one, the total by the order's leaves;
    the front stays unless the queue was empty. *)
Theorem push_back_appends h l ps p o :
  lrep h l ps → p ∉ ps → h !! p = Some o →
  Order.price o = PriceLevel.price l →
  Z.of_nat (length ps) + 1 < 2 ^ 32 →
  ∃ l' h', PriceLevel.push_back p l h = Done (l', h') ∧
    PriceLevel.orders h' l' = PriceLevel.orders h l ++ [p] ∧
    PriceLevel.order_count l' = PriceLevel.order_count l + 1 ∧
    PriceLevel.total_quantity l' = wrap64 (PriceLevel.total_quantity l + Order.leaves_qty o) ∧
    PriceLevel.price l' = PriceLevel.price l ∧
    PriceLevel.front l' = Some (default p (head ps)) ∧
    length h' = length h.
Proof.
  intros Hrep Hp Ho _ Hlen.
  destruct (sat_total_Done _ _ _ (push_back_spec _ _ _ _ _ Hrep Hp Ho Hlen))
    as (l' & h' & E & Hrep' & Hprice & Htot & [Hl _] & _).
  exists l', h'. split_and!; try done.
  - by rewrite (orders_lrep _ _ _ Hrep'), (orders_lrep _ _ _ Hrep).
  - unfold PriceLevel.order_count.
    rewrite (lrep_count _ _ _ Hrep'), (lrep_count _ _ _ Hrep), length_app. simpl. lia.
  - unfold PriceLevel.front. rewrite (lrep_head _ _ _ Hrep').
    destruct ps; done.
Qed.

Lemma push_back_appends_witness :
  ∃ l' h',
    PriceLevel.push_back 1%nat
      (PriceLevel.mk 100 7 1 (Some 0%nat) (Some 0%nat))
      [resting_at 100 7; resting_at 100 5]
    = Done (l', h') ∧
    PriceLevel.orders h' l' = [0%nat; 1%nat] ∧
    PriceLevel.total_quantity l' = 12.
Proof.
  destruct (push_back_appends
              [resting_at 100 7; resting_at 100 5]
              (PriceLevel.mk 100 7 1 (Some 0%nat) (Some 0%nat)) [0%nat] 1%nat
              (resting_at 100 5))
    as (l' & h' & E & Ho & _ & Ht & _).
  - by eapply lrep_single.
  - intros [= ]%list_elem_of_singleton.
  - reflexivity.
  - reflexivity.
  - simpl. lia.
  - exists l', h'. split; [exact E|]. split; [|exact Ht].
    rewrite Ho. vm_compute. reflexivity.
Defined.

(** [remove] of the order at position [i] of a well-linked queue returns;
    the iterator then meets the other orders, in the order they had; the
    count falls by one and the total by the order's leaves. *)
Theorem remove_unlinks h l ps i p o :
  lrep h l ps → ps !! i = Some p → h !! p = Some o →
  Z.of_nat (length ps) < 2 ^ 32 →
  ∃ l' h', PriceLevel.remove p l h = Done (l', h') ∧
    PriceLevel.orders h' l' = delete i (PriceLevel.orders h l) ∧
    PriceLevel.order_count l' = PriceLevel.order_count l - 1 ∧
    PriceLevel.total_quantity l' = wrap64 (PriceLevel.total_quantity l - Order.leaves_qty o) ∧
    PriceLevel.price l' = PriceLevel.price l ∧
    (∃ o', h' !! p = Some o' ∧ Order.prev o' = None ∧ Order.next o' = None) ∧
    (∀ q, q ∉ ps → h' !! q = h !! q).
Proof.
  intros Hrep Hi Ho Hlen.
  pose proof (remove_spec _ _ _ _ _ _ Hrep Hi Ho Hlen) as Hs.
  pose proof (remove_eq _ _ _ _ _ _ Hrep Hi Ho) as Heq. cbv zeta in Heq.
  unfold sat in Hs. rewrite Heq in Hs.
  destruct Hs as (Hrep' & Hprice & Htot & Hrel & Hframe).
  eexists _, _. split; [exact Heq|]. split_and!; try done.
  - by rewrite (orders_lrep _ _ _ Hrep'), (orders_lrep _ _ _ Hrep).
  - unfold PriceLevel.order_count.
    rewrite (lrep_count _ _ _ Hrep'), (lrep_count _ _ _ Hrep), length_delete by (by eexists).
    assert (0 < length ps)%nat by (destruct ps; [done|simpl; lia]). lia.
  - destruct Hrel as [Hl Hrel]. destruct (Hrel _ _ Ho) as (o' & Ho' & _).
    rewrite list_lookup_alter_eq in Ho'.
    destruct (relink _ _ _ !! p) as [o1|] eqn:E1; [|done].
    simpl in Ho'. injection Ho' as <-.
    exists (Order.set_next None (Order.set_prev None o1)).
    rewrite list_lookup_alter_eq, E1. split_and!; [done|by destruct o1|by destruct o1].
Qed.

Lemma remove_unlinks_witness :
  ∃ l' h',
    PriceLevel.remove 1%nat (PriceLevel.mk 100 16 3 (Some 0%nat) (Some 2%nat))
      three_queued = Done (l', h') ∧
    PriceLevel.orders h' l' = [0%nat; 2%nat] ∧ PriceLevel.total_quantity l' = 11.
Proof.
  destruct (remove_unlinks three_queued
              (PriceLevel.mk 100 16 3 (Some 0%nat) (Some 2%nat))
              [0%nat; 1%nat; 2%nat] 1%nat 1%nat
              (Order.set_prev (Some 0%nat) (Order.set_next (Some 2%nat) (resting_at 100 5))))
    as (l' & h' & E & Ho & _ & Ht & _).
  - apply three_queued_lrep.
  - reflexivity.
  - reflexivity.
  - simpl. lia.
  - exists l', h'. split; [exact E|]. split; [|exact Ht].
    rewrite Ho. vm_compute. reflexivity.
Defined.

(** [pop_front] on a well-linked, non-empty queue is [remove] of the front
    order: the same level and the same arena come back, and the iterator
    then meets the rest of the queue. *)
Theorem pop_front_removes_front h l ps p o :
  lrep h l (p :: ps) → h !! p = Some o →
  Z.of_nat (length (p :: ps)) < 2 ^ 32 →
  PriceLevel.front l = Some p ∧
  ∃ l' h', PriceLevel.pop_front l h = Done (l', h') ∧
    PriceLevel.remove p l h = Done (l', h') ∧
    PriceLevel.orders h' l' = ps ∧
    PriceLevel.front l' = head ps.
Proof.
  intros Hrep Ho Hlen. split.
  { unfold PriceLevel.front. by rewrite (lrep_head _ _ _ Hrep). }
  assert (Hi : (p :: ps) !! 0%nat = Some p) by done.
  destruct (sat_total_Done _ _ _ (pop_front_spec _ _ _ _ _ Hrep Hi Ho Hlen))
    as (l' & h' & E & Hrep' & _).
  exists l', h'. split_and!; try done.
  - by rewrite <- (pop_front_eq _ _ _ _ _ Hrep Hi Ho).
  - apply (orders_lrep _ _ _ Hrep').
  - unfold PriceLevel.front. rewrite (lrep_head _ _ _ Hrep'). by destruct ps.
Qed.

Lemma pop_front_removes_front_witness :
  PriceLevel.front (PriceLevel.mk 100 16 3 (Some 0%nat) (Some 2%nat)) = Some 0%nat ∧
  ∃ l' h',
    PriceLevel.pop_front (PriceLevel.mk 100 16 3 (Some 0%nat) (Some 2%nat))
      three_queued = Done (l', h') ∧
    PriceLevel.remove 0%nat (PriceLevel.mk 100 16 3 (Some 0%nat) (Some 2%nat))
      three_queued = Done (l', h') ∧
    PriceLevel.orders h' l' = [1%nat; 2%nat] ∧
    PriceLevel.front l' = Some 1%nat.
Proof.
  apply (pop_front_removes_front three_queued
           (PriceLevel.mk 100 16 3 (Some 0%nat) (Some 2%nat)) [1%nat; 2%nat] 0%nat
           (Order.set_next (Some 1%nat) (resting_at 100 7))).
  - apply three_queued_lrep.
  - reflexivity.
  - simpl. lia.
Defined.

(** [push_back] of an order that has the price of the level, followed by
    [remove] of the same order, gives the level back as it was, member by
    member, and the queue the iterator meets. *)
Theorem push_back_remove_round_trip h l ps p o :
  lrep h l ps → p ∉ ps → h !! p = Some o →
  Order.price o = PriceLevel.price l →
  Z.of_nat (length ps) + 1 < 2 ^ 32 →
  0 ≤ PriceLevel.total_quantity l < 2 ^ 64 →
  ∃ l1 h1 h2,
    PriceLevel.push_back p l h = Done (l1, h1) ∧
    PriceLevel.remove p l1 h1 = Done (l, h2) ∧
    PriceLevel.orders h2 l = PriceLevel.orders h l.
Proof.
  intros Hrep Hp Ho _ Hlen Htot.
  destruct (sat_total_Done _ _ _ (push_back_spec _ _ _ _ _ Hrep Hp Ho Hlen))
    as (l1 & h1 & E1 & Hrep1 & Hprice1 & Htot1 & _ & _ & o1 & Ho1 & Eu).
  assert (Hi : (ps ++ [p]) !! length ps = Some p) by apply lookup_snoc_last.
  assert (Hlen1 : Z.of_nat (length (ps ++ [p])) < 2 ^ 32).
  { rewrite length_app. simpl. lia. }
  destruct (sat_total_Done _ _ _ (remove_spec _ _ _ _ _ _ Hrep1 Hi Ho1 Hlen1))
    as (l2 & h2 & E2 & Hrep2 & Hprice2 & Htot2 & _).
  assert (Hdel : delete (length ps) (ps ++ [p]) = ps).
  { clear. induction ps as [|x ps IH]; [done|]. simpl. by rewrite IH. }
  rewrite Hdel in Hrep2.
  assert (l2 = l) as ->.
  { assert (Order.leaves_qty o1 = Order.leaves_qty o) as El.
    { apply (f_equal Order.leaves_qty) in Eu. by destruct o, o1. }
    pose proof (lrep_head _ _ _ Hrep) as A1. pose proof (lrep_head _ _ _ Hrep2) as A2.
    pose proof (lrep_tail _ _ _ Hrep) as B1. pose proof (lrep_tail _ _ _ Hrep2) as B2.
    pose proof (lrep_count _ _ _ Hrep) as C1. pose proof (lrep_count _ _ _ Hrep2) as C2.
    unfold PriceLevel.price, PriceLevel.total_quantity in *.
    rewrite Htot1, El in Htot2.
    assert (PriceLevel.total_quantity_ l2 = PriceLevel.total_quantity_ l) as D.
    { rewrite Htot2. unfold wrap64.
      rewrite Zminus_mod_idemp_l.
      replace (PriceLevel.total_quantity_ l + Order.leaves_qty o - Order.leaves_qty o)
        with (PriceLevel.total_quantity_ l) by lia.
      by apply Z.mod_small. }
    destruct l, l2; simpl in *. congruence. }
  exists l1, h1, h2. split_and!; try done.
  by rewrite (orders_lrep _ _ _ Hrep2), (orders_lrep _ _ _ Hrep).
Qed.

Lemma push_back_remove_round_trip_witness :
  ∃ l1 h1 h2,
    PriceLevel.push_back 1%nat (PriceLevel.mk 100 7 1 (Some 0%nat) (Some 0%nat))
      [resting_at 100 7; resting_at 100 5]
    = Done (l1, h1) ∧
    PriceLevel.remove 1%nat l1 h1
    = Done (PriceLevel.mk 100 7 1 (Some 0%nat) (Some 0%nat), h2) ∧
    PriceLevel.orders h2 (PriceLevel.mk 100 7 1 (Some 0%nat) (Some 0%nat))
    = PriceLevel.orders [resting_at 100 7; resting_at 100 5]
        (PriceLevel.mk 100 7 1 (Some 0%nat) (Some 0%nat)).
Proof.
  apply (push_back_remove_round_trip
           [resting_at 100 7; resting_at 100 5]
           (PriceLevel.mk 100 7 1 (Some 0%nat) (Some 0%nat)) [0%nat] 1%nat
           (resting_at 100 5)).
  - by eapply lrep_single.
  - intros [= ]%list_elem_of_singleton.
  - reflexivity.
  - reflexivity.
  - simpl. lia.
  - simpl. lia.
Defined.

(** [reduce_quantity] is a subtraction that stops at zero: it never wraps,
    and it keeps the price, the count and the front of the level. *)
Theorem reduce_quantity_saturates filled l :
  0 ≤ filled → 0 ≤ PriceLevel.total_quantity l < 2 ^ 64 →
  PriceLevel.total_quantity (PriceLevel.reduce_quantity filled l)
    = Z.max 0 (PriceLevel.total_quantity l - filled) ∧
  PriceLevel.price (PriceLevel.reduce_quantity filled l) = PriceLevel.price l ∧
  PriceLevel.order_count (PriceLevel.reduce_quantity filled l) = PriceLevel.order_count l ∧
  PriceLevel.front (PriceLevel.reduce_quantity filled l) = PriceLevel.front l.
Proof.
  intros Hf Ht. unfold PriceLevel.reduce_quantity, PriceLevel.clamps, PriceLevel.total_quantity in *.
  case_bool_decide as Hc; simpl; split_and!; try done; [lia|].
  unfold wrap64. rewrite Z.mod_small by lia. lia.
Qed.

Lemma reduce_quantity_saturates_witness :
  PriceLevel.total_quantity
    (PriceLevel.reduce_quantity 6 (PriceLevel.mk 100 5 1 (Some 0%nat) (Some 0%nat))) = 0.
Proof.
  refine (proj1 (reduce_quantity_saturates 6
                   (PriceLevel.mk 100 5 1 (Some 0%nat) (Some 0%nat)) _ _));
    simpl; lia.
Defined.

(** ** Order.h *)

(** [fill] by no more than the order has left moves that quantity from
    leaves to filled: the sum of the two is kept, the order is [Filled]
    exactly when nothing is left and active exactly when something is. *)
Theorem fill_moves_quantity qty now o :
  0 ≤ qty ≤ Order.leaves_qty o → Order.leaves_qty o < 2 ^ 64 →
  0 ≤ Order.filled_qty o → Order.filled_qty o + qty < 2 ^ 64 →
  let o' := Order.fill qty now o in
  Order.leaves_qty o' = Order.leaves_qty o - qty ∧
  Order.filled_qty o' = Order.filled_qty o + qty ∧
  Order.filled_qty o' + Order.leaves_qty o' = Order.filled_qty o + Order.leaves_qty o ∧
  Order.quantity o' = Order.quantity o ∧
  (Order.status o' = Filled ↔ Order.leaves_qty o' = 0) ∧
  (Order.is_active o' = true ↔ 0 < Order.leaves_qty o') ∧
  Order.is_filled o' = negb (Order.is_active o').
Proof.
  intros Hq Hl Hf Hfq. cbv zeta.
  assert (E1 : Order.leaves_qty (Order.fill qty now o) = Order.leaves_qty o - qty).
  { destruct o; simpl in *. unfold wrap64. apply Z.mod_small. lia. }
  assert (E2 : Order.filled_qty (Order.fill qty now o) = Order.filled_qty o + qty).
  { destruct o; simpl in *. unfold wrap64. apply Z.mod_small. lia. }
  assert (E3 : Order.status (Order.fill qty now o)
               = if bool_decide (Order.leaves_qty o - qty = 0) then Filled
                 else PartiallyFilled).
  { destruct o; simpl in *. unfold wrap64. by rewrite Z.mod_small by lia. }
  split_and!; try done.
  - lia.
  - by destruct o.
  - rewrite E3, E1. case_bool_decide; split; done.
  - unfold Order.is_active. rewrite E3, E1. case_bool_decide; simpl; split; try done; lia.
  - unfold Order.is_filled, Order.is_active. rewrite E3, E1.
    by case_bool_decide.
Qed.

Lemma fill_moves_quantity_witness :
  Order.leaves_qty (Order.fill 4 0 (Order.set_leaves_qty 10 Order.init)) = 6.
Proof.
  refine (proj1 (fill_moves_quantity 4 0 (Order.set_leaves_qty 10 Order.init) _ _ _ _));
    simpl; lia.
Defined.

(** ** The book between operations *)

Lemma reachable_after_admissible clk rs : ∀ w w',
  reachable clk w → after_admissible clk rs w = Some w' → reachable clk w'.
Proof.
  induction rs as [|r rs IH]; intros w w' Hw E; simpl in E.
  - by injection E as <-.
  - destruct (admissible (OrderBook.book w) r) eqn:Ha; [|done].
    destruct (serve clk r w) as [[a w1]|] eqn:Es; [|done].
    eapply IH; [|exact E]. by eapply reach_step.
Qed.

Lemma session_end_reachable : reachable Scenario.ticks session_end.
Proof.
  apply (reachable_after_admissible Scenario.ticks Scenario.session Scenario.start);
    [apply (reach_start _ Scenario.sym)|vm_compute; reflexivity].
Qed.

Lemma two_bids_reachable : reachable Scenario.ticks two_bids.
Proof.
  apply (reachable_after_admissible Scenario.ticks
           [Add (Scenario.limit 1 Buy 100 10); Add (Scenario.limit 2 Buy 100 5)]
           Scenario.start);
    [apply (reach_start _ Scenario.sym)|vm_compute; reflexivity].
Qed.

Lemma two_levels_reachable : reachable Scenario.ticks two_levels.
Proof.
  apply (reachable_after_admissible Scenario.ticks
           [Add (Scenario.limit 1 Buy 100 10); Add (Scenario.limit 2 Buy 101 5)]
           Scenario.start);
    [apply (reach_start _ Scenario.sym)|vm_compute; reflexivity].
Qed.

Lemma one_bid_reachable : reachable Scenario.ticks one_bid.
Proof.
  apply (reachable_after_admissible Scenario.ticks
           [Add (Scenario.limit 1 Buy 100 10)] Scenario.start);
    [apply (reach_start _ Scenario.sym)|vm_compute; reflexivity].
Qed.

Lemma wf_linked_at inc G b sd k : wf inc G b → linked_at b sd k = G sd k.
Proof.
  intros H. unfold linked_at. pose proof (wf_levels _ _ _ H sd k) as Hl.
  destruct (OrderBook.levels sd b !! k) as [l|]; [|done].
  destruct Hl as [Hrep _]. apply (orders_lrep _ _ _ Hrep).
Qed.

(** In every world reached by admissible requests, a level is stored under
    its own price, its [order_count] is the number of orders linked into
    it, its front is the first of them, and no order is linked into it
    twice. *)
Theorem level_counts_its_orders clk w sd k l :
  reachable clk w →
  OrderBook.levels sd (OrderBook.book w) !! k = Some l →
  PriceLevel.price l = k ∧
  PriceLevel.order_count l = Z.of_nat (length (linked_at (OrderBook.book w) sd k)) ∧
  PriceLevel.front l = head (linked_at (OrderBook.book w) sd k) ∧
  NoDup (linked_at (OrderBook.book w) sd k).
Proof.
  intros [G H]%reachable_wf Hl.
  rewrite (wf_linked_at _ _ _ _ _ H).
  pose proof (wf_levels _ _ _ H sd k) as Hr. rewrite Hl in Hr.
  destruct Hr as [Hrep Hp]. split_and!; [done| | |].
  - apply (lrep_count _ _ _ Hrep).
  - unfold PriceLevel.front. rewrite (lrep_head _ _ _ Hrep). by destruct (G sd k).
  - apply (lrep_nodup _ _ _ Hrep).
Qed.

Lemma level_counts_its_orders_witness :
  ∃ l,
    OrderBook.levels Bids (OrderBook.book session_end) !! 103 = Some l ∧
    PriceLevel.order_count l
      = Z.of_nat (length (linked_at (OrderBook.book session_end) Bids 103)).
Proof.
  eexists. split; [vm_compute; reflexivity|].
  refine (proj1 (proj2 (level_counts_its_orders Scenario.ticks session_end Bids 103 _
                          session_end_reachable _))).
  vm_compute. reflexivity.
Defined.

(** In every such world an order linked into the level at [k] of a side is
    a limit order of that side at price [k], and it is linked nowhere
    else. *)
Theorem linked_orders_rest_at_their_price clk w sd k p :
  reachable clk w →
  p ∈ linked_at (OrderBook.book w) sd k →
  (∃ o, OrderBook.order_arena_ (OrderBook.book w) !! p = Some o ∧
        Order.type o = Limit ∧ Order.price o = k ∧
        OrderBook.own_side (Order.is_buy o) = sd) ∧
  (∀ sd' k', p ∈ linked_at (OrderBook.book w) sd' k' → sd' = sd ∧ k' = k).
Proof.
  intros [G H]%reachable_wf Hp.
  rewrite (wf_linked_at _ _ _ _ _ H) in Hp. split.
  - destruct (wf_queued _ _ _ H _ _ _ Hp) as (o & Ho & Ek & Es & Et & _).
    by exists o.
  - intros sd' k' Hp'. rewrite (wf_linked_at _ _ _ _ _ H) in Hp'.
    by destruct (wf_queue_unique _ _ _ _ _ _ _ _ H Hp' Hp).
Qed.

Lemma linked_orders_rest_at_their_price_witness :
  ∃ o, OrderBook.order_arena_ (OrderBook.book session_end) !! 0%nat = Some o ∧
       Order.type o = Limit ∧ Order.price o = 103 ∧
       OrderBook.own_side (Order.is_buy o) = Bids.
Proof.
  refine (proj1 (linked_orders_rest_at_their_price Scenario.ticks session_end Bids 103
                   0%nat session_end_reachable _)).
  vm_compute. apply list_elem_of_here.
Defined.

(** In every such world the id index leads from an id to an order that
    carries this id, and an active order it leads to is a limit order
    linked into the level of its price on its side: what [cancel_order] and
    [amend_order] unlink is linked. *)
Theorem active_indexed_orders_are_linked clk w i p :
  reachable clk w →
  OrderBook.order_index_ (OrderBook.book w) !! i = Some p →
  ∃ o, OrderBook.order_arena_ (OrderBook.book w) !! p = Some o ∧
       Order.id o = i ∧
       (Order.is_active o = true →
        Order.type o = Limit ∧
        p ∈ linked_at (OrderBook.book w) (OrderBook.own_side (Order.is_buy o))
                      (Order.price o)).
Proof.
  intros [G H]%reachable_wf Hi.
  destruct (wf_indexed _ _ _ H _ _ Hi) as (o & Ho & Eid & Hact).
  exists o. split_and!; try done. intros Ha.
  assert (Hp : p ∈ G (OrderBook.own_side (Order.is_buy o)) (Order.price o))
    by (by apply Hact).
  rewrite (wf_linked_at _ _ _ _ _ H). split; [|done].
  destruct (wf_queued _ _ _ H _ _ _ Hp) as (o' & Ho' & _ & _ & Et & _).
  by assert (o' = o) as -> by congruence.
Qed.

Lemma active_indexed_orders_are_linked_witness :
  ∃ o, OrderBook.order_arena_ (OrderBook.book two_bids) !! 1%nat = Some o ∧
       Order.id o = 2 ∧ Order.is_active o = true ∧
       Order.type o = Limit ∧
       1%nat ∈ linked_at (OrderBook.book two_bids)
                 (OrderBook.own_side (Order.is_buy o)) (Order.price o).
Proof.
  assert (E : OrderBook.order_arena_ (OrderBook.book two_bids) !! 1%nat
              = Some (Order.mk 2 2 Buy Limit GTC 100 5 0 5 1 1 New (Some 0%nat) None
                        Scenario.sym))
    by (vm_compute; reflexivity).
  destruct (active_indexed_orders_are_linked Scenario.ticks two_bids 2 1%nat
              two_bids_reachable ltac:(vm_compute; reflexivity))
    as (o & Ho & Eid & Hact).
  rewrite E in Ho. injection Ho as <-.
  eexists. split; [exact E|]. split; [exact Eid|]. split; [reflexivity|].
  exact (Hact eq_refl).
Defined.

(** ** cancel_order and amend_order at the edges *)

(** An id the index does not hold: [cancel_order] and [amend_order] return
    false and leave the world as it was, whatever state the book is in. *)
Theorem unknown_id_changes_nothing clk id req w :
  OrderBook.order_index_ (OrderBook.book w) !! id = None →
  AmendRequest.order_id req = id →
  OrderBook.cancel_order clk id w = Done (false, w) ∧
  OrderBook.amend_order clk req w = Done (false, w).
Proof.
  intros Hi <-. split.
  - unfold OrderBook.cancel_order, bind, OrderBook.index_find, gets. by rewrite Hi.
  - unfold OrderBook.amend_order, bind, OrderBook.index_find, gets. by rewrite Hi.
Qed.

Lemma unknown_id_changes_nothing_witness :
  OrderBook.cancel_order Scenario.ticks 7 session_end = Done (false, session_end) ∧
  OrderBook.amend_order Scenario.ticks (Scenario.amend 7 101 5) session_end
    = Done (false, session_end).
Proof.
  apply (unknown_id_changes_nothing Scenario.ticks 7 (Scenario.amend 7 101 5) session_end);
    vm_compute; reflexivity.
Defined.

Section KeepsIndex.

Import OrderBook.
Variable clk : nat → Timestamp.

Lemma keeps_index_ret {A} (a : A) : keeps_index (ret a).
Proof. intros w. by apply sat_ret. Qed.

Lemma keeps_index_bind {A B} (m : M World A) (k : A → M World B) :
  keeps_index m → (∀ a, keeps_index (k a)) → keeps_index (bind m k).
Proof.
  intros Hm Hk w. apply sat_bind. eapply sat_mono; [apply Hm|].
  intros a w1 E1. eapply sat_mono; [apply Hk|]. intros b w2 E2. congruence.
Qed.

Lemma keeps_index_arena {A} (m : M (list Order.t) A) : keeps_index (arena m).
Proof.
  intros w. unfold sat, arena, zoom.
  destruct (m (order_arena_ (book w))) as [[a h']|]; done.
Qed.

Lemma keeps_index_when (b : bool) (m : M World unit) :
  keeps_index m → keeps_index (when b m).
Proof. intros Hm. destruct b; [done|apply keeps_index_ret]. Qed.

Lemma keeps_index_level_ref sd k : keeps_index (level_ref sd k).
Proof.
  intros w. unfold level_ref. apply sat_bind, sat_gets.
  destruct (levels sd (book w) !! k); [by apply sat_ret|by apply sat_raise].
Qed.

Lemma keeps_index_store_level sd k l : keeps_index (store_level sd k l).
Proof. intros w. apply sat_modify. simpl. by autorewrite with book. Qed.

Lemma keeps_index_erase_level sd k : keeps_index (erase_level sd k).
Proof. intros w. apply sat_modify. simpl. by autorewrite with book. Qed.

Lemma keeps_index_on_level sd k f : keeps_index (on_level sd k f).
Proof.
  unfold on_level. apply keeps_index_bind; [apply keeps_index_level_ref|].
  intros l. apply keeps_index_bind; [apply keeps_index_arena|].
  intros l'. apply keeps_index_store_level.
Qed.

Lemma keeps_index_remove_from_book p : keeps_index (remove_from_book p).
Proof.
  unfold remove_from_book.
  apply keeps_index_bind; [apply keeps_index_arena|]. intros is_buy. cbv zeta.
  apply keeps_index_bind; [apply keeps_index_arena|]. intros price.
  apply keeps_index_bind; [intros w; by apply sat_gets|]. intros [l|];
    [|apply keeps_index_ret].
  apply keeps_index_bind; [apply keeps_index_on_level|]. intros _.
  apply keeps_index_bind; [apply keeps_index_level_ref|]. intros l'.
  apply keeps_index_when, keeps_index_erase_level.
Qed.

(** A call of [cancel_order] that returns true has erased the id. *)
Lemma cancel_order_erases id w :
  sat True (cancel_order clk id) w (λ ok w',
    ok = true → order_index_ (book w') = delete id (order_index_ (book w))).
Proof.
  unfold cancel_order. apply sat_bind, sat_gets.
  destruct (order_index_ (book w) !! id) as [p|]; [|by apply sat_ret].
  apply sat_bind, sat_arena_read; [|done]. intros o Ho.
  destruct (Order.is_active o); simpl; [|by apply sat_ret].
  apply sat_bind. eapply sat_mono; [apply keeps_index_remove_from_book|].
  intros u w1 E1.
  apply sat_bind, sat_now.
  apply sat_bind, sat_arena_update; [|done]. intros o1 Ho1.
  apply sat_bind, sat_modify.
  apply sat_bind, sat_arena_deref; [|done]. intros o2 Ho2.
  apply sat_bind, sat_emit, sat_ret. intros _. simpl. by rewrite E1.
Qed.

End KeepsIndex.

(** A cancel that succeeded is not repeated: the second [cancel_order] on
    the id returns false and changes nothing, in whatever state the book
    is. *)
Theorem cancel_twice_is_refused clk clk' id w w' :
  OrderBook.cancel_order clk id w = Done (true, w') →
  OrderBook.order_index_ (OrderBook.book w') !! id = None ∧
  OrderBook.cancel_order clk' id w' = Done (false, w').
Proof.
  intros E. pose proof (cancel_order_erases clk id w) as H.
  apply (sat_done _ _ _ _ _ _ H) in E; [|done].
  assert (Hi : OrderBook.order_index_ (OrderBook.book w') !! id = None)
    by (by rewrite E, lookup_delete_eq).
  split; [done|].
  unfold OrderBook.cancel_order, bind, OrderBook.index_find, gets. by rewrite Hi.
Qed.

Lemma cancel_twice_is_refused_witness :
  ∃ w',
    OrderBook.cancel_order Scenario.ticks 1 one_bid = Done (true, w') ∧
    OrderBook.order_index_ (OrderBook.book w') !! 1 = None ∧
    OrderBook.cancel_order Scenario.ticks 1 w' = Done (false, w').
Proof.
  eexists. split; [vm_compute; reflexivity|].
  apply (cancel_twice_is_refused Scenario.ticks Scenario.ticks 1 one_bid).
  vm_compute. reflexivity.
Defined.

(** ** What the operations do to a book that is well formed *)

Section Outcomes.

Import OrderBook.
Variable clk : nat → Timestamp.

Abbreviation heap w := (order_arena_ (book w)).
Abbreviation index w := (order_index_ (book w)).

Ltac bk := simpl; autorewrite with book; simpl.

Ltac tidy_state :=
  lazymatch goal with
  | |- sat ?F ?m ?w ?Q => let w' := eval simpl in w in change (sat F m w' Q)
  end.

Ltac read_as o :=
  apply sat_bind, sat_arena_read; [|simpl; congruence];
  let o1 := fresh "o" in
  let E := fresh "E" in
  intros o1 E; simpl in E; assert (o1 = o) as -> by congruence; clear E.

Lemma cancel_fields t o :
  Order.status (Order.cancel t o) = Cancelled ∧
  Order.leaves_qty (Order.cancel t o) = 0 ∧
  Order.id (Order.cancel t o) = Order.id o ∧
  Order.filled_qty (Order.cancel t o) = Order.filled_qty o ∧
  Order.quantity (Order.cancel t o) = Order.quantity o ∧
  Order.side (Order.cancel t o) = Order.side o ∧
  Order.type (Order.cancel t o) = Order.type o ∧
  Order.price (Order.cancel t o) = Order.price o.
Proof. by destruct o. Qed.

Lemma filter_ne_id (l : list ptr) p : p ∉ l → filter (λ q, q ≠ p) l = l.
Proof.
  induction l as [|x l IH]; [done|]. intros Hp.
  apply not_elem_of_cons in Hp as [Hne Hp].
  rewrite filter_cons_True by done. by rewrite IH.
Qed.

Lemma filter_ne_delete (l : list ptr) : ∀ i p,
  NoDup l → l !! i = Some p → filter (λ q, q ≠ p) l = delete i l.
Proof.
  induction l as [|x l IH]; intros i p Hnd Hi; [done|].
  apply NoDup_cons in Hnd as [Hx Hnd]. destruct i as [|i]; simpl in Hi.
  - injection Hi as ->. rewrite filter_cons_False by (intros Hne; by apply Hne).
    by apply filter_ne_id.
  - assert (x ≠ p).
    { intros ->. apply Hx. by eapply list_elem_of_lookup_2. }
    rewrite filter_cons_True by done. simpl. f_equal. by apply IH.
Qed.

(** The queues once [p] has left its place. *)
Lemma queue_without inc G b sd0 k0 i p :
  wf inc G b → G sd0 k0 !! i = Some p →
  ∀ sd k, set_queue G sd0 k0 (delete i (G sd0 k0)) sd k
          = filter (λ q, q ≠ p) (G sd k).
Proof.
  intros H Hi sd k.
  assert (Hp : p ∈ G sd0 k0) by (by eapply list_elem_of_lookup_2).
  unfold set_queue. case_decide as Hd.
  - destruct Hd as [-> ->].
    destruct (wf_queue_level _ _ _ _ _ _ H Hp) as (l & _ & Hrep & _).
    symmetry. apply filter_ne_delete; [|done]. apply (lrep_nodup _ _ _ Hrep).
  - symmetry. apply filter_ne_id. intros Hq.
    destruct (wf_queue_unique _ _ _ _ _ _ _ _ H Hq Hp). by destruct Hd.
Qed.

Lemma cancel_order_post G w i p o :
  wf None G (book w) → index w !! i = Some p → heap w !! p = Some o →
  Order.is_active o = true →
  sat False (cancel_order clk i) w (λ ok w',
    ok = true ∧
    (∃ G', wf None G' (book w') ∧ ∀ sd k, G' sd k = filter (λ q, q ≠ p) (G sd k)) ∧
    index w' = delete i (index w) ∧
    ∃ o', heap w' !! p = Some o' ∧ events w' = events w ++ [OnOrder o'] ∧
          Order.status o' = Cancelled ∧ Order.leaves_qty o' = 0 ∧
          Order.id o' = i ∧ Order.filled_qty o' = Order.filled_qty o).
Proof.
  intros H Hi Ho Ha. unfold cancel_order.
  apply sat_bind, sat_gets. rewrite Hi.
  destruct (wf_indexed _ _ _ H _ _ Hi) as (o0 & Ho0 & Eid & Hact).
  assert (o0 = o) as -> by congruence.
  read_as o. rewrite Ha. simpl.
  apply sat_bind. eapply sat_mono; [by eapply remove_from_book_wf; eauto|].
  intros u w1 ((G1 & H1 & j & Hj & E1) & Ei1 & Ee1 & _ & o1 & Ho1 & Eu1).
  destruct (unlinked_terms _ _ Eu1) as (Eid1 & _).
  assert (Efil : Order.filled_qty o1 = Order.filled_qty o).
  { apply (f_equal Order.filled_qty) in Eu1. by destruct o, o1. }
  assert (Hlen : (p < length (heap w1))%nat) by (by eapply lookup_lt_Some).
  apply sat_bind, sat_now. tidy_state.
  apply sat_bind, sat_arena_update; [|simpl; congruence].
  intros o2 E. simpl in E. assert (o2 = o1) as -> by congruence. clear E.
  tidy_state. generalize (clk (clock_reads w1)). intros t.
  apply sat_bind, sat_modify. tidy_state.
  apply sat_bind, sat_arena_deref; [|simpl; by rewrite list_lookup_insert_eq].
  intros o2 E. simpl in E. rewrite list_lookup_insert_eq in E by done.
  injection E as <-.
  apply sat_bind, sat_emit, sat_ret.
  destruct (cancel_fields t o1) as (F1 & F2 & F3 & F4 & _).
  split_and!; [done| |bk; congruence|].
  - exists G1. split;
      [|intros sd k; rewrite E1; by eapply queue_without].
    eapply (wf_erase_aggressor _
              (set_arena (<[p := Order.cancel t o1]> (heap w1)) (book w1)) _ p
              (Order.cancel t o1)); try (by bk).
    + eapply (wf_update _ _ (book w1) _ p o1 (Order.cancel t o1));
        [exact H1|exact Ho1|by bk|intros; by bk|by bk|done|by left].
    + bk. by apply list_lookup_insert_eq.
    + bk. congruence.
  - exists (Order.cancel t o1). split_and!; try done; try congruence.
    + bk. by apply list_lookup_insert_eq.
    + bk. by rewrite Ee1.
Qed.

Lemma not_linked_if_unindexed G b p o :
  wf None G b → order_arena_ b !! p = Some o →
  order_index_ b !! Order.id o ≠ Some p →
  ∀ sd k, p ∉ linked_at b sd k.
Proof.
  intros H Ho Hi sd k Hp. rewrite (wf_linked_at _ _ _ _ _ H) in Hp.
  destruct (wf_queued _ _ _ H _ _ _ Hp) as (o' & Ho' & _ & _ & _ & Hi' & _).
  assert (o' = o) as -> by congruence. done.
Qed.

Lemma cancel_rest_post G w p o :
  wf (Some p) G (book w) → heap w !! p = Some o →
  sat False (cancel_rest clk p) w (λ _ w',
    wf None G (book w') ∧ index w' = delete (Order.id o) (index w) ∧
    ∃ o', heap w' !! p = Some o' ∧ events w' = events w ++ [OnOrder o'] ∧
          o' = Order.cancel (clk (clock_reads w)) o).
Proof.
  intros H Ho. unfold cancel_rest.
  assert (Hlen : (p < length (heap w))%nat) by (by eapply lookup_lt_Some).
  apply sat_bind, sat_now. tidy_state.
  apply sat_bind, sat_arena_update; [|simpl; congruence].
  intros o1 E. simpl in E. assert (o1 = o) as -> by congruence. clear E.
  tidy_state. set (t := clk (clock_reads w)).
  apply sat_bind, sat_arena_read; [|simpl; by rewrite list_lookup_insert_eq].
  intros o1 E. simpl in E. rewrite list_lookup_insert_eq in E by done.
  injection E as <-.
  apply sat_bind, sat_modify. tidy_state.
  apply sat_bind, sat_arena_deref; [|simpl; by rewrite list_lookup_insert_eq].
  intros o1 E. simpl in E. rewrite list_lookup_insert_eq in E by done.
  injection E as <-.
  apply sat_emit.
  destruct (cancel_fields t o) as (F1 & F2 & F3 & _).
  split_and!.
  - eapply (wf_erase_aggressor _
              (set_arena (<[p := Order.cancel t o]> (heap w)) (book w)) _ p
              (Order.cancel t o)); try (by bk).
    + eapply (wf_update _ _ (book w) _ p o (Order.cancel t o));
        [exact H|exact Ho|by bk|intros; by bk|by bk|done|by left].
    + bk. by apply list_lookup_insert_eq.
  - bk. by rewrite F3.
  - exists (Order.cancel t o). split_and!; try done.
    bk. by apply list_lookup_insert_eq.
Qed.

Lemma add_order_post G w req :
  wf None G (book w) → admissible (book w) (Add req) = true →
  sat False (add_order clk req) w (λ a w',
    a = length (heap w) ∧
    (∃ G' o', wf None G' (book w') ∧ heap w' !! a = Some o' ∧
      Order.id o' = NewOrderRequest.id req ∧
      Order.side o' = NewOrderRequest.side req ∧
      Order.type o' = NewOrderRequest.type req ∧
      Order.price o' = NewOrderRequest.price req ∧
      ((Order.status o' = Filled ∧ Order.leaves_qty o' = 0 ∧
        index w' !! NewOrderRequest.id req = Some a ∧ ∀ sd k, a ∉ G' sd k)
       ∨ (Order.status o' = Cancelled ∧ Order.leaves_qty o' = 0 ∧
          NewOrderRequest.type req ≠ Limit ∧
          index w' !! NewOrderRequest.id req = None)
       ∨ (Order.is_active o' = true ∧ 0 < Order.leaves_qty o' ∧
          NewOrderRequest.type req = Limit ∧
          index w' !! NewOrderRequest.id req = Some a ∧
          a ∈ G' (own_side (Order.is_buy o')) (Order.price o'))) ∧
      ∀ sd k, ∃ n tail,
        G' sd k = drop n (G sd k) ++ tail ∧
        (n = 0%nat ∨ sd = other (own_side (Order.is_buy o'))) ∧
        (tail = [] ∨ (tail = [a] ∧ sd = own_side (Order.is_buy o')
                      ∧ k = Order.price o'))) ∧
    (∃ G', wf None G' (book w') ∧
       best_first (bool_decide (NewOrderRequest.side req = Buy))
         (other (own_side (bool_decide (NewOrderRequest.side req = Buy)))) G G') ∧
    trades_satisfy
      (λ t, Trade.aggressor t = NewOrderRequest.side req ∧
            (if bool_decide (NewOrderRequest.side req = Buy)
             then Trade.buy_order_id t else Trade.sell_order_id t)
            = NewOrderRequest.id req ∧
            (if bool_decide (NewOrderRequest.side req = Buy)
             then buy_price_ok else sell_price_ok)
              (NewOrderRequest.price req) (Trade.price t) = true) w w').
Proof.
  intros H Hadm. simpl in Hadm.
  apply andb_prop in Hadm as [Hadm Hroom%bool_decide_eq_true].
  apply andb_prop in Hadm as [Hqty%bool_decide_eq_true Hfresh%bool_decide_eq_true].
  unfold add_order.
  apply sat_bind, sat_arena, sat_allocate. tidy_state.
  set (p := length (heap w)).
  apply sat_bind, sat_next_sequence. tidy_state.
  apply sat_bind, sat_now. tidy_state.
  set (o0 := Order.mk (NewOrderRequest.id req) (next_sequence_ (book w))
               (NewOrderRequest.side req) (NewOrderRequest.type req)
               (NewOrderRequest.tif req) (NewOrderRequest.price req)
               (NewOrderRequest.quantity req) 0 (NewOrderRequest.quantity req)
               (clk (clock_reads w)) (clk (clock_reads w)) New None None
               (NewOrderRequest.symbol req)).
  assert (Hp : (heap w ++ [Order.init]) !! p = Some Order.init).
  { unfold p. by rewrite lookup_app_r, Nat.sub_diag by lia. }
  apply sat_bind, sat_arena_update; [|simpl; congruence].
  intros o1 _. tidy_state.
  apply sat_bind, sat_modify. tidy_state.
  match goal with |- sat _ _ ?w _ => set (w5 := w) end.
  assert (Hnone : heap w !! p = None) by (apply lookup_ge_None_2; unfold p; lia).
  assert (Hunq : ∀ sd k, p ∉ G sd k).
  { intros sd k Hq. destruct (wf_queued _ _ _ H _ _ _ Hq) as (? & ? & _). congruence. }
  assert (Hunx : ∀ i, index w !! i ≠ Some p).
  { intros i Hi. destruct (wf_indexed _ _ _ H _ _ Hi) as (? & ? & _). congruence. }
  assert (Ho5 : heap w5 !! p = Some o0).
  { simpl. apply list_lookup_insert_eq. rewrite length_app. simpl. unfold p. lia. }
  assert (H5 : wf (Some p) G (book w5)).
  { eapply (wf_index_store G
              (set_arena (<[p := o0]> (heap w ++ [Order.init])) (book w))
              _ (NewOrderRequest.id req) p o0); try (by bk).
    - eapply (wf_update_unindexed _ _
                (set_arena (heap w ++ [Order.init]) (book w)) _ p o0);
        try (by bk).
      + eapply wf_allocate; [exact H|..]; try done; by bk.
      + bk. rewrite length_app. simpl. unfold p. lia.
    - bk. intros q sd k Hq Hin.
      destruct (wf_indexed _ _ _ H _ _ Hq) as (oq & Hoq & Eid & _).
      apply Hfresh. rewrite <- Eid. by eapply resting_ids_queued. }
  assert (E5e : events w5 = events w) by done.
  clearbody w5.
  apply sat_bind. eapply sat_mono; [by eapply match_wf|].
  intros u w6 (G6 & H6 & Hf6 & Hc6 & Hd6 & Hb6).
  change (Order.is_buy o0) with (bool_decide (NewOrderRequest.side req = Buy)) in Hb6.
  assert (Ht6 : trades_satisfy
            (λ t, Trade.aggressor t = NewOrderRequest.side req ∧
                  (if bool_decide (NewOrderRequest.side req = Buy)
                   then Trade.buy_order_id t else Trade.sell_order_id t)
                  = NewOrderRequest.id req ∧
                  (if bool_decide (NewOrderRequest.side req = Buy)
                   then buy_price_ok else sell_price_ok)
                    (NewOrderRequest.price req) (Trade.price t) = true) w w6).
  { destruct Hd6 as (new & E & Hn). exists new. split; [by rewrite E, E5e|].
    intros t Ht. destruct (Hn t Ht) as (A & B & C). by split_and!. }
  destruct (fills_aggressor _ _ _ Hf6 _ Ho5) as (o6 & Ho6 & Hok).
  destruct (wf_aggressor _ _ _ H6 _ eq_refl) as (o6' & Ho6' & Hi6).
  assert (o6' = o6) as -> by congruence.
  pose proof Hok as (Eid & Epr & Esd & Ety & Hst). simpl in Eid, Epr, Esd, Ety, Hst.
  rewrite Eid in Hi6.
  assert (Eb6 : Order.is_buy o6 = Order.is_buy o0)
    by (unfold Order.is_buy; by rewrite Esd).
  assert (Hc : ∀ sd k, ∃ n tail,
             G6 sd k = drop n (G sd k) ++ tail ∧
             (n = 0%nat ∨ sd = other (own_side (Order.is_buy o6))) ∧
             (tail = [] ∨ (tail = [p] ∧ sd = own_side (Order.is_buy o6)
                           ∧ k = Order.price o6))).
  { intros sd k. destruct (Hc6 sd k) as (n & En & Hn). exists n, [].
    rewrite app_nil_r, Eb6. split_and!; [done|done|by left]. }
  assert (Hq6 : ∀ sd k, p ∉ G6 sd k).
  { intros sd k Hq.
    by destruct (wf_queued _ _ _ H6 _ _ _ Hq) as (? & ? & ? & ? & ? & ? & ?). }
  read_as o6.
  apply sat_bind, sat_when.
  - intros Hpos%bool_decide_eq_true.
    assert (Hact : Order.is_active o6 = true).
    { unfold Order.is_active. destruct Hst as [[-> _]|[[_ E]|[-> _]]]; try done. lia. }
    read_as o6. rewrite Ety.
    destruct (NewOrderRequest.type req) eqn:Et.
    + eapply sat_mono; [eapply rest_order_wf; [exact H6|exact Ho6|congruence]|].
      intros u' w7 ((G7 & H7 & E7) & Ei7 & Ee7 & o7 & Ho7 & Eu7). apply sat_ret.
      split; [done|]. split; [|split; [|by eapply trades_satisfy_events]];
        [|exists G7; split; [done|]; intros k k' Hlt; rewrite !E7; unfold set_queue;
          rewrite !decide_False
            by (intros [Hs _]; rewrite Eb6 in Hs;
                change (Order.is_buy o0)
                  with (bool_decide (NewOrderRequest.side req = Buy)) in Hs;
                by destruct (bool_decide (NewOrderRequest.side req = Buy)));
          by apply Hb6].
      exists G7, o7.
      destruct (unlinked_terms _ _ Eu7) as (U1 & U2 & U3 & U4 & U5 & U6 & U7 & U8).
      pose proof U3 as Eb7.
      split_and!; try done; try congruence.
      * right. right. split_and!; try congruence.
        destruct (wf_indexed _ _ _ H7 (NewOrderRequest.id req) p)
          as (o7' & Ho7' & _ & Hl7); [congruence|].
        assert (o7' = o7) as -> by congruence. apply Hl7; [done|congruence].
      * intros sd k. rewrite E7, Eb7, U2.
        destruct (Hc6 sd k) as (n & En & Hn). rewrite <- Eb6 in Hn.
        unfold set_queue.
        destruct (decide (sd = own_side (Order.is_buy o6) ∧ k = Order.price o6))
          as [Hd|Hd].
        { destruct Hd as [-> ->]. exists n, [p]. rewrite <- En.
          split_and!; [done|done|by right]. }
        exists n, []. rewrite app_nil_r. split_and!; [done|done|by left].
    + eapply sat_mono; [by eapply cancel_rest_post|].
      intros u' w7 (H7 & Ei7 & o7 & Ho7 & Ee7 & ->). apply sat_ret.
      split; [done|]. split; [|split; [by exists G6|by eapply trades_satisfy_snoc]].
      exists G6, (Order.cancel (clk (clock_reads w6)) o6).
      destruct (cancel_fields (clk (clock_reads w6)) o6)
        as (F1 & F2 & F3 & _ & _ & F6 & F7 & F8).
      split_and!; try done; try congruence.
      * right. left. split_and!; try done. by rewrite Ei7, Eid, lookup_delete_eq.
      * intros sd k. destruct (Hc sd k) as (n & tail & ? & ? & ?).
        exists n, tail. by destruct o6.
    + eapply sat_mono; [by eapply cancel_rest_post|].
      intros u' w7 (H7 & Ei7 & o7 & Ho7 & Ee7 & ->). apply sat_ret.
      split; [done|]. split; [|split; [by exists G6|by eapply trades_satisfy_snoc]].
      exists G6, (Order.cancel (clk (clock_reads w6)) o6).
      destruct (cancel_fields (clk (clock_reads w6)) o6)
        as (F1 & F2 & F3 & _ & _ & F6 & F7 & F8).
      split_and!; try done; try congruence.
      * right. left. split_and!; try done. by rewrite Ei7, Eid, lookup_delete_eq.
      * intros sd k. destruct (Hc sd k) as (n & tail & ? & ? & ?).
        exists n, tail. by destruct o6.
    + eapply sat_mono; [by eapply cancel_rest_post|].
      intros u' w7 (H7 & Ei7 & o7 & Ho7 & Ee7 & ->). apply sat_ret.
      split; [done|]. split; [|split; [by exists G6|by eapply trades_satisfy_snoc]].
      exists G6, (Order.cancel (clk (clock_reads w6)) o6).
      destruct (cancel_fields (clk (clock_reads w6)) o6)
        as (F1 & F2 & F3 & _ & _ & F6 & F7 & F8).
      split_and!; try done; try congruence.
      * right. left. split_and!; try done. by rewrite Ei7, Eid, lookup_delete_eq.
      * intros sd k. destruct (Hc sd k) as (n & tail & ? & ? & ?).
        exists n, tail. by destruct o6.
  - intros Hz%bool_decide_eq_false. apply sat_ret. split; [done|].
    assert (Hidle : wf None G6 (book w6)).
    { eapply wf_release; [exact H6|].
      intros o Ho Ha. assert (o = o6) as -> by congruence.
      unfold Order.is_active in Ha.
      destruct Hst as [[_ E]|[[E _]|[_ E]]]; [lia|by rewrite E in Ha|lia]. }
    split; [|split; [by exists G6|done]].
    assert (Hfill : Order.status o6 = Filled ∧ Order.leaves_qty o6 = 0).
    { destruct Hst as [[_ E]|[?|[_ E]]]; [lia|done|lia]. }
    exists G6, o6. split_and!; try done.
    left. by destruct Hfill.
Qed.

(** A field of the queued order at [p] is set: the queues stand. *)
Lemma queued_update {B} p f (k : unit → M World B) w inc G o Q :
  (∀ o, Order.id (f o) = Order.id o ∧ Order.prev (f o) = Order.prev o ∧
        Order.next (f o) = Order.next o ∧ Order.price (f o) = Order.price o ∧
        Order.is_buy (f o) = Order.is_buy o ∧ Order.type (f o) = Order.type o) →
  wf inc G (book w) → heap w !! p = Some o →
  p ∈ G (own_side (Order.is_buy o)) (Order.price o) →
  (∀ w', wf inc G (book w') → index w' = index w → events w' = events w →
         heap w' !! p = Some (f o) →
         p ∈ G (own_side (Order.is_buy (f o))) (Order.price (f o)) →
         sat False (k tt) w' Q) →
  sat False (bind (arena (update p f)) k) w Q.
Proof.
  intros Hf H Ho Hp Hk. apply sat_bind, sat_arena_update; [|congruence].
  intros o1 Ho1. assert (o1 = o) as -> by congruence.
  destruct (Hf o) as (E1 & E2 & E3 & E4 & E5 & E6).
  apply Hk; try (by bk).
  - eapply (wf_update _ _ (book w) _ p o (f o)); try done; try (by bk).
    right. split_and!; try done. intros _. by right.
  - bk. apply list_lookup_insert_eq. by eapply lookup_lt_Some.
  - by rewrite E4, E5.
Qed.

(** The amend that only takes quantity off a queued order. *)
Lemma amend_reduce_post G w req p o :
  wf None G (book w) →
  index w !! AmendRequest.order_id req = Some p → heap w !! p = Some o →
  Order.is_active o = true →
  AmendRequest.new_price req = 0 ∨ AmendRequest.new_price req = Order.price o →
  AmendRequest.new_quantity req ≠ 0 →
  AmendRequest.new_quantity req < Order.leaves_qty o →
  sat False (amend_order clk req) w (λ ok w',
    ok = true ∧ wf None G (book w') ∧
    ∃ o', heap w' !! p = Some o' ∧
          Order.leaves_qty o' = AmendRequest.new_quantity req ∧
          Order.status o' = Amended ∧
          Order.filled_qty o' = Order.filled_qty o ∧
          Order.sequence o' = Order.sequence o).
Proof.
  intros H Hi Ho Ha Hpr Hq0 Hq. unfold amend_order. cbv zeta.
  apply sat_bind, sat_gets. rewrite Hi.
  destruct (wf_indexed _ _ _ H _ _ Hi) as (o0 & Ho0 & Eid & Hact).
  assert (o0 = o) as -> by congruence.
  assert (Hp : p ∈ G (own_side (Order.is_buy o)) (Order.price o)) by (by apply Hact).
  read_as o. rewrite Ha. simpl.
  read_as o. read_as o.
  assert (Hc1 : negb (bool_decide (AmendRequest.new_price req = 0))
                && negb (bool_decide (AmendRequest.new_price req = Order.price o))
                || negb (bool_decide (AmendRequest.new_quantity req = 0))
                   && bool_decide (AmendRequest.new_quantity req > Order.leaves_qty o)
                = false).
  { rewrite (bool_decide_eq_false_2 (_ > _)) by lia. rewrite andb_false_r, orb_false_r.
    destruct Hpr as [E|E].
    - by rewrite (bool_decide_eq_true_2 _ E).
    - rewrite (bool_decide_eq_true_2 (_ = Order.price o)) by done.
      by rewrite andb_false_r. }
  rewrite Hc1.
  rewrite (bool_decide_eq_false_2 (_ = 0)) by done.
  rewrite (bool_decide_eq_true_2 (_ < _)) by done. simpl.
  apply sat_bind.
  eapply (sat_mono _ _ _ (λ _ w',
            wf None G (book w') ∧
            ∃ o', heap w' !! p = Some o' ∧
                  Order.leaves_qty o' = AmendRequest.new_quantity req ∧
                  Order.status o' = Amended ∧
                  Order.filled_qty o' = Order.filled_qty o ∧
                  Order.sequence o' = Order.sequence o)).
  - eapply (queued_update p); [|exact H|exact Ho|exact Hp|].
    { intros o1. by destruct o1. }
    intros w1 H1 _ _ Ho1 Hp1.
    match type of Ho1 with _ = Some ?x => set (o1 := x) in * end.
    read_as o1.
    eapply (queued_update p); [|exact H1|exact Ho1|exact Hp1|].
    { intros o2. by destruct o2. }
    intros w2 H2 _ _ Ho2 Hp2.
    match type of Ho2 with _ = Some ?x => set (o2 := x) in * end.
    eapply (queued_update p); [|exact H2|exact Ho2|exact Hp2|].
    { intros o3. by destruct o3. }
    intros w3 H3 _ _ Ho3 Hp3.
    match type of Ho3 with _ = Some ?x => set (o3 := x) in * end.
    apply sat_bind, sat_now.
    generalize (clk (clock_reads w3)). intros t.
    eapply (queued_update p); [|eapply wf_ext; [exact H3|..]; by bk|exact Ho3|exact Hp3|].
    { intros o4. by destruct o4. }
    intros w4 H4 _ _ Ho4 Hp4.
    match type of Ho4 with _ = Some ?x => set (o4 := x) in * end.
    read_as o4. read_as o4.
    apply sat_bind, sat_gets.
    destruct (wf_queue_level _ _ _ _ _ _ H4 Hp4) as (l & Hl & _).
    rewrite Hl.
    eapply sat_mono; [by eapply reduce_level_wf|].
    intros _ w5 (H5 & Eh5 & _). split; [done|].
    exists o4. rewrite Eh5. split; [done|]. by destruct o.
  - intros _ w1 (H1 & o1 & Ho1 & F1 & F2 & F3 & F4).
    apply sat_bind, sat_arena_deref; [|congruence]. intros o2 E.
    assert (o2 = o1) as -> by congruence.
    apply sat_bind, sat_emit, sat_ret. split_and!; [done| |].
    + eapply wf_ext; [exact H1|..]; by bk.
    + by exists o1.
Qed.

(** The amend that changes the price, or adds quantity: the order
    leaves its queue, is matched, and rests behind the others. *)
Lemma amend_requeue_post G w req p o :
  wf None G (book w) →
  index w !! AmendRequest.order_id req = Some p → heap w !! p = Some o →
  Order.is_active o = true →
  (AmendRequest.new_price req ≠ 0 ∧ AmendRequest.new_price req ≠ Order.price o)
  ∨ (AmendRequest.new_quantity req ≠ 0
     ∧ AmendRequest.new_quantity req > Order.leaves_qty o) →
  sat False (amend_order clk req) w (λ ok w',
    ok = true ∧
    ∃ G', wf None G' (book w') ∧
      ∀ sd k, ∃ n tail,
        G' sd k = drop n (filter (λ q, q ≠ p) (G sd k)) ++ tail ∧
        (tail = [] ∨ tail = [p])).
Proof.
  intros H Hi Ho Ha Hcase. unfold amend_order. cbv zeta.
  apply sat_bind, sat_gets. rewrite Hi.
  destruct (wf_indexed _ _ _ H _ _ Hi) as (o0 & Ho0 & Eid & Hact).
  assert (o0 = o) as -> by congruence.
  assert (Hp : p ∈ G (own_side (Order.is_buy o)) (Order.price o)) by (by apply Hact).
  read_as o. rewrite Ha. simpl.
  read_as o. read_as o.
  assert (Hc1 : negb (bool_decide (AmendRequest.new_price req = 0))
                && negb (bool_decide (AmendRequest.new_price req = Order.price o))
                || negb (bool_decide (AmendRequest.new_quantity req = 0))
                   && bool_decide (AmendRequest.new_quantity req > Order.leaves_qty o)
                = true).
  { destruct Hcase as [[E1 E2]|[E1 E2]].
    - by rewrite (bool_decide_eq_false_2 _ E1), (bool_decide_eq_false_2 _ E2).
    - rewrite (bool_decide_eq_false_2 _ E1), (bool_decide_eq_true_2 _ E2).
      apply orb_true_r. }
  rewrite Hc1.
  apply sat_bind.
  eapply (sat_mono _ _ _ (λ _ w',
            (∃ G', wf None G' (book w') ∧
               ∀ sd k, ∃ n tail,
                 G' sd k = drop n (filter (λ q, q ≠ p) (G sd k)) ++ tail ∧
                 (tail = [] ∨ tail = [p])) ∧
            is_Some (heap w' !! p))).
  - apply sat_bind. eapply sat_mono; [by eapply remove_from_book_wf|].
    intros u w1 ((G1 & H1 & j & Hj & E1) & Ei1 & Ee1 & _ & o1 & Ho1 & Eu1).
    destruct (unlinked_terms _ _ Eu1) as (_ & _ & _ & Et1 & _).
    destruct (wf_queued _ _ _ H _ _ _ Hp) as (o' & Ho' & _ & _ & Et & _).
    assert (o' = o) as -> by congruence.
    eapply sat_mono.
    { eapply amend_reenter_wf; [exact H1|exact Ho1|congruence]. }
    intros u' w2 ((G2 & H2 & E2) & _ & Hs & _). split; [|done].
    exists G2. split; [done|]. intros sd k.
    destruct (E2 sd k) as (n & tail & E & Ht). exists n, tail. split; [|done].
    by rewrite E, E1, (queue_without _ _ _ _ _ _ _ H Hj).
  - intros u w1 ((G1 & H1 & E1) & [o1 Ho1]).
    apply sat_bind, sat_arena_deref; [|congruence]. intros o2 _.
    apply sat_bind, sat_emit, sat_ret. split; [done|].
    exists G1. split; [|done]. eapply wf_ext; [exact H1|..]; by bk.
Qed.

End Outcomes.

(** A call of [add_order] that returns, for a buy order or while a bid
    level stands, has not decremented the end of an empty map. *)
Lemma add_order_runs_defined clk req w a w' :
  match_defined (OrderBook.book w) (Add req) = true →
  OrderBook.add_order clk req w = Done (a, w') → defined_run w w'.
Proof.
  intros Hd E. pose proof (add_order_defined clk req w) as Hq.
  unfold sat in Hq. rewrite E in Hq. by apply Hq.
Qed.

Lemma amend_order_runs_defined clk G req w a w' :
  wf None G (OrderBook.book w) →
  match_defined (OrderBook.book w) (Amend req) = true →
  OrderBook.amend_order clk req w = Done (a, w') → defined_run w w'.
Proof.
  intros H Hd E. pose proof (amend_order_wf clk G w req H) as Hq.
  unfold sat in Hq. rewrite E in Hq. by apply Hq.
Qed.

(** [cancel_order] on an active order of a reachable book returns true: the
    order is unlinked, its status is [Cancelled] with nothing left and its
    fills kept, its id leaves the index, and the order callback gets the
    cancelled order; no trade is reported. *)
Theorem cancel_order_cancels clk w i p o :
  reachable clk w →
  OrderBook.order_index_ (OrderBook.book w) !! i = Some p →
  OrderBook.order_arena_ (OrderBook.book w) !! p = Some o →
  Order.is_active o = true →
  ∃ w' o',
    OrderBook.cancel_order clk i w = Done (true, w') ∧
    reachable clk w' ∧
    OrderBook.order_index_ (OrderBook.book w')
      = delete i (OrderBook.order_index_ (OrderBook.book w)) ∧
    OrderBook.order_arena_ (OrderBook.book w') !! p = Some o' ∧
    Order.status o' = Cancelled ∧ Order.leaves_qty o' = 0 ∧
    Order.filled_qty o' = Order.filled_qty o ∧
    (∀ sd k, p ∉ linked_at (OrderBook.book w') sd k) ∧
    OrderBook.events w' = OrderBook.events w ++ [OnOrder o'].
Proof.
  intros Hr Hi Ho Ha. destruct (reachable_wf _ _ Hr) as [G H].
  destruct (sat_total_Done _ _ _ (cancel_order_post clk G w i p o H Hi Ho Ha))
    as (ok & w' & E & -> & (G' & H' & _) & Ei & o' & Ho' & Ee & Es & El & Eid & Ef).
  exists w', o'. split_and!; try done.
  - eapply (reach_step _ w (Cancel i)); [done|done|].
    simpl. unfold bind. by rewrite E.
  - eapply not_linked_if_unindexed; [exact H'|exact Ho'|].
    by rewrite Eid, Ei, lookup_delete_eq.
Qed.

Lemma cancel_order_cancels_witness :
  ∃ w' o',
    OrderBook.cancel_order Scenario.ticks 1 one_bid = Done (true, w') ∧
    reachable Scenario.ticks w' ∧
    OrderBook.order_index_ (OrderBook.book w')
      = delete 1 (OrderBook.order_index_ (OrderBook.book one_bid)) ∧
    OrderBook.order_arena_ (OrderBook.book w') !! 0%nat = Some o' ∧
    Order.status o' = Cancelled ∧ Order.leaves_qty o' = 0 ∧
    Order.filled_qty o' = 0 ∧
    (∀ sd k, 0%nat ∉ linked_at (OrderBook.book w') sd k) ∧
    OrderBook.events w' = OrderBook.events one_bid ++ [OnOrder o'].
Proof.
  refine (cancel_order_cancels Scenario.ticks one_bid 1 0%nat
            (Order.mk 1 1 Buy Limit GTC 100 10 0 10 0 0 New None None Scenario.sym)
            one_bid_reachable _ _ _); vm_compute; reflexivity.
Defined.

(** [add_order] on a reachable book, for an order of positive quantity
    under an id that is not resting, and not a sell order matched while no
    bid level stands (where the code decrements the end of an empty map;
    [match_defined]): the call returns the next slot of the arena without taking that step, the
    slot holding an order with the id, side, type and price of the
    request, and either the order is [Filled] with nothing left, stays in
    the index and is linked nowhere; or it is not a limit order, is
    [Cancelled] with nothing left and has left the index; or it is an
    active limit order with something left, indexed and linked into the
    level of its price on its own side. *)
Theorem add_order_outcome clk w req :
  reachable clk w →
  admissible (OrderBook.book w) (Add req) = true →
  match_defined (OrderBook.book w) (Add req) = true →
  let p := length (OrderBook.order_arena_ (OrderBook.book w)) in
  ∃ w' o',
    OrderBook.add_order clk req w = Done (p, w') ∧
    defined_run w w' ∧
    reachable clk w' ∧
    OrderBook.order_arena_ (OrderBook.book w') !! p = Some o' ∧
    Order.id o' = NewOrderRequest.id req ∧
    Order.side o' = NewOrderRequest.side req ∧
    Order.type o' = NewOrderRequest.type req ∧
    Order.price o' = NewOrderRequest.price req ∧
    ((Order.status o' = Filled ∧ Order.leaves_qty o' = 0 ∧
      OrderBook.order_index_ (OrderBook.book w') !! NewOrderRequest.id req = Some p ∧
      ∀ sd k, p ∉ linked_at (OrderBook.book w') sd k)
     ∨ (Order.status o' = Cancelled ∧ Order.leaves_qty o' = 0 ∧
        NewOrderRequest.type req ≠ Limit ∧
        OrderBook.order_index_ (OrderBook.book w') !! NewOrderRequest.id req = None ∧
        ∀ sd k, p ∉ linked_at (OrderBook.book w') sd k)
     ∨ (Order.is_active o' = true ∧ 0 < Order.leaves_qty o' ∧
        NewOrderRequest.type req = Limit ∧
        OrderBook.order_index_ (OrderBook.book w') !! NewOrderRequest.id req = Some p ∧
        p ∈ linked_at (OrderBook.book w')
              (OrderBook.own_side (Order.is_buy o')) (Order.price o'))).
Proof.
  intros Hr Hadm Hd p. destruct (reachable_wf _ _ Hr) as [G H].
  destruct (sat_total_Done _ _ _ (add_order_post clk G w req H Hadm))
    as (a & w' & E & -> & (G' & o' & H' & Ho' & Eid & Es & Et & Ep & Hcase & _) & _ & _).
  exists w', o'. split_and!; try done.
  - by eapply add_order_runs_defined.
  - eapply (reach_step _ w (Add req)); [done|done|].
    simpl. unfold bind. by rewrite E.
  - destruct Hcase as [(?&?&?&Hn)|[(?&?&?&Hi)|(?&?&?&?&Hl)]].
    + left. split_and!; try done. intros sd k.
      rewrite (wf_linked_at _ _ _ _ _ H'). apply Hn.
    + right. left. split_and!; try done.
      eapply not_linked_if_unindexed; [exact H'|exact Ho'|]. by rewrite Eid, Hi.
    + right. right. split_and!; try done. by rewrite (wf_linked_at _ _ _ _ _ H').
Qed.

Lemma add_order_outcome_witness :
  ∃ w' o',
    OrderBook.add_order Scenario.ticks (Scenario.market 2 Sell 4) one_bid = Done (1%nat, w') ∧
    reachable Scenario.ticks w' ∧
    OrderBook.order_arena_ (OrderBook.book w') !! 1%nat = Some o' ∧
    Order.id o' = 2.
Proof.
  destruct (add_order_outcome Scenario.ticks one_bid (Scenario.market 2 Sell 4)
              one_bid_reachable ltac:(vm_compute; reflexivity)
              ltac:(vm_compute; reflexivity))
    as (w' & o' & E & _ & Hr & Ho & Eid & _).
  exists w', o'. split_and!; [exact E|exact Hr|exact Ho|exact Eid].
Defined.

(** ** Conservation of quantity *)

(** [add_order] on a reachable book, for an order of positive quantity
    under an id that is not resting, and not a sell order matched while no
    bid level stands, returns without decrementing the end of an empty map and
    leaves the queues in their order of arrival: on the opposite side every
    queue is what it was without some orders from its front; on the
    order's own side no queue changes, but that the new order, if it
    rests, is queued last at its price. *)
Theorem add_order_keeps_time_priority clk w req :
  reachable clk w →
  admissible (OrderBook.book w) (Add req) = true →
  match_defined (OrderBook.book w) (Add req) = true →
  let p := length (OrderBook.order_arena_ (OrderBook.book w)) in
  let own := OrderBook.own_side (bool_decide (NewOrderRequest.side req = Buy)) in
  ∃ w',
    OrderBook.add_order clk req w = Done (p, w') ∧
    defined_run w w' ∧
    (∀ k, ∃ n, linked_at (OrderBook.book w') (other own) k
               = drop n (linked_at (OrderBook.book w) (other own) k)) ∧
    (∀ k, linked_at (OrderBook.book w') own k = linked_at (OrderBook.book w) own k
          ∨ (k = NewOrderRequest.price req ∧
             linked_at (OrderBook.book w') own k
             = linked_at (OrderBook.book w) own k ++ [p])).
Proof.
  intros Hr Hadm Hd p own. destruct (reachable_wf _ _ Hr) as [G H].
  destruct (sat_total_Done _ _ _ (add_order_post clk G w req H Hadm))
    as (a & w' & E & -> & (G' & o' & H' & Ho' & Eid & Es & Et & Ep & _ & Hq) & _ & _).
  assert (Eown : OrderBook.own_side (Order.is_buy o') = own)
    by (unfold own, Order.is_buy; by rewrite Es).
  rewrite Eown in Hq.
  exists w'. split_and!; [done|by eapply add_order_runs_defined|..]; intros k;
    rewrite (wf_linked_at _ _ _ _ _ H'), (wf_linked_at _ _ _ _ _ H).
  - destruct (Hq (other own) k) as (n & tail & E1 & _ & [->|(_ & Hsd & _)]).
    + exists n. by rewrite app_nil_r in E1.
    + by destruct own.
  - destruct (Hq own k) as (n & tail & E1 & [->|Hsd] & Ht); [|by destruct own].
    rewrite drop_0 in E1. destruct Ht as [->|(-> & _ & ->)].
    + left. by rewrite app_nil_r in E1.
    + right. by rewrite Ep in *.
Qed.

Lemma add_order_keeps_time_priority_witness :
  ∃ w',
    OrderBook.add_order Scenario.ticks (Scenario.limit 3 Sell 100 10) two_bids
      = Done (2%nat, w') ∧
    linked_at (OrderBook.book two_bids) Bids 100 = [0%nat; 1%nat] ∧
    linked_at (OrderBook.book w') Bids 100 = [1%nat] ∧
    ∃ n, linked_at (OrderBook.book w') Bids 100
         = drop n (linked_at (OrderBook.book two_bids) Bids 100).
Proof.
  destruct (add_order_keeps_time_priority Scenario.ticks two_bids
              (Scenario.limit 3 Sell 100 10)
              two_bids_reachable ltac:(vm_compute; reflexivity)
              ltac:(vm_compute; reflexivity))
    as (w' & E & _ & Hcontra & _).
  pose proof (Hcontra 100) as Hq.
  assert (E0 : ∃ w0, OrderBook.add_order Scenario.ticks (Scenario.limit 3 Sell 100 10)
                       two_bids = Done (2%nat, w0) ∧
                     linked_at (OrderBook.book w0) Bids 100 = [1%nat])
    by (eexists; split; vm_compute; reflexivity).
  destruct E0 as (w0 & E0 & Hl0).
  assert (w' = w0) as -> by congruence.
  exists w0. split_and!; [exact E|vm_compute; reflexivity|exact Hl0|exact Hq].
Defined.

(** [add_order] on a reachable book, for an order of positive quantity
    under an id that is not resting, and not a sell order matched while no
    bid level stands, returns without decrementing the end of an empty map and
    reports trades of the new order only: each names the side of the order
    as the aggressor and the id of the order on that side, and its price
    is within the limit of the order, at most the price of a buy and at
    least the price of a sell, unless the price of the order is
    [PRICE_MARKET]. *)
Theorem trades_stay_within_the_limit clk w req :
  reachable clk w →
  admissible (OrderBook.book w) (Add req) = true →
  match_defined (OrderBook.book w) (Add req) = true →
  ∃ p w' new,
    OrderBook.add_order clk req w = Done (p, w') ∧
    OrderBook.events w' = OrderBook.events w ++ new ∧
    (PrevOfEndOfEmptyMap ∉ new) ∧
    ∀ t, OnTrade t ∈ new →
      Trade.aggressor t = NewOrderRequest.side req ∧
      match NewOrderRequest.side req with
      | Buy => Trade.buy_order_id t = NewOrderRequest.id req ∧
               (Trade.price t ≤ NewOrderRequest.price req
                ∨ NewOrderRequest.price req = PRICE_MARKET)
      | Sell => Trade.sell_order_id t = NewOrderRequest.id req ∧
                (NewOrderRequest.price req ≤ Trade.price t
                 ∨ NewOrderRequest.price req = PRICE_MARKET)
      end.
Proof.
  intros Hr Hadm Hd. destruct (reachable_wf _ _ Hr) as [G H].
  destruct (sat_total_Done _ _ _ (add_order_post clk G w req H Hadm))
    as (a & w' & E & -> & _ & _ & new & Ee & Hn).
  eexists _, w', new. split_and!; [exact E|exact Ee| |].
  { destruct (add_order_runs_defined _ _ _ _ _ Hd E) as (new' & Ee' & Hq).
    rewrite Ee in Ee'. by apply app_inv_head in Ee' as ->. }
  intros t Ht. destruct (Hn t Ht) as (A & B & C). split; [done|].
  destruct (NewOrderRequest.side req); simpl in B, C; (split; [done|]).
  - unfold OrderBook.buy_price_ok in C.
    apply orb_true_iff in C as [C%bool_decide_eq_true|C%bool_decide_eq_true];
      [left; lia|by right].
  - unfold OrderBook.sell_price_ok in C.
    apply orb_true_iff in C as [C%bool_decide_eq_true|C%bool_decide_eq_true];
      [left; lia|by right].
Qed.

Lemma trades_stay_within_the_limit_witness :
  ∃ p w' new,
    OrderBook.add_order Scenario.ticks (Scenario.limit 2 Sell 99 4) one_bid = Done (p, w') ∧
    OrderBook.events w' = OrderBook.events one_bid ++ new ∧
    ∀ t, OnTrade t ∈ new →
      Trade.aggressor t = Sell ∧ Trade.sell_order_id t = 2 ∧
      (99 ≤ Trade.price t ∨ 99 = PRICE_MARKET).
Proof.
  destruct (trades_stay_within_the_limit Scenario.ticks one_bid (Scenario.limit 2 Sell 99 4)
              one_bid_reachable ltac:(vm_compute; reflexivity)
              ltac:(vm_compute; reflexivity))
    as (p & w' & new & E & Ee & _ & Hn).
  exists p, w', new. split_and!; [exact E|exact Ee|].
  intros t Ht. destruct (Hn t Ht) as (A & B & C).
  exact (conj A (conj B C)).
Defined.

(** Price priority: [add_order] on a reachable book, for an order of
    positive quantity under an id that is not resting, and not a sell
    order matched while no bid level stands, returns without decrementing the end
    of an empty map and takes the opposite side best price first.  Where a
    queue of that side has changed, nothing is left at any better price: a
    lower one if the order buys, a higher one if it sells. *)
Theorem add_order_takes_the_best_price_first clk w req :
  reachable clk w →
  admissible (OrderBook.book w) (Add req) = true →
  match_defined (OrderBook.book w) (Add req) = true →
  let contra := other (OrderBook.own_side (bool_decide (NewOrderRequest.side req = Buy))) in
  ∃ p w',
    OrderBook.add_order clk req w = Done (p, w') ∧
    defined_run w w' ∧
    ∀ k k',
      match NewOrderRequest.side req with Buy => k' < k | Sell => k < k' end →
      linked_at (OrderBook.book w') contra k ≠ linked_at (OrderBook.book w) contra k →
      linked_at (OrderBook.book w') contra k' = [].
Proof.
  intros Hr Hadm Hd contra. destruct (reachable_wf _ _ Hr) as [G H].
  destruct (sat_total_Done _ _ _ (add_order_post clk G w req H Hadm))
    as (a & w' & E & -> & _ & (G' & H' & Hb) & _).
  eexists _, w'. split_and!; [exact E|by eapply add_order_runs_defined|].
  intros k k' Hlt.
  rewrite !(wf_linked_at _ _ _ _ _ H'), (wf_linked_at _ _ _ _ _ H).
  apply Hb. by destruct (NewOrderRequest.side req).
Qed.

Lemma add_order_takes_the_best_price_first_witness :
  ∃ p w',
    OrderBook.add_order Scenario.ticks (Scenario.limit 3 Sell 99 20) two_levels
      = Done (p, w') ∧
    linked_at (OrderBook.book two_levels) Bids 100 = [0%nat] ∧
    linked_at (OrderBook.book two_levels) Bids 101 = [1%nat] ∧
    linked_at (OrderBook.book w') Bids 100 = [] ∧
    linked_at (OrderBook.book w') Bids 101 = [].
Proof.
  destruct (add_order_takes_the_best_price_first Scenario.ticks two_levels
              (Scenario.limit 3 Sell 99 20)
              two_levels_reachable ltac:(vm_compute; reflexivity)
              ltac:(vm_compute; reflexivity))
    as (p & w' & E & _ & Hb).
  pose proof (Hb 100 101 ltac:(simpl; lia)) as Hq.
  assert (E0 : ∃ w0, OrderBook.add_order Scenario.ticks (Scenario.limit 3 Sell 99 20)
                       two_levels = Done (2%nat, w0) ∧
                     linked_at (OrderBook.book w0) Bids 100 = [])
    by (eexists; split; vm_compute; reflexivity).
  destruct E0 as (w0 & E0 & Hl0).
  assert (w' = w0) as -> by congruence.
  exists p, w0. split_and!; [exact E|vm_compute; reflexivity|vm_compute; reflexivity
                            |exact Hl0|].
  apply Hq.
  change (linked_at (OrderBook.book w0) Bids 100
          ≠ linked_at (OrderBook.book two_levels) Bids 100).
  rewrite Hl0. vm_compute. discriminate.
Defined.

(** [cancel_order] on an active order of a reachable book takes that order
    out of its queue and nothing else: every other order keeps its place
    in its queue. *)
Theorem cancel_order_keeps_the_others clk w i p o :
  reachable clk w →
  OrderBook.order_index_ (OrderBook.book w) !! i = Some p →
  OrderBook.order_arena_ (OrderBook.book w) !! p = Some o →
  Order.is_active o = true →
  ∃ w',
    OrderBook.cancel_order clk i w = Done (true, w') ∧
    ∀ sd k, linked_at (OrderBook.book w') sd k
            = filter (λ q, q ≠ p) (linked_at (OrderBook.book w) sd k).
Proof.
  intros Hr Hi Ho Ha. destruct (reachable_wf _ _ Hr) as [G H].
  destruct (sat_total_Done _ _ _ (cancel_order_post clk G w i p o H Hi Ho Ha))
    as (ok & w' & E & -> & (G' & H' & EG) & _).
  exists w'. split; [done|]. intros sd k.
  by rewrite (wf_linked_at _ _ _ _ _ H'), (wf_linked_at _ _ _ _ _ H).
Qed.

Lemma cancel_order_keeps_the_others_witness :
  ∃ w',
    OrderBook.cancel_order Scenario.ticks 1 two_bids = Done (true, w') ∧
    linked_at (OrderBook.book two_bids) Bids 100 = [0%nat; 1%nat] ∧
    linked_at (OrderBook.book w') Bids 100 = [1%nat].
Proof.
  destruct (cancel_order_keeps_the_others Scenario.ticks two_bids 1 0%nat
              (Order.mk 1 1 Buy Limit GTC 100 10 0 10 0 0 New None (Some 1%nat)
                 Scenario.sym)
              two_bids_reachable ltac:(vm_compute; reflexivity)
              ltac:(vm_compute; reflexivity) ltac:(vm_compute; reflexivity))
    as (w' & E & Hq).
  exists w'. split; [exact E|]. split; [vm_compute; reflexivity|].
  rewrite (Hq Bids 100). vm_compute. reflexivity.
Defined.

(** A quantity reduction keeps priority: [amend_order] on an active order
    of a reachable book, with the price kept and a new quantity below what
    the order has left, returns true and leaves every queue as it was; the
    order has the new quantity left, its status is [Amended], and it keeps
    its fills and its sequence number. *)
Theorem amend_reduction_keeps_priority clk w req p o :
  reachable clk w →
  OrderBook.order_index_ (OrderBook.book w) !! AmendRequest.order_id req = Some p →
  OrderBook.order_arena_ (OrderBook.book w) !! p = Some o →
  Order.is_active o = true →
  AmendRequest.new_price req = 0 ∨ AmendRequest.new_price req = Order.price o →
  AmendRequest.new_quantity req ≠ 0 →
  AmendRequest.new_quantity req < Order.leaves_qty o →
  ∃ w' o',
    OrderBook.amend_order clk req w = Done (true, w') ∧
    (∀ sd k, linked_at (OrderBook.book w') sd k = linked_at (OrderBook.book w) sd k) ∧
    OrderBook.order_arena_ (OrderBook.book w') !! p = Some o' ∧
    Order.leaves_qty o' = AmendRequest.new_quantity req ∧
    Order.status o' = Amended ∧
    Order.filled_qty o' = Order.filled_qty o ∧
    Order.sequence o' = Order.sequence o.
Proof.
  intros Hr Hi Ho Ha Hpr Hq0 Hq. destruct (reachable_wf _ _ Hr) as [G H].
  destruct (sat_total_Done _ _ _
              (amend_reduce_post clk G w req p o H Hi Ho Ha Hpr Hq0 Hq))
    as (ok & w' & E & -> & H' & o' & Ho' & F).
  exists w', o'. split_and!; try done; try apply F.
  intros sd k. by rewrite (wf_linked_at _ _ _ _ _ H'), (wf_linked_at _ _ _ _ _ H).
Qed.

Lemma amend_reduction_keeps_priority_witness :
  ∃ w' o',
    OrderBook.amend_order Scenario.ticks (Scenario.amend 1 0 4) two_bids = Done (true, w') ∧
    linked_at (OrderBook.book two_bids) Bids 100 = [0%nat; 1%nat] ∧
    linked_at (OrderBook.book w') Bids 100 = linked_at (OrderBook.book two_bids) Bids 100 ∧
    OrderBook.order_arena_ (OrderBook.book w') !! 0%nat = Some o' ∧
    Order.leaves_qty o' = 4 ∧ Order.status o' = Amended.
Proof.
  destruct (amend_reduction_keeps_priority Scenario.ticks two_bids (Scenario.amend 1 0 4) 0%nat
              (Order.mk 1 1 Buy Limit GTC 100 10 0 10 0 0 New None (Some 1%nat)
                 Scenario.sym)
              two_bids_reachable ltac:(vm_compute; reflexivity)
              ltac:(vm_compute; reflexivity) ltac:(vm_compute; reflexivity)
              ltac:(left; reflexivity) ltac:(vm_compute; discriminate)
              ltac:(vm_compute; reflexivity))
    as (w' & o' & E & Hq & Ho & El & Es & _).
  exists w', o'.
  split_and!; [exact E|vm_compute; reflexivity|exact (Hq Bids 100)|exact Ho|exact El
              |exact Es].
Defined.

(** A change of price, or an increase of quantity, loses priority:
    [amend_order] on an active order of a reachable book, not a sell order
    matched while no bid level stands, returns true without decrementing the end
    of an empty map, and every queue of the new book is a queue of the old
    one without the amended order and without some orders taken from its
    front, with the amended order last if it rests there. *)
Theorem amend_reentry_loses_priority clk w req p o :
  reachable clk w →
  OrderBook.order_index_ (OrderBook.book w) !! AmendRequest.order_id req = Some p →
  OrderBook.order_arena_ (OrderBook.book w) !! p = Some o →
  Order.is_active o = true →
  (AmendRequest.new_price req ≠ 0 ∧ AmendRequest.new_price req ≠ Order.price o)
  ∨ (AmendRequest.new_quantity req ≠ 0
     ∧ AmendRequest.new_quantity req > Order.leaves_qty o) →
  match_defined (OrderBook.book w) (Amend req) = true →
  ∃ w',
    OrderBook.amend_order clk req w = Done (true, w') ∧
    defined_run w w' ∧
    ∀ sd k,
      (∃ n tail,
         linked_at (OrderBook.book w') sd k
         = drop n (filter (λ q, q ≠ p) (linked_at (OrderBook.book w) sd k)) ++ tail ∧
         (tail = [] ∨ tail = [p])) ∧
      (p ∈ linked_at (OrderBook.book w') sd k →
       last (linked_at (OrderBook.book w') sd k) = Some p).
Proof.
  intros Hr Hi Ho Ha Hcase Hd. destruct (reachable_wf _ _ Hr) as [G H].
  destruct (sat_total_Done _ _ _
              (amend_requeue_post clk G w req p o H Hi Ho Ha Hcase))
    as (ok & w' & E & -> & G' & H' & HG).
  exists w'. split_and!; [done|by eapply amend_order_runs_defined|]. intros sd k.
  rewrite (wf_linked_at _ _ _ _ _ H'), (wf_linked_at _ _ _ _ _ H).
  destruct (HG sd k) as (n & tail & EG & Ht). split; [by exists n, tail|].
  rewrite EG. intros [Hin|Hin]%elem_of_app.
  - apply subseteq_drop, list_elem_of_filter in Hin as [Hne _]. done.
  - destruct Ht as [-> | ->]; [by apply elem_of_nil in Hin|]. by rewrite last_snoc.
Qed.

Lemma amend_reentry_loses_priority_witness :
  ∃ w',
    OrderBook.amend_order Scenario.ticks (Scenario.amend 1 101 0) two_levels
      = Done (true, w') ∧
    linked_at (OrderBook.book two_levels) Bids 100 = [0%nat] ∧
    linked_at (OrderBook.book two_levels) Bids 101 = [1%nat] ∧
    linked_at (OrderBook.book w') Bids 101 = [1%nat; 0%nat] ∧
    last (linked_at (OrderBook.book w') Bids 101) = Some 0%nat.
Proof.
  destruct (amend_reentry_loses_priority Scenario.ticks two_levels
              (Scenario.amend 1 101 0) 0%nat
              (Order.mk 1 1 Buy Limit GTC 100 10 0 10 0 0 New None None Scenario.sym)
              two_levels_reachable ltac:(vm_compute; reflexivity)
              ltac:(vm_compute; reflexivity) ltac:(vm_compute; reflexivity)
              ltac:(left; split; vm_compute; discriminate)
              ltac:(vm_compute; reflexivity))
    as (w' & E & _ & Hq).
  pose proof (proj2 (Hq Bids 101)) as Hlast.
  assert (E0 : ∃ w0, OrderBook.amend_order Scenario.ticks (Scenario.amend 1 101 0)
                       two_levels = Done (true, w0) ∧
                     linked_at (OrderBook.book w0) Bids 101 = [1%nat; 0%nat])
    by (eexists; split; vm_compute; reflexivity).
  destruct E0 as (w0 & E0 & Hl0).
  assert (w' = w0) as -> by congruence.
  exists w0. split_and!; [exact E|vm_compute; reflexivity|vm_compute; reflexivity
                         |exact Hl0|].
  apply Hlast. rewrite Hl0. apply elem_of_cons. right. apply elem_of_cons. by left.
Defined.

Lemma sum_filled_app h h' : sum_filled (h ++ h') = sum_filled h + sum_filled h'.
Proof. unfold sum_filled. induction h as [|o h IH]; simpl; [done|]. rewrite IH. lia. Qed.

Lemma sum_filled_insert h : ∀ p o o',
  h !! p = Some o →
  sum_filled (<[p := o']> h) = sum_filled h - Order.filled_qty o + Order.filled_qty o'.
Proof.
  unfold sum_filled.
  induction h as [|x h IH]; intros [|p] o o' Ho; simpl in *; try done.
  - injection Ho as ->. lia.
  - rewrite (IH _ _ o' Ho). lia.
Qed.

Lemma trades_snoc evs e :
  trades (evs ++ [e])
  = trades evs ++ match e with OnTrade t => [t] | _ => [] end.
Proof. unfold trades. rewrite omap_app. by destruct e. Qed.

Lemma volume_snoc ts t : volume (ts ++ [t]) = volume ts + Trade.quantity t.
Proof. unfold volume. induction ts as [|x ts IH]; simpl; [lia|]. rewrite IH. lia. Qed.

Lemma wrap64_add_l a b c : wrap64 a = wrap64 b → wrap64 (a + c) = wrap64 (b + c).
Proof.
  unfold wrap64. intros E.
  by rewrite <- (Zplus_mod_idemp_l a), E, Zplus_mod_idemp_l.
Qed.

Lemma wrap64_add_wrap a b : wrap64 (wrap64 a + b) = wrap64 (a + b).
Proof. unfold wrap64. apply Zplus_mod_idemp_l. Qed.

Lemma wrap64_shift a k : wrap64 (a + k * 2 ^ 64) = wrap64 a.
Proof. unfold wrap64. apply Z_mod_plus_full. Qed.

Lemma wrap64_decomp x : ∃ k, wrap64 x = x + k * 2 ^ 64.
Proof.
  exists (- (x / 2 ^ 64)). unfold wrap64.
  pose proof (Z_div_mod_eq_full x (2 ^ 64)). lia.
Qed.

Section Conservation.

Import OrderBook.
Variable clk : nat → Timestamp.

Abbreviation heap w := (order_arena_ (book w)).

(** *** Arena computations *)

Lemma thrifty_ret {A} (a : A) : thrifty (ret a).
Proof. intros h. by apply sat_ret. Qed.

Lemma thrifty_bind {A B} (m : M (list Order.t) A) (k : A → M (list Order.t) B) :
  thrifty m → (∀ a, thrifty (k a)) → thrifty (bind m k).
Proof.
  intros Hm Hk h. apply sat_bind. eapply sat_mono; [apply Hm|].
  intros a h1 E1. eapply sat_mono; [apply Hk|]. intros b h2 E2. congruence.
Qed.

Lemma thrifty_read {A} p (f : Order.t → A) : thrifty (read p f).
Proof. intros h. by apply sat_read. Qed.

Lemma thrifty_update p f :
  (∀ o, Order.filled_qty (f o) = Order.filled_qty o) → thrifty (update p f).
Proof.
  intros Hf h. apply sat_update; [|done]. intros o Ho.
  rewrite (sum_filled_insert _ _ _ _ Ho), Hf. lia.
Qed.

Ltac thrift :=
  repeat lazymatch goal with
    | |- thrifty (let _ := _ in _) => cbv zeta
    | |- thrifty (ret _) => apply thrifty_ret
    | |- thrifty (bind _ _) => apply thrifty_bind; [|intros ?]
    | |- thrifty (read _ _) => apply thrifty_read
    | |- thrifty (update _ _) => apply thrifty_update; by intros []
    | |- thrifty (match ?x with _ => _ end) => destruct x
    end.

Lemma thrifty_push_back p l : thrifty (PriceLevel.push_back p l).
Proof. unfold PriceLevel.push_back. thrift. Qed.

Lemma thrifty_remove p l : thrifty (PriceLevel.remove p l).
Proof. unfold PriceLevel.remove. thrift. Qed.

Lemma thrifty_pop_front l : thrifty (PriceLevel.pop_front l).
Proof. unfold PriceLevel.pop_front. thrift. Qed.

(** *** Steps of the book *)

Lemma audits_ret {A} (a : A) : audits (ret a).
Proof. intros w H. by apply sat_ret. Qed.

Lemma audits_raise {A} f : audits (raise f : M World A).
Proof. intros w H. by apply sat_raise. Qed.

Lemma audits_bind {A B} (m : M World A) (k : A → M World B) :
  audits m → (∀ a, audits (k a)) → audits (bind m k).
Proof.
  intros Hm Hk w H. apply sat_bind. eapply sat_mono; [by apply Hm|].
  intros a w1 H1. by apply Hk.
Qed.

Lemma audits_when (b : bool) (m : M World unit) : audits m → audits (when b m).
Proof. intros Hm. destruct b; [done|apply audits_ret]. Qed.

Lemma audits_gets {A} (f : World → A) : audits (gets f).
Proof. intros w H. by apply sat_gets. Qed.

Lemma audits_arena {A} (m : M (list Order.t) A) : thrifty m → audits (arena m).
Proof.
  intros Hm w (H1 & H2 & H3). apply sat_arena. eapply sat_mono; [apply Hm|].
  intros a h' E. split_and!; simpl; [by rewrite E|done|done].
Qed.

Lemma audits_on_book f :
  (∀ b, order_arena_ (f b) = order_arena_ b ∧
        total_volume_ (f b) = total_volume_ b ∧
        trade_count_ (f b) = trade_count_ b) →
  audits (modify (on_book f)).
Proof.
  intros Hf w (H1 & H2 & H3). apply sat_modify.
  destruct (Hf (book w)) as (E1 & E2 & E3).
  split_and!; simpl; by rewrite ?E1, ?E2, ?E3.
Qed.

Lemma audits_now : audits (now clk).
Proof. intros w H. by apply sat_now. Qed.

Lemma audits_emit e : (∀ t, e ≠ OnTrade t) → audits (emit e).
Proof.
  intros He w (H1 & H2 & H3). apply sat_emit.
  assert (trades (events w ++ [e]) = trades (events w)) as E.
  { rewrite trades_snoc.
    destruct e as [tr| | |]; [by destruct (He tr)|by rewrite app_nil_r..]. }
  split_and!; simpl; by rewrite E.
Qed.

Lemma audits_level_ref sd k : audits (level_ref sd k).
Proof.
  intros w H. unfold level_ref. apply sat_bind, sat_gets.
  destruct (levels sd (book w) !! k); [by apply sat_ret|by apply sat_raise].
Qed.

Lemma audits_on_level sd k f : (∀ l, thrifty (f l)) → audits (on_level sd k f).
Proof.
  intros Hf. unfold on_level.
  apply audits_bind; [apply audits_level_ref|]. intros l.
  apply audits_bind; [by apply audits_arena|]. intros l'.
  apply audits_on_book. intros b. by destruct sd, b.
Qed.

Ltac audit :=
  repeat lazymatch goal with
    | |- audits (let _ := _ in _) => cbv zeta
    | |- audits (ret _) => apply audits_ret
    | |- audits (raise _) => apply audits_raise
    | |- audits (bind _ _) => apply audits_bind; [|intros ?]
    | |- audits (when _ _) => apply audits_when
    | |- audits (arena (read _ _)) => apply audits_arena, thrifty_read
    | |- audits (arena (deref _)) =>
        apply audits_arena; intros ?; by apply sat_deref
    | |- audits (arena (update _ _)) =>
        apply audits_arena, thrifty_update; by intros []
    | |- audits (emit (OnOrder _)) => apply audits_emit; by intros ?
    | |- audits (emit PrevOfEndOfEmptyMap) => apply audits_emit; by intros ?
    | |- audits (emit (ReduceQuantityClamped _ _)) => apply audits_emit; by intros ?
    | |- audits (now _) => apply audits_now
    | |- audits next_sequence =>
        unfold next_sequence
    | |- audits (gets _) => apply audits_gets
    | |- audits (index_find _) => apply audits_gets
    | |- audits (find_level _ _) => apply audits_gets
    | |- audits (get_levels _) => apply audits_gets
    | |- audits (index_erase _) => apply audits_on_book; by intros []
    | |- audits (index_store _ _) => apply audits_on_book; by intros []
    | |- audits (store_level ?sd _ _) =>
        apply audits_on_book; intros b; by destruct sd, b
    | |- audits (erase_level ?sd _) =>
        apply audits_on_book; intros b; by destruct sd, b
    | |- audits (modify (on_book (set_next_sequence _))) =>
        apply audits_on_book; by intros []
    | |- audits (level_ref _ _) => apply audits_level_ref
    | |- audits (reduce_level _ _ _) => unfold reduce_level
    | |- audits (on_level _ _ (PriceLevel.push_back _)) =>
        apply audits_on_level, thrifty_push_back
    | |- audits (on_level _ _ (PriceLevel.remove _)) =>
        apply audits_on_level, thrifty_remove
    | |- audits (on_level _ _ PriceLevel.pop_front) =>
        apply audits_on_level, thrifty_pop_front
    | |- audits (match ?x with _ => _ end) => destruct x
    end.

Lemma audits_rest_order p : audits (rest_order p).
Proof. unfold rest_order. audit. Qed.

Lemma audits_remove_from_book p : audits (remove_from_book p).
Proof. unfold remove_from_book. audit. Qed.

Lemma audits_can_fill_completely p : audits (can_fill_completely p).
Proof. unfold can_fill_completely. audit. Qed.

Lemma audits_cancel_rest p : audits (cancel_rest clk p).
Proof. unfold cancel_rest. audit. Qed.

Lemma thrifty_allocate : thrifty allocate.
Proof. intros h. apply sat_allocate. rewrite sum_filled_app. simpl. lia. Qed.

(** One pass of the inner loop adds the fill to two orders and reports
    one trade for it. *)
Lemma audits_fill_front inc sd k leaves level :
  audits (fill_front clk inc sd k leaves level).
Proof.
  unfold fill_front.
  apply audits_bind; [destruct (PriceLevel.front level); audit|]. intros resting.
  apply audits_bind; [audit|]. intros resting_leaves. cbv zeta.
  set (fq := Z.min leaves resting_leaves).
  apply audits_bind; [audit|]. intros seq.
  apply audits_bind; [audit|]. intros trade_price.
  apply audits_bind; [audit|]. intros exec_time.
  apply audits_bind; [audit|]. intros aggressor.
  apply audits_bind; [audit|]. intros symbol.
  apply audits_bind; [audit|]. intros is_buy.
  apply audits_bind; [audit|]. intros incoming_id.
  apply audits_bind; [audit|]. intros resting_id.
  apply audits_bind; [audit|]. intros u.
  intros w (H1 & H2 & H3).
  apply sat_bind, sat_now.
  apply sat_bind, sat_arena_update; [|done]. intros o1 Ho1.
  apply sat_bind, sat_now.
  apply sat_bind, sat_arena_update; [|done]. intros o2 Ho2.
  apply sat_bind, sat_emit.
  apply sat_bind, sat_arena_deref; [|done]. intros o3 Ho3.
  apply sat_bind, sat_emit.
  apply sat_bind, sat_modify.
  apply sat_bind, sat_modify.
  assert (Htail : audits (filled <- arena (read resting Order.is_filled) ;;
                          when filled
                            (on_level sd k PriceLevel.pop_front ;;
                             rid <- arena (read resting Order.id) ;;
                             index_erase rid))) by audit.
  apply Htail. unfold balanced. simpl in Ho1, Ho2 |- *.
  rewrite !trades_snoc, app_nil_r, length_app, volume_snoc. simpl.
  split_and!.
  - rewrite (sum_filled_insert _ _ _ _ Ho2), (sum_filled_insert _ _ _ _ Ho1).
    assert (F1 : ∀ t o, Order.filled_qty (Order.fill fq t o)
                        = wrap64 (Order.filled_qty o + fq)) by (by intros ? []).
    rewrite !F1.
    destruct (wrap64_decomp (Order.filled_qty o1 + fq)) as [k1 ->].
    destruct (wrap64_decomp (Order.filled_qty o2 + fq)) as [k2 ->].
    replace (sum_filled (heap w) - Order.filled_qty o1
             + (Order.filled_qty o1 + fq + k1 * 2 ^ 64) - Order.filled_qty o2
             + (Order.filled_qty o2 + fq + k2 * 2 ^ 64))
      with (sum_filled (heap w) + 2 * fq + (k1 + k2) * 2 ^ 64) by lia.
    rewrite wrap64_shift.
    replace (2 * (volume (trades (events w)) + fq))
      with (2 * volume (trades (events w)) + 2 * fq) by lia.
    by apply wrap64_add_l.
  - rewrite H2. apply wrap64_add_wrap.
  - rewrite H3, wrap64_add_wrap. f_equal. lia.
Qed.

Lemma audits_fifo_loop fuel inc sd k : audits (fifo_loop clk fuel inc sd k).
Proof.
  induction fuel as [|fuel IH]; [apply audits_raise|].
  rewrite fifo_loop_S. audit; [apply audits_fill_front|apply IH].
Qed.

Lemma audits_level_loop fuel inc sd price_ok :
  audits (level_loop clk fuel inc sd price_ok).
Proof.
  induction fuel as [|fuel IH]; [apply audits_raise|].
  rewrite level_loop_S. audit; [apply audits_fifo_loop|apply IH].
Qed.

Lemma audits_match inc : audits (match_ clk inc).
Proof.
  unfold match_, match_against.
  audit; try apply audits_can_fill_completely; apply audits_level_loop.
Qed.

Lemma audits_add_order req : audits (add_order clk req).
Proof.
  unfold add_order. intros w (H1 & H2 & H3).
  apply sat_bind, sat_arena, sat_allocate.
  apply sat_bind, sat_next_sequence.
  apply sat_bind, sat_now.
  apply sat_bind, sat_arena_update; [|done]. intros o1 Ho1. simpl in Ho1.
  assert (o1 = Order.init) as ->.
  { rewrite lookup_app_r, Nat.sub_diag in Ho1 by lia. by injection Ho1. }
  match goal with |- sat _ ?m _ _ => assert (Htail : audits m) end.
  { audit; first [apply audits_match|apply audits_rest_order|apply audits_cancel_rest]. }
  apply Htail. unfold balanced. split_and!; simpl; try done.
  rewrite (sum_filled_insert _ _ _ _ Ho1), sum_filled_app. simpl.
  rewrite <- H1. f_equal. lia.
Qed.

Lemma audits_cancel_order id : audits (cancel_order clk id).
Proof. unfold cancel_order. audit. apply audits_remove_from_book. Qed.

Lemma audits_amend_order req : audits (amend_order clk req).
Proof.
  unfold amend_order.
  audit; first [apply audits_remove_from_book|apply audits_match|apply audits_rest_order].
Qed.

Lemma audits_serve r : audits (serve clk r).
Proof.
  destruct r; simpl; audit;
    [apply audits_add_order|apply audits_cancel_order|apply audits_amend_order].
Qed.

Lemma audits_serve_all rs : audits (serve_all clk rs).
Proof.
  induction rs as [|r rs IH]; simpl; audit; [apply audits_serve|apply IH].
Qed.

Lemma balanced_start symbol : balanced (start symbol).
Proof. done. Qed.

Lemma after_balanced symbol rs w :
  after clk rs (start symbol) = Some w → balanced w.
Proof.
  unfold after. intros E.
  pose proof (audits_serve_all rs (start symbol) (balanced_start symbol)) as H.
  unfold sat in H. destruct (serve_all clk rs (start symbol)) as [[a w']|]; [|done].
  by injection E as <-.
Qed.

End Conservation.

(** Conservation of quantity: after every stream of calls on a new book,
    the fills of all orders add up, modulo 2^64, to twice the volume of
    the trades reported: every trade fills two orders by its quantity and
    nothing else fills an order. *)
Theorem quantity_is_conserved clk symbol rs w :
  after clk rs (OrderBook.start symbol) = Some w →
  wrap64 (sum_filled (OrderBook.order_arena_ (OrderBook.book w)))
  = wrap64 (2 * volume (trades (OrderBook.events w))).
Proof. intros E. by destruct (after_balanced clk symbol rs w E). Qed.

Lemma quantity_is_conserved_witness :
  ∃ w, after Scenario.ticks Scenario.session Scenario.start = Some w ∧
       wrap64 (sum_filled (OrderBook.order_arena_ (OrderBook.book w)))
       = wrap64 (2 * volume (trades (OrderBook.events w))).
Proof.
  eexists. split; [vm_compute; reflexivity|].
  refine (quantity_is_conserved Scenario.ticks Scenario.sym Scenario.session _ _).
  vm_compute. reflexivity.
Defined.

(** The counters of the book are the trades it reported: after every
    stream of calls on a new book [trade_count()] is their number and
    [total_volume()] their volume, modulo 2^64. *)
Theorem counters_count_the_trades clk symbol rs w :
  after clk rs (OrderBook.start symbol) = Some w →
  BookView.trade_count (OrderBook.book w)
    = wrap64 (Z.of_nat (length (trades (OrderBook.events w)))) ∧
  BookView.total_volume (OrderBook.book w)
    = wrap64 (volume (trades (OrderBook.events w))).
Proof. intros E. by destruct (after_balanced clk symbol rs w E) as (_ & ? & ?). Qed.

Lemma counters_count_the_trades_witness :
  ∃ w, after Scenario.ticks Scenario.session Scenario.start = Some w ∧
       BookView.trade_count (OrderBook.book w)
         = wrap64 (Z.of_nat (length (trades (OrderBook.events w)))).
Proof.
  eexists. split; [vm_compute; reflexivity|].
  refine (proj1 (counters_count_the_trades Scenario.ticks Scenario.sym Scenario.session _ _)).
  vm_compute. reflexivity.
Defined.

(** ** The queries *)

#[local] Instance key_le_transitive {A} : Transitive (@key_le A).
Proof. intros a b c. unfold key_le. lia. Qed.

#[local] Instance key_le_total {A} : Total (@key_le A).
Proof. intros a b. unfold key_le. lia. Qed.

Lemma ascending_perm {A} (m : gmap Z A) : ascending m ≡ₚ map_to_list m.
Proof. apply merge_sort_Permutation. Qed.

Lemma elem_of_ascending {A} (m : gmap Z A) k a :
  (k, a) ∈ ascending m ↔ m !! k = Some a.
Proof. rewrite ascending_perm. apply elem_of_map_to_list. Qed.

Lemma length_ascending {A} (m : gmap Z A) : length (ascending m) = size m.
Proof. rewrite ascending_perm. apply length_map_to_list. Qed.

(** The iterator of a [std::map] meets the keys in strictly ascending
    order. *)
Lemma ascending_strict {A} (m : gmap Z A) :
  StronglySorted (λ a b, a.1 < b.1) (ascending m).
Proof.
  assert (Hnd : NoDup (ascending m).*1).
  { rewrite ascending_perm. apply NoDup_fst_map_to_list. }
  assert (Hs : StronglySorted key_le (ascending m))
    by (apply StronglySorted_merge_sort; apply _).
  induction Hs as [|x l Hs IH Hx]; [constructor|].
  simpl in Hnd. apply NoDup_cons in Hnd as [Hx' Hnd].
  constructor; [by apply IH|].
  apply Forall_forall. intros y Hy.
  rewrite Forall_forall in Hx. specialize (Hx y Hy). unfold key_le in Hx.
  assert (x.1 ≠ y.1).
  { intros E. apply Hx'. rewrite E. apply list_elem_of_fmap. by exists y. }
  lia.
Qed.

Lemma StronglySorted_reverse {A} (R : relation A) l :
  StronglySorted R l → StronglySorted (flip R) (reverse l).
Proof.
  induction 1 as [|x l Hs IH Hx]; [constructor|]. rewrite reverse_cons.
  apply StronglySorted_app_2; [|done|repeat constructor].
  intros y z Hy Hz%list_elem_of_singleton. subst z.
  rewrite elem_of_reverse in Hy.
  rewrite Forall_forall in Hx. unfold flip. by apply Hx.
Qed.

Lemma head_ascending {A} (m : gmap Z A) :
  fst <$> head (ascending m) = min_key m.
Proof.
  pose proof (ascending_strict m) as Hs.
  destruct (ascending m) as [|[k a] l] eqn:E; simpl.
  - assert (m = ∅) as ->.
    { apply map_size_empty_inv. by rewrite <- length_ascending, E. }
    done.
  - assert (Hk : m !! k = Some a).
    { apply elem_of_ascending. rewrite E. apply list_elem_of_here. }
    destruct (min_key m) as [k0|] eqn:E0.
    + apply min_key_Some in E0 as [[a0 H0] Hmin]. f_equal.
      apply elem_of_ascending in H0. rewrite E in H0.
      apply elem_of_cons in H0 as [[= -> ->]|H0]; [done|].
      apply StronglySorted_inv in Hs as [_ Hs]. rewrite Forall_forall in Hs.
      specialize (Hs _ H0). simpl in Hs.
      specialize (Hmin k ltac:(by eexists)). lia.
    + apply min_key_None in E0. subst m. by rewrite lookup_empty in Hk.
Qed.

Lemma head_reverse_ascending {A} (m : gmap Z A) :
  fst <$> head (reverse (ascending m)) = max_key m.
Proof.
  pose proof (StronglySorted_reverse _ _ (ascending_strict m)) as Hs.
  destruct (reverse (ascending m)) as [|[k a] l] eqn:E; simpl.
  - assert (m = ∅) as ->.
    { apply map_size_empty_inv.
      by rewrite <- length_ascending, <- length_reverse, E. }
    done.
  - assert (Hk : m !! k = Some a).
    { apply elem_of_ascending, elem_of_reverse. rewrite E. apply list_elem_of_here. }
    destruct (max_key m) as [k0|] eqn:E0.
    + apply max_key_Some in E0 as [[a0 H0] Hmax]. f_equal.
      apply elem_of_ascending, elem_of_reverse in H0. rewrite E in H0.
      apply elem_of_cons in H0 as [[= -> ->]|H0]; [done|].
      apply StronglySorted_inv in Hs as [_ Hs]. rewrite Forall_forall in Hs.
      specialize (Hs _ H0). simpl in Hs.
      specialize (Hmax k ltac:(by eexists)). lia.
    + apply max_key_None in E0. subst m. by rewrite lookup_empty in Hk.
Qed.

Lemma snapshot_loop_take its : ∀ count max_levels,
  BookView.snapshot_loop its count max_levels
  = level_row <$> take (max_levels - count) its.
Proof.
  induction its as [|[k l] its IH]; intros count n; simpl.
  - by rewrite take_nil.
  - case_bool_decide as Hc.
    + replace (n - count)%nat with (S (n - S count)) by lia. simpl.
      by rewrite IH.
    + by replace (n - count)%nat with 0%nat by lia.
Qed.

Lemma StronglySorted_take {A} (R : relation A) n l :
  StronglySorted R l → StronglySorted R (take n l).
Proof.
  intros H. rewrite <- (take_drop n l) in H. by eapply StronglySorted_app_1_l.
Qed.

(** Where [reserve(n)] finds room, [get_asks(n)] lists the [n] lowest ask
    levels, or all if there are fewer, from the best ask up, each with the
    quantity and the count its level holds; [get_bids(n)] lists the [n]
    highest bid levels from the best bid down.  Where [reserve(n)] throws,
    both calls throw, whatever the book holds. *)
Theorem snapshots_list_the_best_levels_first reserves n b :
  (reserves n = false →
   BookView.get_asks reserves n b = None ∧ BookView.get_bids reserves n b = None) ∧
  (reserves n = true →
   ∃ asks bids,
   BookView.get_asks reserves n b = Some asks ∧
   BookView.get_bids reserves n b = Some bids ∧
  length asks = Nat.min n (size (OrderBook.asks_ b)) ∧
  length bids = Nat.min n (size (OrderBook.bids_ b)) ∧
  StronglySorted Z.lt (BookView.price <$> asks) ∧
  StronglySorted (flip Z.lt) (BookView.price <$> bids) ∧
  (∀ e, e ∈ asks →
     ∃ l, OrderBook.asks_ b !! BookView.price e = Some l ∧
          BookView.quantity e = PriceLevel.total_quantity l ∧
          BookView.order_count e = PriceLevel.order_count l) ∧
  (∀ e, e ∈ bids →
     ∃ l, OrderBook.bids_ b !! BookView.price e = Some l ∧
          BookView.quantity e = PriceLevel.total_quantity l ∧
          BookView.order_count e = PriceLevel.order_count l) ∧
  (n ≠ 0%nat → BookView.price <$> head asks = OrderBook.best_ask b) ∧
  (n ≠ 0%nat → BookView.price <$> head bids = OrderBook.best_bid b)).
Proof.
  unfold BookView.get_asks, BookView.get_bids, BookView.get_side_levels.
  split; [by intros ->|]. intros ->. eexists _, _.
  split; [reflexivity|]. split; [reflexivity|].
  rewrite !snapshot_loop_take, !Nat.sub_0_r. split_and!.
  - by rewrite length_fmap, length_take, length_ascending.
  - by rewrite length_fmap, length_take, length_reverse, length_ascending.
  - rewrite <- list_fmap_compose.
    eapply StronglySorted_fmap; [|apply StronglySorted_take, ascending_strict].
    by intros [] [].
  - rewrite <- list_fmap_compose.
    eapply StronglySorted_fmap;
      [|apply StronglySorted_take, StronglySorted_reverse, ascending_strict].
    by intros [] [].
  - intros e [[k l] [-> Hkl]]%list_elem_of_fmap.
    apply elem_of_take in Hkl as (i & Hi & _).
    exists l. split; [|done]. simpl.
    apply elem_of_ascending. by eapply list_elem_of_lookup_2.
  - intros e [[k l] [-> Hkl]]%list_elem_of_fmap.
    apply elem_of_take in Hkl as (i & Hi & _).
    exists l. split; [|done]. simpl.
    apply elem_of_ascending, elem_of_reverse. by eapply list_elem_of_lookup_2.
  - intros Hn. destruct n; [done|]. unfold OrderBook.best_ask.
    rewrite <- head_ascending. by destruct (ascending _) as [|[]].
  - intros Hn. destruct n; [done|]. unfold OrderBook.best_bid.
    rewrite <- head_reverse_ascending. by destruct (reverse _) as [|[]].
Qed.

Lemma snapshots_list_the_best_levels_first_witness :
  ∃ asks bids,
    BookView.get_asks (λ n, bool_decide (n ≤ 1000)%nat) 1 (OrderBook.book two_sided)
      = Some asks ∧
    BookView.get_bids (λ n, bool_decide (n ≤ 1000)%nat) 1 (OrderBook.book two_sided)
      = Some bids ∧
    BookView.price <$> head asks = Some 105 ∧
    BookView.price <$> head bids = Some 101.
Proof.
  assert (Hroom : (λ n, bool_decide (n ≤ 1000)%nat) 1%nat = true) by reflexivity.
  destruct (proj2 (snapshots_list_the_best_levels_first _ 1 (OrderBook.book two_sided))
              Hroom)
    as (asks & bids & Ea & Eb & _ & _ & _ & _ & _ & _ & Ha & Hb).
  exists asks, bids.
  split; [exact Ea|]. split; [exact Eb|].
  split; [rewrite (Ha ltac:(done))|rewrite (Hb ltac:(done))]; vm_compute; reflexivity.
Defined.

Lemma wrap64_idem z : wrap64 (wrap64 z) = wrap64 z.
Proof. unfold wrap64. apply Zmod_mod. Qed.

Lemma side_depth_loop_sum its : ∀ n count total,
  (count < n)%nat ∨ n = 0%nat → wrap64 total = total →
  BookView.side_depth_loop its n count total
  = wrap64 (total + sum_totals (if bool_decide (n = 0%nat) then its
                                else take (n - count) its)).
Proof.
  induction its as [|[k l] its IH]; intros n count total Hc Ht; simpl.
  { rewrite take_nil. destruct (bool_decide _); simpl; by rewrite Z.add_0_r. }
  case_bool_decide as Hn.
  - rewrite (bool_decide_eq_false_2 (n = 0%nat)) by lia.
    case_bool_decide as Hle.
    + replace (n - count)%nat with 1%nat by lia. simpl.
      f_equal. unfold sum_totals. simpl. lia.
    + replace (n - count)%nat with (S (n - S count)) by lia. simpl.
      rewrite IH by (first [lia|apply wrap64_idem]).
      rewrite (bool_decide_eq_false_2 (n = 0%nat)) by lia.
      rewrite wrap64_add_wrap. f_equal. unfold sum_totals. simpl. lia.
  - assert (n = 0%nat) as -> by lia. rewrite bool_decide_eq_true_2 by done.
    rewrite IH by (first [lia|apply wrap64_idem]).
    rewrite bool_decide_eq_true_2 by done.
    rewrite wrap64_add_wrap. f_equal. unfold sum_totals. simpl. lia.
Qed.

(** [bid_depth] and [ask_depth] both count from [begin()], the least
    price: with [levels = 0] they add up every level of the side, and with
    [levels = n > 0] the [n] levels of least price, so that [bid_depth(1)] is
    the quantity at the lowest bid.  The sum wraps at 2^64. *)
Theorem depth_counts_from_the_least_price n b :
  BookView.bid_depth n b
    = wrap64 (sum_totals (if bool_decide (n = 0%nat) then ascending (OrderBook.bids_ b)
                          else take n (ascending (OrderBook.bids_ b)))) ∧
  BookView.ask_depth n b
    = wrap64 (sum_totals (if bool_decide (n = 0%nat) then ascending (OrderBook.asks_ b)
                          else take n (ascending (OrderBook.asks_ b)))) ∧
  (∀ k l, min_key (OrderBook.bids_ b) = Some k → OrderBook.bids_ b !! k = Some l →
          BookView.bid_depth 1 b = wrap64 (PriceLevel.total_quantity l)).
Proof.
  assert (Hd : ∀ m, BookView.side_depth m n
            = wrap64 (sum_totals (if bool_decide (n = 0%nat) then ascending m
                                  else take n (ascending m)))).
  { intros m. unfold BookView.side_depth.
    rewrite side_depth_loop_sum by (first [lia|done]).
    by rewrite Nat.sub_0_r. }
  split_and!; [apply Hd..|].
  intros k l Hk Hl. unfold BookView.bid_depth, BookView.side_depth.
  pose proof (head_ascending (OrderBook.bids_ b)) as Hh. rewrite Hk in Hh.
  destruct (ascending (OrderBook.bids_ b)) as [|[k' l'] its] eqn:E; [done|].
  simpl in Hh. injection Hh as ->.
  assert (l' = l) as ->.
  { assert ((k, l') ∈ ascending (OrderBook.bids_ b)) as Hin
      by (rewrite E; apply list_elem_of_here).
    apply elem_of_ascending in Hin. congruence. }
  simpl. f_equal.
Qed.

Lemma depth_counts_from_the_least_price_witness :
  ∃ w l,
    after Scenario.ticks [Add (Scenario.limit 1 Buy 99 10); Add (Scenario.limit 2 Buy 101 7)]
      Scenario.start = Some w ∧
    OrderBook.best_bid (OrderBook.book w) = Some 101 ∧
    OrderBook.bids_ (OrderBook.book w) !! 99 = Some l ∧
    BookView.bid_depth 1 (OrderBook.book w) = wrap64 (PriceLevel.total_quantity l).
Proof.
  eexists _, _.
  split; [vm_compute; reflexivity|].
  split; [vm_compute; reflexivity|].
  split; [vm_compute; reflexivity|].
  refine (proj2 (proj2 (depth_counts_from_the_least_price 1 _)) 99 _ _ _);
    vm_compute; reflexivity.
Defined.

Lemma quot_between a b : a ≤ b → a ≤ Z.quot (a + b) 2 ≤ b.
Proof.
  intros H. pose proof (Z.quot_rem' (a + b) 2) as E.
  pose proof (Z.rem_bound_abs (a + b) 2 ltac:(lia)) as Hr. lia.
Qed.

Lemma wrap_int64_small z : - 2 ^ 63 ≤ z < 2 ^ 63 → BookView.wrap_int64 z = z.
Proof. intros H. unfold BookView.wrap_int64. rewrite Z.mod_small; lia. Qed.

(** After every stream of calls on a new book, if both sides have a level
    then the best bid is below the best ask; [spread()] is their
    difference, and positive, where the difference fits [int64_t]; and
    [midprice()] lies between the two where their sum fits [int64_t]. *)
Theorem spread_is_positive clk symbol rs w bb ba :
  after clk rs (OrderBook.start symbol) = Some w →
  OrderBook.best_bid (OrderBook.book w) = Some bb →
  OrderBook.best_ask (OrderBook.book w) = Some ba →
  bb < ba ∧
  (ba - bb < 2 ^ 63 →
   BookView.spread (OrderBook.book w) = Some (ba - bb)) ∧
  (- 2 ^ 63 ≤ bb + ba < 2 ^ 63 →
   ∃ m, BookView.midprice (OrderBook.book w) = Some m ∧ bb ≤ m ≤ ba).
Proof.
  unfold after. intros E Hb Ha.
  pose proof (serve_all_inv clk rs (OrderBook.start symbol) (book_inv_start symbol)) as H.
  unfold sat in H. destruct (serve_all clk rs (OrderBook.start symbol)) as [[a w']|]; [|done].
  injection E as ->. destruct H as (_ & _ & Hun).
  assert (bb < ba).
  { unfold OrderBook.best_bid in Hb. unfold OrderBook.best_ask in Ha.
    apply max_key_Some in Hb as [Hb _]. apply min_key_Some in Ha as [Ha _].
    by apply Hun. }
  unfold BookView.spread, BookView.midprice. rewrite Hb, Ha.
  split_and!; [done| |].
  - intros Hd. by rewrite wrap_int64_small by lia.
  - intros Hs. rewrite wrap_int64_small by lia.
    eexists. split; [done|]. apply quot_between. lia.
Qed.

Lemma spread_is_positive_witness :
  ∃ w m,
    after Scenario.ticks [Add (Scenario.limit 1 Buy 99 10); Add (Scenario.limit 2 Sell 102 7)]
      Scenario.start = Some w ∧
    BookView.spread (OrderBook.book w) = Some (102 - 99) ∧
    BookView.midprice (OrderBook.book w) = Some m ∧ 99 ≤ m ≤ 102.
Proof.
  eexists.
  destruct (spread_is_positive Scenario.ticks Scenario.sym
              [Add (Scenario.limit 1 Buy 99 10); Add (Scenario.limit 2 Sell 102 7)]
              _ 99 102 ltac:(vm_compute; reflexivity) ltac:(vm_compute; reflexivity)
              ltac:(vm_compute; reflexivity))
    as (_ & Hs & Hm).
  destruct (Hm ltac:(lia)) as (m & Em & Hbm).
  exists m. split; [vm_compute; reflexivity|].
  split; [apply Hs; lia|]. split; [exact Em|exact Hbm].
Defined.

(** ** MatchingEngine.h *)

Section Engine.

Import MatchingEngine.
Variable clk : nat → Timestamp.

(** [add_symbol] registers a new book under the symbol, or finds the one
    that is there and leaves it alone; it touches no other book and no
    counter, and a second call changes nothing. *)
Theorem add_symbol_registers symbol w :
  ∃ w' bk,
    add_symbol symbol w = Done (tt, w') ∧
    get_book symbol w' = Done (Some bk, w') ∧
    bk = default (OrderBook.init symbol) (books_ (engine w) !! symbol) ∧
    (is_Some (books_ (engine w) !! symbol) → w' = w) ∧
    (∀ s, s ≠ symbol → books_ (engine w') !! s = books_ (engine w) !! s) ∧
    stats_ (engine w') = stats_ (engine w) ∧
    events w' = events w ∧
    add_symbol symbol w' = Done (tt, w').
Proof.
  unfold add_symbol, get_book, find_book, modify, gets, on_engine.
  destruct (books_ (engine w) !! symbol) as [bk|] eqn:E.
  - exists w, bk. destruct w as [e evs n]; simpl in *.
    rewrite E. split_and!; try done.
  - eexists _, (OrderBook.init symbol). split; [reflexivity|]. simpl.
    rewrite !lookup_insert_eq. simpl. split_and!; try done.
    intros s Hs. by rewrite lookup_insert_ne.
Qed.

Lemma count_trades_spec ts : ∀ s,
  let s' := foldl (λ s t, count_trade t s) s ts in
  wrap64 (total_trades s') = wrap64 (total_trades s + Z.of_nat (length ts)) ∧
  wrap64 (total_volume s') = wrap64 (total_volume s + volume ts) ∧
  total_orders s' = total_orders s ∧ total_cancels s' = total_cancels s ∧
  total_amends s' = total_amends s ∧ total_rejects s' = total_rejects s.
Proof.
  induction ts as [|t ts IH]; intros s; cbv zeta; simpl.
  - rewrite !Z.add_0_r. done.
  - destruct (IH (count_trade t s)) as (E1 & E2 & E3 & E4 & E5 & E6).
    cbv zeta in *. rewrite E1, E2, E3, E4, E5, E6. simpl.
    rewrite !wrap64_add_wrap. split_and!; try done; f_equal; lia.
Qed.

Lemma deliver_spec evs : ∀ w,
  let w' := foldl (λ w ev, on_event ev w) w evs in
  books_ (engine w') = books_ (engine w) ∧
  clock_reads w' = clock_reads w ∧
  stats_ (engine w') = foldl (λ s t, count_trade t s) (stats_ (engine w)) (trades evs) ∧
  trades (events w') = trades (events w) ++ trades evs.
Proof.
  induction evs as [|ev evs IH]; intros w; cbv zeta; simpl.
  - by rewrite app_nil_r.
  - destruct (IH (on_event ev w)) as (E1 & E2 & E3 & E4). cbv zeta in *.
    rewrite E1, E2, E3, E4.
    destruct ev as [t|o| |p q]; simpl; rewrite ?trades_snoc, <- ?app_assoc, ?app_nil_r;
      done.
Qed.

(** [submit_order] for a registered symbol counts the order, hands the
    request to the book and puts the book back; while the trade callback
    of the book is the one [add_symbol] installed, the engine counts
    through [on_trade] every trade the book reports and adds up its
    quantity; no other counter moves. *)
Theorem submit_order_counts req w bk :
  books_ (engine w) !! c_str (NewOrderRequest.symbol req) = Some bk →
  trade_callback_ (engine w) !! c_str (NewOrderRequest.symbol req)
    = Some CallsOnTrade →
  match OrderBook.add_order clk req (OrderBook.mkWorld bk [] (clock_reads w)) with
  | Done (p, bw) =>
      ∃ w', submit_order clk req w = Done (Some p, w') ∧
        books_ (engine w')
          = <[c_str (NewOrderRequest.symbol req) := OrderBook.book bw]> (books_ (engine w)) ∧
        total_orders (stats_ (engine w'))
          = wrap64 (total_orders (stats_ (engine w)) + 1) ∧
        wrap64 (total_trades (stats_ (engine w')))
          = wrap64 (total_trades (stats_ (engine w))
                    + Z.of_nat (length (trades (OrderBook.events bw)))) ∧
        wrap64 (total_volume (stats_ (engine w')))
          = wrap64 (total_volume (stats_ (engine w))
                    + volume (trades (OrderBook.events bw))) ∧
        total_rejects (stats_ (engine w')) = total_rejects (stats_ (engine w)) ∧
        total_cancels (stats_ (engine w')) = total_cancels (stats_ (engine w)) ∧
        trades (events w') = trades (events w) ++ trades (OrderBook.events bw)
  | Fault f => submit_order clk req w = Fault f
  end.
Proof.
  intros Hb Hcb. unfold submit_order, bind, find_book, gets, modify, in_book. cbv zeta.
  rewrite Hb. simpl.
  destruct (OrderBook.add_order clk req _) as [[p bw]|f]; [|done].
  rewrite Hcb. simpl.
  eexists. split; [reflexivity|].
  match goal with |- context [foldl _ ?w0 _] =>
    destruct (deliver_spec (OrderBook.events bw) w0) as (E1 & E2 & E3 & E4) end.
  cbv zeta in *. simpl in *. rewrite E1, E3, E4.
  match goal with |- context [foldl _ ?s0 (trades _)] =>
    destruct (count_trades_spec (trades (OrderBook.events bw)) s0)
      as (F1 & F2 & F3 & F4 & F5 & F6) end.
  cbv zeta in *. simpl in *. rewrite F1, F2, F3, F4, F6. done.
Qed.

(** [cancel_order] and [amend_order] for a registered symbol return what
    the book returns, and count a cancel or an amend exactly when that is
    true. *)
Theorem engine_counts_successes creq areq w bk :
  books_ (engine w) !! c_str (CancelRequest.symbol creq) = Some bk →
  books_ (engine w) !! c_str (AmendRequest.symbol areq) = Some bk →
  (∀ ok w', cancel_order clk creq w = Done (ok, w') →
     (∃ bw, OrderBook.cancel_order clk (CancelRequest.order_id creq)
              (OrderBook.mkWorld bk [] (clock_reads w)) = Done (ok, bw)) ∧
     total_cancels (stats_ (engine w'))
       = (if ok then wrap64 (total_cancels (stats_ (engine w)) + 1)
          else total_cancels (stats_ (engine w)))) ∧
  (∀ ok w', amend_order clk areq w = Done (ok, w') →
     (∃ bw, OrderBook.amend_order clk areq
              (OrderBook.mkWorld bk [] (clock_reads w)) = Done (ok, bw)) ∧
     total_amends (stats_ (engine w'))
       = (if ok then wrap64 (total_amends (stats_ (engine w)) + 1)
          else total_amends (stats_ (engine w)))).
Proof.
  intros Hc Ha. split.
  - intros ok w'. unfold cancel_order, bind, find_book, gets, modify, in_book, when.
    cbv zeta. rewrite Hc. simpl.
    destruct (OrderBook.cancel_order clk _ _) as [[ok' bw]|f] eqn:E; [|done].
    match goal with |- context [foldl _ ?w0 ?evs] =>
      destruct (deliver_spec evs w0) as (E1 & E2 & E3 & E4) end.
    cbv zeta in *. simpl in *.
    match type of E3 with _ = foldl _ ?s0 ?ts =>
      destruct (count_trades_spec ts s0) as (F1 & F2 & F3 & F4 & F5 & F6) end.
    cbv zeta in *.
    destruct ok'; simpl; intros [= <- <-]; simpl; rewrite E3, F4;
      (split; [by eexists|done]).
  - intros ok w'. unfold amend_order, bind, find_book, gets, modify, in_book, when.
    cbv zeta. rewrite Ha. simpl.
    destruct (OrderBook.amend_order clk _ _) as [[ok' bw]|f] eqn:E; [|done].
    match goal with |- context [foldl _ ?w0 ?evs] =>
      destruct (deliver_spec evs w0) as (E1 & E2 & E3 & E4) end.
    cbv zeta in *. simpl in *.
    match type of E3 with _ = foldl _ ?s0 ?ts =>
      destruct (count_trades_spec ts s0) as (F1 & F2 & F3 & F4 & F5 & F6) end.
    cbv zeta in *.
    destruct ok'; simpl; intros [= <- <-]; simpl; rewrite E3, F5;
      (split; [by eexists|done]).
Qed.

End Engine.

Lemma submit_order_counts_witness :
  ∃ w' p,
    MatchingEngine.submit_order Scenario.ticks (Scenario.market 2 Sell 4) engine_one_bid
      = Done (Some p, w') ∧
    MatchingEngine.total_orders (MatchingEngine.stats_ (MatchingEngine.engine w'))
    = wrap64 (MatchingEngine.total_orders
                (MatchingEngine.stats_ (MatchingEngine.engine engine_one_bid)) + 1).
Proof.
  pose proof (submit_order_counts Scenario.ticks (Scenario.market 2 Sell 4) engine_one_bid
                (OrderBook.book one_bid) ltac:(vm_compute; reflexivity)
                ltac:(vm_compute; reflexivity)) as H.
  destruct (OrderBook.add_order Scenario.ticks (Scenario.market 2 Sell 4) _)
    as [[p bw]|f] eqn:E in H.
  - destruct H as (w' & Es & _ & Ho & _). exists w', p. exact (conj Es Ho).
  - vm_compute in E. discriminate E.
Defined.

Lemma engine_counts_successes_witness :
  ∃ w',
    MatchingEngine.cancel_order Scenario.ticks (CancelRequest.mk 1 Scenario.sym)
      engine_one_bid = Done (true, w') ∧
    MatchingEngine.total_cancels (MatchingEngine.stats_ (MatchingEngine.engine w'))
    = wrap64 (MatchingEngine.total_cancels
                (MatchingEngine.stats_ (MatchingEngine.engine engine_one_bid)) + 1).
Proof.
  eexists. split; [vm_compute; reflexivity|].
  refine (proj2 (proj1 (engine_counts_successes Scenario.ticks
                          (CancelRequest.mk 1 Scenario.sym) (Scenario.amend 1 0 5)
                          engine_one_bid (OrderBook.book one_bid) _ _) true _ _));
    vm_compute; reflexivity.
Defined.
